(** * Multilingual management tools: a shallow embedding and its properties

    The repository converts translation data between a spreadsheet, flat
    JSON dictionaries and nested JavaScript export modules.  This file
    embeds the four Python scripts

      - [excel_to_js/excel_to_js.py]   (module [ExcelToJs]),
      - [js_to_excel/js_to_excel.py]   (module [JsToExcel]),
      - [json_to_excel/json_to_excel.py] (module [JsonToExcel]),
      - [update_excel_to_json.py]      (module [UpdateExcelToJson]),

    and proves, or refutes on concrete inputs, the properties stated for
    them.

    Conventions.  A Python [str] is a list of Unicode code points.  A
    Python [dict] is an association list in insertion order whose keys are
    pairwise distinct; assignment replaces in place or appends.  The
    regular expressions of the source are transliterated into backtracking
    matchers, one function per quantifier, so that greedy and lazy
    repetition keep their order of attempts. *)

From Stdlib Require Import Ascii String.
From Stdlib Require Import List PeanoNat NArith Bool Lia Permutation Sorted.
Import ListNotations.

Set Implicit Arguments.

(* ================================================================== *)
(** * Python strings                                                   *)
(* ================================================================== *)

Module Py.

(** A character is a Unicode code point, a string a list of them. *)
Definition char := N.
Definition str := list char.

(** String literals of the source: every literal in the four scripts that
    we spell this way is ASCII, so one byte is one code point. *)
Definition lit (s : string) : str :=
  List.map N_of_ascii (list_ascii_of_string s).

Definition str_eqb (a b : str) : bool :=
  if list_eq_dec N.eq_dec a b then true else false.

(** The values held by a nested document: a string, or a dict from
    strings to values. *)
#[warnings="-register-all"]
Inductive value : Type :=
| VStr (s : str)
| VDict (d : list (str * value)).

(** The character classes of CPython are table look-ups in the Unicode
    database.  Below 128 the tables are spelled out; above, the model takes
    them as given, so that every theorem holds whatever the database
    says there.  Two more library services are taken as given: the text
    an f-string produces for a dict, and the regular-expression engine on
    a pattern assembled at run time from text that contains
    metacharacters ([None] stands for [re.error]). *)
Class Python : Type := {
  uni_alpha   : char -> bool;   (* str.isalpha   on a non-ASCII code point *)
  uni_decimal : char -> bool;   (* str.isdecimal *)
  uni_digit   : char -> bool;   (* str.isdigit   *)
  uni_numeric : char -> bool;   (* str.isnumeric *)
  uni_space   : char -> bool;   (* str.isspace   *)
  uni_lower   : char -> str;    (* str.lower of one character *)
  repr_dict   : list (str * value) -> str;
  re_compiled_search : str -> str -> option bool
}.

Definition is_ascii (c : char) : bool := (c <? 128)%N.

Definition ascii_upper (c : char) : bool := ((65 <=? c) && (c <=? 90))%N.
Definition ascii_alpha (c : char) : bool :=
  (ascii_upper c || ((97 <=? c) && (c <=? 122)))%N.
Definition ascii_digit (c : char) : bool := ((48 <=? c) && (c <=? 57))%N.
(** [\t \n \v \f \r], the four separators 0x1c..0x1f and the space. *)
Definition ascii_space (c : char) : bool :=
  (((9 <=? c) && (c <=? 13)) || ((28 <=? c) && (c <=? 32)))%N.

Section Classes.
Context {P : Python}.

Definition isalpha (c : char) : bool :=
  if is_ascii c then ascii_alpha c else uni_alpha c.
Definition isdecimal (c : char) : bool :=
  if is_ascii c then ascii_digit c else uni_decimal c.
Definition isdigit (c : char) : bool :=
  if is_ascii c then ascii_digit c else uni_digit c.
Definition isnumeric (c : char) : bool :=
  if is_ascii c then ascii_digit c else uni_numeric c.
Definition isspace (c : char) : bool :=
  if is_ascii c then ascii_space c else uni_space c.

(** [Py_UNICODE_ISALNUM]. *)
Definition isalnum (c : char) : bool :=
  isalpha c || isdecimal c || isdigit c || isnumeric c.

(** [\w] of a [str] pattern: alphanumeric or underscore. *)
Definition is_word (c : char) : bool := isalnum c || (c =? 95)%N.

(** [str.lower], character by character (one character may become
    several; the rule for a final sigma, which looks at the neighbours,
    is left out). *)
Definition lower_char (c : char) : str :=
  if is_ascii c then (if ascii_upper c then [(c + 32)%N] else [c])
  else uni_lower c.
Definition lower (s : str) : str := flat_map lower_char s.

(** [str.lstrip], [str.rstrip] and [str.strip] without argument. *)
Fixpoint lstrip (s : str) : str :=
  match s with
  | c :: t => if isspace c then lstrip t else s
  | [] => []
  end.
Definition rstrip (s : str) : str := rev (lstrip (rev s)).
Definition strip (s : str) : str := rstrip (lstrip s).
End Classes.

(** [s.startswith(p)]. *)
Fixpoint startswith (p s : str) : bool :=
  match p, s with
  | [], _ => true
  | a :: p', b :: s' => (a =? b)%N && startswith p' s'
  | _ :: _, [] => false
  end.

(** [s.endswith(p)]. *)
Definition endswith (p s : str) : bool := startswith (rev p) (rev s).

(** [p in s] for strings. *)
Fixpoint contains (p s : str) : bool :=
  startswith p s || match s with [] => false | _ :: t => contains p t end.

(** [s.replace(old, new)] for a non-empty [old]: occurrences are taken
    left to right and do not overlap.  [skip] counts the characters of an
    occurrence still to be dropped. *)
Fixpoint replace_from (old new : str) (skip : nat) (s : str) : str :=
  match s with
  | [] => []
  | c :: t =>
      match skip with
      | S k => replace_from old new k t
      | O => if startswith old s
             then new ++ replace_from old new (Nat.pred (length old)) t
             else c :: replace_from old new 0 t
      end
  end.
Definition replace (old new s : str) : str := replace_from old new 0 s.

(** [s.split(sep)] for a one-character separator: always at least one
    part. *)
Fixpoint split_on (sep : char) (s : str) : list str :=
  match s with
  | [] => [[]]
  | c :: t =>
      if (c =? sep)%N then [] :: split_on sep t
      else match split_on sep t with
           | p :: ps => (c :: p) :: ps
           | [] => [[c]]
           end
  end.

(** [s[:-1]]. *)
Definition drop_last (s : str) : str := removelast s.

End Py.

Import Py.

(** The Unicode database restricted to the Latin-1 block, used to run the
    model on concrete inputs: NEL and NBSP are the spaces, the letters are
    those of the block, superscripts one to three are digits, the three
    vulgar fractions are numeric; beyond U+00FF nothing is classified.
    The inputs it is run on hold no mapping in a sentinel slot and no
    metacharacter in a key, so the last two fields are never consulted. *)
Definition latin1_alpha (c : char) : bool :=
  ((c =? 170) || (c =? 181) || (c =? 186)
   || ((192 <=? c) && (c <=? 214)) || ((216 <=? c) && (c <=? 246))
   || ((248 <=? c) && (c <=? 255)))%N.
Definition latin1_digit (c : char) : bool :=
  ((c =? 178) || (c =? 179) || (c =? 185))%N.
Definition latin1_numeric (c : char) : bool :=
  (latin1_digit c || ((188 <=? c) && (c <=? 190)))%N.
Definition latin1_space (c : char) : bool := ((c =? 133) || (c =? 160))%N.
Definition latin1_lower (c : char) : str :=
  if (((192 <=? c) && (c <=? 214)) || ((216 <=? c) && (c <=? 222)))%N
  then [(c + 32)%N] else [c].

Definition latin1 : Python :=
  {| uni_alpha := latin1_alpha;
     uni_decimal := fun _ => false;
     uni_digit := latin1_digit;
     uni_numeric := latin1_numeric;
     uni_space := latin1_space;
     uni_lower := latin1_lower;
     repr_dict := fun _ => lit "{...}";
     re_compiled_search := fun _ _ => None |}.

(* ================================================================== *)
(** * Python dictionaries                                              *)
(* ================================================================== *)

Module Dict.
Section WithValue.
Variable V : Type.

Definition t := list (str * V).

Definition keys (d : t) : list str := List.map fst d.

(** [d.get(k)]. *)
Fixpoint get (k : str) (d : t) : option V :=
  match d with
  | [] => None
  | (k', v) :: r => if str_eqb k k' then Some v else get k r
  end.

(** [k in d]. *)
Definition mem (k : str) (d : t) : bool :=
  match get k d with Some _ => true | None => false end.

(** [d[k] = v]: an existing key keeps its place, a new one goes last. *)
Fixpoint set (k : str) (v : V) (d : t) : t :=
  match d with
  | [] => [(k, v)]
  | (k', v') :: r =>
      if str_eqb k k' then (k, v) :: r else (k', v') :: set k v r
  end.

(** The dictionary left by [d.pop(k)] or [del d[k]]. *)
Fixpoint remove (k : str) (d : t) : t :=
  match d with
  | [] => []
  | (k', v') :: r =>
      if str_eqb k k' then r else (k', v') :: remove k r
  end.

(** Keys pairwise distinct: what every Python dict satisfies. *)
Definition wf (d : t) : Prop := NoDup (keys d).
End WithValue.
End Dict.

(** Outcome of a call that may raise. *)
Inductive outcome (E A : Type) : Type :=
| Ok (a : A)
| Raise (e : E).
Arguments Ok {E A} a.
Arguments Raise {E A} e.

(* ================================================================== *)
(** * Regular expressions as backtracking matchers                     *)
(* ================================================================== *)

(** A matcher is run at the current position; it hands what it consumed
    to its continuation and fails with [None].  Each quantifier tries its
    alternatives in the order of the [re] module: a greedy one the longer
    match first, a lazy one the shorter first. *)
Module Re.
Section Matchers.
Variable R : Type.

Definition M := str -> option R.

Definition orelse (a b : option R) : option R :=
  match a with Some r => Some r | None => b end.

(** A literal. *)
Definition m_lit (p : str) (k : M) : M :=
  fun s => if startswith p s then k (skipn (List.length p) s) else None.

(** One character of a class. *)
Definition m_set (cls : char -> bool) (k : M) : M :=
  fun s => match s with
           | c :: t => if cls c then k t else None
           | [] => None
           end.

(** [c*], greedy; the continuation receives the run. *)
Fixpoint m_star (cls : char -> bool) (k : str -> M) (s : str) : option R :=
  match s with
  | c :: t =>
      if cls c
      then orelse (m_star cls (fun w => k (c :: w)) t) (k [] s)
      else k [] s
  | [] => k [] []
  end.

(** [c+], greedy. *)
Definition m_plus (cls : char -> bool) (k : str -> M) : M :=
  fun s => match s with
           | c :: t => if cls c then m_star cls (fun w => k (c :: w)) t
                       else None
           | [] => None
           end.

(** [c*?], lazy. *)
Fixpoint m_star_lazy (cls : char -> bool) (k : str -> M) (s : str)
  : option R :=
  orelse (k [] s)
         match s with
         | c :: t => if cls c then m_star_lazy cls (fun w => k (c :: w)) t
                     else None
         | [] => None
         end.

(** [c+?], lazy. *)
Definition m_plus_lazy (cls : char -> bool) (k : str -> M) : M :=
  fun s => match s with
           | c :: t => if cls c
                       then m_star_lazy cls (fun w => k (c :: w)) t
                       else None
           | [] => None
           end.

(** [x?] for a single character, greedy. *)
Definition m_opt (x : char) (k : M) : M :=
  fun s => match s with
           | c :: t => if (c =? x)%N then orelse (k t) (k s) else k s
           | [] => k []
           end.

(** [re.search]: the leftmost position where the matcher succeeds. *)
Fixpoint search (m : M) (s : str) : option R :=
  orelse (m s) match s with
               | _ :: t => search m t
               | [] => None
               end.
End Matchers.

(** [re.sub(pattern, repl, s)] for a pattern that never matches the empty
    string; the matcher returns the text after the match, and [skip]
    counts the characters of a match still to be dropped. *)
Fixpoint sub_from (m : M str) (repl : str) (skip : nat) (s : str) : str :=
  match s with
  | [] => []
  | c :: t =>
      match skip with
      | S k => sub_from m repl k t
      | O => match m s with
             | Some rest =>
                 repl ++ sub_from m repl
                           (List.length t - List.length rest) t
             | None => c :: sub_from m repl 0 t
             end
      end
  end.
Definition sub (m : M str) (repl s : str) : str := sub_from m repl 0 s.

(** [re.finditer]: successive searches, each from the end of the previous
    match.  A match is never empty, so [fuel] above the length of the text
    is never exhausted. *)
Fixpoint finditer (A : Type) (m : M (A * str)) (fuel : nat) (s : str)
  : list A :=
  match fuel with
  | O => []
  | S fuel' =>
      match search m s with
      | Some (a, rest) => a :: finditer m fuel' rest
      | None => []
      end
  end.
End Re.

(* ================================================================== *)
(** * excel_to_js/excel_to_js.py                                       *)
(* ================================================================== *)

Module ExcelToJs.

(** A node of the nested document under construction. *)
Definition node := list (str * value).

(** A spreadsheet cell that is not NaN: a string, or a value of another
    type, carried with the text [str()] gives for it. *)
Inductive cell : Type :=
| CStr (s : str)
| COther (shown : str).

(** A row of the data frame: the two reserved columns, then the cells of
    the locale columns by column name; [None] is NaN. *)
Record row : Type := {
  row_class : str;
  row_key : str;
  row_cells : list (str * option cell)
}.

(** The data frame: the columns other than [class] and [key], and the
    rows in order. *)
Record frame : Type := {
  locale_columns : list str;
  rows : list row
}.

(** [row.get(locale)] followed by the [pd.isna] test. *)
Definition row_get (r : row) (locale : str) : option cell :=
  match Dict.get locale (row_cells r) with
  | Some (Some c) => Some c
  | _ => None
  end.

Definition sentinel : str := lit "_value".

Section WithPython.
Context {P : Python}.

(** [_escape_string]. *)
Definition _escape_string (s : cell) : str :=
  match s with
  | COther shown => shown
  | CStr s =>
      let s := replace (lit "'") [92; 39]%N s in
      let s := replace [10%N] [92; 110]%N s in
      replace (lit "<br/>") [92; 110]%N s
  end.

(** [_normalize_locale]. *)
Definition _normalize_locale (locale : str) : str :=
  lower (replace (lit "_") (lit "-") locale).

(** [_validate_key]; the substitution [re.sub(r'[^\w\.]', '_', key)]
    acts on one character at a time. *)
Definition _validate_key (key : str) : str :=
  match key with
  | [] => lit "default_key"
  | _ :: _ =>
      match strip key with
      | [] => lit "default_key"
      | _ :: _ =>
          let key := List.map
                       (fun c => if is_word c || (c =? 46)%N then c
                                 else 95%N) key in
          match key with
          | c :: _ => if isdigit c then lit "k_" ++ key else key
          | [] => key
          end
      end
  end.

(** The walk of [generate_js_files] along the parts of a dotted key:
    every part but the last selects a child mapping, created when
    absent, and a string met on the way is moved under the sentinel of a
    new mapping; the last part receives the value. *)
Fixpoint set_path (parts : list str) (v : str) (current_dict : node)
  : node :=
  match parts with
  | [] => current_dict
  | part :: rest =>
      match rest with
      | [] => Dict.set part (VStr v) current_dict
      | _ :: _ =>
          let child :=
            match Dict.get part current_dict with
            | None => []
            | Some (VDict d) => d
            | Some original_value => [(sentinel, original_value)]
            end in
          Dict.set part (VDict (set_path rest v child)) current_dict
      end
  end.

(** The body of the loop over the rows, for one locale. *)
Definition nest_row (locale : str) (locale_dict : list (str * node))
           (r : row) : list (str * node) :=
  match row_get r locale with
  | None => locale_dict
  | Some value =>
      let class_name := _validate_key (row_class r) in
      let key := _validate_key (row_key r) in
      let class_dict :=
        match Dict.get class_name locale_dict with
        | Some d => d
        | None => []
        end in
      let class_dict :=
        if contains (lit ".") key
        then set_path (List.map _validate_key (split_on 46%N key))
                      (_escape_string value) class_dict
        else match Dict.get key class_dict with
             | Some (VDict d) =>
                 Dict.set key
                   (VDict (Dict.set sentinel
                             (VStr (_escape_string value)) d))
                   class_dict
             | _ => Dict.set key (VStr (_escape_string value)) class_dict
             end in
      Dict.set class_name class_dict locale_dict
  end.

(** [locale_dict] once every row has been visited. *)
Definition nest (df : frame) (locale : str) : list (str * node) :=
  fold_left (nest_row locale) (rows df) [].

(** ["  " * indent]. *)
Definition indent_str (indent : nat) : str := repeat 32%N (2 * indent).

(** What an f-string writes for a value. *)
Definition format_value (v : value) : str :=
  match v with
  | VStr s => s
  | VDict d => repr_dict d
  end.

(** One turn of the loop of [generate_nested_content].  The recursive
    call on the mapping left by [value.pop('_value')] is the inner
    traversal started with [skip] set, which drops the sentinel entry on
    its way. *)
Fixpoint generate_entry (key : str) (v : value) (indent : nat) : str :=
  match v with
  | VDict d =>
      let children :=
        (fix children (skip : bool) (d : list (str * value)) : str :=
           match d with
           | [] => []
           | (k, v') :: r =>
               if skip && str_eqb sentinel k then children false r
               else generate_entry k v' (S indent) ++ children skip r
           end) in
      match Dict.get sentinel d with
      | Some special_value =>
          indent_str indent ++ key ++ lit ": '"
            ++ format_value special_value ++ lit "'," ++ [10%N]
            ++ match Dict.remove sentinel d with
               | [] => []
               | _ :: _ =>
                   indent_str indent ++ key ++ lit "_nested: {" ++ [10%N]
                     ++ children true d
                     ++ indent_str indent ++ lit "}," ++ [10%N]
               end
      | None =>
          indent_str indent ++ key ++ lit ": {" ++ [10%N]
            ++ children false d
            ++ indent_str indent ++ lit "}," ++ [10%N]
      end
  | VStr s =>
      indent_str indent ++ key ++ lit ": '" ++ s ++ lit "'," ++ [10%N]
  end.

(** The inner traversal of [generate_entry], on its own. *)
Definition children (indent : nat) :=
  fix children (skip : bool) (d : list (str * value)) : str :=
    match d with
    | [] => []
    | (k, v') :: r =>
        if skip && str_eqb sentinel k then children false r
        else generate_entry k v' (S indent) ++ children skip r
    end.

(** [generate_nested_content]. *)
Fixpoint generate_nested_content (data : node) (indent : nat) : str :=
  match data with
  | [] => []
  | (key, v) :: rest =>
      generate_entry key v indent ++ generate_nested_content rest indent
  end.

(** [js_content]: the text written for one locale. *)
Fixpoint generate_classes (locale_dict : list (str * node)) : str :=
  match locale_dict with
  | [] => []
  | (class_name, class_dict) :: rest =>
      lit "  " ++ class_name ++ lit ": {" ++ [10%N]
        ++ generate_nested_content class_dict 2
        ++ lit "  }," ++ [10%N]
        ++ generate_classes rest
  end.
Definition js_content (locale_dict : list (str * node)) : str :=
  lit "export default {" ++ [10%N]
    ++ generate_classes locale_dict ++ lit "};".

(** [generate_js_files]: the file name and the text of every locale
    column. *)
Definition generate_js_files (df : frame) : list (str * str) :=
  List.map (fun locale =>
              (_normalize_locale locale ++ lit ".js",
               js_content (nest df locale)))
           (locale_columns df).

(** ** [scan_and_update]: the search for translations to write back *)

(** The characters a regular expression does not take literally. *)
Definition metachar (c : char) : bool :=
  existsb (N.eqb c) (lit "\.^$*+?{}[]|()").
Definition literal (s : str) : bool := forallb (fun c => negb (metachar c)) s.

Definition not_quote (c : char) : bool := negb (c =? 39)%N.

(** [:\s*'[^']*'], the tail of both patterns. *)
Definition value_tail : Re.M unit :=
  Re.m_lit (lit ":")
    (Re.m_star isspace (fun _ =>
       Re.m_lit (lit "'")
         (Re.m_star not_quote (fun _ =>
            Re.m_lit (lit "'") (fun _ => Some tt))))).

(** [{class_name}:\s*{{\s*{key}:\s*'[^']*'] for names taken
    literally. *)
Definition one_level (class_name key : str) : Re.M unit :=
  Re.m_lit class_name
    (Re.m_lit (lit ":")
       (Re.m_star isspace (fun _ =>
          Re.m_lit (lit "{")
            (Re.m_star isspace (fun _ =>
               Re.m_lit key value_tail))))).

(** [{class_name}:\s*{{\s*{parts[0]}:\s*{{\s*{parts[1]}:\s*'[^']*']. *)
Definition two_level (class_name part0 part1 : str) : Re.M unit :=
  Re.m_lit class_name
    (Re.m_lit (lit ":")
       (Re.m_star isspace (fun _ =>
          Re.m_lit (lit "{")
            (Re.m_star isspace (fun _ =>
               Re.m_lit part0
                 (Re.m_lit (lit ":")
                    (Re.m_star isspace (fun _ =>
                       Re.m_lit (lit "{")
                         (Re.m_star isspace (fun _ =>
                            Re.m_lit part1 value_tail)))))))))).

Definition found (r : option unit) : bool :=
  match r with Some _ => true | None => false end.

(** [re.search(pattern, content)] as a truth value, for the pattern
    built from the class and the key.  Names free of metacharacters give
    the matchers above; any other pattern goes to the engine as text. *)
Definition pattern_found (class_name key content : str) : option bool :=
  if contains (lit ".") key then
    match split_on 46%N key with
    | part0 :: part1 :: _ =>
        if literal class_name && literal part0 && literal part1
        then Some (found (Re.search (two_level class_name part0 part1)
                                    content))
        else re_compiled_search
               (class_name ++ lit ":\s*{\s*" ++ part0
                  ++ lit ":\s*{\s*" ++ part1 ++ lit ":\s*'[^']*'")
               content
    | _ => None
    end
  else
    if literal class_name && literal key
    then Some (found (Re.search (one_level class_name key) content))
    else re_compiled_search
           (class_name ++ lit ":\s*{\s*" ++ key ++ lit ":\s*'[^']*'")
           content.

Inductive action : Type := New | Update.

Record pending : Type := {
  p_class : str;
  p_key : str;
  p_locale : str;
  p_value : cell;
  p_action : action
}.

(** The locale files on disk, by file name under [locales_dir]. *)
Definition files := str -> option str.

(** The body of the inner loop: one cell. *)
Definition scan_cell (fs : files) (r : row)
           (updates : outcome unit (list pending)) (locale : str)
  : outcome unit (list pending) :=
  match updates with
  | Raise e => Raise e
  | Ok ups =>
      match row_get r locale with
      | None => Ok ups
      | Some value =>
          let normalized_locale := _normalize_locale locale in
          match fs (normalized_locale ++ lit ".js") with
          | None =>
              Ok (ups ++ [{| p_class := row_class r; p_key := row_key r;
                             p_locale := locale; p_value := value;
                             p_action := New |}])
          | Some content =>
              match pattern_found (row_class r) (row_key r) content with
              | None => Raise tt
              | Some true => Ok ups
              | Some false =>
                  Ok (ups ++ [{| p_class := row_class r;
                                 p_key := row_key r;
                                 p_locale := locale; p_value := value;
                                 p_action := Update |}])
              end
          end
      end
  end.

(** [updates] at the end of the two loops of [scan_and_update], or the
    [re.error] that interrupts them. *)
Definition scan_and_update (df : frame) (fs : files)
  : outcome unit (list pending) :=
  fold_left (fun updates r =>
               fold_left (scan_cell fs r) (locale_columns df) updates)
            (rows df) (Ok []).
End WithPython.
End ExcelToJs.

(* ================================================================== *)
(** * js_to_excel/js_to_excel.py                                       *)
(* ================================================================== *)

Module JsToExcel.

(** What [parse_js_file] returns: classes of string entries. *)
Definition class_dict := list (str * str).
Definition parsed := list (str * class_dict).

(** A tuple appended by [flatten_dict]. *)
Record item : Type := {
  i_class : str;
  i_key : str;
  i_value : value;
  i_order : N
}.

(** A row of the merged frame, with and without its [order] column. *)
Record ordered_row : Type := {
  o_class : str;
  o_key : str;
  o_values : list (str * option value);
  o_order : N
}.
Record table_row : Type := {
  t_class : str;
  t_key : str;
  t_values : list (str * option value)
}.

Inductive error : Type :=
| NoClosingBracket (key : str)   (* "Cannot find closing bracket for class" *)
| EmptyBase                      (* "Base file parsing resulted in empty data" *)
| EmptyFlattened                 (* "Base file flattening resulted in empty data" *)
| NoFile.                        (* [next(iter(js_files))] on an empty dict *)

(** [enumerate]. *)
Fixpoint enumerate_from (A : Type) (i : N) (l : list A) : list (N * A) :=
  match l with
  | [] => []
  | x :: t => (i, x) :: enumerate_from (N.succ i) t
  end.
Definition enumerate (A : Type) (l : list A) : list (N * A) :=
  enumerate_from 0 l.

(** [while start_pos < len(content) and content[start_pos] != '{']:
    the text after the brace, or [None] when the end is reached. *)
Fixpoint skip_to_brace (s : str) : option str :=
  match s with
  | [] => None
  | c :: t => if (c =? 123)%N then Some t else skip_to_brace t
  end.

(** The loop that counts brackets: the text before the closing bracket and
    the text after it, or [None] when the count is not back to zero at the
    end of the content. *)
Fixpoint find_closing (bracket_count : nat) (s : str) : option (str * str) :=
  match s with
  | [] => None
  | c :: t =>
      let bracket_count :=
        if (c =? 123)%N then S bracket_count
        else if (c =? 125)%N then Nat.pred bracket_count
        else bracket_count in
      match bracket_count with
      | O => Some ([], t)
      | S _ =>
          match find_closing bracket_count t with
          | Some (inner, rest) => Some (c :: inner, rest)
          | None => None
          end
      end
  end.

Section WithPython.
Context {P : Python}.

Definition not_newline (c : char) : bool := negb (c =? 10)%N.
Definition quote (c : char) : bool := ((c =? 39) || (c =? 34))%N.
Definition not_quote (c : char) : bool := negb (quote c).
Definition item_key_char (c : char) : bool :=
  negb ((c =? 44) || (c =? 123) || (c =? 125))%N.

(** [//.*?\n]; the result is the text after the match. *)
Definition comment_re : Re.M str :=
  Re.m_lit (lit "//")
    (Re.m_star_lazy not_newline (fun _ =>
       Re.m_lit [10%N] (fun rest => Some rest))).

(** [(\w+)\s*:]; the result is group 1 and the text from [match.end()]. *)
Definition top_key_re : Re.M (str * str) :=
  Re.m_plus is_word (fun key =>
    Re.m_star isspace (fun _ =>
      Re.m_lit (lit ":") (fun rest => Some (key, rest)))).

(** [item_pattern]: lazily one or more characters other than comma and
    braces (group 1), spaces, a colon, spaces, a single or double quote,
    greedily the characters that are no quote (group 2), a quote, an
    optional comma.  The result is the two groups and the text after the
    match. *)
Definition item_re : Re.M ((str * str) * str) :=
  Re.m_plus_lazy item_key_char (fun item_key =>
    Re.m_star isspace (fun _ =>
      Re.m_lit (lit ":")
        (Re.m_star isspace (fun _ =>
           Re.m_set quote
             (Re.m_star not_quote (fun item_value =>
                Re.m_set quote
                  (Re.m_opt 44%N (fun rest =>
                     Some ((item_key, item_value), rest))))))))).

(** The entries of one class. *)
Definition parse_items (class_content : str) : class_dict :=
  fold_left (fun d (it : str * str) => Dict.set (strip (fst it)) (snd it) d)
            (Re.finditer item_re (S (List.length class_content))
                         class_content)
            [].

(** The loop [while current_pos < len(content)], on the text from
    [current_pos] on.  Every turn shortens the text, so [fuel] above its
    length is never exhausted ([None]). *)
Fixpoint parse_loop (fuel : nat) (content : str) (result : parsed)
  : option (outcome str parsed) :=
  match fuel with
  | O => None
  | S fuel' =>
      match content with
      | [] => Some (Ok result)
      | _ :: _ =>
          match Re.search top_key_re content with
          | None => Some (Ok result)
          | Some (key, after) =>
              match skip_to_brace after with
              | None => Some (Ok result)
              | Some body =>
                  match find_closing 1 body with
                  | None => Some (Raise key)
                  | Some (inner, rest) =>
                      parse_loop fuel' rest
                        (Dict.set key (parse_items (strip inner)) result)
                  end
              end
          end
      end
  end.

(** The text the loop runs on. *)
Definition prepare (content : str) : str :=
  let content := replace (lit "export default") [] content in
  let content := Re.sub comment_re [10%N] content in
  let content := strip content in
  if endswith (lit ";") content then drop_last content else content.

(** [parse_js_file], on the text of the file: the dict, or the class
    named by the [ValueError]. *)
Definition parse_js_file (content : str) : outcome str parsed :=
  let content := prepare content in
  match parse_loop (S (List.length content)) content [] with
  | Some r => r
  | None => Ok []
  end.
End WithPython.

(** What iterating over a value yields: the keys of a dict, the
    characters of a string. *)
Definition iterate (v : value) : list str :=
  match v with
  | VDict d => List.map fst d
  | VStr s => List.map (fun c => [c]) s
  end.

Definition order_key : str := lit "__order__".

(** The tuples appended for the key [k] met at index [idx]. *)
Definition flatten_key (d : list (str * value)) (parent_key : str)
           (idx : N) (k : str) : list item :=
  match Dict.get k d with
  | None => []
  | Some (VDict v) =>
      flat_map
        (fun '(sub_idx, (sub_k, sub_v)) =>
           match sub_v with
           | VDict sub_d =>
               List.map
                 (fun '(subsub_idx, (subsub_k, subsub_v)) =>
                    {| i_class := k;
                       i_key := sub_k ++ lit "." ++ subsub_k;
                       i_value := subsub_v;
                       i_order := idx * 10000 + sub_idx * 100
                                  + subsub_idx |})
                 (enumerate sub_d)
           | _ =>
               [{| i_class := k; i_key := sub_k; i_value := sub_v;
                   i_order := idx * 10000 + sub_idx |}]
           end)
        (enumerate v)
  | Some v =>
      [{| i_class := parent_key; i_key := k; i_value := v;
          i_order := idx |}]
  end%N.

(** [flatten_dict]. *)
Definition flatten_dict (d : list (str * value)) (parent_key : str)
  : list item :=
  let order_keys :=
    match Dict.get order_key d with
    | Some o => iterate o
    | None => List.map fst d
    end in
  let d := Dict.remove order_key d in
  flat_map (fun '(idx, k) => flatten_key d parent_key idx k)
           (enumerate order_keys).

(** A dict of dicts: keys pairwise distinct at both levels. *)
Definition classes_wf (data : parsed) : Prop :=
  Dict.wf data /\ Forall (fun e => Dict.wf (snd e)) data.

(** The document [parse_js_file] returns, as a nested dict. *)
Definition strings (c : class_dict) : list (str * value) :=
  List.map (fun '(a, b) => (a, VStr b)) c.
Definition as_document (p : parsed) : list (str * value) :=
  List.map (fun '(k, c) => (k, VDict (strings c))) p.

(** [pd.DataFrame(first_flattened,
    columns=['class', 'key', first_lang, 'order'])]. *)
Definition base_frame (first_lang : str) (first_flattened : list item)
  : list ordered_row :=
  List.map (fun i => {| o_class := i_class i; o_key := i_key i;
                        o_values := [(first_lang, Some (i_value i))];
                        o_order := i_order i |})
           first_flattened.

(** [pd.merge(base_df, current_df[['class', 'key', lang]],
    on=['class', 'key'], how='left')]: the rows of the left frame in
    order, one copy per matching row of the right frame, one copy with
    NaN when none matches. *)
Definition same_key (r : ordered_row) (i : item) : bool :=
  str_eqb (o_class r) (i_class i) && str_eqb (o_key r) (i_key i).
Definition with_value (r : ordered_row) (lang : str) (v : option value)
  : ordered_row :=
  {| o_class := o_class r; o_key := o_key r;
     o_values := o_values r ++ [(lang, v)]; o_order := o_order r |}.
Definition merge_left (base_df : list ordered_row) (lang : str)
           (current : list item) : list ordered_row :=
  flat_map
    (fun r =>
       match filter (same_key r) current with
       | [] => [with_value r lang None]
       | matches =>
           List.map (fun i => with_value r lang (Some (i_value i))) matches
       end)
    base_df.

(** [sort_values('order')].  The sort is written by insertion, which
    keeps rows of equal order in their order; the default sort of pandas
    promises nothing for such rows, and nothing proved below depends on
    what happens to them. *)
Fixpoint insert_row (r : ordered_row) (l : list ordered_row)
  : list ordered_row :=
  match l with
  | [] => [r]
  | x :: t => if (o_order r <=? o_order x)%N then r :: l
              else x :: insert_row r t
  end.
Definition sort_values (l : list ordered_row) : list ordered_row :=
  fold_right insert_row [] l.

Definition drop_order (r : ordered_row) : table_row :=
  {| t_class := o_class r; t_key := o_key r; t_values := o_values r |}.

Section WithPython.
Context {P : Python}.

(** The loop over the other language files. *)
Fixpoint merge_others (base_df : list ordered_row)
         (others : list (str * str)) : outcome error (list ordered_row) :=
  match others with
  | [] => Ok base_df
  | (lang, content) :: rest =>
      match parse_js_file content with
      | Raise key => Raise (NoClosingBracket key)
      | Ok [] => merge_others base_df rest
      | Ok data =>
          match flatten_dict (as_document data) [] with
          | [] => merge_others base_df rest
          | flattened_data =>
              merge_others (merge_left base_df lang flattened_data) rest
          end
      end
  end.

(** [js_to_excel], on the languages in order with the text of their
    files. *)
Definition js_to_excel (js_files : list (str * str))
  : outcome error (list table_row) :=
  match js_files with
  | [] => Raise NoFile
  | (first_lang, first_file) :: others =>
      match parse_js_file first_file with
      | Raise key => Raise (NoClosingBracket key)
      | Ok [] => Raise EmptyBase
      | Ok first_data =>
          match flatten_dict (as_document first_data) [] with
          | [] => Raise EmptyFlattened
          | first_flattened =>
              let base_df := base_frame first_lang first_flattened in
              match merge_others base_df others with
              | Raise e => Raise e
              | Ok base_df => Ok (List.map drop_order (sort_values base_df))
              end
          end
      end
  end.
End WithPython.
End JsToExcel.

(* ================================================================== *)
(** * json_to_excel/json_to_excel.py                                   *)
(* ================================================================== *)

Module JsonToExcel.

(** A flat JSON document: keys to strings, in file order. *)
Definition json_doc := list (str * str).

(** A row of [translations_df]: the key and the cells of the language
    columns by column name; [None] is NaN. *)
Record trow : Type := {
  key : str;
  cells : list (str * option str)
}.

(** The frame: its language columns and its rows. *)
Record frame : Type := {
  columns : list str;
  rows : list trow
}.

Definition zh_cn : str := lit "zh_cn".
Definition languages : list str :=
  [lit "en_us"; zh_cn; lit "de_de"; lit "es_es"; lit "it_it"; lit "ru_ru"].

(** The JSON folder: the document of a language, or [None] when its file
    is missing or is not a JSON object. *)
Definition folder := str -> option json_doc.

(** The order of Python strings: code point by code point, a proper
    prefix first. *)
Fixpoint str_leb (a b : str) : bool :=
  match a, b with
  | [], _ => true
  | _ :: _, [] => false
  | x :: a', y :: b' => (x <? y)%N || ((x =? y)%N && str_leb a' b')
  end.

Fixpoint insert_key (k : str) (l : list str) : list str :=
  match l with
  | [] => [k]
  | x :: t => if str_leb k x then k :: l else x :: insert_key k t
  end.
Definition sort_keys (l : list str) : list str := fold_right insert_key [] l.

Definition has_key (k : str) (l : list str) : bool := existsb (str_eqb k) l.

(** [df.merge(lang_df, on='key', how='outer')], after the contract pandas
    documents for an outer join: the union of the keys of both frames,
    sorted lexicographically.  A key of the left frame keeps its cells and
    receives the value of the right frame or NaN; a key of the right frame
    alone has NaN in every column of the left. *)
Definition outer_row (df : frame) (lang : str) (lang_df : json_doc)
           (k : str) : list trow :=
  match filter (fun r => str_eqb k (key r)) (rows df) with
  | [] =>
      [{| key := k;
          cells := List.map (fun c => (c, None)) (columns df)
                     ++ [(lang, Dict.get k lang_df)] |}]
  | matches =>
      List.map (fun r => {| key := k;
                            cells := cells r ++ [(lang, Dict.get k lang_df)] |})
               matches
  end.
Definition merge_outer (df : frame) (lang : str) (lang_df : json_doc)
  : frame :=
  let left_keys := List.map key (rows df) in
  let union :=
    nodup (list_eq_dec N.eq_dec) (left_keys ++ List.map fst lang_df) in
  {| columns := columns df ++ [lang];
     rows := flat_map (outer_row df lang lang_df) (sort_keys union) |}.

(** The loop over the other languages: the frame, and [all_keys] in the
    order the keys were met. *)
Fixpoint merge_languages (json_folder : folder) (langs : list str)
         (translations_df : frame) (all_keys : list str)
  : frame * list str :=
  match langs with
  | [] => (translations_df, all_keys)
  | lang :: rest =>
      if str_eqb lang zh_cn
      then merge_languages json_folder rest translations_df all_keys
      else
        match json_folder lang with
        | Some translations =>
            merge_languages json_folder rest
              (merge_outer translations_df lang translations)
              (all_keys
                 ++ filter (fun k => negb (has_key k all_keys))
                      (nodup (list_eq_dec N.eq_dec)
                             (List.map fst translations)))
        | None => merge_languages json_folder rest translations_df all_keys
        end
  end.

(** [zh_cn_keys.index(x) if x in zh_cn_keys else len(zh_cn_keys)]. *)
Fixpoint sort_order (zh_cn_keys : list str) (x : str) : nat :=
  match zh_cn_keys with
  | [] => 0
  | k :: t => if str_eqb x k then 0 else S (sort_order t x)
  end.

(** [sort_values(by='sort_order')], by insertion: rows of equal rank keep
    their order, which the default sort of pandas does not promise. *)
Fixpoint insert_by (rank : trow -> nat) (r : trow) (l : list trow)
  : list trow :=
  match l with
  | [] => [r]
  | x :: t => if Nat.leb (rank r) (rank x) then r :: l
              else x :: insert_by rank r t
  end.
Definition sort_by (rank : trow -> nat) (l : list trow) : list trow :=
  fold_right (insert_by rank) [] l.

(** The rows appended for the keys of [all_keys] that the frame lacks.
    After the outer merges the frame lacks none (lemma [missing_rows_nil]),
    so neither the order in which the set [all_keys] is visited nor the
    cells given to such a row matter; the cells are left empty here. *)
Definition missing_rows (df : frame) (all_keys : list str) : list trow :=
  List.map (fun k => {| key := k;
                        cells := List.map (fun c => (c, None)) (columns df) |})
           (filter (fun k => negb (has_key k (List.map key (rows df))))
                   all_keys).

(** The script: the frame saved to [translations.xlsx], or [None] when
    the baseline could not be read and [translations_df['key']] raises
    [KeyError]. *)
Definition json_to_excel (json_folder : folder) : option frame :=
  match json_folder zh_cn with
  | None => None
  | Some translations =>
      let translations_df :=
        {| columns := [zh_cn];
           rows := List.map (fun '(k, v) => {| key := k;
                                               cells := [(zh_cn, Some v)] |})
                            translations |} in
      let zh_cn_keys := List.map key (rows translations_df) in
      let '(translations_df, all_keys) :=
        merge_languages json_folder languages translations_df zh_cn_keys in
      let translations_df :=
        {| columns := columns translations_df;
           rows := rows translations_df
                     ++ missing_rows translations_df all_keys |} in
      Some {| columns := columns translations_df;
              rows := sort_by (fun r => sort_order zh_cn_keys (key r))
                              (rows translations_df) |}
  end.
End JsonToExcel.

(* ================================================================== *)
(** * update_excel_to_json.py                                          *)
(* ================================================================== *)

Module UpdateExcelToJson.

Definition json_doc := list (str * str).

(** A row of the sheet: the [key] column, then the cells of the language
    columns by column name; [None] is NaN. *)
Record xrow : Type := {
  key : str;
  cells : list (str * option str)
}.

(** The sheet: [data_frame.columns[1:]] and the rows. *)
Record sheet : Type := {
  langs : list str;
  rows : list xrow
}.

(** The output directory before the run: the document of a language, or
    [None] when its file is missing, empty or not valid JSON. *)
Definition directory := str -> option json_doc.

(** [row[lang]] followed by the [pd.notna] test. *)
Definition present (r : xrow) (lang : str) : option str :=
  match Dict.get lang (cells r) with
  | Some (Some v) => Some v
  | _ => None
  end.

(** The first loop: what is read for every language column. *)
Definition read_into (output_directory : directory)
           (language_files : list (str * json_doc)) (columns : list str)
  : list (str * json_doc) :=
  fold_left
    (fun language_files lang =>
       Dict.set lang
                (match output_directory lang with
                 | Some d => d
                 | None => []
                 end)
                language_files)
    columns language_files.
Definition read_language_files (df : sheet) (output_directory : directory)
  : list (str * json_doc) :=
  read_into output_directory [] (langs df).

(** The body of the inner loop of the second: one cell. *)
Definition update_cell (r : xrow) (language_files : list (str * json_doc))
           (lang : str) : list (str * json_doc) :=
  match present r lang with
  | Some v =>
      match Dict.get lang language_files with
      | Some d => Dict.set lang (Dict.set (key r) v d) language_files
      | None => language_files
      end
  | None => language_files
  end.

(** [update_language_files]: the documents written, by language. *)
Definition update_language_files (df : sheet) (output_directory : directory)
  : list (str * json_doc) :=
  fold_left (fun language_files r =>
               fold_left (update_cell r) (langs df) language_files)
            (rows df)
            (read_language_files df output_directory).

(** The frame property of the update, on the documents in memory: the
    document of [lang] maps [k], to the old value [v] or to a value the
    sheet holds for [k] in the column [lang]. *)
Definition kept (df : sheet) (lang k v : str)
           (language_files : list (str * json_doc)) : Prop :=
  exists d' v',
    Dict.get lang language_files = Some d'
    /\ Dict.get k d' = Some v'
    /\ (v' = v \/ exists r, In r (rows df) /\ key r = k
                            /\ present r lang = Some v').
End UpdateExcelToJson.

(* ================================================================== *)
(** * The properties, as stated                                        *)
(* ================================================================== *)

Module Stated.
Section WithPython.
Context {P : Python}.

(** ** Key sanitizing *)

Definition default_key : str := lit "default_key".

(** The class [[A-Za-z0-9_.]]. *)
Definition ascii_key_char (c : char) : bool :=
  ascii_alpha c || ascii_digit c || (c =? 95)%N || (c =? 46)%N.

(** The class the source writes, [[\w\.]]. *)
Definition word_key_char (c : char) : bool := is_word c || (c =? 46)%N.

(** The sanitizer in words: the fallback for an empty or blank segment;
    otherwise every character outside [keep] becomes an underscore, and
    [k_] is put in front when the first character is a digit. *)
Definition sanitize (keep : char -> bool) (segment : str) : str :=
  if forallb isspace segment then default_key
  else
    let cleaned := List.map (fun c => if keep c then c else 95%N) segment in
    match segment with
    | c :: _ => if isdigit c then lit "k_" ++ cleaned else cleaned
    | [] => cleaned
    end.
End WithPython.
End Stated.

(** ** Example tables *)

Module Examples.
Import ExcelToJs.

Definition en_us : str := lit "en-us".

(** A row with one cell, in the column [en-us]. *)
Definition row1 (class_name key value : string) : row :=
  {| row_class := lit class_name; row_key := lit key;
     row_cells := [(en_us, Some (CStr (lit value)))] |}.

Definition table (rs : list row) : frame :=
  {| locale_columns := [en_us]; rows := rs |}.

(** Scenario 3: a key with a value, then a longer key through it. *)
Definition value_then_child : frame :=
  table [row1 "g" "a" "X"; row1 "g" "a.b" "Y"].

(** The same conflict met in the other order. *)
Definition child_then_value : frame :=
  table [row1 "g" "a.b" "Y"; row1 "g" "a" "X"].

(** A dotted key assigned a value while it holds a mapping. *)
Definition grandchild_then_dotted_value : frame :=
  table [row1 "g" "a.b.c" "X"; row1 "g" "a.b" "Y"].

(** A class whose first key holds three sub-keys and whose second key
    holds a string. *)
Definition mixed_depth : list (str * value) :=
  [(lit "g",
    VDict [(lit "a", VDict [(lit "x", VStr (lit "1"));
                             (lit "y", VStr (lit "2"));
                             (lit "z", VStr (lit "3"))]);
           (lit "b", VStr (lit "4"))])].

(** Three letters for a number below 17576. *)
Definition key3 (i : nat) : str :=
  let n := N.of_nat i in
  [97 + n / 676; 97 + (n / 26) mod 26; 97 + n mod 26]%N.

(** Two classes of strings, as the parser returns them: the first with
    10001 keys, the second with one. *)
Definition wide_class : list (str * value) :=
  [(lit "g", VDict (List.map (fun i => (key3 i, VStr (lit "v")))
                             (seq 0 (N.to_nat 10001))));
   (lit "h", VDict [(lit "a", VStr (lit "w"))])].
End Examples.

(** ** Reconciling, as stated *)

Module Reconcile.
Import ExcelToJs.
Section WithPython.
Context {P : Python}.

Definition file_of (locale : str) : str :=
  _normalize_locale locale ++ lit ".js".

Definition update_of (r : row) (locale : str) (value : cell) (a : action)
  : pending :=
  {| p_class := row_class r; p_key := row_key r; p_locale := locale;
     p_value := value; p_action := a |}.

(** What one cell contributes: nothing when its value is absent; [new]
    when the file of the locale is absent; [update] when the file is
    there and the pattern is not found in it; nothing when it is
    found. *)
Definition cell_updates (fs : files) (r : row) (locale : str)
  : list pending :=
  match row_get r locale with
  | None => []
  | Some value =>
      match fs (file_of locale) with
      | None => [update_of r locale value New]
      | Some content =>
          match pattern_found (row_class r) (row_key r) content with
          | Some false => [update_of r locale value Update]
          | _ => []
          end
      end
  end.

(** The cells in the order of the table: row by row, column by column. *)
Definition table_updates (df : frame) (fs : files) : list pending :=
  flat_map (fun r => flat_map (cell_updates fs r) (locale_columns df))
           (rows df).

(** No search of the run raises [re.error]. *)
Definition patterns_compile (df : frame) (fs : files) : Prop :=
  forall r locale value content,
    In r (rows df) -> In locale (locale_columns df) ->
    row_get r locale = Some value ->
    fs (file_of locale) = Some content ->
    pattern_found (row_class r) (row_key r) content <> None.
End WithPython.

(** Scenario 5: two classes on disk for [en-us], no file for [zh-cn]. *)
Definition zh_cn : str := lit "zh-cn".
Definition two_cells (class_name key en zh : string) : row :=
  {| row_class := lit class_name; row_key := lit key;
     row_cells := [(Examples.en_us, Some (CStr (lit en)));
                   (zh_cn, if String.eqb zh EmptyString then None
                           else Some (CStr (lit zh)))] |}.
Definition sheet : frame :=
  {| locale_columns := [Examples.en_us; zh_cn];
     rows := [two_cells "text" "title" "Hello" "H";
              two_cells "text" "more" "More" "";
              two_cells "tip" "a.b" "Deep" ""] |}.
Definition disk : files :=
  fun name =>
    if str_eqb name (lit "en-us.js")
    then Some (lit "export default { text: { title: 'Hi', }, tip: { a: { b: 'Deep', }, }, };")
    else None.
End Reconcile.

(** ** Updating flat documents: an example *)

Module UpdateExample.
Import UpdateExcelToJson.

Definition en : str := lit "en".

Definition translations : sheet :=
  {| langs := [en];
     rows := [{| key := lit "title"; cells := [(en, Some (lit "Hello"))] |};
              {| key := lit "old"; cells := [(en, None)] |};
              {| key := lit "fresh"; cells := [(en, Some (lit "New"))] |}] |}.

Definition on_disk : directory :=
  fun lang =>
    if str_eqb lang en
    then Some [(lit "old", lit "Old"); (lit "title", lit "Hi");
               (lit "only_here", lit "Kept")]
    else None.
End UpdateExample.

(** ** Merging, as stated *)

Module Merge.
Import JsToExcel.

(** The value a flattened document holds for a class and a key. *)
Definition lookup_item (class_name k : str) (flattened : list item)
  : option value :=
  option_map i_value
    (find (fun i => str_eqb class_name (i_class i) && str_eqb k (i_key i))
          flattened).

Definition pair_of (i : item) : str * str := (i_class i, i_key i).

(** The (class, key) pairs of the class [k] of a parsed file. *)
Definition class_pairs (data : parsed) (k : str) : list (str * str) :=
  match Dict.get k data with
  | Some c => List.map (fun a => (k, a)) (Dict.keys c)
  | None => []
  end.

Section WithPython.
Context {P : Python}.

(** The flattened document of a file, when the file is used: it parses,
    and neither the parse nor the flattening is empty. *)
Definition usable (content : str) : option (list item) :=
  match parse_js_file content with
  | Ok ((_ :: _) as data) =>
      match flatten_dict (as_document data) [] with
      | [] => None
      | flattened => Some flattened
      end
  | _ => None
  end.

(** The cells the later locales contribute to the row of a class and a
    key: for every usable file, the value it holds for them, or NaN. *)
Definition joined (others : list (str * str)) (class_name k : str)
  : list (str * option value) :=
  flat_map (fun '(lang, content) =>
              match usable content with
              | Some flattened => [(lang, lookup_item class_name k flattened)]
              | None => []
              end)
           others.

(** The row the merge holds for a tuple of the base locale. *)
Definition joined_row (first_lang : str) (others : list (str * str))
           (i : item) : ordered_row :=
  {| o_class := i_class i; o_key := i_key i;
     o_values := (first_lang, Some (i_value i))
                   :: joined others (i_class i) (i_key i);
     o_order := i_order i |}.
End WithPython.

(** Scenario 4: the base locale holds [k1] and [k2]; the second locale
    also defines [k3]; the third lacks [k2]. *)
Definition three_locales : list (str * str) :=
  [(lit "en_us", lit "export default { text: { k1: 'one', k2: 'two', }, };");
   (lit "zh_cn", lit "export default { text: { k1: 'yi', k2: 'er', k3: 'san', }, };");
   (lit "de_de", lit "export default { text: { k1: 'eins', }, };")].
End Merge.

(** A row with more cells at its end. *)
Definition add_cells (r : JsToExcel.ordered_row)
           (cells : list (str * option value)) : JsToExcel.ordered_row :=
  {| JsToExcel.o_class := JsToExcel.o_class r;
     JsToExcel.o_key := JsToExcel.o_key r;
     JsToExcel.o_values := JsToExcel.o_values r ++ cells;
     JsToExcel.o_order := JsToExcel.o_order r |}.

(** Rows in the order of their [order] column. *)
Definition by_order (a b : JsToExcel.ordered_row) : Prop :=
  (JsToExcel.o_order a <= JsToExcel.o_order b)%N.

(** ** The flat JSON merge, as stated *)

Module FlatMerge.
Import JsonToExcel.

Definition keys_of (d : json_doc) : list str := List.map fst d.

(** The [key] column of a frame. *)
Definition K (df : frame) : list str := List.map key (rows df).

(** A key is contributed by a language other than the baseline. *)
Definition contributed (json_folder : folder) (k : str) : Prop :=
  exists lang doc,
    In lang languages /\ lang <> zh_cn
    /\ json_folder lang = Some doc /\ In k (keys_of doc).

(** The keys in the order they are met: the baseline's, then those of the
    other languages, file by file. *)
Definition discovery_order (json_folder : folder) : option (list str) :=
  match json_folder zh_cn with
  | None => None
  | Some translations =>
      let df := {| columns := [zh_cn];
                   rows := List.map (fun '(k, v) =>
                                       {| key := k;
                                          cells := [(zh_cn, Some v)] |})
                                    translations |} in
      Some (snd (merge_languages json_folder languages df
                                 (keys_of translations)))
  end.

Definition rank_in (zh_cn_keys : list str) (a b : trow) : Prop :=
  sort_order zh_cn_keys (key a) <= sort_order zh_cn_keys (key b).

(** The baseline holds [a]; the first other language holds [z] then
    [b]. *)
Definition late_keys : folder :=
  fun lang =>
    if str_eqb lang zh_cn then Some [(lit "a", lit "1")]
    else if str_eqb lang (lit "en_us")
         then Some [(lit "z", lit "26"); (lit "b", lit "2")]
         else None.
End FlatMerge.

(** ** Braces, as stated *)

Module Braces.

Definition count (c : char) (s : str) : nat := count_occ N.eq_dec s c.

(** Some prefix of [s] holds [n] closing braces more than opening ones:
    an opening brace at depth [n] before [s] is closed within [s]. *)
Definition closes_at (n : nat) (s : str) : Prop :=
  exists p q, s = p ++ q /\ count 125%N p = count 123%N p + n.

(** Every opening brace of the text is closed by counting. *)
Definition all_closed (s : str) : Prop :=
  forall pre body, s = pre ++ 123%N :: body -> closes_at 1 body.

(** The same, decided with the loop of the parser. *)
Fixpoint all_closed_b (s : str) : bool :=
  match s with
  | [] => true
  | c :: t =>
      (if (c =? 123)%N
       then match JsToExcel.find_closing 1 t with
            | Some _ => true
            | None => false
            end
       else true)
      && all_closed_b t
  end.

(** Braces that match as brackets do: the depth never falls below zero
    and ends at zero. *)
Fixpoint balanced_from (depth : nat) (s : str) : bool :=
  match s with
  | [] => Nat.eqb depth 0
  | c :: t =>
      if (c =? 123)%N then balanced_from (S depth) t
      else if (c =? 125)%N
           then match depth with
                | O => false
                | S d => balanced_from d t
                end
           else balanced_from depth t
  end.
Definition balanced (s : str) : bool := balanced_from 0 s.

(** A closing brace too many. *)
Definition stray_close : str := lit "a: { k: 'v' } }".
End Braces.

(** ** The round trip through the codec, as stated *)

Module RoundTrip.
Import JsToExcel.

(** A parsed document as the serializer takes it. *)
Definition to_nodes (doc : parsed) : list (str * ExcelToJs.node) :=
  List.map (fun '(k, c) => (k, strings c)) doc.

Definition export_default : str := lit "export default".
Definition slashes : str := lit "//".

(** Equality of Python dicts: the same keys with equal values, in any
    order. *)
Definition dict_eqb (V : Type) (veq : V -> V -> bool) (a b : Dict.t V)
  : bool :=
  Nat.eqb (List.length a) (List.length b)
  && forallb (fun '(k, v) => match Dict.get k b with
                             | Some v' => veq v v'
                             | None => false
                             end) a.
Definition parsed_eqb : parsed -> parsed -> bool :=
  dict_eqb (dict_eqb str_eqb).

Section WithPython.
Context {P : Python}.

Definition serialize (doc : parsed) : str :=
  ExcelToJs.js_content (to_nodes doc).

(** An identifier: not empty, made of word characters, none blank. *)
Definition ident_char (c : char) : bool := is_word c && negb (isspace c).
Definition ident (s : str) : bool :=
  match s with
  | [] => false
  | _ :: _ => forallb ident_char s
  end.

(** A value the parser reads back: no quote of either kind, no brace, no
    [//], no [export default]. *)
Definition plain_char (c : char) : bool :=
  negb (quote c) && negb (c =? 123)%N && negb (c =? 125)%N.
Definition plain (v : str) : bool :=
  forallb plain_char v
  && negb (contains slashes v) && negb (contains export_default v).

Definition entry_ok (e : str * str) : bool := ident (fst e) && plain (snd e).
Definition class_ok (e : str * class_dict) : bool :=
  ident (fst e) && forallb entry_ok (snd e).

(** The documents the claim is proved for. *)
Definition readable (doc : parsed) : Prop :=
  classes_wf doc /\ forallb class_ok doc = true.
End WithPython.

Definition no_brace (c : char) : Prop := c <> 123%N /\ c <> 125%N.

(** The text of the serializer, piece by piece. *)
Definition item_text (e : str * str) : str :=
  fst e ++ [58; 32; 39]%N ++ snd e ++ [39; 44]%N.
Definition entry_text (e : str * str) : str :=
  [32; 32; 32; 32]%N ++ item_text e ++ [10%N].
Definition entries_text (c : class_dict) : str := flat_map entry_text c.
Definition class_text (e : str * class_dict) : str :=
  [32; 32]%N ++ fst e ++ [58; 32; 123; 10]%N
    ++ entries_text (snd e) ++ [32; 32; 125; 44; 10]%N.
Definition classes_text (doc : parsed) : str := flat_map class_text doc.

(** The entries of a class as the item pattern meets them: each after a
    line break and its indentation. *)
Definition lead : str := [10; 32; 32; 32; 32]%N.
Definition tail_items (c : class_dict) : str :=
  flat_map (fun e => lead ++ item_text e) c.

(** Scenario 1 and a second class. *)
Definition two_classes : parsed :=
  [(lit "text", [(lit "title", lit "Hello"); (lit "more", lit "a, b: c")]);
   (lit "tip", [])].

(** The documents nested from one row whose value holds an apostrophe
    (escaped on the way) and from one row whose value is a URL. *)
Definition apostrophe : parsed :=
  [(lit "g", [(lit "k", lit "it" ++ [92%N] ++ lit "'s")])].
Definition url : parsed := [(lit "g", [(lit "k", lit "http://a.b")])].
End RoundTrip.

(** The characters that occur in neither pattern removed before parsing,
    among those the serializer writes between names and values. *)
Definition is_barrier (c : char) : bool :=
  existsb (N.eqb c) [10; 39; 58; 123; 125; 44; 59]%N.

(* ================================================================== *)
(** * Further definitions                                              *)
(* ================================================================== *)

(** The keys of a dict that starts with the keys [seen] and is then
    assigned the keys [l] one after the other: a key already there keeps
    its place, a new one goes last. *)
Definition first_seen_from (seen l : list str) : list str :=
  fold_left (fun acc k => if existsb (str_eqb k) acc then acc else acc ++ [k])
            l seen.
Definition first_seen (l : list str) : list str := first_seen_from [] l.

(** ** Text files *)

(** The JavaScript files are written with [open(path, 'w')] and read with
    [open(path, 'r')]: text mode, with the default [newline]. *)
Module TextFile.

(** The files are opened with [encoding='utf-8'], which encodes every
    code point but the surrogates; writing a text that holds one
    raises. *)
Definition encodable (c : char) : bool :=
  (c <? 55296)%N || ((57343 <? c)%N && (c <? 1114112)%N).
Definition utf8 (s : str) : bool := forallb encodable s.

(** Writing a text that can be encoded: every line feed of the text goes
    to the file as [os.linesep]; the other characters go as they are. *)
Fixpoint write_text (linesep s : str) : str :=
  match s with
  | [] => []
  | c :: t => (if (c =? 10)%N then linesep else [c]) ++ write_text linesep t
  end.

(** Reading, with universal newlines: a carriage return followed by a
    line feed, and a carriage return alone, are read as one line feed.
    [after_cr] tells that the character before was a carriage return. *)
Fixpoint read_from (after_cr : bool) (s : str) : str :=
  match s with
  | [] => []
  | c :: t =>
      if (c =? 13)%N then 10%N :: read_from true t
      else if (c =? 10)%N && after_cr then read_from false t
      else c :: read_from false t
  end.
Definition read_text (s : str) : str := read_from false s.

(** [os.linesep]: a line feed, or a carriage return and a line feed. *)
Definition os_linesep (linesep : str) : Prop :=
  linesep = [10%N] \/ linesep = [13; 10]%N.

(** What [f.read()] returns for a file written with the text. *)
Definition through_file (linesep s : str) : str :=
  read_text (write_text linesep s).

(** A text without carriage return, and a document whose values hold
    none. *)
Definition no_cr (s : str) : bool := negb (contains [13%N] s).
Definition doc_no_cr (doc : list (str * list (str * str))) : bool :=
  forallb (fun e : str * list (str * str) =>
             forallb (fun kv : str * str => no_cr (snd kv)) (snd e))
          doc.

(** A document whose names and values can all be encoded. *)
Definition doc_utf8 (doc : list (str * list (str * str))) : bool :=
  forallb (fun e : str * list (str * str) =>
             utf8 (fst e)
             && forallb (fun kv : str * str =>
                           utf8 (fst kv) && utf8 (snd kv))
                        (snd e))
          doc.

(** A document with a carriage return in its one value. *)
Definition carriage : list (str * list (str * str)) :=
  [(lit "g", [(lit "k", lit "a" ++ [13%N] ++ lit "b")])].
End TextFile.

(** ** The classes the loop of the parser meets *)

Module Headers.
Import JsToExcel.
Section WithPython.
Context {P : Python}.

(** The text holds a class header: a word, blanks, a colon. *)
Definition has_header (s : str) : Prop :=
  exists pre key mid rest,
    s = pre ++ key ++ mid ++ 58%N :: rest
    /\ key <> []
    /\ Forall (fun c => is_word c = true) key
    /\ Forall (fun c => isspace c = true) mid.

(** From the text [s] the loop arrives at the text [s'] after some
    turns, each over a class whose brace counting closes. *)
Inductive reaches : str -> str -> Prop :=
| reaches_start (s : str) : reaches s s
| reaches_turn (s key after body inner rest s' : str) :
    Re.search top_key_re s = Some (key, after) ->
    skip_to_brace after = Some body ->
    find_closing 1 body = Some (inner, rest) ->
    reaches rest s' ->
    reaches s s'.

(** The first header of the text is [key], and the brace that follows
    it is never closed by counting. *)
Definition unclosed_at (s key : str) : Prop :=
  exists after body,
    Re.search top_key_re s = Some (key, after)
    /\ skip_to_brace after = Some body
    /\ ~ Braces.closes_at 1 body.
End WithPython.

(** A second class left open, after a class that is closed. *)
Definition second_open : str := lit "a: { k: 'v' }, b: { x: 'y', ".
End Headers.

(** ** update_excel_to_json.py: one language at a time *)

Module UpdateRun.
Import UpdateExcelToJson.

(** What is read for a language: the document of its file, or the empty
    dict when the file is missing, empty or not valid JSON. *)
Definition old_document (output_directory : directory) (lang : str)
  : json_doc :=
  match output_directory lang with
  | Some d => d
  | None => []
  end.

(** The document of one language after the row [r]. *)
Definition row_doc (lang : str) (d : json_doc) (r : xrow) : json_doc :=
  match present r lang with
  | Some v => Dict.set (key r) v d
  | None => d
  end.

(** The value of the last row of the sheet that has the key [k] and a
    value in the column [lang]. *)
Definition sheet_value (df : sheet) (lang k : str) : option str :=
  fold_left (fun acc r =>
               if str_eqb (key r) k
               then match present r lang with
                    | Some v => Some v
                    | None => acc
                    end
               else acc)
            (rows df) None.

(** The keys of the rows that have a value in the column [lang], in the
    order of the sheet. *)
Definition valued_keys (df : sheet) (lang : str) : list str :=
  List.map key
    (filter (fun r => match present r lang with
                      | Some _ => true
                      | None => false
                      end)
            (rows df)).

(** The body of the inner loop with the counter: the assignment of
    [update_cell], and [updated_count] raised when the value differs from
    [previous_value]. *)
Definition count_cell (r : xrow) (st : list (str * json_doc) * nat)
           (lang : str) : list (str * json_doc) * nat :=
  let (language_files, updated_count) := st in
  match present r lang with
  | Some v =>
      match Dict.get lang language_files with
      | Some d =>
          let previous_value := Dict.get (key r) d in
          (Dict.set lang (Dict.set (key r) v d) language_files,
           match previous_value with
           | Some p => if str_eqb p v then updated_count
                       else S updated_count
           | None => S updated_count
           end)
      | None => st
      end
  | None => st
  end.

(** [update_language_files] with its counter: the documents written and
    the total printed at the end. *)
Definition update_and_count (df : sheet) (output_directory : directory)
  : list (str * json_doc) * nat :=
  fold_left (fun st r => fold_left (count_cell r) (langs df) st)
            (rows df)
            (read_language_files df output_directory, 0).
Definition updated_count (df : sheet) (output_directory : directory) : nat :=
  snd (update_and_count df output_directory).

(** The output directory once the documents are written: the file of
    every language column holds its document, the other files are as
    before. *)
Definition written (language_files : list (str * json_doc))
           (output_directory : directory) : directory :=
  fun lang =>
    match Dict.get lang language_files with
    | Some d => Some d
    | None => output_directory lang
    end.

(** The directory after a run. *)
Definition after_run (df : sheet) (output_directory : directory)
  : directory :=
  written (update_language_files df output_directory) output_directory.
End UpdateRun.

(** ** json_to_excel.py: the cells of the table *)

Module FlatTable.
Import JsonToExcel.

(** What the file of a language holds for a key; nothing when the file
    could not be read. *)
Definition value_in (json_folder : folder) (lang k : str) : option str :=
  match json_folder lang with
  | Some doc => Dict.get k doc
  | None => None
  end.

(** The languages other than the baseline whose file could be read, in
    the order of [languages]. *)
Definition read_languages (json_folder : folder) (langs : list str)
  : list str :=
  filter (fun lang =>
            negb (str_eqb lang zh_cn)
            && match json_folder lang with
               | Some _ => true
               | None => false
               end)
         langs.

(** The row of a key under the columns [cols]: for every column the value
    its file holds for the key, or NaN. *)
Definition row_of (json_folder : folder) (cols : list str) (k : str)
  : trow :=
  {| key := k;
     cells := List.map (fun c => (c, value_in json_folder c k)) cols |}.

(** The frame built from the baseline. *)
Definition baseline_frame (translations : json_doc) : frame :=
  {| columns := [zh_cn];
     rows := List.map (fun '(k, v) => {| key := k;
                                         cells := [(zh_cn, Some v)] |})
                      translations |}.

(** What holds of the frame all along the merges: distinct keys, every
    row made of the values of the files, and every key of a merged file
    in the frame. *)
Definition merged_ok (json_folder : folder) (df : frame) : Prop :=
  NoDup (FlatMerge.K df)
  /\ (forall r, In r (rows df) -> r = row_of json_folder (columns df) (key r))
  /\ (forall c doc, In c (columns df) -> json_folder c = Some doc ->
                    incl (FlatMerge.keys_of doc) (FlatMerge.K df)).

(** The keys of the baseline and the frame the script is about to sort:
    after the merges and the rows for missing keys. *)
Definition before_sort (json_folder : folder)
  : option (list str * frame) :=
  match json_folder zh_cn with
  | None => None
  | Some translations =>
      let translations_df := baseline_frame translations in
      let zh_cn_keys := List.map key (rows translations_df) in
      let '(translations_df, all_keys) :=
        merge_languages json_folder languages translations_df zh_cn_keys in
      Some (zh_cn_keys,
            {| columns := columns translations_df;
               rows := rows translations_df
                         ++ missing_rows translations_df all_keys |})
  end.

(** [sort_values(by='sort_order')] with the default sort of pandas, which
    is not stable: the rows in some arrangement in which the ranks do not
    decrease; rows of equal rank come in any order. *)
Definition sorted_rows (rank : trow -> nat) (l out : list trow) : Prop :=
  Permutation out l /\ StronglySorted (fun a b => rank a <= rank b) out.

(** The tables the script can save for a folder. *)
Definition saves (json_folder : folder) (df : frame) : Prop :=
  exists zh_cn_keys merged,
    before_sort json_folder = Some (zh_cn_keys, merged)
    /\ columns df = columns merged
    /\ sorted_rows (fun r => sort_order zh_cn_keys (key r))
                   (rows merged) (rows df).

(** The folder [FlatMerge.late_keys] with the keys of the first other
    language met the other way round: [b], then [z]. *)
Definition late_keys_swapped : folder :=
  fun lang =>
    if str_eqb lang zh_cn then Some [(lit "a", lit "1")]
    else if str_eqb lang (lit "en_us")
         then Some [(lit "b", lit "2"); (lit "z", lit "26")]
         else None.

(** Two tables for the folder [FlatMerge.late_keys]: the keys [b] and
    [z], which the baseline lacks, in either order. *)
Definition late_row (k : string) (zh en : option string) : trow :=
  {| key := lit k;
     cells := [(zh_cn, option_map lit zh);
               (lit "en_us", option_map lit en)] |}.
Definition late_table (later : list trow) : frame :=
  {| columns := [zh_cn; lit "en_us"];
     rows := late_row "a" (Some "1"%string) None :: later |}.
Definition lexicographic : frame :=
  late_table [late_row "b" None (Some "2"%string);
              late_row "z" None (Some "26"%string)].
Definition as_discovered : frame :=
  late_table [late_row "z" None (Some "26"%string);
              late_row "b" None (Some "2"%string)].
End FlatTable.

(** ** js_to_excel.py: the shape of what is parsed, and the order of the
    rows *)

Module Declared.
Import JsToExcel.

(** The entries of a parsed file in the order they are declared: class
    by class, key by key. *)
Definition entries (data : parsed) : list (str * str * str) :=
  flat_map (fun '(g, c) => List.map (fun '(k, v) => (g, k, v)) c) data.

(** No class holds more than 10000 keys. *)
Definition narrow (data : parsed) : bool :=
  forallb (fun e => (N.of_nat (List.length (snd e)) <=? 10000)%N) data.

(** The tuples of a class of strings met at the index [idx]. *)
Definition class_items (idx : N) (g : str) (c : class_dict) : list item :=
  List.map (fun '(sub_idx, (k, v)) =>
              {| i_class := g; i_key := k; i_value := VStr v;
                 i_order := idx * 10000 + sub_idx |}%N)
           (enumerate c).
Definition items (data : parsed) : list item :=
  flat_map (fun '(idx, (g, c)) => class_items idx g c) (enumerate data).

(** The labels [js_to_excel] gives columns of its own: a language of one
    of these names makes a frame with two columns of one label, on which
    pandas raises; the languages of a dict are pairwise distinct. *)
Definition reserved_label (lang : str) : bool :=
  str_eqb lang (lit "class") || str_eqb lang (lit "key")
  || str_eqb lang (lit "order").
Definition languages_ok (langs : list str) : Prop :=
  NoDup langs /\ Forall (fun lang => reserved_label lang = false) langs.

(** The row of the table for an entry of the first locale. *)
Section WithPython.
Context {P : Python}.

Definition entry_row (first_lang : str) (others : list (str * str))
           (e : str * str * str) : table_row :=
  let '(g, k, v) := e in
  {| t_class := g; t_key := k;
     t_values := (first_lang, Some (VStr v)) :: Merge.joined others g k |}.

(** The class named by the first file, in the order of the files, whose
    parse raises. *)
Fixpoint first_unclosed (files : list (str * str)) : option str :=
  match files with
  | [] => None
  | (_, content) :: rest =>
      match parse_js_file content with
      | Raise key => Some key
      | Ok _ => first_unclosed rest
      end
  end.

(** A text without blank at either end. *)
Definition trimmed (k : str) : Prop :=
  k = [] \/ (isspace (hd 32%N k) = false /\ isspace (last k 32%N) = false).

(** An entry as the item pattern can produce it: a key without comma or
    brace and without blank at either end, a value without quote of
    either kind. *)
Definition item_shape (it : str * str) : Prop :=
  Forall (fun c => item_key_char c = true) (fst it)
  /\ trimmed (fst it)
  /\ Forall (fun c => quote c = false) (snd it).

(** A class as the loop can produce it: a name made of word characters,
    not empty, and entries of that shape under pairwise distinct keys. *)
Definition class_shape (e : str * class_dict) : Prop :=
  fst e <> []
  /\ Forall (fun c => is_word c = true) (fst e)
  /\ Dict.wf (snd e)
  /\ Forall item_shape (snd e).
End WithPython.
End Declared.

(** ** excel_to_js.py: the operations on the table *)

Module LocaleManager.
Import ExcelToJs.

Definition class_col : str := lit "class".
Definition key_col : str := lit "key".

(** The two columns the rows are selected by.  They hold strings here; an
    assignment to one of them is outside the model, and the operations
    below return [None] for it. *)
Definition reserved (locale : str) : bool :=
  str_eqb locale class_col || str_eqb locale key_col.

(** [locale in self.df.columns]. *)
Definition in_columns (locale : str) (df : frame) : bool :=
  reserved locale || existsb (str_eqb locale) (locale_columns df).

Definition set_cell (locale : str) (v : option cell) (r : row) : row :=
  {| row_class := row_class r; row_key := row_key r;
     row_cells := Dict.set locale v (row_cells r) |}.

(** [self.df[locale] = None]: a new column, empty in every row. *)
Definition add_column (locale : str) (df : frame) : frame :=
  {| locale_columns := locale_columns df ++ [locale];
     rows := List.map (set_cell locale None) (rows df) |}.

(** [if locale not in self.df.columns: self.df[locale] = None]. *)
Definition ensure_column (locale : str) (df : frame) : frame :=
  if in_columns locale df then df else add_column locale df.

(** [(self.df['class'] == class_name) & (self.df['key'] == key)], for one
    row. *)
Definition selects (class_name key : str) (r : row) : bool :=
  str_eqb (row_class r) class_name && str_eqb (row_key r) key.

(** [self.df.loc[mask, locale] = value], the mask given row by row. *)
Fixpoint assign (mask : list bool) (locale : str) (value : cell)
         (rs : list row) : list row :=
  match mask, rs with
  | m :: mask', r :: rs' =>
      (if m then set_cell locale (Some value) r else r)
        :: assign mask' locale value rs'
  | _, _ => rs
  end.

(** [add_new_entry]: the values are assigned in the rows the mask
    selects, or a row is appended that holds them and is empty
    elsewhere. *)
Definition add_new_entry (class_name key : str) (values : list (str * cell))
           (df : frame) : option frame :=
  if existsb reserved (List.map fst values) then None
  else
    let mask := List.map (selects class_name key) (rows df) in
    if existsb (fun m => m) mask
    then
      Some (fold_left
              (fun df (e : str * cell) =>
                 let df := ensure_column (fst e) df in
                 {| locale_columns := locale_columns df;
                    rows := assign mask (fst e) (snd e) (rows df) |})
              values df)
    else
      let df := fold_left (fun df (e : str * cell) =>
                             ensure_column (fst e) df)
                          values df in
      let new_row :=
        {| row_class := class_name; row_key := key;
           row_cells := List.map (fun c => (c, Dict.get c values))
                                 (locale_columns df) |} in
      Some {| locale_columns := locale_columns df;
              rows := rows df ++ [new_row] |}.

(** [update_locale]. *)
Definition update_locale (class_name key locale : str) (value : cell)
           (df : frame) : option frame :=
  if reserved locale then None
  else
    let df := ensure_column locale df in
    let mask := List.map (selects class_name key) (rows df) in
    if existsb (fun m => m) mask
    then Some {| locale_columns := locale_columns df;
                 rows := assign mask locale value (rows df) |}
    else add_new_entry class_name key [(locale, value)] df.

(** The loop of [scan_and_update] that carries out the updates found. *)
Definition apply_updates (updates : list pending) (df : frame)
  : option frame :=
  fold_left (fun df u =>
               match df with
               | Some df => update_locale (p_class u) (p_key u) (p_locale u)
                                          (p_value u) df
               | None => None
               end)
            updates (Some df).

(** The class and the key of a row. *)
Definition entry (r : row) : str * str := (row_class r, row_key r).

(** What [update_locale] leaves of a row [r] in the row [r'] that takes
    its place: the class, the key and every cell, but the cell of
    [locale] when the row is selected; [known] tells whether the column
    was there, a column that was not being empty in every row that is not
    selected. *)
Definition same_but (class_name key locale : str) (known : bool)
           (r r' : row) : Prop :=
  entry r' = entry r
  /\ (forall l, l <> locale -> row_get r' l = row_get r l)
  /\ (selects class_name key r = false ->
      row_get r' locale = if known then row_get r locale else None).
End LocaleManager.

(** ** excel_to_js.py: what nesting stores and what is written *)

Module Nesting.
Import ExcelToJs.

(** The value reached from a node along the parts of a key. *)
Fixpoint get_path (parts : list str) (d : node) : option value :=
  match parts with
  | [] => None
  | part :: rest =>
      match rest with
      | [] => Dict.get part d
      | _ :: _ =>
          match Dict.get part d with
          | Some (VDict child) => get_path rest child
          | _ => None
          end
      end
  end.

(** The value a nested document holds for a class and an undotted key. *)
Definition lookup (locale_dict : list (str * node)) (c k : str)
  : option value :=
  match Dict.get c locale_dict with
  | Some d => Dict.get k d
  | None => None
  end.

(** Documents whose classes hold strings only. *)
Definition strings_only (locale_dict : list (str * node)) : Prop :=
  forall c d k v, Dict.get c locale_dict = Some d ->
                  Dict.get k d = Some v -> exists s, v = VStr s.

(** Every apostrophe of the text stands right after a backslash;
    [after_backslash] tells whether the text itself follows one. *)
Fixpoint quotes_guarded (after_backslash : bool) (s : str) : bool :=
  match s with
  | [] => true
  | c :: t =>
      (if (c =? 39)%N then after_backslash else true)
      && quotes_guarded (c =? 92)%N t
  end.

(** A locale name made lower case with hyphens, one ASCII character at a
    time. *)
Definition normal_char (c : char) : char :=
  if (c =? 95)%N then 45%N
  else if ascii_upper c then (c + 32)%N else c.

(** [open(output_path, 'w')] and [f.write], one file after the other:
    the files of the directory afterwards. *)
Definition write_files (out : list (str * str)) (fs : files) : files :=
  fold_left (fun (fs : files) (e : str * str) name =>
               if str_eqb name (fst e) then Some (snd e) else fs name)
            out fs.

Section WithPython.
Context {P : Python}.

(** A row holds a value in the column of the locale. *)
Definition valued (locale : str) (r : row) : bool :=
  match row_get r locale with
  | Some _ => true
  | None => false
  end.

(** The escaped value of the last row that has a value for the locale
    and whose class and key are sanitized to [c] and [k]. *)
Definition last_value (locale c k : str) (rs : list row) : option str :=
  fold_left (fun acc r =>
               match row_get r locale with
               | Some v =>
                   if str_eqb (_validate_key (row_class r)) c
                      && str_eqb (_validate_key (row_key r)) k
                   then Some (_escape_string v)
                   else acc
               | None => acc
               end)
            rs None.

(** The last locale column whose file has the name [name]. *)
Definition last_column (df : frame) (name : str) : option str :=
  fold_left (fun acc locale =>
               if str_eqb (_normalize_locale locale ++ lit ".js") name
               then Some locale else acc)
            (locale_columns df) None.
End WithPython.
End Nesting.

(** ** From the table to the files and back *)

Module TableTrip.
Import ExcelToJs JsToExcel.

(** The text written for a cell: the string, or what [str()] gives. *)
Definition cell_text (c : cell) : str :=
  match c with
  | CStr s => s
  | COther shown => shown
  end.

(** The value a parsed file holds for a class and a key. *)
Definition lookup (doc : parsed) (g k : str) : option str :=
  match Dict.get g doc with
  | Some c => Dict.get k c
  | None => None
  end.

Section WithPython.
Context {P : Python}.

(** A cell that is written as it is and read back whole: no quote of
    either kind, no brace, no [//], no [export default] and, for a
    string, no line feed and no [<br/>] either. *)
Definition clean_cell (c : cell) : bool :=
  match c with
  | CStr s =>
      RoundTrip.plain s && negb (contains [10%N] s)
      && negb (contains (lit "<br/>") s)
  | COther shown => RoundTrip.plain shown
  end.

(** A name that is written as it is: an identifier that does not start
    with a digit. *)
Definition name_ok (s : str) : bool :=
  RoundTrip.ident s
  && match s with
     | c :: _ => negb (isdigit c)
     | [] => false
     end.

Definition row_ok (r : row) : bool :=
  name_ok (row_class r) && name_ok (row_key r)
  && negb (str_eqb (row_class r) order_key)
  && forallb (fun e : str * option cell =>
                match snd e with
                | Some c => clean_cell c
                | None => true
                end)
             (row_cells r).

(** The tables of the round trip: names written as they are, no class
    named [__order__], clean cells. *)
Definition tidy (df : frame) : bool := forallb row_ok (rows df).

(** The table regrouped as nesting does, for one locale: the classes in
    the order of their first value, the keys of a class likewise, a later
    value for a class and key taking the place of the earlier one. *)
Definition group_row (locale : str) (doc : parsed) (r : row) : parsed :=
  match row_get r locale with
  | Some v =>
      Dict.set (row_class r)
               (Dict.set (row_key r) (cell_text v)
                         match Dict.get (row_class r) doc with
                         | Some d => d
                         | None => []
                         end)
               doc
  | None => doc
  end.
Definition grouped (df : frame) (locale : str) : parsed :=
  fold_left (group_row locale) (rows df) [].

(** No cell holds a carriage return. *)
Definition no_cr_cells (df : frame) : bool :=
  forallb (fun r : row =>
             forallb (fun e : str * option cell =>
                        match snd e with
                        | Some c => TextFile.no_cr (cell_text c)
                        | None => true
                        end)
                     (row_cells r))
          (rows df).

(** The class, the key and every cell of every row can be encoded. *)
Definition utf8_cells (df : frame) : bool :=
  forallb (fun r : row =>
             TextFile.utf8 (row_class r) && TextFile.utf8 (row_key r)
             && forallb (fun e : str * option cell =>
                           match snd e with
                           | Some c => TextFile.utf8 (cell_text c)
                           | None => true
                           end)
                        (row_cells r))
          (rows df).

(** A column name that makes a file name on every platform: ASCII
    letters, digits, [_] and [-], at least one. *)
Definition name_char (c : char) : bool :=
  ((48 <=? c)%N && (c <=? 57)%N) || ((65 <=? c)%N && (c <=? 90)%N)
  || ((97 <=? c)%N && (c <=? 122)%N) || (c =? 95)%N || (c =? 45)%N.
Definition file_stem (locale : str) : bool :=
  match locale with
  | [] => false
  | _ => forallb name_char locale
  end.

(** The files of the directory after [generate_js_files], on a platform
    whose line separator is [linesep]: every text under the normalized
    name of its column, one written after the other. *)
Definition saved (linesep : str) (df : frame) (fs : files) : files :=
  Nesting.write_files
    (List.map (fun e : str * str =>
                 (fst e, TextFile.write_text linesep (snd e)))
              (generate_js_files df))
    fs.

(** The languages handed to [js_to_excel]: every locale under its own
    name with what is read from its file; [None] when a file is
    missing. *)
Fixpoint read_files (fs : files) (locales : list str)
  : option (list (str * str)) :=
  match locales with
  | [] => Some []
  | locale :: rest =>
      match fs (_normalize_locale locale ++ lit ".js"),
            read_files fs rest with
      | Some stored, Some others =>
          Some ((locale, TextFile.read_text stored) :: others)
      | _, _ => None
      end
  end.

(** [generate_js_files], then [js_to_excel] on the files of the locale
    columns. *)
Definition imported (linesep : str) (df : frame) (fs : files)
  : option (outcome error (list table_row)) :=
  option_map js_to_excel
             (read_files (saved linesep df fs) (locale_columns df)).

(** The cells of the later locales for a class and a key: one per locale
    that has a value somewhere in the table. *)
Definition later_cells (df : frame) (others : list str) (g k : str)
  : list (str * option value) :=
  flat_map (fun locale =>
              match grouped df locale with
              | [] => []
              | doc => [(locale, option_map VStr (lookup doc g k))]
              end)
           others.

Definition imported_row (df : frame) (first_lang : str)
           (others : list str) (e : str * str * str) : table_row :=
  let '(g, k, v) := e in
  {| t_class := g; t_key := k;
     t_values := (first_lang, Some (VStr v)) :: later_cells df others g k |}.

(** What holds of the regrouped table all along: a dict of dicts of the
    shape the parser reads back, no class named [__order__], no class
    without entry. *)
Definition grouped_ok (doc : parsed) : Prop :=
  classes_wf doc
  /\ forallb RoundTrip.class_ok doc = true
  /\ Dict.get order_key doc = None
  /\ Forall (fun e : str * class_dict => snd e <> []) doc.
End WithPython.

(** The text of the last row that has the class [g], the key [k] and a
    value for the locale. *)
Definition last_text (df : frame) (locale g k : str) : option str :=
  fold_left (fun acc r =>
               match row_get r locale with
               | Some v =>
                   if str_eqb (row_class r) g && str_eqb (row_key r) k
                   then Some (cell_text v)
                   else acc
               | None => acc
               end)
            (rows df) None.

(** A table whose classes are interleaved: [text], [tip], [text]. *)
Definition interleaved : frame :=
  {| locale_columns := [Examples.en_us; Reconcile.zh_cn];
     rows := [Reconcile.two_cells "text" "title" "Hello" "H";
              Reconcile.two_cells "tip" "save" "Save" "";
              Reconcile.two_cells "text" "more" "More" "M"] |}.
End TableTrip.

(** ** Scanning the files that were just generated *)

Module Rescan.
Import ExcelToJs JsToExcel.

(** Some class of the document has a name that ends with [g] and the key
    [k] as its first key. *)
Definition first_key_of (g k : str) (doc : parsed) : bool :=
  existsb (fun e : str * class_dict =>
             endswith g (fst e)
             && match snd e with
                | (k', _) :: _ => str_eqb k k'
                | [] => false
                end)
          doc.

Section WithPython.
Context {P : Python}.

(** What a scan of the files generated from the table reports for one
    cell: an update, unless the key is the first key of such a class in
    the file of the locale. *)
Definition rescan_cell (df : frame) (r : row) (locale : str)
  : list pending :=
  match row_get r locale with
  | Some value =>
      if first_key_of (row_class r) (row_key r)
                      (TableTrip.grouped df locale)
      then []
      else [Reconcile.update_of r locale value Update]
  | None => []
  end.
Definition rescan (df : frame) : list pending :=
  flat_map (fun r => flat_map (rescan_cell df r) (locale_columns df))
           (rows df).

(** The files after [generate_js_files]. *)
Definition generated (df : frame) (fs : files) : files :=
  Nesting.write_files (generate_js_files df) fs.
End WithPython.
End Rescan.

(** ** The scan, as it is described *)

Module Heuristic.
Import ExcelToJs.

(** The cells of the table in the order of the scan: row by row, column
    by column. *)
Definition cells (df : frame) : list (row * str) :=
  flat_map (fun r => List.map (fun locale => (r, locale))
                              (locale_columns df))
           (rows df).

(** The names the scan takes literally: the class and, of the key, the
    one or two parts the pattern is built from. *)
Definition names_plain (r : row) : bool :=
  literal (row_class r)
  && forallb literal (firstn 2 (split_on 46%N (row_key r))).

Section WithPython.
Context {P : Python}.

Definition blank (w : str) : Prop := Forall (fun c => isspace c = true) w.

(** The text starts with a colon, blanks and a text between single
    quotes. *)
Definition value_follows (s : str) : Prop :=
  exists w v rest,
    s = 58%N :: w ++ 39%N :: v ++ 39%N :: rest
    /\ blank w /\ ~ In 39%N v.

(** Somewhere in the text: the class name, a colon, blanks, an opening
    brace, blanks, the key and a value. *)
Definition one_level_in (g k text : str) : Prop :=
  exists pre w1 w2 tail,
    text = pre ++ g ++ 58%N :: w1 ++ 123%N :: w2 ++ k ++ tail
    /\ blank w1 /\ blank w2 /\ value_follows tail.

(** The same with a mapping in between: the class name, a colon, blanks,
    a brace, blanks, the first part, a colon, blanks, a brace, blanks,
    the second part and a value. *)
Definition two_level_in (g part0 part1 text : str) : Prop :=
  exists pre w1 w2 w3 w4 tail,
    text = pre ++ g ++ 58%N :: w1 ++ 123%N :: w2 ++ part0
             ++ 58%N :: w3 ++ 123%N :: w4 ++ part1 ++ tail
    /\ blank w1 /\ blank w2 /\ blank w3 /\ blank w4
    /\ value_follows tail.

(** The textual pattern of a key: a dotted key is looked for by its
    first two parts, any other key as it is. *)
Definition key_in (g key text : str) : Prop :=
  match split_on 46%N key with
  | part0 :: part1 :: _ => two_level_in g part0 part1 text
  | _ => one_level_in g key text
  end.

(** The file of a locale: its name in lower case, every underscore
    turned into a hyphen, with the extension [.js]. *)
Definition file_name (locale : str) : str :=
  lower (List.map (fun c => if (c =? 95)%N then 45%N else c) locale)
    ++ lit ".js".

(** What the scan records for one cell. *)
Inductive reported (fs : files) (r : row) (locale : str)
  : list pending -> Prop :=
| no_value :
    row_get r locale = None -> reported fs r locale []
| file_absent (value : cell) :
    row_get r locale = Some value ->
    fs (file_name locale) = None ->
    reported fs r locale
             [{| p_class := row_class r; p_key := row_key r;
                 p_locale := locale; p_value := value; p_action := New |}]
| pattern_absent (value : cell) (content : str) :
    row_get r locale = Some value ->
    fs (file_name locale) = Some content ->
    ~ key_in (row_class r) (row_key r) content ->
    reported fs r locale
             [{| p_class := row_class r; p_key := row_key r;
                 p_locale := locale; p_value := value;
                 p_action := Update |}]
| pattern_present (value : cell) (content : str) :
    row_get r locale = Some value ->
    fs (file_name locale) = Some content ->
    key_in (row_class r) (row_key r) content ->
    reported fs r locale [].
End WithPython.

(** A key that is no regular expression: its parenthesis is never
    closed. *)
Definition priced : frame :=
  Examples.table [Examples.row1 "text" "price(usd" "9"].
End Heuristic.

(** ** Reading a file with nested mappings back *)

Module Leaves.
Import ExcelToJs JsToExcel.

(** The strings held by a value, in the order of the text, each under the
    last name of its path. *)
Fixpoint leaves (key : str) (v : value) : list (str * str) :=
  match v with
  | VStr s => [(key, s)]
  | VDict d => flat_map (fun e => leaves (fst e) (snd e)) d
  end.
Definition node_leaves (d : node) : list (str * str) :=
  flat_map (fun e => leaves (fst e) (snd e)) d.

(** A class as a dict of its leaves, a later leaf of the same name taking
    the place of the earlier one. *)
Definition hoisted_class (d : node) : class_dict :=
  fold_left (fun c (e : str * str) => Dict.set (fst e) (snd e) c)
            (node_leaves d) [].
Definition hoisted (doc : list (str * node)) : parsed :=
  fold_left (fun r (e : str * node) =>
               Dict.set (fst e) (hoisted_class (snd e)) r)
            doc [].

Section WithPython.
Context {P : Python}.

(** The nested documents read back below: every name an identifier other
    than the sentinel, every string free of quotes, braces, carriage
    returns, [//] and [export default], and all of them of characters
    that can be encoded. *)
Fixpoint value_ok (v : value) : bool :=
  match v with
  | VStr s => RoundTrip.plain s && TextFile.no_cr s && TextFile.utf8 s
  | VDict d =>
      forallb (fun e : str * value =>
                 RoundTrip.ident (fst e)
                 && negb (str_eqb sentinel (fst e))
                 && TextFile.utf8 (fst e)
                 && value_ok (snd e))
              d
  end.
Definition nested_ok (e : str * node) : bool :=
  RoundTrip.ident (fst e) && TextFile.utf8 (fst e)
  && value_ok (VDict (snd e)).
End WithPython.

(** The text of an entry without its indentation and its line break, and
    the entries of a mapping, each after a line break and its
    indentation. *)
Fixpoint entry_core (key : str) (v : value) (indent : nat) : str :=
  match v with
  | VStr s => RoundTrip.item_text (key, s)
  | VDict d =>
      key ++ [58; 32; 123]%N
        ++ flat_map (fun e : str * value =>
                       10%N :: indent_str (S indent)
                         ++ entry_core (fst e) (snd e) (S indent))
                    d
        ++ 10%N :: indent_str indent ++ [125; 44]%N
  end.
Definition tail_node (d : node) (indent : nat) : str :=
  flat_map (fun e : str * value =>
              10%N :: indent_str indent
                ++ entry_core (fst e) (snd e) indent)
           d.

(** The classes of a document as the entries of one mapping. *)
Definition classes_node (doc : list (str * node)) : node :=
  List.map (fun e : str * node => (fst e, VDict (snd e))) doc.

(** A text the loop that counts brackets runs through, whatever the
    count: its braces are balanced. *)
Definition passes (a : str) : Prop :=
  forall (n : nat) (s : str),
    find_closing (S n) (a ++ s)
    = option_map (fun ir : str * str => (a ++ fst ir, snd ir))
                 (find_closing (S n) s).

Section WithPython.
Context {P : Python}.

(** What the item pattern finds in a text, one match after the other,
    and the same with group 1 stripped as the parser does. *)
Definition all_items (s : str) : list (str * str) :=
  Re.finditer item_re (S (List.length s)) s.
Definition read_items (s : str) : list (str * str) :=
  List.map (fun it : str * str => (strip (fst it), snd it)) (all_items s).
End WithPython.

(** A table with dotted keys: two of them end with the same part. *)
Definition dotted : frame :=
  Examples.table [Examples.row1 "menu" "file.open" "Open";
                  Examples.row1 "menu" "title" "Menu";
                  Examples.row1 "menu" "edit.undo" "Undo";
                  Examples.row1 "menu" "edit.open" "Open with";
                  Examples.row1 "tip" "save" "Save"].
End Leaves.

(* ================================================================== *)
(** * Proofs                                                           *)
(* ================================================================== *)

Import ExcelToJs.

(** ** Strings *)

Lemma str_eqb_eq (a b : str) : str_eqb a b = true <-> a = b.
Proof.
  unfold str_eqb. destruct (list_eq_dec N.eq_dec a b); split; congruence.
Qed.

Lemma str_eqb_refl (a : str) : str_eqb a a = true.
Proof. apply str_eqb_eq. reflexivity. Qed.

Lemma str_eqb_neq (a b : str) : str_eqb a b = false <-> a <> b.
Proof.
  unfold str_eqb. destruct (list_eq_dec N.eq_dec a b); split; congruence.
Qed.

Section StringFacts.
Context {P : Python}.

Lemma lstrip_nil_iff (s : str) : lstrip s = [] <-> forallb isspace s = true.
Proof.
  induction s as [|c t IH]; simpl.
  - tauto.
  - destruct (isspace c); simpl; [exact IH | split; discriminate].
Qed.

Lemma lstrip_head (s : str) c t : lstrip s = c :: t -> isspace c = false.
Proof.
  induction s as [|a s IH]; simpl; [discriminate|].
  destruct (isspace a) eqn:E; [exact IH|].
  intros H. injection H as -> _. exact E.
Qed.

Lemma forallb_lstrip (s : str) :
  forallb isspace (lstrip s) = forallb isspace s.
Proof.
  induction s as [|a s IH]; simpl; [reflexivity|].
  destruct (isspace a) eqn:E; simpl; [exact IH | now rewrite E].
Qed.

Lemma forallb_rev (f : char -> bool) (s : str) :
  forallb f (rev s) = forallb f s.
Proof.
  induction s as [|a s IH]; simpl; [reflexivity|].
  rewrite forallb_app, IH. simpl. rewrite andb_true_r. apply andb_comm.
Qed.

Lemma strip_nil_iff (s : str) : strip s = [] <-> forallb isspace s = true.
Proof.
  unfold strip, rstrip.
  rewrite <- (forallb_lstrip s), <- (forallb_rev isspace (lstrip s)).
  rewrite <- lstrip_nil_iff.
  split; intros H.
  - apply (f_equal (@rev char)) in H. now rewrite rev_involutive in H.
  - now rewrite H.
Qed.

Lemma isdigit_word (c : char) : isdigit c = true -> is_word c = true.
Proof.
  unfold is_word, isalnum. intros ->.
  now rewrite !orb_true_r.
Qed.
End StringFacts.

(** ** Key sanitizing *)

Section Sanitizer.
Context {P : Python}.

Lemma validate_key_word (key : str) :
  _validate_key key = Stated.sanitize Stated.word_key_char key.
Proof.
  unfold _validate_key, Stated.sanitize.
  destruct key as [|c t]; [reflexivity|].
  destruct (strip (c :: t)) eqn:E.
  - apply strip_nil_iff in E. now rewrite E.
  - destruct (forallb isspace (c :: t)) eqn:F.
    + apply strip_nil_iff in F. congruence.
    + cbn [List.map]. unfold Stated.word_key_char.
      destruct (is_word c) eqn:W; cbn [orb]; [reflexivity|].
      assert (D : isdigit c = false).
      { destruct (isdigit c) eqn:D; [|reflexivity].
        apply isdigit_word in D. congruence. }
      destruct (c =? 46)%N eqn:E46; rewrite ?D; reflexivity.
Qed.

Lemma word_ascii (c : char) :
  is_ascii c = true -> Stated.word_key_char c = Stated.ascii_key_char c.
Proof.
  unfold Stated.word_key_char, Stated.ascii_key_char, is_word, isalnum,
    isalpha, isdecimal, isdigit, isnumeric.
  intros ->.
  destruct (ascii_alpha c), (ascii_digit c); reflexivity.
Qed.

(** C8 (amended).  [_validate_key] never fails and returns [default_key]
    for an empty or blank segment; otherwise it replaces by an underscore
    every character that is neither a dot nor a word character in the
    sense of [\w] on Python strings (letters and digits of any script,
    and the underscore), and puts [k_] in front when the first character
    is a digit.  On a segment of ASCII characters the characters kept are
    exactly [[A-Za-z0-9_.]]. *)
Theorem validate_key_sanitizes (key : str) :
  _validate_key key = Stated.sanitize Stated.word_key_char key
  /\ (forallb is_ascii key = true ->
      _validate_key key = Stated.sanitize Stated.ascii_key_char key).
Proof.
  split; [apply validate_key_word|].
  intros A. rewrite validate_key_word. unfold Stated.sanitize.
  destruct (forallb isspace key); [reflexivity|].
  assert (M : List.map (fun c => if Stated.word_key_char c then c else 95%N) key
              = List.map (fun c => if Stated.ascii_key_char c then c else 95%N) key).
  { apply map_ext_in. intros c Hc.
    rewrite forallb_forall in A. now rewrite word_ascii by auto. }
  now rewrite M.
Qed.
End Sanitizer.

(** Witness of C8 on the segment [1a b]. *)
Lemma validate_key_sanitizes_witness :
  _validate_key (P := latin1) (lit "1a b") = lit "k_1a_b"
  /\ _validate_key (P := latin1) (lit "1a b")
     = Stated.sanitize (P := latin1) Stated.ascii_key_char (lit "1a b").
Proof.
  split; [reflexivity|].
  apply (proj2 (validate_key_sanitizes (P := latin1) (lit "1a b"))).
  reflexivity.
Defined.

(** C8 as stated fails on a letter outside ASCII: [\w] keeps the e-acute
    (U+00E9), which the class [[A-Za-z0-9_.]] does not contain. *)
Lemma validate_key_keeps_letters_outside_ascii :
  _validate_key (P := latin1) [233%N] = [233%N]
  /\ Stated.sanitize (P := latin1) Stated.ascii_key_char [233%N] = lit "_"
  /\ _validate_key (P := latin1) [233%N]
     <> Stated.sanitize (P := latin1) Stated.ascii_key_char [233%N].
Proof.
  repeat split; try reflexivity. discriminate.
Qed.

(** ** Serializing *)

Section Serializer.
Context {P : Python}.

Lemma children_all (indent : nat) (d : node) :
  children indent false d = generate_nested_content d (S indent).
Proof.
  induction d as [|[k v] r IH]; [reflexivity|].
  cbn [children generate_nested_content andb]. now rewrite <- IH.
Qed.

(** Started with [skip], the traversal visits the mapping left by
    [pop('_value')]. *)
Lemma children_popped (indent : nat) (d : node) :
  children indent true d
  = generate_nested_content (Dict.remove sentinel d) (S indent).
Proof.
  induction d as [|[k v] r IH]; [reflexivity|].
  cbn [children Dict.remove generate_nested_content andb].
  destruct (str_eqb sentinel k).
  - apply children_all.
  - cbn [generate_nested_content]. now rewrite <- IH.
Qed.

Lemma generate_nested_content_app (a b : node) (indent : nat) :
  generate_nested_content (a ++ b) indent
  = generate_nested_content a indent ++ generate_nested_content b indent.
Proof.
  induction a as [|[k v] a IH]; [reflexivity|].
  cbn [app generate_nested_content]. now rewrite IH, app_assoc.
Qed.

Lemma generate_entry_sentinel key d special indent :
  Dict.get sentinel d = Some special ->
  generate_entry key (VDict d) indent
  = indent_str indent ++ key ++ lit ": '" ++ format_value special
      ++ lit "'," ++ [10%N]
      ++ match Dict.remove sentinel d with
         | [] => []
         | others =>
             indent_str indent ++ key ++ lit "_nested: {" ++ [10%N]
               ++ generate_nested_content others (S indent)
               ++ indent_str indent ++ lit "}," ++ [10%N]
         end.
Proof.
  intros G. cbn [generate_entry]. rewrite G.
  change (fix children (skip : bool) (d0 : list (str * value)) : str :=
            match d0 with
            | [] => []
            | (k, v') :: r =>
                if skip && str_eqb sentinel k then children false r
                else generate_entry k v' (S indent) ++ children skip r
            end) with (children indent).
  rewrite children_popped.
  destruct (Dict.remove sentinel d); reflexivity.
Qed.

(** C4.  A node that holds a sentinel value is written as the direct
    assignment [key: 'value',] and, exactly when the mapping left without
    the sentinel is not empty, the group [key_nested: { ... },] with the
    remaining children, whatever stands before and after the node. *)
Theorem sentinel_node_serialization
        (before after : node) (key : str) (d : node) (special : value)
        (indent : nat) :
  Dict.get sentinel d = Some special ->
  generate_nested_content (before ++ (key, VDict d) :: after) indent
  = generate_nested_content before indent
      ++ (indent_str indent ++ key ++ lit ": '" ++ format_value special
            ++ lit "'," ++ [10%N])
      ++ match Dict.remove sentinel d with
         | [] => []
         | others =>
             indent_str indent ++ key ++ lit "_nested: {" ++ [10%N]
               ++ generate_nested_content others (S indent)
               ++ indent_str indent ++ lit "}," ++ [10%N]
         end
      ++ generate_nested_content after indent.
Proof.
  intros G. rewrite generate_nested_content_app.
  cbn [generate_nested_content].
  rewrite generate_entry_sentinel with (special := special) by exact G.
  now rewrite <- !app_assoc.
Qed.
End Serializer.

(** Witness of C4, scenario 3: the rows [a = X] and [a.b = Y] of one class
    nest into a node [a] with the sentinel and the child [b], and the
    class is written with the assignment and the group [a_nested]. *)
Lemma sentinel_node_serialization_witness :
  nest (P := latin1) Examples.value_then_child Examples.en_us
  = [(lit "g", [(lit "a", VDict [(sentinel, VStr (lit "X"));
                                 (lit "b", VStr (lit "Y"))])])]
  /\ generate_nested_content (P := latin1)
       [(lit "a", VDict [(sentinel, VStr (lit "X"));
                         (lit "b", VStr (lit "Y"))])] 2
     = lit "    a: 'X'," ++ [10%N]
         ++ lit "    a_nested: {" ++ [10%N]
         ++ lit "      b: 'Y'," ++ [10%N]
         ++ lit "    }," ++ [10%N].
Proof.
  split; [reflexivity|].
  apply (@sentinel_node_serialization latin1 [] [] (lit "a")
           [(sentinel, VStr (lit "X")); (lit "b", VStr (lit "Y"))]
           (VStr (lit "X")) 2).
  reflexivity.
Defined.

(** ** Nesting *)

Section Nester.
Context {P : Python}.

Lemma get_set_same (V : Type) (k : str) (v : V) (d : Dict.t V) :
  Dict.get k (Dict.set k v d) = Some v.
Proof.
  induction d as [|[k' v'] r IH]; simpl.
  - now rewrite str_eqb_refl.
  - destruct (str_eqb k k') eqn:E; simpl.
    + now rewrite str_eqb_refl.
    + now rewrite E.
Qed.

Lemma get_set_other (V : Type) (k k0 : str) (v : V) (d : Dict.t V) :
  k0 <> k -> Dict.get k0 (Dict.set k v d) = Dict.get k0 d.
Proof.
  intros N. induction d as [|[k' v'] r IH]; simpl.
  - apply str_eqb_neq in N. now rewrite N.
  - destruct (str_eqb k k') eqn:E; simpl.
    + apply str_eqb_eq in E. subst k'.
      apply str_eqb_neq in N. now rewrite N.
    + now rewrite IH.
Qed.

(** A string met on the way down is kept, under the sentinel of the
    mapping that replaces it. *)
Lemma set_path_keeps_scalar (part next : str) (rest : list str)
      (v original : str) (current_dict : node) :
  Dict.get part current_dict = Some (VStr original) ->
  Dict.get part (set_path (part :: next :: rest) v current_dict)
  = Some (VDict (set_path (next :: rest) v [(sentinel, VStr original)])).
Proof.
  intros G. cbn [set_path]. rewrite G. apply get_set_same.
Qed.

Lemma set_path_keeps_scalar_value (part next : str) (rest : list str)
      (v original : str) (current_dict : node) :
  Dict.get part current_dict = Some (VStr original) ->
  next <> sentinel ->
  exists d,
    Dict.get part (set_path (part :: next :: rest) v current_dict)
    = Some (VDict d)
    /\ Dict.get sentinel d = Some (VStr original).
Proof.
  intros G N. eexists. split; [apply set_path_keeps_scalar; exact G|].
  destruct rest as [|r rest]; cbn [set_path].
  - rewrite get_set_other by congruence. reflexivity.
  - rewrite get_set_other by congruence. reflexivity.
Qed.
End Nester.

(** C3, on the table with the rows [a.b.c = X] and [a.b = Y] of one
    class.  The dotted key [a.b] receives a string while it holds the
    mapping with [c]: the mapping is overwritten and [X] is lost, whereas
    the undotted key [a] met in the same situation keeps the mapping and
    stores its string under the sentinel. *)
Theorem nest_dotted_key_drops_mapping :
  nest (P := latin1) Examples.grandchild_then_dotted_value Examples.en_us
  = [(lit "g", [(lit "a", VDict [(lit "b", VStr (lit "Y"))])])]
  /\ nest (P := latin1) Examples.child_then_value Examples.en_us
     = [(lit "g", [(lit "a", VDict [(lit "b", VStr (lit "Y"));
                                    (sentinel, VStr (lit "X"))])])].
Proof. split; reflexivity. Qed.

(** ** Flattening *)

Import JsToExcel.

(** Rows that are all among [rows], where the key tells the row, are
    known by their keys. *)
Lemma rows_by_key (rows l l' : list ordered_row) :
  NoDup (List.map o_key rows) ->
  incl l rows -> incl l' rows ->
  List.map o_key l = List.map o_key l' -> l = l'.
Proof.
  intros N. revert l'. induction l as [|r l IH]; intros [|r' l'] I I' E;
    try discriminate; [reflexivity|].
  injection E as Er El. f_equal.
  - assert (Ir : In r rows) by (apply I; now left).
    assert (Ir' : In r' rows) by (apply I'; now left).
    clear - N Ir Ir' Er. induction rows as [|x rows IHr]; [destruct Ir|].
    cbn in N. inversion N as [|? ? Nx N']; subst.
    destruct Ir as [->|Ir], Ir' as [->|Ir']; try reflexivity.
    + exfalso. apply Nx. rewrite Er. now apply in_map.
    + exfalso. apply Nx. rewrite <- Er. now apply in_map.
    + now apply IHr.
  - apply IH; [| |exact El].
    + intros x Ix. apply I. now right.
    + intros x Ix. apply I'. now right.
Qed.

(** C1, on a class whose first key holds the sub-keys [x], [y], [z] and
    whose second key [b] holds a string.  The ranks mix two scales
    (sub-key index times 100 below a mapping, key index alone otherwise):
    [a.y] and [b] share the rank 1, the sort of [js_to_excel] moves [b]
    before [a.z], and no arrangement of the rows that is sorted by rank
    shows them in the order of the document.  At the depth the parser
    produces, the 10001st key of a class shares its rank with the first
    key of the next class. *)
Theorem flatten_dict_rank_collision :
  List.map (fun i => (i_key i, i_order i))
           (flatten_dict Examples.mixed_depth [])
  = [(lit "a.x", 0%N); (lit "a.y", 1%N); (lit "a.z", 2%N); (lit "b", 1%N)]
  /\ ~ NoDup (List.map i_order (flatten_dict Examples.mixed_depth []))
  /\ List.map o_key
       (sort_values (base_frame Examples.en_us
                                (flatten_dict Examples.mixed_depth [])))
     = [lit "a.x"; lit "a.y"; lit "b"; lit "a.z"]
  /\ (forall l,
         Permutation l (base_frame Examples.en_us
                                   (flatten_dict Examples.mixed_depth [])) ->
         Sorted by_order l ->
         List.map o_key l
         <> [lit "a.x"; lit "a.y"; lit "a.z"; lit "b"])
  /\ (let items := flatten_dict Examples.wide_class [] in
      List.map (fun i => (i_class i, i_key i, i_order i))
               (firstn 2 (skipn (N.to_nat 10000) items))
      = [(lit "g", Examples.key3 (N.to_nat 10000), 10000%N);
         (lit "h", lit "a", 10000%N)]).
Proof.
  split; [reflexivity|]. split; [|split; [|split]].
  - vm_compute. intros H. inversion H as [|? ? _ H1]; subst.
    inversion H1 as [|? ? N1 _]; subst. apply N1. right. left. reflexivity.
  - reflexivity.
  - intros l Pm S E.
    set (rows := base_frame Examples.en_us
                            (flatten_dict Examples.mixed_depth [])) in *.
    assert (L : l = rows).
    { apply (rows_by_key (rows := rows)).
      - vm_compute. repeat constructor; cbn; intuition discriminate.
      - intros x Ix. now apply (Permutation_in _ Pm).
      - apply incl_refl.
      - exact E. }
    subst l. vm_compute in S.
    repeat match goal with
           | H : Sorted _ (_ :: _) |- _ =>
               apply Sorted_inv in H; destruct H
           end.
    match goal with
    | H : HdRel _ _ [{| o_order := 1%N |}] |- _ =>
        inversion H as [|? ? C]; subst; vm_compute in C; now apply C
    end.
  - vm_compute. reflexivity.
Qed.

(** ** Reconciling *)

Section Scan.
Context {P : Python}.
Variable fs : files.

Lemma scan_cell_raise (r : row) (cols : list str) (e : unit) :
  fold_left (scan_cell fs r) cols (Raise e) = Raise e.
Proof. induction cols as [|c cols IH]; [reflexivity|exact IH]. Qed.

Lemma scan_row_ok (r : row) (cols : list str) (ups ups' : list pending) :
  fold_left (scan_cell fs r) cols (Ok ups) = Ok ups' ->
  ups' = ups ++ flat_map (Reconcile.cell_updates fs r) cols.
Proof.
  revert ups. induction cols as [|c cols IH]; intros ups H.
  - cbn in H. injection H as <-. now rewrite app_nil_r.
  - cbn [fold_left flat_map] in *.
    unfold scan_cell at 2 in H. unfold Reconcile.cell_updates at 1.
    fold (Reconcile.file_of c) in H.
    destruct (row_get r c) as [value|].
    + destruct (fs (Reconcile.file_of c)) as [content|].
      * destruct (pattern_found (row_class r) (row_key r) content)
          as [[|]|].
        -- now apply IH in H.
        -- apply IH in H. now rewrite <- app_assoc in H.
        -- rewrite scan_cell_raise in H. discriminate.
      * apply IH in H. now rewrite <- app_assoc in H.
    + now apply IH in H.
Qed.

Lemma scan_row_total (r : row) (cols : list str) (ups : list pending) :
  (forall locale value content,
      In locale cols -> row_get r locale = Some value ->
      fs (Reconcile.file_of locale) = Some content ->
      pattern_found (row_class r) (row_key r) content <> None) ->
  exists ups', fold_left (scan_cell fs r) cols (Ok ups) = Ok ups'.
Proof.
  revert ups. induction cols as [|c cols IH]; intros ups H.
  - now exists ups.
  - cbn [fold_left]. unfold scan_cell at 2.
    fold (Reconcile.file_of c).
    assert (H' : forall locale value content,
               In locale cols -> row_get r locale = Some value ->
               fs (Reconcile.file_of locale) = Some content ->
               pattern_found (row_class r) (row_key r) content <> None).
    { intros. eapply H; eauto. now right. }
    destruct (row_get r c) as [value|] eqn:G; [|now apply IH].
    destruct (fs (Reconcile.file_of c)) as [content|] eqn:F;
      [|now apply IH].
    specialize (H c value content (or_introl eq_refl) G F).
    destruct (pattern_found (row_class r) (row_key r) content)
      as [[|]|]; [now apply IH | now apply IH | congruence].
Qed.

Lemma scan_rows_raise (cols : list str) (rs : list row) (e : unit) :
  fold_left (fun updates r => fold_left (scan_cell fs r) cols updates)
            rs (Raise e) = Raise e.
Proof.
  induction rs as [|r rs IH]; [reflexivity|].
  cbn [fold_left]. now rewrite scan_cell_raise.
Qed.

Lemma scan_rows_ok (cols : list str) (rs : list row)
      (ups ups' : list pending) :
  fold_left (fun updates r => fold_left (scan_cell fs r) cols updates)
            rs (Ok ups) = Ok ups' ->
  ups' = ups ++ flat_map (fun r => flat_map (Reconcile.cell_updates fs r)
                                            cols) rs.
Proof.
  revert ups. induction rs as [|r rs IH]; intros ups H.
  - cbn in H. injection H as <-. now rewrite app_nil_r.
  - cbn [fold_left flat_map] in *.
    destruct (fold_left (scan_cell fs r) cols (Ok ups)) as [mid|e] eqn:E.
    + apply scan_row_ok in E. apply IH in H. subst.
      now rewrite <- app_assoc.
    + rewrite scan_rows_raise in H. discriminate.
Qed.

Lemma scan_rows_total (cols : list str) (rs : list row)
      (ups : list pending) :
  (forall r locale value content,
      In r rs -> In locale cols -> row_get r locale = Some value ->
      fs (Reconcile.file_of locale) = Some content ->
      pattern_found (row_class r) (row_key r) content <> None) ->
  exists ups',
    fold_left (fun updates r => fold_left (scan_cell fs r) cols updates)
              rs (Ok ups) = Ok ups'.
Proof.
  revert ups. induction rs as [|r rs IH]; intros ups H.
  - now exists ups.
  - cbn [fold_left].
    destruct (scan_row_total r cols ups) as [mid E].
    { intros. eapply H; eauto. now left. }
    rewrite E. apply IH. intros. eapply H; eauto. now right.
Qed.

(** When no search raises, [scan_and_update] ends with the pending
    updates of the cells, taken row by row and column by column; a run
    that ends has recorded exactly these. *)
Lemma scan_table_updates (df : frame) :
  (Reconcile.patterns_compile df fs ->
   scan_and_update df fs = Ok (Reconcile.table_updates df fs))
  /\ (forall ups, scan_and_update df fs = Ok ups ->
                  ups = Reconcile.table_updates df fs).
Proof.
  unfold scan_and_update, Reconcile.table_updates. split.
  - intros C. destruct (scan_rows_total (locale_columns df) (rows df) [])
      as [ups E].
    { intros. eapply C; eauto. }
    rewrite E. f_equal. now apply scan_rows_ok in E.
  - intros ups E. now apply scan_rows_ok in E.
Qed.
End Scan.

(** ** Updating flat JSON documents *)

Section Update.
Import UpdateExcelToJson.
Variable df : sheet.
Variable output_directory : directory.

Lemma get_set_dec (V : Type) (k k0 : str) (v : V) (d : Dict.t V) :
  Dict.get k0 (Dict.set k v d)
  = if str_eqb k0 k then Some v else Dict.get k0 d.
Proof.
  destruct (str_eqb k0 k) eqn:E.
  - apply str_eqb_eq in E. subst. apply get_set_same.
  - apply str_eqb_neq in E. now apply get_set_other.
Qed.

Lemma read_into_cons (a : str) (l : list str) (acc : list (str * json_doc)) :
  read_into output_directory acc (a :: l)
  = read_into output_directory
      (Dict.set a (match output_directory a with
                   | Some d => d
                   | None => []
                   end) acc) l.
Proof. reflexivity. Qed.

Lemma read_other (l : list str) (acc : list (str * json_doc)) (lang : str) :
  ~ In lang l -> Dict.get lang (read_into output_directory acc l) = Dict.get lang acc.
Proof.
  revert acc. induction l as [|a l IH]; intros acc N; [reflexivity|].
  rewrite read_into_cons.
  rewrite IH by (intros H; apply N; now right).
  apply get_set_other. intros ->. apply N. now left.
Qed.

Lemma read_listed (l : list str) (acc : list (str * json_doc)) (lang : str)
      (d : json_doc) :
  In lang l -> output_directory lang = Some d ->
  Dict.get lang (read_into output_directory acc l) = Some d.
Proof.
  revert acc. induction l as [|a l IH]; intros acc I D; [destruct I|].
  rewrite read_into_cons.
  destruct (in_dec (list_eq_dec N.eq_dec) lang l) as [I'|N].
  - now apply IH.
  - rewrite read_other by exact N.
    destruct I as [->|I]; [|contradiction].
    rewrite D. apply get_set_same.
Qed.

Variables (lang k v : str).


Lemma update_cell_kept (r : xrow) (lang0 : str)
      (language_files : list (str * json_doc)) :
  In r (rows df) -> kept df lang k v language_files ->
  kept df lang k v (update_cell r language_files lang0).
Proof.
  intros I (d' & v' & G & K & W). unfold update_cell.
  destruct (present r lang0) as [w|] eqn:Pr; [|now exists d', v'].
  destruct (Dict.get lang0 language_files) as [d0|] eqn:G0;
    [|now exists d', v'].
  destruct (str_eqb lang lang0) eqn:E.
  - apply str_eqb_eq in E. subst lang0.
    assert (d0 = d') by congruence. subst d0.
    exists (Dict.set (key r) w d').
    destruct (str_eqb k (key r)) eqn:Ek.
    + exists w. rewrite get_set_same. split; [reflexivity|].
      apply str_eqb_eq in Ek. split.
      * rewrite Ek. apply get_set_same.
      * right. exists r. now rewrite Ek.
    + exists v'. rewrite get_set_same. split; [reflexivity|].
      rewrite get_set_dec, Ek. now split.
  - exists d', v'. rewrite get_set_dec, E. now split.
Qed.

Lemma update_row_kept (r : xrow) (l : list str)
      (language_files : list (str * json_doc)) :
  In r (rows df) -> kept df lang k v language_files ->
  kept df lang k v (fold_left (update_cell r) l language_files).
Proof.
  intros I. revert language_files.
  induction l as [|a l IH]; intros lf K; [exact K|].
  cbn [fold_left]. apply IH. now apply update_cell_kept.
Qed.

Lemma update_rows_kept (rs : list xrow) (l : list str)
      (language_files : list (str * json_doc)) :
  incl rs (rows df) -> kept df lang k v language_files ->
  kept df lang k v (fold_left (fun language_files r =>
                     fold_left (update_cell r) l language_files)
                  rs language_files).
Proof.
  revert language_files.
  induction rs as [|r rs IH]; intros lf I K; [exact K|].
  cbn [fold_left]. apply IH.
  - intros x Hx. apply I. now right.
  - apply update_row_kept; [apply I; now left | exact K].
Qed.

(** C10.  A key that the existing document of a language column maps is
    mapped by the document written for that language; its value is the
    old one, or one the sheet holds for that key in that column, and it is
    the old one when the sheet holds none. *)
Theorem update_language_files_keeps_entries (d : json_doc) :
  In lang (langs df) ->
  output_directory lang = Some d ->
  Dict.get k d = Some v ->
  exists d' v',
    Dict.get lang (update_language_files df output_directory) = Some d'
    /\ Dict.get k d' = Some v'
    /\ (v' = v \/ exists r, In r (rows df) /\ key r = k
                            /\ present r lang = Some v')
    /\ ((forall r, In r (rows df) -> key r = k -> present r lang = None) ->
        v' = v).
Proof.
  intros I D K.
  assert (H : kept df lang k v (update_language_files df output_directory)).
  { apply update_rows_kept; [apply incl_refl|].
    exists d, v. split; [|split; [exact K | now left]].
    apply (read_listed _ [] I D). }
  destruct H as (d' & v' & G & K' & W).
  exists d', v'. repeat split; try assumption.
  intros A. destruct W as [->|(r & Ir & Kr & Pr)]; [reflexivity|].
  rewrite (A r Ir Kr) in Pr. discriminate.
Qed.
End Update.

(** Witness of C10: the key [only_here], which the sheet does not know,
    keeps its value in the document written for [en]. *)
Lemma update_language_files_keeps_entries_witness :
  exists d' v',
    Dict.get UpdateExample.en
      (UpdateExcelToJson.update_language_files UpdateExample.translations
                                               UpdateExample.on_disk)
    = Some d'
    /\ Dict.get (lit "only_here") d' = Some v'
    /\ v' = lit "Kept".
Proof.
  destruct (@update_language_files_keeps_entries
              UpdateExample.translations UpdateExample.on_disk
              UpdateExample.en (lit "only_here") (lit "Kept")
              [(lit "old", lit "Old"); (lit "title", lit "Hi");
               (lit "only_here", lit "Kept")])
    as (d' & v' & G & K & _ & F).
  - left. reflexivity.
  - reflexivity.
  - reflexivity.
  - exists d', v'. split; [exact G|]. split; [exact K|].
    apply F. intros r [<-|[<-|[<-|[]]]]; (discriminate || reflexivity).
Defined.

(** ** Dictionaries *)

Section DictFacts.
Variable V : Type.
Implicit Types (d : Dict.t V) (k : str) (v : V).

Lemma in_keys_set k v d x :
  In x (Dict.keys (Dict.set k v d)) <-> x = k \/ In x (Dict.keys d).
Proof.
  induction d as [|[k' v'] r IH]; simpl.
  - intuition congruence.
  - destruct (str_eqb k k') eqn:E; simpl.
    + apply str_eqb_eq in E. subst. intuition congruence.
    + rewrite IH. intuition congruence.
Qed.

Lemma wf_set k v d : Dict.wf d -> Dict.wf (Dict.set k v d).
Proof.
  unfold Dict.wf. induction d as [|[k' v'] r IH]; simpl; intros W.
  - constructor; [intros []|constructor].
  - inversion W as [|? ? N W']; subst.
    destruct (str_eqb k k') eqn:E; simpl.
    + apply str_eqb_eq in E. subst. now constructor.
    + constructor; [|now apply IH].
      intros I. apply in_keys_set in I. destruct I as [->|I]; [|contradiction].
      apply str_eqb_neq in E. congruence.
Qed.

Lemma in_set k v d e :
  In e (Dict.set k v d) -> e = (k, v) \/ In e d.
Proof.
  induction d as [|[k' v'] r IH]; simpl.
  - intuition.
  - destruct (str_eqb k k'); simpl; intuition.
Qed.

Lemma get_in k v d : Dict.get k d = Some v -> In (k, v) d.
Proof.
  induction d as [|[k' v'] r IH]; simpl; [discriminate|].
  destruct (str_eqb k k') eqn:E.
  - apply str_eqb_eq in E. intros [= ->]. subst. now left.
  - intros G. right. now apply IH.
Qed.

Lemma get_none_keys k d : Dict.get k d = None <-> ~ In k (Dict.keys d).
Proof.
  induction d as [|[k' v'] r IH]; simpl; [intuition|].
  destruct (str_eqb k k') eqn:E.
  - apply str_eqb_eq in E. subst. split; [discriminate|intuition].
  - apply str_eqb_neq in E. rewrite IH. intuition congruence.
Qed.

Lemma set_absent k v d :
  Dict.get k d = None -> Dict.set k v d = d ++ [(k, v)].
Proof.
  induction d as [|[k' v'] r IH]; simpl; [reflexivity|].
  destruct (str_eqb k k'); [discriminate|]. intros G. now rewrite IH.
Qed.

Lemma in_remove k d e : In e (Dict.remove k d) -> In e d.
Proof.
  induction d as [|[k' v'] r IH]; simpl; [tauto|].
  destruct (str_eqb k k'); simpl; intuition.
Qed.

Lemma wf_remove k d : Dict.wf d -> Dict.wf (Dict.remove k d).
Proof.
  unfold Dict.wf. induction d as [|[k' v'] r IH]; simpl; intros W;
    [constructor|].
  inversion W as [|? ? N W']; subst.
  destruct (str_eqb k k'); [exact W'|]. simpl. constructor; [|now apply IH].
  intros I. apply N. apply in_map_iff in I. destruct I as ([a b] & <- & I).
  apply in_remove in I. apply in_map_iff. now exists (a, b).
Qed.
End DictFacts.

(** ** What the parser returns is a dict of dicts *)

Section ParsedShape.
Context {P : Python}.

Lemma parse_items_wf (class_content : str) :
  Dict.wf (parse_items class_content).
Proof.
  unfold parse_items.
  generalize (Re.finditer item_re (S (List.length class_content))
                          class_content).
  intros l.
  assert (W : Dict.wf (@nil (str * str))) by constructor.
  revert W. generalize (@nil (str * str)).
  induction l as [|it l IH]; intros acc W; [exact W|].
  cbn [fold_left]. apply IH. now apply wf_set.
Qed.

Lemma classes_wf_set (key : str) (c : class_dict) (data : parsed) :
  Dict.wf c -> classes_wf data -> classes_wf (Dict.set key c data).
Proof.
  intros Wc [W F]. split; [now apply wf_set|].
  apply Forall_forall. intros e I. apply in_set in I.
  destruct I as [->|I]; [exact Wc|].
  rewrite Forall_forall in F. now apply F.
Qed.

Lemma parse_loop_wf (fuel : nat) (content : str) (acc data : parsed) :
  classes_wf acc ->
  parse_loop fuel content acc = Some (Ok data) -> classes_wf data.
Proof.
  revert content acc. induction fuel as [|fuel IH]; intros content acc W;
    [discriminate|].
  cbn [parse_loop]. destruct content as [|c t]; [now intros [= <-]|].
  destruct (Re.search top_key_re (c :: t)) as [[key after]|];
    [|now intros [= <-]].
  destruct (skip_to_brace after) as [body|]; [|now intros [= <-]].
  destruct (find_closing 1 body) as [[inner rest]|]; [|discriminate].
  apply IH. apply classes_wf_set; [apply parse_items_wf | exact W].
Qed.
End ParsedShape.

Section ParsedFlatten.
Context {P : Python}.

Lemma parse_js_file_wf (content : str) (data : parsed) :
  parse_js_file content = Ok data -> classes_wf data.
Proof.
  unfold parse_js_file.
  destruct (parse_loop _ _ _) as [r|] eqn:E.
  - intros ->. eapply parse_loop_wf; [|exact E].
    split; constructor.
  - intros [= <-]. split; constructor.
Qed.

Lemma get_as_document (k : str) (data : parsed) :
  Dict.get k (as_document data)
  = option_map (fun c => VDict (strings c)) (Dict.get k data).
Proof.
  unfold as_document.
  induction data as [|[k' c] r IH]; [reflexivity|].
  cbn [List.map Dict.get]. destruct (str_eqb k k'); [reflexivity|exact IH].
Qed.

Lemma remove_as_document (k : str) (data : parsed) :
  Dict.remove k (as_document data) = as_document (Dict.remove k data).
Proof.
  unfold as_document.
  induction data as [|[k' c] r IH]; [reflexivity|].
  cbn [List.map Dict.remove]. destruct (str_eqb k k'); [reflexivity|].
  cbn [List.map]. now rewrite <- IH.
Qed.

Lemma keys_as_document (data : parsed) :
  List.map fst (as_document data) = Dict.keys data.
Proof.
  unfold as_document, Dict.keys. rewrite map_map.
  apply map_ext. now intros [k c].
Qed.

Lemma keys_strings (c : class_dict) :
  List.map fst (strings c) = Dict.keys c.
Proof.
  unfold strings, Dict.keys. rewrite map_map.
  apply map_ext. now intros [a b].
Qed.

(** The tuples of a class of strings: one per key, in order. *)
Lemma flatten_class_pairs (k : str) (idx n : N) (c : class_dict) :
  List.map Merge.pair_of
    (flat_map
       (fun '(sub_idx, (sub_k, sub_v)) =>
          match sub_v with
          | VDict sub_d =>
              List.map
                (fun '(subsub_idx, (subsub_k, subsub_v)) =>
                   {| i_class := k;
                      i_key := sub_k ++ lit "." ++ subsub_k;
                      i_value := subsub_v;
                      i_order := idx * 10000 + sub_idx * 100
                                 + subsub_idx |})
                (enumerate sub_d)
          | _ =>
              [{| i_class := k; i_key := sub_k; i_value := sub_v;
                  i_order := idx * 10000 + sub_idx |}]
          end)%N
       (enumerate_from n (strings c)))
  = List.map (fun a => (k, a)) (Dict.keys c).
Proof.
  revert n. induction c as [|[a b] c IH]; intros n; [reflexivity|].
  cbn [strings List.map enumerate_from flat_map app Dict.keys fst].
  f_equal. apply IH.
Qed.

Lemma flatten_key_pairs (data : parsed) (parent_key : str) (idx : N)
      (k : str) :
  List.map Merge.pair_of (flatten_key (as_document data) parent_key idx k)
  = Merge.class_pairs data k.
Proof.
  unfold flatten_key, Merge.class_pairs. rewrite get_as_document.
  destruct (Dict.get k data) as [c|]; [|reflexivity].
  cbn [option_map]. apply flatten_class_pairs.
Qed.

Lemma flatten_keys_pairs (data : parsed) (parent_key : str) (n : N)
      (ks : list str) :
  List.map Merge.pair_of
    (flat_map (fun '(idx, k) => flatten_key (as_document data) parent_key
                                            idx k)
              (enumerate_from n ks))
  = flat_map (Merge.class_pairs data) ks.
Proof.
  revert n. induction ks as [|k ks IH]; intros n; [reflexivity|].
  cbn [enumerate_from flat_map]. rewrite map_app, IH.
  now rewrite flatten_key_pairs.
Qed.

Lemma class_pairs_nodup (data : parsed) (ks : list str) :
  Forall (fun e => Dict.wf (snd e)) data -> NoDup ks ->
  NoDup (flat_map (Merge.class_pairs data) ks).
Proof.
  intros F. induction 1 as [|k ks N _ IH]; [constructor|].
  cbn [flat_map]. apply NoDup_app; [| exact IH |].
  - unfold Merge.class_pairs. destruct (Dict.get k data) as [c|] eqn:G;
      [|constructor].
    apply get_in in G. rewrite Forall_forall in F. specialize (F _ G).
    apply Finite.Injective_map_NoDup; [|exact F].
    intros x y [= ->]. reflexivity.
  - intros [g a] I1 I2. apply in_flat_map in I2.
    destruct I2 as (k' & Ik' & I2).
    assert (g = k).
    { unfold Merge.class_pairs in I1. destruct (Dict.get k data); [|destruct I1].
      apply in_map_iff in I1. now destruct I1 as (? & [= <- _] & _). }
    assert (g = k').
    { unfold Merge.class_pairs in I2. destruct (Dict.get k' data); [|destruct I2].
      apply in_map_iff in I2. now destruct I2 as (? & [= <- _] & _). }
    subst. contradiction.
Qed.

(** The tuples flattened from a parsed file have pairwise distinct
    (class, key) pairs. *)
Lemma flatten_parsed_nodup (data : parsed) :
  classes_wf data ->
  NoDup (List.map Merge.pair_of (flatten_dict (as_document data) [])).
Proof.
  intros [W F]. unfold flatten_dict.
  rewrite remove_as_document. unfold enumerate. rewrite flatten_keys_pairs.
  apply class_pairs_nodup.
  - apply Forall_forall. intros e I. apply in_remove in I.
    rewrite Forall_forall in F. now apply F.
  - rewrite get_as_document.
    destruct (Dict.get order_key data) as [c|] eqn:G; cbn [option_map].
    + cbn [iterate]. rewrite keys_strings.
      apply get_in in G. rewrite Forall_forall in F. apply (F _ G).
    + rewrite keys_as_document. exact W.
Qed.
End ParsedFlatten.

(** ** Merging *)

Section MergeFacts.
Context {P : Python}.

Lemma flat_map_singleton (A B : Type) (f : A -> B) (l : list A) :
  flat_map (fun x => [f x]) l = List.map f l.
Proof. induction l as [|a l IH]; [reflexivity|]. cbn. now rewrite IH. Qed.

Lemma same_key_pair (r : ordered_row) (i : item) :
  same_key r i = true <-> Merge.pair_of i = (o_class r, o_key r).
Proof.
  unfold same_key, Merge.pair_of. rewrite andb_true_iff, !str_eqb_eq.
  split; [intros [-> ->]; reflexivity | intros [= -> ->]; now split].
Qed.

(** With distinct pairs on the right, a row of the left matches at most
    one row. *)
Lemma filter_same_key (r : ordered_row) (current : list item) :
  NoDup (List.map Merge.pair_of current) ->
  filter (same_key r) current
  = match find (same_key r) current with
    | Some i => [i]
    | None => []
    end.
Proof.
  induction current as [|a l IH]; [reflexivity|]. intros N.
  inversion N as [|? ? Na Nl]; subst. cbn [filter find].
  destruct (same_key r a) eqn:E; [|now apply IH].
  f_equal. rewrite IH by exact Nl.
  destruct (find (same_key r) l) as [i|] eqn:F; [|reflexivity].
  apply find_some in F. destruct F as [I S]. exfalso. apply Na.
  apply same_key_pair in E. apply same_key_pair in S.
  rewrite E, <- S. now apply in_map.
Qed.

Lemma merge_left_lookup (base_df : list ordered_row) (lang : str)
      (current : list item) :
  NoDup (List.map Merge.pair_of current) ->
  merge_left base_df lang current
  = List.map (fun r => with_value r lang
                         (Merge.lookup_item (o_class r) (o_key r) current))
             base_df.
Proof.
  intros N. unfold merge_left. rewrite <- flat_map_singleton.
  apply flat_map_ext. intros r. rewrite filter_same_key by exact N.
  unfold Merge.lookup_item.
  change (fun i : item => str_eqb (o_class r) (i_class i)
                          && str_eqb (o_key r) (i_key i))
    with (same_key r).
  now destruct (find (same_key r) current).
Qed.

Lemma usable_nodup (content : str) (flattened : list item) :
  Merge.usable content = Some flattened ->
  NoDup (List.map Merge.pair_of flattened).
Proof.
  unfold Merge.usable.
  destruct (parse_js_file content) as [data|] eqn:E; [|discriminate].
  apply parse_js_file_wf in E. destruct data as [|e data]; [discriminate|].
  pose proof (flatten_parsed_nodup E) as N. revert N.
  destruct (flatten_dict _ _); [discriminate | now intros N [= <-]].
Qed.

Lemma add_cells_with_value (r : ordered_row) (lang : str) (v : option value)
      (cells : list (str * option value)) :
  add_cells (with_value r lang v) cells = add_cells r ((lang, v) :: cells).
Proof.
  unfold add_cells, with_value. cbn. now rewrite <- app_assoc.
Qed.

(** The loop over the other files adds to every row the cells joined
    from the usable files, and no row. *)
Lemma merge_others_joined (others : list (str * str))
      (base_df rows : list ordered_row) :
  merge_others base_df others = Ok rows ->
  rows = List.map (fun r => add_cells r (Merge.joined others (o_class r)
                                                     (o_key r)))
                  base_df.
Proof.
  revert base_df.
  induction others as [|[lang content] others IH]; intros base_df.
  - cbn. intros [= <-]. rewrite <- (map_id base_df) at 1.
    apply map_ext. intros [c k vs o]. unfold add_cells. cbn.
    now rewrite app_nil_r.
  - cbn [merge_others Merge.joined flat_map]. unfold Merge.usable.
    destruct (parse_js_file content) as [[|e data]|key] eqn:E;
      [now apply IH | | discriminate].
    fold (Merge.usable content).
    destruct (flatten_dict (as_document (e :: data)) [])
      as [|i flattened] eqn:F; [now apply IH|].
    intros M. apply IH in M. subst rows.
    assert (N : NoDup (List.map Merge.pair_of (i :: flattened))).
    { apply (usable_nodup content). unfold Merge.usable. now rewrite E, F. }
    rewrite merge_left_lookup by exact N. rewrite map_map.
    apply map_ext. intros r. cbn [app].
    now rewrite add_cells_with_value.
Qed.

Lemma insert_row_perm (r : ordered_row) (l : list ordered_row) :
  Permutation (insert_row r l) (r :: l).
Proof.
  induction l as [|x t IH]; [reflexivity|]. cbn.
  destruct (o_order r <=? o_order x)%N; [reflexivity|].
  rewrite IH. apply perm_swap.
Qed.

Lemma sort_values_perm (l : list ordered_row) : Permutation (sort_values l) l.
Proof.
  induction l as [|x t IH]; [reflexivity|]. cbn.
  rewrite insert_row_perm. now constructor.
Qed.

Lemma insert_row_sorted (r : ordered_row) (l : list ordered_row) :
  Sorted by_order l -> Sorted by_order (insert_row r l).
Proof.
  induction l as [|x t IH]; intros S; cbn.
  - repeat constructor.
  - destruct (o_order r <=? o_order x)%N eqn:E.
    + constructor; [exact S|]. constructor. unfold by_order.
      now apply N.leb_le.
    + apply N.leb_gt in E. inversion S as [|? ? S' H]; subst.
      constructor; [now apply IH|].
      destruct t as [|y t]; cbn.
      * constructor. unfold by_order. lia.
      * destruct (o_order r <=? o_order y)%N.
        -- constructor. unfold by_order. lia.
        -- inversion H; subst. now constructor.
Qed.

Lemma sort_values_sorted (l : list ordered_row) :
  Sorted by_order (sort_values l).
Proof.
  induction l as [|x t IH]; [constructor|].
  cbn. now apply insert_row_sorted.
Qed.

(** C5.  When [js_to_excel] returns a table, the first file is usable and
    its flattened tuples have pairwise distinct (class, key) pairs; the
    rows of the table are, up to their order, one row per tuple of the
    first locale, holding the value of that locale followed by the values
    the later usable locales have for the same class and key, NaN where
    they have none; nothing else is a row, so what only a later locale
    defines is dropped; and the rows stand in the order of the rank the
    first locale gave them. *)
Theorem js_to_excel_left_join (js_files : list (str * str))
        (table : list table_row) :
  js_to_excel js_files = Ok table ->
  exists first_lang first_file others base rows,
    js_files = (first_lang, first_file) :: others
    /\ Merge.usable first_file = Some base
    /\ NoDup (List.map Merge.pair_of base)
    /\ table = List.map drop_order rows
    /\ Permutation rows (List.map (Merge.joined_row first_lang others) base)
    /\ Sorted by_order rows.
Proof.
  unfold js_to_excel.
  destruct js_files as [|[first_lang first_file] others]; [discriminate|].
  destruct (parse_js_file first_file) as [[|e data]|key] eqn:E;
    [discriminate | | discriminate].
  destruct (flatten_dict (as_document (e :: data)) [])
    as [|i flattened] eqn:F; [discriminate|].
  destruct (merge_others (base_frame first_lang (i :: flattened)) others)
    as [merged|err] eqn:M; [|discriminate].
  intros [= <-].
  assert (U : Merge.usable first_file = Some (i :: flattened)).
  { unfold Merge.usable. now rewrite E, F. }
  exists first_lang, first_file, others, (i :: flattened),
    (sort_values merged).
  repeat split; try reflexivity; try exact U.
  - now apply (usable_nodup first_file).
  - rewrite sort_values_perm. apply merge_others_joined in M. subst merged.
    unfold base_frame. rewrite map_map. reflexivity.
  - apply sort_values_sorted.
Qed.
End MergeFacts.

(** Witness of C5, scenario 4: the base locale holds [k1] and [k2], the
    second locale adds [k3], the third lacks [k2]; the table has the two
    rows of the base and [k3] is dropped. *)
Lemma js_to_excel_left_join_witness :
  js_to_excel (P := latin1) Merge.three_locales
  = Ok [{| t_class := lit "text"; t_key := lit "k1";
           t_values := [(lit "en_us", Some (VStr (lit "one")));
                        (lit "zh_cn", Some (VStr (lit "yi")));
                        (lit "de_de", Some (VStr (lit "eins")))] |};
        {| t_class := lit "text"; t_key := lit "k2";
           t_values := [(lit "en_us", Some (VStr (lit "two")));
                        (lit "zh_cn", Some (VStr (lit "er")));
                        (lit "de_de", None)] |}]
  /\ exists first_lang first_file others base (rows : list ordered_row),
      Merge.three_locales = (first_lang, first_file) :: others
      /\ Merge.usable (P := latin1) first_file = Some base
      /\ List.length rows = List.length base.
Proof.
  split; [reflexivity|].
  destruct (js_to_excel_left_join (P := latin1) Merge.three_locales
              (table := _) eq_refl)
    as (first_lang & first_file & others & base & rows & J & U & _ & _ & Pm & _).
  exists first_lang, first_file, others, base, rows.
  split; [exact J|]. split; [exact U|].
  apply Permutation_length in Pm. now rewrite length_map in Pm.
Defined.

(** ** The flat JSON merge *)

Section FlatMergeFacts.
Import JsonToExcel.

Lemma has_key_in (k : str) (l : list str) : has_key k l = true <-> In k l.
Proof.
  unfold has_key. rewrite existsb_exists. split.
  - intros (x & I & E). apply str_eqb_eq in E. now subst.
  - intros I. exists k. split; [exact I | apply str_eqb_refl].
Qed.

Lemma insert_key_perm (k : str) (l : list str) :
  Permutation (insert_key k l) (k :: l).
Proof.
  induction l as [|x t IH]; [reflexivity|]. cbn.
  destruct (str_leb k x); [reflexivity|]. rewrite IH. apply perm_swap.
Qed.

Lemma sort_keys_perm (l : list str) : Permutation (sort_keys l) l.
Proof.
  induction l as [|x t IH]; [reflexivity|]. cbn.
  rewrite insert_key_perm. now constructor.
Qed.

Lemma map_flat_map (A B C : Type) (f : B -> C) (g : A -> list B)
      (l : list A) :
  List.map f (flat_map g l) = flat_map (fun x => List.map f (g x)) l.
Proof.
  induction l as [|a l IH]; [reflexivity|]. cbn. now rewrite map_app, IH.
Qed.

(** With distinct keys in the frame, a key selects at most one row. *)
Lemma filter_key_unique (k : str) (l : list trow) :
  NoDup (List.map key l) ->
  filter (fun r => str_eqb k (key r)) l = []
  \/ exists r, filter (fun r => str_eqb k (key r)) l = [r].
Proof.
  induction l as [|a l IH]; [now left|]. intros N.
  inversion N as [|? ? Na Nl]; subst. cbn [filter].
  destruct (str_eqb k (key a)) eqn:E; [|now apply IH].
  right. exists a. f_equal.
  destruct (filter (fun r => str_eqb k (key r)) l) as [|b rest] eqn:F;
    [reflexivity|].
  exfalso. apply Na.
  assert (I : In b (filter (fun r => str_eqb k (key r)) l))
    by (rewrite F; now left).
  apply filter_In in I. destruct I as [I Eb].
  apply str_eqb_eq in E. apply str_eqb_eq in Eb.
  rewrite <- E, Eb. now apply in_map.
Qed.

Lemma outer_row_key (df : frame) (lang : str) (lang_df : json_doc)
      (k : str) :
  NoDup (FlatMerge.K df) -> List.map key (outer_row df lang lang_df k) = [k].
Proof.
  intros N. unfold outer_row.
  destruct (filter_key_unique k (rows df) N) as [->|(r & ->)]; reflexivity.
Qed.

Lemma merge_outer_keys (df : frame) (lang : str) (lang_df : json_doc) :
  NoDup (FlatMerge.K df) ->
  FlatMerge.K (merge_outer df lang lang_df)
  = sort_keys (nodup (list_eq_dec N.eq_dec)
                     (FlatMerge.K df ++ List.map fst lang_df)).
Proof.
  intros N. unfold FlatMerge.K at 1, merge_outer. cbn [rows].
  rewrite map_flat_map.
  rewrite (flat_map_ext _ (fun k => [k])).
  - rewrite flat_map_singleton. apply map_id.
  - intros k. now apply outer_row_key.
Qed.

Lemma merge_outer_nodup (df : frame) (lang : str) (lang_df : json_doc) :
  NoDup (FlatMerge.K df) -> NoDup (FlatMerge.K (merge_outer df lang lang_df)).
Proof.
  intros N. rewrite merge_outer_keys by exact N.
  eapply Permutation_NoDup; [symmetry; apply sort_keys_perm|].
  apply NoDup_nodup.
Qed.

Lemma merge_outer_in (df : frame) (lang : str) (lang_df : json_doc)
      (k : str) :
  NoDup (FlatMerge.K df) ->
  In k (FlatMerge.K (merge_outer df lang lang_df))
  <-> In k (FlatMerge.K df) \/ In k (FlatMerge.keys_of lang_df).
Proof.
  intros N. rewrite merge_outer_keys by exact N.
  split.
  - intros I. apply (Permutation_in _ (sort_keys_perm _)) in I.
    apply nodup_In in I. now apply in_app_or in I.
  - intros I. apply (Permutation_in _ (Permutation_sym (sort_keys_perm _))).
    apply nodup_In. now apply in_or_app.
Qed.

Lemma merge_languages_keys (json_folder : folder) (langs : list str)
      (df df' : frame) (all_keys all_keys' : list str) :
  merge_languages json_folder langs df all_keys = (df', all_keys') ->
  NoDup (FlatMerge.K df) -> incl all_keys (FlatMerge.K df) ->
  NoDup (FlatMerge.K df') /\ incl all_keys' (FlatMerge.K df')
  /\ forall k, In k (FlatMerge.K df')
               <-> In k (FlatMerge.K df)
                   \/ exists lang doc,
                       In lang langs /\ lang <> zh_cn
                       /\ json_folder lang = Some doc
                       /\ In k (FlatMerge.keys_of doc).
Proof.
  revert df all_keys.
  induction langs as [|lang langs IH]; intros df all_keys M N A.
  - cbn in M. injection M as <- <-. split; [exact N|]. split; [exact A|].
    intros k. split; [now left|].
    intros [I|(? & ? & [] & _)]. exact I.
  - cbn [merge_languages] in M.
    destruct (str_eqb lang zh_cn) eqn:E.
    { apply str_eqb_eq in E. subst lang.
      destruct (IH _ _ M N A) as (N' & A' & H). split; [exact N'|].
      split; [exact A'|]. intros k. rewrite H. split.
      - intros [I|(l & d & I & R)]; [now left|].
        right. exists l, d. split; [now right | exact R].
      - intros [I|(l & d & [<-|I] & Z & R)]; [now left | | ].
        + now contradiction Z.
        + right. exists l, d. now split. }
    apply str_eqb_neq in E.
    destruct (json_folder lang) as [translations|] eqn:F.
    + apply IH in M; [| now apply merge_outer_nodup |].
      * destruct M as (N' & A' & H). split; [exact N'|].
        split; [exact A'|]. intros k. rewrite H.
        rewrite merge_outer_in by exact N. split.
        -- intros [[I|I]|(l & d & I & R)].
           ++ now left.
           ++ right. exists lang, translations.
              split; [now left|]. now split.
           ++ right. exists l, d. split; [now right | exact R].
        -- intros [I|(l & d & [<-|I] & Z & G & R)].
           ++ left. now left.
           ++ left. right. congruence.
           ++ right. exists l, d. now split.
      * intros k I. apply merge_outer_in; [exact N|].
        apply in_app_or in I. destruct I as [I|I]; [left; now apply A|].
        apply filter_In in I. destruct I as [I _].
        apply nodup_In in I. now right.
    + destruct (IH _ _ M N A) as (N' & A' & H). split; [exact N'|].
      split; [exact A'|]. intros k. rewrite H. split.
      * intros [I|(l & d & I & R)]; [now left|].
        right. exists l, d. split; [now right | exact R].
      * intros [I|(l & d & [<-|I] & Z & G & R)]; [now left | congruence | ].
        right. exists l, d. now split.
Qed.

(** The loop that handles missing keys never adds a row. *)
Lemma missing_rows_nil (df : frame) (all_keys : list str) :
  incl all_keys (FlatMerge.K df) -> missing_rows df all_keys = [].
Proof.
  intros A. unfold missing_rows.
  replace (filter _ all_keys) with (@nil str); [reflexivity|].
  symmetry. induction all_keys as [|k l IH]; [reflexivity|].
  cbn [filter].
  assert (H : has_key k (List.map key (rows df)) = true).
  { apply has_key_in. apply A. now left. }
  rewrite H. cbn. apply IH. intros x I. apply A. now right.
Qed.

Lemma insert_by_perm (rank : trow -> nat) (r : trow) (l : list trow) :
  Permutation (insert_by rank r l) (r :: l).
Proof.
  induction l as [|x t IH]; [reflexivity|]. cbn.
  destruct (Nat.leb (rank r) (rank x)); [reflexivity|].
  rewrite IH. apply perm_swap.
Qed.

Lemma sort_by_perm (rank : trow -> nat) (l : list trow) :
  Permutation (sort_by rank l) l.
Proof.
  induction l as [|x t IH]; [reflexivity|]. cbn.
  rewrite insert_by_perm. now constructor.
Qed.

Lemma insert_by_sorted (rank : trow -> nat) (r : trow) (l : list trow) :
  Sorted (fun a b => rank a <= rank b) l ->
  Sorted (fun a b => rank a <= rank b) (insert_by rank r l).
Proof.
  induction l as [|x t IH]; intros S; cbn.
  - repeat constructor.
  - destruct (Nat.leb (rank r) (rank x)) eqn:E.
    + constructor; [exact S|]. constructor. now apply Nat.leb_le.
    + apply Nat.leb_gt in E. inversion S as [|? ? S' H]; subst.
      constructor; [now apply IH|].
      destruct t as [|y t]; cbn.
      * constructor. lia.
      * destruct (Nat.leb (rank r) (rank y)).
        -- constructor. lia.
        -- inversion H; subst. now constructor.
Qed.

Lemma sort_by_sorted (rank : trow -> nat) (l : list trow) :
  StronglySorted (fun a b => rank a <= rank b) (sort_by rank l).
Proof.
  apply Sorted_StronglySorted.
  - intros a b c. lia.
  - induction l as [|x t IH]; [constructor|].
    cbn. now apply insert_by_sorted.
Qed.

Lemma sort_order_head (z : str) (zs : list str) (x : str) :
  x <> z -> sort_order (z :: zs) x = S (sort_order zs x).
Proof. intros N. cbn. apply str_eqb_neq in N. now rewrite N. Qed.

(** Rows sorted by their index in the baseline, holding every baseline
    key once, start with the baseline keys in their order. *)
Lemma sorted_starts_with_baseline (zs : list str) (l : list trow) :
  NoDup zs -> NoDup (List.map key l) -> incl zs (List.map key l) ->
  StronglySorted (FlatMerge.rank_in zs) l ->
  exists extras, List.map key l = zs ++ extras.
Proof.
  revert l. induction zs as [|z zs IH]; intros l Nz Nl I S.
  - now exists (List.map key l).
  - inversion Nz as [|? ? Zn Nz']; subst.
    destruct l as [|h l]; [destruct (I z (or_introl eq_refl))|].
    apply StronglySorted_inv in S. destruct S as [S H].
    inversion Nl as [|? ? Hn Nl']; subst.
    assert (E : key h = z).
    { destruct (list_eq_dec N.eq_dec (key h) z) as [E|E]; [exact E|].
      exfalso. destruct (I z (or_introl eq_refl)) as [C|C]; [contradiction|].
      apply in_map_iff in C. destruct C as (r & Er & Ir).
      rewrite Forall_forall in H. specialize (H r Ir).
      unfold FlatMerge.rank_in in H. rewrite Er in H.
      rewrite (sort_order_head zs E) in H. cbn in H.
      rewrite str_eqb_refl in H. lia. }
    destruct (IH l Nz' Nl') as [extras X].
    + intros x Ix. destruct (I x (or_intror Ix)) as [C|C]; [|exact C].
      cbn in C. rewrite E in C. subst x. contradiction.
    + clear - S Hn E.
      induction S as [|a l S IHS F]; constructor.
      * apply IHS. intros C. apply Hn. now right.
      * rewrite Forall_forall in *. intros x Ix. specialize (F x Ix).
        unfold FlatMerge.rank_in in *.
        rewrite !sort_order_head in F; [lia| |].
        -- intros C. apply Hn. right. rewrite E, <- C. now apply in_map.
        -- intros C. apply Hn. left. now rewrite E, <- C.
    + exists extras. cbn. now rewrite E, X.
Qed.

(** C9 (amended).  With a readable baseline [zh_cn.json] the script
    saves a table, and every table it can save, however the sort
    arranges the rows of equal rank, starts with the keys of the
    baseline, in the order of the baseline; every other row holds a key
    that the baseline lacks and that another language contributes, every
    such key has a row, and no key has two.  The order of those later
    rows is not fixed. *)
Theorem json_to_excel_baseline_first (json_folder : folder)
        (translations : json_doc) :
  json_folder zh_cn = Some translations ->
  NoDup (FlatMerge.keys_of translations) ->
  (exists df,
      json_to_excel json_folder = Some df /\ FlatTable.saves json_folder df)
  /\ forall df,
      FlatTable.saves json_folder df ->
      exists extras,
        List.map key (rows df) = FlatMerge.keys_of translations ++ extras
        /\ NoDup (FlatMerge.keys_of translations ++ extras)
        /\ forall k, In k extras
                     <-> ~ In k (FlatMerge.keys_of translations)
                         /\ FlatMerge.contributed json_folder k.
Proof.
  intros B N.
  set (df0 := FlatTable.baseline_frame translations).
  assert (K0 : FlatMerge.K df0 = FlatMerge.keys_of translations).
  { unfold FlatMerge.K, df0, FlatTable.baseline_frame, FlatMerge.keys_of.
    cbn [rows]. rewrite map_map. apply map_ext. now intros [k v]. }
  destruct (merge_languages json_folder languages df0
                            (FlatMerge.keys_of translations))
    as [df1 all_keys] eqn:M.
  pose proof M as M'.
  apply merge_languages_keys in M';
    [| now rewrite K0 | rewrite K0; apply incl_refl].
  destruct M' as (N1 & A1 & H1).
  assert (E : FlatTable.before_sort json_folder
              = Some (FlatMerge.keys_of translations,
                      {| columns := columns df1; rows := rows df1 |})).
  { unfold FlatTable.before_sort. rewrite B. fold df0.
    fold (FlatMerge.K df0). rewrite K0, M. cbn [columns rows].
    rewrite missing_rows_nil by exact A1. now rewrite app_nil_r. }
  set (rank := fun r => sort_order (FlatMerge.keys_of translations) (key r)).
  split.
  - exists {| columns := columns df1; rows := sort_by rank (rows df1) |}.
    split.
    + unfold json_to_excel. rewrite B.
      change {| columns := [zh_cn];
                rows := List.map (fun '(k, v) =>
                                    {| key := k; cells := [(zh_cn, Some v)] |})
                                 translations |} with df0.
      fold (FlatMerge.K df0). rewrite K0, M. cbn [columns rows].
      rewrite missing_rows_nil by exact A1. now rewrite app_nil_r.
    + exists (FlatMerge.keys_of translations),
             {| columns := columns df1; rows := rows df1 |}.
      split; [exact E|]. split; [reflexivity|]. cbn [rows]. split.
      * apply sort_by_perm.
      * apply sort_by_sorted.
  - intros df (zs & merged & E' & _ & Pm & Sd).
    rewrite E in E'. injection E' as <- <-. cbn [rows] in Pm.
    assert (Pk : Permutation (List.map key (rows df)) (FlatMerge.K df1))
      by (now apply Permutation_map).
    destruct (@sorted_starts_with_baseline (FlatMerge.keys_of translations)
                (rows df)) as [extras X].
    + exact N.
    + eapply Permutation_NoDup; [symmetry; exact Pk | exact N1].
    + intros k I. apply (Permutation_in _ (Permutation_sym Pk)).
      apply H1. left. now rewrite K0.
    + exact Sd.
    + exists extras. split; [exact X|].
      assert (Nx : NoDup (FlatMerge.keys_of translations ++ extras)).
      { rewrite <- X. eapply Permutation_NoDup; [symmetry; exact Pk | exact N1]. }
      split; [exact Nx|]. intros k.
      assert (Hk : In k (FlatMerge.keys_of translations ++ extras)
                   <-> In k (FlatMerge.K df1)).
      { rewrite <- X. split; apply Permutation_in;
          [exact Pk | symmetry; exact Pk]. }
      rewrite H1, K0, in_app_iff in Hk. split.
      * intros I. assert (Nk : ~ In k (FlatMerge.keys_of translations)).
        { intros C. apply NoDup_app_remove_l in Nx as Nx'.
          clear - Nx I C. induction (FlatMerge.keys_of translations)
            as [|a l IHl]; [destruct C|].
          cbn in Nx. inversion Nx as [|? ? Na Nl]; subst.
          destruct C as [->|C]; [|now apply IHl].
          apply Na. apply in_or_app. now right. }
        split; [exact Nk|].
        destruct (proj1 Hk (or_intror I)) as [C|C]; [contradiction|exact C].
      * intros [Nk C]. destruct (proj2 Hk (or_intror C)) as [I|I];
          [contradiction | exact I].
Qed.

(** The two arrangements of the later rows of the folder
    [FlatMerge.late_keys] are both sorted. *)
Lemma late_tables_saved :
  FlatTable.saves FlatMerge.late_keys FlatTable.lexicographic
  /\ FlatTable.saves FlatMerge.late_keys FlatTable.as_discovered.
Proof.
  split.
  - eexists _, _. split; [reflexivity|]. split; [reflexivity|].
    split; [reflexivity|].
    repeat constructor; vm_compute; intuition discriminate.
  - eexists _, _. split; [reflexivity|]. split; [reflexivity|].
    split.
    + cbn. apply perm_skip. apply perm_swap.
    + repeat constructor; vm_compute; intuition discriminate.
Qed.
End FlatMergeFacts.

(** Witness of C9: the baseline holds [a], another language holds [z] and
    [b]; the table that holds them as [z], [b] can be saved, and starts
    with [a]. *)
Lemma json_to_excel_baseline_first_witness :
  exists extras,
    List.map JsonToExcel.key (JsonToExcel.rows FlatTable.as_discovered)
    = FlatMerge.keys_of [(lit "a", lit "1")] ++ extras.
Proof.
  destruct (@json_to_excel_baseline_first FlatMerge.late_keys
              [(lit "a", lit "1")] eq_refl)
    as (_ & H).
  - repeat constructor. intros [].
  - destruct (H FlatTable.as_discovered (proj2 late_tables_saved))
      as (extras & X & _).
    now exists extras.
Defined.

(** C9 as stated fails on that folder or on the one that holds [b]
    before [z]: the two folders are met in different orders, [a], [z],
    [b] and [a], [b], [z], and the outer merge hands the same frame to
    the sort for both, so the script saves the same tables for both,
    whatever the sort does with rows of equal rank, and a table cannot be
    in the order of discovery of both.  The table that holds the keys as
    the merge left them can be saved for the first folder, and is not in
    its order of discovery. *)
Lemma json_to_excel_not_discovery_order :
  FlatMerge.discovery_order FlatMerge.late_keys
  = Some [lit "a"; lit "z"; lit "b"]
  /\ FlatMerge.discovery_order FlatTable.late_keys_swapped
     = Some [lit "a"; lit "b"; lit "z"]
  /\ FlatTable.before_sort FlatMerge.late_keys
     = FlatTable.before_sort FlatTable.late_keys_swapped
  /\ JsonToExcel.json_to_excel FlatMerge.late_keys
     = JsonToExcel.json_to_excel FlatTable.late_keys_swapped
  /\ (forall df : JsonToExcel.frame,
        FlatTable.saves FlatMerge.late_keys df
        <-> FlatTable.saves FlatTable.late_keys_swapped df)
  /\ FlatTable.saves FlatMerge.late_keys FlatTable.lexicographic
  /\ List.map JsonToExcel.key (JsonToExcel.rows FlatTable.lexicographic)
     = [lit "a"; lit "b"; lit "z"]
  /\ Some (List.map JsonToExcel.key
                    (JsonToExcel.rows FlatTable.lexicographic))
     <> FlatMerge.discovery_order FlatMerge.late_keys.
Proof.
  assert (B : FlatTable.before_sort FlatMerge.late_keys
              = FlatTable.before_sort FlatTable.late_keys_swapped)
    by reflexivity.
  split; [reflexivity|]. split; [reflexivity|]. split; [exact B|].
  split; [reflexivity|]. split.
  - intros df. unfold FlatTable.saves. now rewrite B.
  - split; [exact (proj1 late_tables_saved)|].
    split; [reflexivity|]. vm_compute. discriminate.
Qed.

(** ** Matchers *)

Section MatcherFacts.
Variable R : Type.
Implicit Types (k : str -> Re.M R) (m : Re.M R) (s w : str).

Lemma startswith_app (p s : str) : startswith p (p ++ s) = true.
Proof.
  induction p as [|a p IH]; [reflexivity|]. cbn. now rewrite N.eqb_refl.
Qed.

Lemma startswith_inv (p s : str) :
  startswith p s = true -> s = p ++ skipn (List.length p) s.
Proof.
  revert s. induction p as [|a p IH]; intros s; [reflexivity|].
  destruct s as [|b s]; [discriminate|]. cbn.
  destruct (a =? b)%N eqn:E; [|discriminate].
  apply N.eqb_eq in E. subst b. intros H. f_equal. now apply IH.
Qed.

Lemma skipn_app_length (p s : str) : skipn (List.length p) (p ++ s) = s.
Proof. induction p as [|a p IH]; [reflexivity|exact IH]. Qed.

Lemma m_lit_app (p : str) m s : Re.m_lit p m (p ++ s) = m s.
Proof.
  unfold Re.m_lit. now rewrite startswith_app, skipn_app_length.
Qed.

Lemma m_lit_inv (p : str) m s (r : R) :
  Re.m_lit p m s = Some r -> exists s', s = p ++ s' /\ m s' = Some r.
Proof.
  unfold Re.m_lit. destruct (startswith p s) eqn:E; [|discriminate].
  intros H. exists (skipn (List.length p) s). split; [|exact H].
  now apply startswith_inv.
Qed.

(** A greedy run that can take a whole block, after which its
    continuation succeeds, returns that success. *)
Lemma m_star_longest (cls : char -> bool) k w s (r : R) :
  Forall (fun c => cls c = true) w ->
  (forall c t, s = c :: t -> cls c = false) ->
  k w s = Some r ->
  Re.m_star cls k (w ++ s) = Some r.
Proof.
  intros F. revert k. induction F as [|x w Hx F IH]; intros k E H.
  - cbn [app]. destruct s as [|c t]; [exact H|].
    cbn. now rewrite (E c t eq_refl).
  - cbn [app Re.m_star]. rewrite Hx.
    rewrite (IH (fun w0 => k (x :: w0)) E H). reflexivity.
Qed.

(** Whatever a run returns comes from its continuation, after a block of
    the class. *)
Lemma m_star_inv (cls : char -> bool) k s (r : R) :
  Re.m_star cls k s = Some r ->
  exists w s', s = w ++ s' /\ Forall (fun c => cls c = true) w
               /\ k w s' = Some r.
Proof.
  revert k. induction s as [|c t IH]; intros k H.
  - exists [], []. split; [reflexivity|]. split; [constructor | exact H].
  - cbn [Re.m_star] in H. destruct (cls c) eqn:E.
    + destruct (Re.m_star cls (fun w => k (c :: w)) t) as [r'|] eqn:M.
      * cbn in H. injection H as ->. apply IH in M.
        destruct M as (w & s' & -> & F & K).
        exists (c :: w), s'. split; [reflexivity|].
        split; [now constructor | exact K].
      * cbn in H. exists [], (c :: t). split; [reflexivity|].
        split; [constructor | exact H].
    + exists [], (c :: t). split; [reflexivity|].
      split; [constructor | exact H].
Qed.

(** A run fails when its continuation fails after every block. *)
Lemma m_star_none (cls : char -> bool) k s :
  (forall w s', s = w ++ s' -> Forall (fun c => cls c = true) w ->
                k w s' = None) ->
  Re.m_star cls k s = None.
Proof.
  intros H. destruct (Re.m_star cls k s) as [r|] eqn:M; [|reflexivity].
  apply m_star_inv in M. destruct M as (w & s' & E & F & K).
  now rewrite (H w s' E F) in K.
Qed.

Lemma m_plus_inv (cls : char -> bool) k s (r : R) :
  Re.m_plus cls k s = Some r ->
  exists w s', s = w ++ s' /\ w <> [] /\ Forall (fun c => cls c = true) w
               /\ k w s' = Some r.
Proof.
  unfold Re.m_plus. destruct s as [|c t]; [discriminate|].
  destruct (cls c) eqn:E; [|discriminate]. intros M.
  apply m_star_inv in M. destruct M as (w & s' & -> & F & K).
  exists (c :: w), s'. split; [reflexivity|]. split; [discriminate|].
  split; [now constructor | exact K].
Qed.

(** A lazy run stops at the first block after which its continuation
    succeeds. *)
Lemma m_star_lazy_first (cls : char -> bool) k w s (r : R) :
  Forall (fun c => cls c = true) w ->
  (forall w1 w2, w = w1 ++ w2 -> w2 <> [] -> k w1 (w2 ++ s) = None) ->
  k w s = Some r ->
  Re.m_star_lazy cls k (w ++ s) = Some r.
Proof.
  intros F. revert k. induction F as [|x w Hx F IH]; intros k N H.
  - cbn [app]. destruct s; cbn; now rewrite H.
  - cbn [app Re.m_star_lazy].
    assert (E0 : k [] ((x :: w) ++ s) = None)
      by (apply N; [reflexivity | discriminate]).
    cbn [app] in E0. rewrite E0. cbn [Re.orelse].
    rewrite Hx. apply IH; [|exact H].
    intros w1 w2 E Z. apply (N (x :: w1) w2); [now rewrite E | exact Z].
Qed.

Lemma m_star_lazy_inv (cls : char -> bool) k s (r : R) :
  Re.m_star_lazy cls k s = Some r ->
  exists w s', s = w ++ s' /\ Forall (fun c => cls c = true) w
               /\ k w s' = Some r.
Proof.
  revert k. induction s as [|c t IH]; intros k H.
  - cbn in H. destruct (k [] []) eqn:K; [|discriminate].
    exists [], []. split; [reflexivity|]. split; [constructor|].
    cbn in H. congruence.
  - cbn [Re.m_star_lazy] in H. destruct (k [] (c :: t)) as [r'|] eqn:K.
    + cbn in H. exists [], (c :: t). split; [reflexivity|].
      split; [constructor|congruence].
    + cbn in H. destruct (cls c) eqn:E; [|discriminate].
      apply IH in H. destruct H as (w & s' & -> & F & K').
      exists (c :: w), s'. split; [reflexivity|].
      split; [now constructor | exact K'].
Qed.

Lemma search_here m s (r : R) : m s = Some r -> Re.search m s = Some r.
Proof. intros H. destruct s; cbn; now rewrite H. Qed.

(** A search passes over a block where the matcher fails. *)
Lemma search_skip m (pre s : str) :
  (forall p1 p2, pre = p1 ++ p2 -> p2 <> [] -> m (p2 ++ s) = None) ->
  Re.search m (pre ++ s) = Re.search m s.
Proof.
  induction pre as [|c pre IH]; intros H; [reflexivity|].
  cbn [app Re.search].
  assert (E0 : m ((c :: pre) ++ s) = None)
    by (apply (H []); [reflexivity | discriminate]).
  cbn [app] in E0. rewrite E0. cbn [Re.orelse].
  apply IH. intros p1 p2 E Z. apply (H (c :: p1) p2); [now rewrite E|exact Z].
Qed.

Lemma search_inv m s (r : R) :
  Re.search m s = Some r -> exists pre s', s = pre ++ s' /\ m s' = Some r.
Proof.
  induction s as [|c t IH]; cbn [Re.search].
  - destruct (m []) eqn:M; [|discriminate]. intros [= <-].
    now exists [], [].
  - destruct (m (c :: t)) as [r'|] eqn:M.
    + intros [= <-]. now exists [], (c :: t).
    + cbn. intros H. apply IH in H. destruct H as (pre & s' & -> & H).
      now exists (c :: pre), s'.
Qed.

Lemma search_none m s :
  (forall p1 p2, s = p1 ++ p2 -> m p2 = None) -> Re.search m s = None.
Proof.
  intros H. destruct (Re.search m s) as [r|] eqn:E; [|reflexivity].
  apply search_inv in E. destruct E as (pre & s' & E & M).
  now rewrite (H pre s' E) in M.
Qed.
End MatcherFacts.

(** A substitution leaves a text where the pattern matches nowhere. *)
Lemma sub_nowhere (m : Re.M str) (repl s : str) :
  (forall p1 p2, s = p1 ++ p2 -> m p2 = None) -> Re.sub m repl s = s.
Proof.
  unfold Re.sub. induction s as [|c t IH]; intros H; [reflexivity|].
  cbn [Re.sub_from]. rewrite (H [] (c :: t) eq_refl). f_equal.
  apply IH. intros p1 p2 E. apply (H (c :: p1) p2). now rewrite E.
Qed.

(** ** Braces and the loop of the parser *)

Section BraceFacts.
Import Braces.

Lemma count_cons (c x : char) (s : str) :
  count c (x :: s) = (if (x =? c)%N then 1 else 0) + count c s.
Proof.
  unfold count. cbn. destruct (N.eq_dec x c) as [E|E].
  - apply N.eqb_eq in E. now rewrite E.
  - apply N.eqb_neq in E. now rewrite E.
Qed.

Lemma count_app (c : char) (a b : str) :
  count c (a ++ b) = count c a + count c b.
Proof. unfold count. apply count_occ_app. Qed.

Lemma find_closing_inv (n : nat) (s inner rest : str) :
  find_closing (S n) s = Some (inner, rest) ->
  s = inner ++ 125%N :: rest /\ count 125%N inner = count 123%N inner + n.
Proof.
  revert n inner. induction s as [|c t IH]; intros n inner; [discriminate|].
  cbn [find_closing].
  destruct (c =? 123)%N eqn:E1.
  - destruct (find_closing (S (S n)) t) as [[i r]|] eqn:F; [|discriminate].
    intros [= <- <-]. apply IH in F. destruct F as [-> F].
    split; [reflexivity|]. rewrite !count_cons, E1.
    assert (E2 : (c =? 125)%N = false).
    { apply N.eqb_eq in E1. now subst c. }
    rewrite E2. cbv beta iota. lia.
  - destruct (c =? 125)%N eqn:E2.
    + cbn [Nat.pred]. destruct n as [|n'].
      * intros [= <- <-]. apply N.eqb_eq in E2. now subst c.
      * destruct (find_closing (S n') t) as [[i r]|] eqn:F; [|discriminate].
        intros [= <- <-]. apply IH in F. destruct F as [-> F].
        split; [reflexivity|]. rewrite !count_cons, E1, E2.
        cbv beta iota. lia.
    + destruct (find_closing (S n) t) as [[i r]|] eqn:F; [|discriminate].
      intros [= <- <-]. apply IH in F. destruct F as [-> F].
      split; [reflexivity|]. rewrite !count_cons, E1, E2.
        cbv beta iota. lia.
Qed.

(** The loop that counts brackets finds the closing bracket exactly when
    some prefix of the text closes the count. *)
Lemma find_closing_closes (n : nat) (s : str) :
  find_closing (S n) s <> None <-> closes_at (S n) s.
Proof.
  split.
  - destruct (find_closing (S n) s) as [[inner rest]|] eqn:F; [|congruence].
    intros _. apply find_closing_inv in F. destruct F as [-> F].
    exists (inner ++ [125%N]), rest. split; [now rewrite <- app_assoc|].
    rewrite !count_app.
    replace (count 125%N [125%N]) with 1 by reflexivity.
    replace (count 123%N [125%N]) with 0 by reflexivity. lia.
  - revert n. induction s as [|c t IH]; intros n (p & q & E & C).
    + destruct p; [|discriminate]. cbn in C. lia.
    + destruct p as [|x p]; [cbn in C; lia|].
      injection E as -> ->. rewrite !count_cons in C. cbn [find_closing].
      destruct (x =? 123)%N eqn:E1.
      * assert (E2 : (x =? 125)%N = false).
        { apply N.eqb_eq in E1. now subst x. }
        rewrite E2 in C. cbv beta iota in C.
        assert (H : closes_at (S (S n)) (p ++ q)).
        { exists p, q. split; [reflexivity|lia]. }
        apply IH in H. destruct (find_closing (S (S n)) (p ++ q)) as [[? ?]|];
          congruence.
      * destruct (x =? 125)%N eqn:E2.
        -- cbn [Nat.pred]. destruct n as [|n']; [discriminate|].
           cbv beta iota in C.
           assert (H : closes_at (S n') (p ++ q)).
           { exists p, q. split; [reflexivity|lia]. }
           apply IH in H. destruct (find_closing (S n') (p ++ q)) as [[? ?]|];
             congruence.
        -- cbv beta iota in C.
           assert (H : closes_at (S n) (p ++ q)).
           { exists p, q. split; [reflexivity|lia]. }
           apply IH in H. destruct (find_closing (S n) (p ++ q)) as [[? ?]|];
             congruence.
Qed.

Lemma skip_to_brace_inv (s body : str) :
  skip_to_brace s = Some body ->
  exists gap, s = gap ++ 123%N :: body /\ ~ In 123%N gap.
Proof.
  induction s as [|c t IH]; [discriminate|]. cbn.
  destruct (c =? 123)%N eqn:E.
  - intros [= <-]. apply N.eqb_eq in E. subst. exists []. now split.
  - intros H. apply IH in H. destruct H as (gap & -> & N).
    exists (c :: gap). split; [reflexivity|].
    intros [->|I]; [now rewrite N.eqb_refl in E | contradiction].
Qed.

Lemma all_closed_b_sound (s : str) : all_closed_b s = true -> all_closed s.
Proof.
  induction s as [|c t IH]; intros H pre body E.
  - destruct pre; discriminate.
  - cbn in H. apply andb_true_iff in H. destruct H as [H1 H2].
    destruct pre as [|x pre].
    + injection E as -> ->. cbn in H1. apply find_closing_closes.
      destruct (find_closing 1 body); [discriminate|discriminate].
    + injection E as -> ->. now apply (IH H2 pre).
Qed.
End BraceFacts.

Section ParserLoop.
Context {P : Python}.
Import Braces.

Lemma top_key_inv (s key after : str) :
  Re.search top_key_re s = Some (key, after) ->
  exists pre mid,
    s = pre ++ key ++ mid ++ 58%N :: after
    /\ key <> []
    /\ Forall (fun c => is_word c = true) key
    /\ Forall (fun c => isspace c = true) mid.
Proof.
  intros H. apply search_inv in H. destruct H as (pre & s1 & -> & H).
  unfold top_key_re in H. apply m_plus_inv in H.
  destruct H as (w & s2 & -> & Nw & Fw & H).
  apply m_star_inv in H. destruct H as (mid & s3 & -> & Fm & H).
  apply m_lit_inv in H. destruct H as (s4 & -> & H).
  injection H as <- <-. exists pre, mid. now repeat split.
Qed.

(** One turn of the loop, seen from the text: a word, spaces, a colon,
    anything without an opening brace, the brace, and what follows it. *)
Lemma turn_inv (content key after body : str) :
  Re.search top_key_re content = Some (key, after) ->
  skip_to_brace after = Some body ->
  exists pre mid gap,
    content = pre ++ key ++ mid ++ 58%N :: gap ++ 123%N :: body
    /\ key <> []
    /\ Forall (fun c => is_word c = true) key
    /\ Forall (fun c => isspace c = true) mid
    /\ ~ In 123%N gap.
Proof.
  intros S B. apply top_key_inv in S.
  destruct S as (pre & mid & -> & Nk & Fk & Fm).
  apply skip_to_brace_inv in B. destruct B as (gap & -> & Ng).
  exists pre, mid, gap. now repeat split.
Qed.

Lemma turn_shortens (content key after body inner rest : str) :
  Re.search top_key_re content = Some (key, after) ->
  skip_to_brace after = Some body ->
  find_closing 1 body = Some (inner, rest) ->
  exists before, content = before ++ rest /\ before <> [].
Proof.
  intros S B F. destruct (turn_inv _ S B) as (pre & mid & gap & -> & _).
  apply find_closing_inv in F. destruct F as [-> _].
  exists (pre ++ key ++ mid ++ 58%N :: gap ++ 123%N :: inner ++ [125%N]).
  split.
  - repeat (rewrite <- app_assoc; cbn [app]). reflexivity.
  - intros E. apply (f_equal (@List.length char)) in E.
    rewrite !length_app in E. cbn in E. rewrite !length_app in E.
    cbn in E. rewrite !length_app in E. cbn in E. lia.
Qed.

(** Fuel above the length of the text is never exhausted. *)
Lemma parse_loop_fuel (fuel : nat) (content : str) (acc : parsed) :
  List.length content < fuel -> parse_loop fuel content acc <> None.
Proof.
  revert content acc. induction fuel as [|fuel IH]; intros content acc L;
    [lia|].
  cbn [parse_loop]. destruct content as [|c t]; [discriminate|].
  destruct (Re.search top_key_re (c :: t)) as [[key after]|] eqn:S;
    [|discriminate].
  destruct (skip_to_brace after) as [body|] eqn:B; [|discriminate].
  destruct (find_closing 1 body) as [[inner rest]|] eqn:F; [|discriminate].
  apply IH. destruct (turn_shortens _ S B F) as (before & E & N).
  rewrite E, length_app in L. destruct before; [congruence|]. cbn in L. lia.
Qed.

(** The loop raises only for an opening brace that counting never
    closes, and names the word that introduces it. *)
Lemma parse_loop_raise (fuel : nat) (content : str) (acc : parsed)
      (key : str) :
  parse_loop fuel content acc = Some (Raise key) ->
  exists pre mid gap body,
    content = pre ++ key ++ mid ++ 58%N :: gap ++ 123%N :: body
    /\ key <> []
    /\ Forall (fun c => is_word c = true) key
    /\ Forall (fun c => isspace c = true) mid
    /\ ~ In 123%N gap
    /\ ~ closes_at 1 body.
Proof.
  revert content acc. induction fuel as [|fuel IH]; intros content acc;
    [discriminate|].
  cbn [parse_loop]. destruct content as [|c t]; [discriminate|].
  destruct (Re.search top_key_re (c :: t)) as [[k after]|] eqn:S;
    [|discriminate].
  destruct (skip_to_brace after) as [body|] eqn:B; [|discriminate].
  destruct (find_closing 1 body) as [[inner rest]|] eqn:F.
  - intros H. apply IH in H.
    destruct H as (pre & mid & gap & body' & E & R).
    destruct (turn_shortens _ S B F) as (before & E' & _).
    exists (before ++ pre), mid, gap, body'.
    split; [|exact R]. rewrite E', E. now rewrite <- app_assoc.
  - intros [= <-]. destruct (turn_inv _ S B) as (pre & mid & gap & E & R).
    exists pre, mid, gap, body. split; [exact E|].
    destruct R as (R1 & R2 & R3 & R4). repeat split; try assumption.
    intros C. apply find_closing_closes in C. congruence.
Qed.

(** The loop ends without error on a text all of whose opening braces
    are closed. *)
Lemma parse_loop_closed (fuel : nat) (content : str) (acc : parsed) :
  all_closed content -> List.length content < fuel ->
  exists data, parse_loop fuel content acc = Some (Ok data).
Proof.
  revert content acc. induction fuel as [|fuel IH]; intros content acc A L;
    [lia|].
  cbn [parse_loop]. destruct content as [|c t]; [now exists acc|].
  destruct (Re.search top_key_re (c :: t)) as [[key after]|] eqn:S;
    [|now exists acc].
  destruct (skip_to_brace after) as [body|] eqn:B; [|now exists acc].
  destruct (turn_inv _ S B) as (pre & mid & gap & E & _).
  assert (C : closes_at 1 body).
  { apply (A (pre ++ key ++ mid ++ 58%N :: gap)).
    rewrite E. repeat (rewrite <- app_assoc; cbn [app]). reflexivity. }
  apply find_closing_closes in C.
  destruct (find_closing 1 body) as [[inner rest]|] eqn:F; [|congruence].
  destruct (turn_shortens _ S B F) as (before & E' & N).
  apply IH.
  - intros pre' body' Eb. apply (A (before ++ pre')).
    rewrite E', Eb. now rewrite <- app_assoc.
  - rewrite E', length_app in L. destruct before; [congruence|].
    cbn in L. lia.
Qed.

(** Without a colon there is no class to find. *)
Lemma parse_loop_no_colon (fuel : nat) (content : str) :
  ~ In 58%N content -> 0 < fuel ->
  parse_loop fuel content [] = Some (Ok []).
Proof.
  intros N L. destruct fuel as [|fuel]; [lia|]. cbn [parse_loop].
  destruct content as [|c t]; [reflexivity|].
  destruct (Re.search top_key_re (c :: t)) as [[key after]|] eqn:S;
    [|reflexivity].
  apply top_key_inv in S. destruct S as (pre & mid & E & _).
  exfalso. apply N. rewrite E. apply in_or_app. right.
  apply in_or_app. right. apply in_or_app. right. now left.
Qed.

End ParserLoop.

(** ** Occurrences of a pattern in a text *)

Unset Implicit Arguments.

Section Occurrences.
Context {P : Python}.

Lemma startswith_barrier (p a b : str) (c : char) :
  ~ In c p -> startswith p (a ++ c :: b) = startswith p a.
Proof.
  revert a. induction p as [|y p IH]; intros a N; [reflexivity|].
  destruct a as [|x a]; cbn.
  - destruct (y =? c)%N eqn:E; [|reflexivity].
    apply N.eqb_eq in E. subst. exfalso. apply N. now left.
  - rewrite IH; [reflexivity|]. intros I. apply N. now right.
Qed.

Lemma contains_nil (p : str) : p <> [] -> contains p [] = false.
Proof. destruct p; [congruence|reflexivity]. Qed.

(** A character foreign to the pattern separates the occurrences. *)
Lemma contains_barrier (p a b : str) (c : char) :
  p <> [] -> ~ In c p ->
  contains p (a ++ c :: b) = contains p a || contains p b.
Proof.
  intros Np N. induction a as [|x a IH].
  - pose proof (startswith_barrier p [] b c N) as E. cbn [app] in *.
    cbn [contains]. rewrite E.
    destruct p; [congruence|]. reflexivity.
  - pose proof (startswith_barrier p (x :: a) b c N) as E.
    cbn [app] in *. cbn [contains]. rewrite IH, E.
    now rewrite orb_assoc.
Qed.

(** A text over a class that misses a character of the pattern holds no
    occurrence. *)
Lemma contains_class (cls : char -> bool) (p s : str) :
  Exists (fun c => cls c = false) p ->
  Forall (fun c => cls c = true) s ->
  contains p s = false.
Proof.
  intros E F.
  assert (S : forall s, Forall (fun c => cls c = true) s ->
                        startswith p s = false).
  { clear s F. induction E as [y p Hy|y p E IH]; intros s F.
    - destruct s as [|x s]; [reflexivity|]. cbn.
      destruct (y =? x)%N eqn:Q; [|reflexivity].
      apply N.eqb_eq in Q. subst. inversion F; subst. congruence.
    - destruct s as [|x s]; [reflexivity|]. cbn. inversion F; subst.
      rewrite IH by assumption. apply andb_false_r. }
  induction F as [|x s Hx F IH].
  - cbn. rewrite S by constructor. reflexivity.
  - cbn [contains]. rewrite IH, S by now constructor. reflexivity.
Qed.

(** An occurrence does not start in a block of characters other than the
    first of the pattern. *)
Lemma contains_skip (p a b : str) (h : char) (t : str) :
  p = h :: t -> Forall (fun c => c <> h) a ->
  contains p (a ++ b) = contains p b.
Proof.
  intros -> F. induction F as [|x a Hx F IH]; [reflexivity|].
  cbn [app contains]. rewrite IH.
  cbn [startswith]. destruct (h =? x)%N eqn:E.
  - apply N.eqb_eq in E. congruence.
  - cbn. destruct (a ++ b); reflexivity.
Qed.

Lemma contains_suffix (p a b : str) :
  contains p (a ++ b) = false -> startswith p b = false.
Proof.
  induction a as [|x a IH]; cbn [app].
  - destruct b; cbn; intros H; apply orb_false_iff in H; tauto.
  - cbn [contains]. intros H. apply orb_false_iff in H. tauto.
Qed.

Lemma replace_skip (old new q s : str) :
  replace_from old new (List.length q) (q ++ s) = replace_from old new 0 s.
Proof. induction q as [|x q IH]; [reflexivity|exact IH]. Qed.

Lemma replace_none (old new s : str) :
  contains old s = false -> replace_from old new 0 s = s.
Proof.
  induction s as [|c t IH]; [reflexivity|]. cbn [contains replace_from].
  intros H. apply orb_false_iff in H. destruct H as [H1 H2].
  rewrite H1. f_equal. now apply IH.
Qed.

(** [replace] removes a pattern at the head of a text that holds no other
    occurrence. *)
Lemma replace_head (old new s : str) :
  old <> [] -> contains old s = false ->
  replace old new (old ++ s) = new ++ s.
Proof.
  intros N C. unfold replace. destruct old as [|a old]; [congruence|].
  cbn [app replace_from].
  change (a :: old ++ s) with ((a :: old) ++ s).
  rewrite startswith_app. cbn [List.length Nat.pred].
  now rewrite replace_skip, replace_none.
Qed.

Lemma lstrip_spaces (a r : str) :
  Forall (fun c => isspace c = true) a ->
  (forall c t, r = c :: t -> isspace c = false) ->
  lstrip (a ++ r) = r.
Proof.
  intros F H. induction F as [|x a Hx F IH].
  - cbn [app]. destruct r as [|c t]; [reflexivity|].
    cbn. now rewrite (H c t eq_refl).
  - cbn [app lstrip]. now rewrite Hx.
Qed.

(** [strip] removes the blanks around a text that starts and ends with a
    character that is not blank. *)
Lemma strip_core (a b : str) (x : char) (m : str) (y : char) :
  Forall (fun c => isspace c = true) a ->
  Forall (fun c => isspace c = true) b ->
  isspace x = false -> isspace y = false ->
  strip (a ++ (x :: m ++ [y]) ++ b) = x :: m ++ [y].
Proof.
  intros Fa Fb Hx Hy. unfold strip, rstrip.
  rewrite (lstrip_spaces a ((x :: m ++ [y]) ++ b) Fa);
    [|now intros c t [= <- _]].
  assert (E : rev ((x :: m ++ [y]) ++ b) = rev b ++ y :: rev (x :: m)).
  { rewrite rev_app_distr. f_equal.
    change (x :: m ++ [y]) with ((x :: m) ++ [y]).
    now rewrite rev_app_distr. }
  rewrite E. rewrite (lstrip_spaces (rev b) (y :: rev (x :: m))).
  - change (rev (y :: rev (x :: m))) with (rev (rev (x :: m)) ++ [y]).
    now rewrite rev_involutive.
  - apply Forall_rev. exact Fb.
  - now intros c t [= <- _].
Qed.
End Occurrences.

(** ** The text of the serializer *)

Section SerializedText.
Context {P : Python}.
Import RoundTrip.

Lemma generate_strings (c : class_dict) :
  generate_nested_content (strings c) 2 = entries_text c.
Proof.
  induction c as [|[k v] c IH]; [reflexivity|].
  cbn [strings List.map generate_nested_content generate_entry
       entries_text flat_map].
  fold (strings c). rewrite IH. fold (entries_text c).
  unfold entry_text, item_text. cbn [fst snd].
  change (indent_str 2) with [32; 32; 32; 32]%N.
  change (lit ": '") with [58; 32; 39]%N.
  change (lit "',") with [39; 44]%N.
  now rewrite <- !app_assoc.
Qed.

Lemma generate_classes_text (doc : parsed) :
  generate_classes (to_nodes doc) = classes_text doc.
Proof.
  induction doc as [|[g c] doc IH]; [reflexivity|].
  cbn [to_nodes List.map generate_classes classes_text flat_map].
  fold (to_nodes doc). rewrite IH, generate_strings.
  fold (classes_text doc). unfold class_text. cbn [fst snd].
  change (lit "  ") with [32; 32]%N.
  change (lit ": {" ++ [10%N]) with [58; 32; 123; 10]%N.
  change (lit "  }," ++ [10%N]) with [32; 32; 125; 44; 10]%N.
  rewrite <- !app_assoc. reflexivity.
Qed.

Lemma serialize_text (doc : parsed) :
  serialize doc
  = export_default ++ [32; 123; 10]%N ++ classes_text doc ++ [125; 59]%N.
Proof.
  unfold serialize, js_content. rewrite generate_classes_text.
  change (lit "export default {") with (export_default ++ [32; 123]%N).
  change (lit "};") with [125; 59]%N.
  rewrite <- !app_assoc. reflexivity.
Qed.

(** *** No occurrence of the two patterns removed before parsing *)

Section Pattern.
Variable p : str.
Hypothesis p_barrier : forall c, is_barrier c = true -> ~ In c p.
Hypothesis p_head : exists h t, p = h :: t /\ h <> 32%N.
Hypothesis p_word : Exists (fun c => is_word c = false) p.

Lemma p_nonempty : p <> [].
Proof. destruct p_head as (h & t & -> & _). discriminate. Qed.

Lemma cb_head (c : char) (b : str) :
  is_barrier c = true -> contains p (c :: b) = contains p b.
Proof.
  intros B. change (c :: b) with ([] ++ c :: b).
  rewrite contains_barrier by (auto using p_nonempty).
  now rewrite contains_nil by apply p_nonempty.
Qed.

Lemma cb_mid (a : str) (c : char) (b : str) :
  is_barrier c = true ->
  contains p (a ++ c :: b) = contains p a || contains p b.
Proof. intros B. apply contains_barrier; auto using p_nonempty. Qed.

Lemma cs_head (b : str) : contains p (32%N :: b) = contains p b.
Proof.
  destruct p_head as (h & t & E & N).
  change (32%N :: b) with ([32%N] ++ b).
  apply (contains_skip p [32%N] b h t E). constructor; [congruence|constructor].
Qed.

Lemma ident_word (s : str) :
  ident s = true -> Forall (fun c => is_word c = true) s.
Proof.
  unfold ident. destruct s as [|c s]; [discriminate|].
  intros H. apply Forall_forall. intros x I.
  rewrite forallb_forall in H. specialize (H x I).
  unfold ident_char in H. now apply andb_true_iff in H.
Qed.

Lemma clean_ident (s : str) : ident s = true -> contains p s = false.
Proof.
  intros H. apply (contains_class is_word); [exact p_word|].
  now apply ident_word.
Qed.

Lemma clean_entries (c : class_dict) (rest : str) :
  Forall (fun e => ident (fst e) = true /\ contains p (snd e) = false) c ->
  contains p (entries_text c ++ rest) = contains p rest.
Proof.
  induction 1 as [|[k v] c [Hk Hv] F IH]; [reflexivity|].
  cbn [entries_text flat_map]. fold (entries_text c).
  unfold entry_text, item_text. cbn [fst snd] in *.
  repeat (rewrite <- app_assoc; cbn [app]).
  rewrite !cs_head, cb_mid, clean_ident, cs_head, cb_head, cb_mid, Hv,
    !cb_head by (reflexivity || assumption).
  exact IH.
Qed.

Lemma clean_classes (doc : parsed) (rest : str) :
  Forall (fun e => ident (fst e) = true
                   /\ Forall (fun e => ident (fst e) = true
                                       /\ contains p (snd e) = false)
                             (snd e)) doc ->
  contains p (classes_text doc ++ rest) = contains p rest.
Proof.
  induction 1 as [|[g c] doc [Hg Hc] F IH]; [reflexivity|].
  cbn [classes_text flat_map]. fold (classes_text doc).
  unfold class_text. cbn [fst snd] in *.
  repeat (rewrite <- app_assoc; cbn [app]).
  rewrite !cs_head, cb_mid, clean_ident, cs_head, !cb_head,
    (clean_entries c _ Hc), !cs_head, !cb_head
    by (reflexivity || assumption).
  exact IH.
Qed.

(** The text after the header holds no occurrence of the pattern. *)
Lemma clean_body (doc : parsed) :
  Forall (fun e => ident (fst e) = true
                   /\ Forall (fun e => ident (fst e) = true
                                       /\ contains p (snd e) = false)
                             (snd e)) doc ->
  contains p ([32; 123; 10]%N ++ classes_text doc ++ [125; 59]%N) = false.
Proof.
  intros F. cbn [app].
  rewrite cs_head, !cb_head, (clean_classes doc _ F), !cb_head
    by reflexivity.
  apply contains_nil, p_nonempty.
Qed.
End Pattern.
End SerializedText.

Section Prepared.
Context {P : Python}.
Import RoundTrip.

Lemma barrier_cases (c : char) (p : str) :
  is_barrier c = true ->
  ~ In 10%N p -> ~ In 39%N p -> ~ In 58%N p -> ~ In 123%N p ->
  ~ In 125%N p -> ~ In 44%N p -> ~ In 59%N p ->
  ~ In c p.
Proof.
  unfold is_barrier. intros B. apply existsb_exists in B.
  destruct B as (x & I & E). apply N.eqb_eq in E. subst x.
  cbn in I. intuition (subst; auto).
Qed.

Lemma export_default_barrier (c : char) :
  is_barrier c = true -> ~ In c export_default.
Proof.
  intros B. apply (barrier_cases c _ B);
    vm_compute; intuition discriminate.
Qed.

Lemma slashes_barrier (c : char) : is_barrier c = true -> ~ In c slashes.
Proof.
  intros B. apply (barrier_cases c _ B);
    vm_compute; intuition discriminate.
Qed.

Lemma export_default_word : Exists (fun c => is_word c = false) export_default.
Proof. apply Exists_exists. exists 32%N. split; [|reflexivity]. cbn. tauto. Qed.

Lemma slashes_word : Exists (fun c => is_word c = false) slashes.
Proof. apply Exists_exists. exists 47%N. split; [|reflexivity]. cbn. tauto. Qed.

(** What [readable] says, entry by entry. *)
Lemma readable_entries (doc : parsed) :
  forallb class_ok doc = true ->
  Forall (fun e =>
            ident (fst e) = true
            /\ Forall (fun e => ident (fst e) = true /\ plain (snd e) = true)
                      (snd e)) doc.
Proof.
  intros H. apply Forall_forall. intros [g c] I.
  rewrite forallb_forall in H. specialize (H _ I).
  unfold class_ok in H. apply andb_true_iff in H. destruct H as [Hg Hc].
  split; [exact Hg|]. apply Forall_forall. intros [k v] Ie.
  rewrite forallb_forall in Hc. specialize (Hc _ Ie).
  unfold entry_ok in Hc. now apply andb_true_iff in Hc.
Qed.

Lemma plain_inv (v : str) :
  plain v = true ->
  Forall (fun c => plain_char c = true) v
  /\ contains slashes v = false /\ contains export_default v = false.
Proof.
  unfold plain. intros H. apply andb_true_iff in H. destruct H as [H H3].
  apply andb_true_iff in H. destruct H as [H1 H2].
  apply negb_true_iff in H2, H3. split; [|now split].
  apply Forall_forall. now apply forallb_forall.
Qed.

Lemma readable_clean (doc : parsed) (p : str) :
  (forall v, plain v = true -> contains p v = false) ->
  forallb class_ok doc = true ->
  Forall (fun e => ident (fst e) = true
                   /\ Forall (fun e => ident (fst e) = true
                                       /\ contains p (snd e) = false)
                             (snd e)) doc.
Proof.
  intros Hp H. apply readable_entries in H.
  eapply Forall_impl; [|exact H]. intros [g c] [Hg Hc].
  split; [exact Hg|]. eapply Forall_impl; [|exact Hc].
  intros [k v] [Hk Hv]. split; [exact Hk | now apply Hp].
Qed.

Lemma endswith_last (c : char) (s : str) : endswith [c] (s ++ [c]) = true.
Proof.
  unfold endswith. rewrite rev_app_distr. cbn. now rewrite N.eqb_refl.
Qed.

(** The text the loop of the parser runs on. *)
Lemma prepare_serialize (doc : parsed) :
  forallb class_ok doc = true ->
  prepare (serialize doc) = [123; 10]%N ++ classes_text doc ++ [125%N].
Proof.
  intros H. unfold prepare. rewrite serialize_text.
  set (body := [32; 123; 10]%N ++ classes_text doc ++ [125; 59]%N).
  assert (C1 : contains export_default body = false).
  { apply clean_body.
    - apply export_default_barrier.
    - eexists _, _. split; [reflexivity|discriminate].
    - apply export_default_word.
    - apply readable_clean; [|exact H]. intros v Hv. now apply plain_inv in Hv. }
  assert (C2 : contains slashes body = false).
  { apply clean_body.
    - apply slashes_barrier.
    - eexists _, _. split; [reflexivity|discriminate].
    - apply slashes_word.
    - apply readable_clean; [|exact H]. intros v Hv. now apply plain_inv in Hv. }
  fold export_default.
  rewrite (replace_head export_default [] body) by (discriminate || exact C1).
  cbn [app].
  rewrite sub_nowhere.
  2:{ intros p1 p2 E. unfold comment_re, Re.m_lit. fold slashes.
      rewrite E in C2. apply contains_suffix in C2. now rewrite C2. }
  assert (S : strip body = [123; 10]%N ++ classes_text doc ++ [125; 59]%N).
  { unfold body.
    replace ([32; 123; 10]%N ++ classes_text doc ++ [125; 59]%N)
      with ([32%N] ++ (123%N :: (10%N :: classes_text doc ++ [125%N])
                             ++ [59%N]) ++ []).
    - rewrite strip_core; try reflexivity.
      + cbn [app]. now rewrite <- app_assoc.
      + repeat constructor.
      + constructor.
    - cbn [app]. rewrite app_nil_r, <- app_assoc. reflexivity. }
  rewrite S.
  replace ([123; 10]%N ++ classes_text doc ++ [125; 59]%N)
    with (([123; 10]%N ++ classes_text doc ++ [125%N]) ++ [59%N])
    by (now rewrite <- !app_assoc).
  change (lit ";") with [59%N].
  rewrite endswith_last. unfold drop_last. now rewrite removelast_last.
Qed.
End Prepared.

(** ** Reading the entries of a class back *)

Section Items.
Context {P : Python}.
Import RoundTrip.

Lemma word_differs (c x : char) :
  is_word c = true -> is_word x = false -> c <> x.
Proof. intros W N ->. congruence. Qed.

Lemma space_differs (c x : char) :
  isspace c = true -> isspace x = false -> c <> x.
Proof. intros W N ->. congruence. Qed.

Lemma key_char_intro (c : char) :
  c <> 44%N -> c <> 123%N -> c <> 125%N -> item_key_char c = true.
Proof.
  intros A B C. unfold item_key_char.
  apply N.eqb_neq in A, B, C. now rewrite A, B, C.
Qed.

Lemma ident_char_facts (c : char) :
  ident_char c = true ->
  is_word c = true /\ isspace c = false /\ item_key_char c = true
  /\ c <> 58%N /\ c <> 123%N /\ c <> 125%N.
Proof.
  unfold ident_char. intros H. apply andb_true_iff in H.
  destruct H as [W S]. apply negb_true_iff in S.
  repeat split; try assumption;
    try (apply key_char_intro);
    apply (word_differs c _ W); reflexivity.
Qed.

Lemma space_facts (c : char) :
  isspace c = true -> item_key_char c = true /\ c <> 58%N.
Proof.
  intros S. split; [apply key_char_intro|];
    apply (space_differs c _ S); reflexivity.
Qed.

Lemma last_suffix (A : Type) (w1 w2 : list A) (d : A) :
  w2 <> [] -> last (w1 ++ w2) d = last w2 d.
Proof.
  intros N. induction w1 as [|x w1 IH]; [reflexivity|].
  cbn [app]. destruct (w1 ++ w2) eqn:E.
  - destruct w1; [cbn in E; congruence | discriminate].
  - rewrite <- IH. reflexivity.
Qed.

(** After a block that ends with a character that is not blank, blanks
    cannot lead to the colon. *)
Lemma colon_not_reached (w w2 t s' : str) :
  w ++ s' = w2 ++ 58%N :: t ->
  Forall (fun c => isspace c = true) w ->
  Forall (fun c => c <> 58%N) w2 ->
  isspace (last w2 32%N) = false ->
  startswith [58%N] s' = false.
Proof.
  revert w2. induction w as [|x w IH]; intros w2 E Fw F2 L.
  - cbn [app] in E. subst s'. destruct w2 as [|y w2]; [discriminate L|].
    cbn [app startswith]. inversion F2; subst.
    destruct (58 =? y)%N eqn:Q; [|reflexivity].
    apply N.eqb_eq in Q. congruence.
  - destruct w2 as [|y w2]; [discriminate L|].
    injection E as -> E. inversion Fw; subst. inversion F2; subst.
    destruct w2 as [|y' w2].
    + cbn in L. congruence.
    + apply (IH (y' :: w2)); assumption.
Qed.

Lemma colon_fails (R : Type) (m : Re.M R) (w2 t : str) :
  Forall (fun c => c <> 58%N) w2 ->
  isspace (last w2 32%N) = false ->
  Re.m_star isspace (fun _ => Re.m_lit [58%N] m) (w2 ++ 58%N :: t) = None.
Proof.
  intros F L. apply m_star_none. intros w s' E Fw.
  unfold Re.m_lit.
  now rewrite (colon_not_reached w w2 t s' (eq_sym E) Fw F L).
Qed.

(** The text after the key of an entry: what the pattern makes of it. *)
Lemma value_matches (key v rest : str) :
  Forall (fun c => not_quote c = true) v ->
  Re.m_star isspace (fun _ =>
    Re.m_lit (lit ":")
      (Re.m_star isspace (fun _ =>
         Re.m_set quote
           (Re.m_star not_quote (fun item_value =>
              Re.m_set quote
                (Re.m_opt 44%N (fun rest =>
                   Some ((key, item_value), rest))))))))
    ([58; 32; 39]%N ++ v ++ [39; 44]%N ++ rest)
  = Some ((key, v), rest).
Proof.
  intros F. cbn [app Re.m_star].
  replace (isspace 58%N) with false by reflexivity.
  change (lit ":") with [58%N]. unfold Re.m_lit at 1.
  cbn [startswith List.length skipn]. rewrite N.eqb_refl. cbn [andb].
  cbn [Re.m_star]. replace (isspace 32%N) with true by reflexivity.
  replace (isspace 39%N) with false by reflexivity.
  cbn [Re.m_set]. replace (quote 39%N) with true by reflexivity.
  rewrite (m_star_longest not_quote _ (w := v) (s := 39%N :: 44%N :: rest)
             (r := ((key, v), rest)) F).
  - reflexivity.
  - now intros c t [= <- _].
  - cbn. reflexivity.
Qed.

(** The item pattern, at an entry that follows blanks: group 1 is the
    blanks and the key, group 2 the value. *)
Lemma item_matches (ws k v rest : str) :
  Forall (fun c => isspace c = true) ws ->
  ident k = true ->
  Forall (fun c => not_quote c = true) v ->
  item_re (ws ++ item_text (k, v) ++ rest) = Some ((ws ++ k, v), rest).
Proof.
  intros Fw Hk Fv. unfold item_text. cbn [fst snd].
  assert (Fk : Forall (fun c => ident_char c = true) k).
  { unfold ident in Hk. destruct k; [discriminate|].
    apply Forall_forall. now apply forallb_forall. }
  assert (FW : Forall (fun c => item_key_char c = true /\ c <> 58%N)
                      (ws ++ k)).
  { apply Forall_app. split.
    - eapply Forall_impl; [|exact Fw]. intros c. apply space_facts.
    - eapply Forall_impl; [|exact Fk]. intros c H.
      apply ident_char_facts in H. tauto. }
  assert (LW : isspace (last (ws ++ k) 32%N) = false).
  { destruct k as [|x k]; [discriminate|].
    rewrite last_suffix by discriminate.
    assert (I : In (last (x :: k) 32%N) (x :: k)).
    { destruct (exists_last (l := x :: k)) as (u & z & E); [discriminate|].
      rewrite E, last_last. apply in_or_app. right. now left. }
    rewrite Forall_forall in Fk. apply Fk, ident_char_facts in I. tauto. }
  replace (ws ++ (k ++ [58; 32; 39]%N ++ v ++ [39; 44]%N) ++ rest)
    with ((ws ++ k) ++ [58; 32; 39]%N ++ v ++ [39; 44]%N ++ rest)
    by (now rewrite <- !app_assoc).
  destruct (ws ++ k) as [|c0 W] eqn:EW.
  { destruct ws; destruct k; discriminate. }
  unfold item_re, Re.m_plus_lazy. cbn [app].
  inversion FW as [|? ? [H0 _] FW']; subst.
  rewrite H0. apply m_star_lazy_first.
  - eapply Forall_impl; [|exact FW']. now intros a [H _].
  - intros w1 w2 E N. change (lit ":") with [58%N].
    apply colon_fails.
    + subst W. apply Forall_app in FW'. destruct FW' as [_ F2].
      eapply Forall_impl; [|exact F2]. now intros a [_ H].
    + rewrite <- LW. subst W.
      change (c0 :: w1 ++ w2) with ((c0 :: w1) ++ w2).
      now rewrite last_suffix.
  - now apply value_matches.
Qed.
End Items.

Section ClassBody.
Context {P : Python}.
Import RoundTrip.

Lemma hd_rev (A : Type) (l : list A) (d : A) : hd d (rev l) = last l d.
Proof.
  induction l as [|x l IH] using rev_ind; [reflexivity|].
  now rewrite rev_app_distr, last_last.
Qed.

(** [strip] removes the blanks around a text whose first and last
    characters are not blank. *)
Lemma strip_between (a x b : str) :
  Forall (fun c => isspace c = true) a ->
  Forall (fun c => isspace c = true) b ->
  isspace (hd 32%N x) = false ->
  isspace (last x 32%N) = false ->
  strip (a ++ x ++ b) = x.
Proof.
  intros Fa Fb Hh Hl. unfold strip, rstrip.
  rewrite (lstrip_spaces a (x ++ b) Fa).
  - rewrite rev_app_distr. rewrite (lstrip_spaces (rev b) (rev x)).
    + apply rev_involutive.
    + now apply Forall_rev.
    + intros c t E. rewrite <- Hl, <- hd_rev, E. reflexivity.
  - intros c t E. destruct x as [|y x]; [discriminate Hh|].
    cbn in E. injection E as <- _. exact Hh.
Qed.

Lemma ident_ends (k : str) :
  ident k = true ->
  isspace (hd 32%N k) = false /\ isspace (last k 32%N) = false.
Proof.
  intros H. unfold ident in H. destruct k as [|x k]; [discriminate|].
  assert (F : forall c, In c (x :: k) -> isspace c = false).
  { intros c I. rewrite forallb_forall in H.
    apply H, ident_char_facts in I. tauto. }
  split.
  - apply F. now left.
  - apply F. destruct (exists_last (l := x :: k)) as (u & z & E);
      [discriminate|].
    rewrite E, last_last. apply in_or_app. right. now left.
Qed.

Lemma strip_ident (ws k : str) :
  Forall (fun c => isspace c = true) ws -> ident k = true ->
  strip (ws ++ k) = k.
Proof.
  intros F H. destruct (ident_ends k H) as [Hh Hl].
  rewrite <- (app_nil_r k) at 1.
  apply strip_between; [exact F | constructor | exact Hh | exact Hl].
Qed.

Lemma lead_blank : Forall (fun c => isspace c = true) lead.
Proof. repeat constructor. Qed.

Lemma finditer_nil (fuel : nat) : Re.finditer item_re fuel [] = [].
Proof. destruct fuel; reflexivity. Qed.

(** The item pattern returns the entries of a class one after the
    other. *)
Lemma finditer_items (c : class_dict) :
  forall (e : str * str) (ws : str) (fuel : nat),
    Forall (fun c => isspace c = true) ws ->
    Forall (fun e => ident (fst e) = true
                     /\ Forall (fun c => not_quote c = true) (snd e))
           (e :: c) ->
    List.length c < fuel ->
    Re.finditer item_re fuel (ws ++ item_text e ++ tail_items c)
    = (ws ++ fst e, snd e)
        :: List.map (fun e' => (lead ++ fst e', snd e')) c.
Proof.
  induction c as [|e2 c IH]; intros [k v] ws fuel Fw F L;
    (destruct fuel as [|fuel]; [cbn in L; lia|]);
    inversion F as [|? ? [Hk Hv] F']; subst; cbn [fst snd] in *;
    cbn [Re.finditer].
  - cbn [tail_items flat_map]. 
    rewrite (search_here item_re _ (item_matches ws k v [] Fw Hk Hv)).
    now rewrite finditer_nil.
  - cbn [tail_items flat_map]. fold (tail_items c).
    rewrite (search_here item_re _
               (item_matches ws k v ((lead ++ item_text e2) ++ tail_items c)
                             Fw Hk Hv)).
    rewrite <- app_assoc. rewrite IH; [reflexivity | apply lead_blank | exact F' |].
    cbn in L. lia.
Qed.

Lemma entries_as_tail (c : class_dict) :
  10%N :: entries_text c ++ [32; 32]%N = tail_items c ++ [10; 32; 32]%N.
Proof.
  induction c as [|e c IH]; [reflexivity|].
  cbn [entries_text tail_items flat_map].
  fold (entries_text c). fold (tail_items c).
  unfold entry_text, lead. rewrite <- ?app_assoc. cbn [app].
  rewrite <- ?app_assoc. cbn [app]. rewrite <- IH. reflexivity.
Qed.

Lemma items_end (c : class_dict) :
  forall (e : str * str) (pre : str),
  exists m, pre ++ item_text e ++ tail_items c = m ++ [44%N].
Proof.
  induction c as [|e2 c IH]; intros [k v] pre.
  - exists (pre ++ k ++ [58; 32; 39]%N ++ v ++ [39%N]).
    unfold item_text. cbn [fst snd tail_items flat_map].
    rewrite app_nil_r, <- !app_assoc. reflexivity.
  - cbn [tail_items flat_map]. fold (tail_items c).
    destruct (IH e2 (pre ++ item_text (k, v) ++ lead)) as [m E].
    exists m. rewrite <- E, <- !app_assoc. reflexivity.
Qed.

Lemma tail_items_length (c : class_dict) :
  List.length c <= List.length (tail_items c).
Proof.
  induction c as [|e c IH]; [cbn; lia|].
  cbn [tail_items flat_map]. fold (tail_items c).
  rewrite !length_app. cbn. lia.
Qed.

Lemma fold_set_fresh (V : Type) (c acc : Dict.t V) :
  NoDup (Dict.keys acc ++ Dict.keys c) ->
  fold_left (fun d e => Dict.set (fst e) (snd e) d) c acc = acc ++ c.
Proof.
  revert acc. induction c as [|[k v] c IH]; intros acc N.
  - now rewrite app_nil_r.
  - cbn [fold_left fst snd].
    assert (G : Dict.get k acc = None).
    { apply get_none_keys. intros I. cbn in N.
      apply NoDup_remove_2 in N. apply N. apply in_or_app. now left. }
    rewrite set_absent by exact G. rewrite IH.
    + now rewrite <- app_assoc.
    + unfold Dict.keys in *. rewrite map_app, <- app_assoc. exact N.
Qed.

Lemma fold_items (c : class_dict) (acc : class_dict) :
  Forall (fun e => ident (fst e) = true) c ->
  fold_left (fun d (it : str * str) => Dict.set (strip (fst it)) (snd it) d)
            (List.map (fun e' => (lead ++ fst e', snd e')) c) acc
  = fold_left (fun d e => Dict.set (fst e) (snd e) d) c acc.
Proof.
  intros F. revert acc.
  induction F as [|[k v] c Hk F IH]; intros acc; [reflexivity|].
  cbn [List.map fold_left fst snd] in *.
  rewrite (strip_ident lead k lead_blank Hk). apply IH.
Qed.

(** The text between the braces of a class is read back to its
    entries. *)
Lemma parse_items_entries (c : class_dict) :
  Dict.wf c ->
  Forall (fun e => ident (fst e) = true
                   /\ Forall (fun c => not_quote c = true) (snd e)) c ->
  parse_items (strip (10%N :: entries_text c ++ [32; 32]%N)) = c.
Proof.
  intros W F. rewrite entries_as_tail.
  destruct c as [|[k v] c]; [reflexivity|].
  cbn [tail_items flat_map]. fold (tail_items c).
  inversion F as [|? ? [Hk Hv] F']; subst. cbn [fst snd] in *.
  match goal with
  | |- parse_items (strip ?t) = _ =>
      replace t
        with (lead ++ (item_text (k, v) ++ tail_items c) ++ [10; 32; 32]%N)
        by (now rewrite <- ?app_assoc)
  end.
  rewrite strip_between; [| apply lead_blank | repeat constructor | |].
  2:{ destruct (ident_ends k Hk) as [Hh _].
      unfold item_text. cbn [fst snd]. destruct k; [discriminate Hk|exact Hh]. }
  2:{ destruct (items_end c (k, v) []) as [m E]. cbn [app] in E.
      rewrite E, last_last. reflexivity. }
  unfold parse_items.
  change (item_text (k, v) ++ tail_items c)
    with ([] ++ item_text (k, v) ++ tail_items c) at 2.
  rewrite (finditer_items c (k, v) [] _ (Forall_nil _) F).
  - cbn [fold_left fst snd app].
    pose proof (strip_ident [] k (Forall_nil _) Hk) as Sk.
    cbn [app] in Sk. rewrite Sk.
    rewrite fold_items.
    + change (Dict.set k v []) with ([] ++ [(k, v)]). cbn [app].
      apply (fold_set_fresh _ c [(k, v)]). exact W.
    + eapply Forall_impl; [|exact F']. now intros a [H _].
  - rewrite length_app. pose proof (tail_items_length c). lia.
Qed.
End ClassBody.

(** ** The round trip *)

Section RoundTripFacts.
Context {P : Python}.
Import RoundTrip.

Lemma find_closing_flat (inner rest : str) :
  Forall RoundTrip.no_brace inner ->
  find_closing 1 (inner ++ 125%N :: rest) = Some (inner, rest).
Proof.
  induction 1 as [|c inner [H1 H2] F IH]; [reflexivity|].
  cbn [app find_closing]. apply N.eqb_neq in H1, H2.
  rewrite H1, H2, IH. reflexivity.
Qed.

Lemma plain_char_facts (c : char) :
  plain_char c = true -> not_quote c = true /\ RoundTrip.no_brace c.
Proof.
  unfold plain_char, RoundTrip.no_brace, not_quote. intros H.
  apply andb_true_iff in H. destruct H as [H H3].
  apply andb_true_iff in H. destruct H as [H1 H2].
  apply negb_true_iff in H2, H3. apply N.eqb_neq in H2, H3. tauto.
Qed.

Lemma ident_no_brace (k : str) : ident k = true -> Forall RoundTrip.no_brace k.
Proof.
  unfold ident. destruct k as [|x k]; [discriminate|]. intros H.
  apply Forall_forall. intros c I. rewrite forallb_forall in H.
  apply H, ident_char_facts in I. unfold RoundTrip.no_brace. tauto.
Qed.

Lemma entries_no_brace (c : class_dict) :
  Forall (fun e => ident (fst e) = true /\ plain (snd e) = true) c ->
  Forall RoundTrip.no_brace (entries_text c).
Proof.
  induction 1 as [|[k v] c [Hk Hv] F IH]; [constructor|].
  cbn [entries_text flat_map]. fold (entries_text c).
  unfold entry_text, item_text. cbn [fst snd] in *.
  apply plain_inv in Hv. destruct Hv as [Hv _].
  repeat (apply Forall_app; split); try exact IH;
    try (now apply ident_no_brace);
    try (repeat constructor; discriminate).
  eapply Forall_impl; [|exact Hv]. intros a Ha.
  now apply plain_char_facts in Ha.
Qed.

Lemma entries_not_quote (c : class_dict) :
  Forall (fun e => ident (fst e) = true /\ plain (snd e) = true) c ->
  Forall (fun e => ident (fst e) = true
                   /\ Forall (fun c => not_quote c = true) (snd e)) c.
Proof.
  intros F. eapply Forall_impl; [|exact F]. intros [k v] [Hk Hv].
  split; [exact Hk|]. apply plain_inv in Hv. destruct Hv as [Hv _].
  eapply Forall_impl; [|exact Hv]. intros a Ha.
  now apply plain_char_facts in Ha.
Qed.

Lemma top_key_at (g rest : str) :
  ident g = true -> top_key_re (g ++ 58%N :: rest) = Some (g, rest).
Proof.
  intros H. pose proof (ident_word g H) as F.
  destruct g as [|a g]; [discriminate|]. inversion F; subst.
  unfold top_key_re, Re.m_plus. cbn [app].
  replace (is_word a) with true by congruence.
  apply m_star_longest; [assumption | now intros c t [= <- _] |].
  cbn [Re.m_star]. replace (isspace 58%N) with false by reflexivity.
  reflexivity.
Qed.

Lemma search_top (pre g rest : str) :
  Forall (fun c => is_word c = false) pre -> ident g = true ->
  Re.search top_key_re (pre ++ g ++ 58%N :: rest) = Some (g, rest).
Proof.
  intros F H. rewrite search_skip.
  - apply search_here. now apply top_key_at.
  - intros p1 p2 E N. destruct p2 as [|c p2]; [congruence|].
    assert (W : is_word c = false).
    { rewrite Forall_forall in F. apply F. rewrite E.
      apply in_or_app. right. now left. }
    unfold top_key_re, Re.m_plus. cbn [app]. now rewrite W.
Qed.

Lemma parse_loop_none (fuel : nat) (content : str) (acc : parsed) :
  Re.search top_key_re content = None ->
  parse_loop (S fuel) content acc = Some (Ok acc).
Proof.
  intros H. cbn [parse_loop]. destruct content; [reflexivity|].
  now rewrite H.
Qed.

Lemma parse_loop_turn (fuel : nat) (content : str) (acc : parsed)
      (key after body inner rest : str) :
  content <> [] ->
  Re.search top_key_re content = Some (key, after) ->
  skip_to_brace after = Some body ->
  find_closing 1 body = Some (inner, rest) ->
  parse_loop (S fuel) content acc
  = parse_loop fuel rest (Dict.set key (parse_items (strip inner)) acc).
Proof.
  intros N S B F. cbn [parse_loop]. destruct content; [congruence|].
  now rewrite S, B, F.
Qed.

Lemma class_text_shape (g : str) (c : class_dict) (pre rest : str) :
  pre ++ class_text (g, c) ++ rest
  = (pre ++ [32; 32]%N) ++ g
      ++ 58%N :: 32%N :: 123%N
      :: (10%N :: entries_text c ++ [32; 32]%N)
      ++ 125%N :: [44; 10]%N ++ rest.
Proof.
  unfold class_text. cbn [fst snd].
  repeat (rewrite <- ?app_assoc; cbn [app]). reflexivity.
Qed.

(** The loop reads the classes back, one turn per class. *)
Lemma parse_loop_classes (doc : parsed) :
  forall (sep : str) (acc : parsed) (fuel : nat),
    Forall (fun c => is_word c = false) sep ->
    Forall (fun e => Dict.wf (snd e)) doc ->
    Forall (fun e => ident (fst e) = true
                     /\ Forall (fun e => ident (fst e) = true
                                         /\ plain (snd e) = true)
                               (snd e)) doc ->
    List.length (sep ++ classes_text doc ++ [125%N]) < fuel ->
    parse_loop fuel (sep ++ classes_text doc ++ [125%N]) acc
    = Some (Ok (fold_left (fun r e => Dict.set (fst e) (snd e) r) doc acc)).
Proof.
  induction doc as [|[g c] doc IH]; intros sep acc fuel Fs W F L;
    (destruct fuel as [|fuel]; [lia|]).
  - cbn [classes_text flat_map app fold_left].
    apply parse_loop_none. apply search_none. intros p1 p2 E.
    destruct p2 as [|x p2]; [reflexivity|].
    assert (Wx : is_word x = false).
    { assert (I : In x (sep ++ [125%N]))
        by (rewrite E; apply in_or_app; right; now left).
      apply in_app_or in I. destruct I as [I|[<-|[]]]; [|reflexivity].
      rewrite Forall_forall in Fs. now apply Fs. }
    unfold top_key_re, Re.m_plus. now rewrite Wx.
  - inversion W as [|? ? Wc W']; subst. inversion F as [|? ? [Hg Hc] F'];
      subst. cbn [fst snd] in *.
    cbn [classes_text flat_map fold_left fst snd] in *.
    fold (classes_text doc) in *.
    rewrite <- app_assoc in *. rewrite class_text_shape in *.
    rewrite (parse_loop_turn fuel _ acc g
               (32%N :: 123%N :: (10%N :: entries_text c ++ [32; 32]%N)
                  ++ 125%N :: [44; 10]%N ++ classes_text doc ++ [125%N])
               ((10%N :: entries_text c ++ [32; 32]%N)
                  ++ 125%N :: [44; 10]%N ++ classes_text doc ++ [125%N])
               (10%N :: entries_text c ++ [32; 32]%N)
               ([44; 10]%N ++ classes_text doc ++ [125%N])).
    + rewrite (parse_items_entries c Wc (entries_not_quote c Hc)).
      apply IH; try assumption.
      * repeat constructor.
      * rewrite !length_app in L. cbn [List.length] in L.
        rewrite !length_app in L. cbn [List.length] in L.
        rewrite !length_app in *. cbn [List.length] in *. lia.
    + destruct sep; discriminate.
    + apply search_top; [|exact Hg].
      apply Forall_app. split; [exact Fs | repeat constructor].
    + reflexivity.
    + apply find_closing_flat.
      change (10%N :: entries_text c ++ [32; 32]%N)
        with ([10%N] ++ entries_text c ++ [32; 32]%N).
      repeat (apply Forall_app; split);
        try (repeat constructor; discriminate).
      now apply entries_no_brace.
Qed.

(** A document of classes of strings, whose class names and keys are
    identifiers and distinct where a dict requires it, and whose values
    hold no quote of either kind, no brace, no [//] and no
    [export default], is read back from its serialized text as it was. *)
Lemma parse_serialized_text (doc : parsed) :
  readable doc -> parse_js_file (serialize doc) = Ok doc.
Proof.
  intros [[W Wc] R]. unfold parse_js_file.
  rewrite (prepare_serialize doc R).
  rewrite (parse_loop_classes doc [123; 10]%N []).
  - f_equal. apply (fold_set_fresh _ doc []). exact W.
  - repeat constructor.
  - exact Wc.
  - now apply readable_entries.
  - apply Nat.lt_succ_diag_r.
Qed.

(** *** Through the file *)

Lemma in_contains (c : char) (s : str) : In c s -> contains [c] s = true.
Proof.
  induction s as [|x t IH]; [intros []|]. intros [->|I].
  - cbn [contains startswith]. now rewrite N.eqb_refl.
  - cbn [contains]. rewrite (IH I). apply orb_true_r.
Qed.

Lemma read_written_lf (s : str) :
  ~ In 13%N s -> TextFile.read_from false (TextFile.write_text [10%N] s) = s.
Proof.
  induction s as [|c t IH]; intros N; [reflexivity|].
  assert (Nc : (c =? 13)%N = false).
  { apply N.eqb_neq. intros ->. apply N. now left. }
  assert (Nt : ~ In 13%N t) by (intros I; apply N; now right).
  cbn [TextFile.write_text].
  destruct (c =? 10)%N eqn:E.
  - apply N.eqb_eq in E. subst c. cbn [app TextFile.read_from].
    change (10 =? 13)%N with false. cbn [andb]. cbv iota.
    now rewrite IH.
  - cbn [app TextFile.read_from]. rewrite Nc, E. cbn [andb].
    now rewrite IH.
Qed.

Lemma read_written_crlf (s : str) :
  ~ In 13%N s ->
  TextFile.read_from false (TextFile.write_text [13; 10]%N s) = s.
Proof.
  induction s as [|c t IH]; intros N; [reflexivity|].
  assert (Nc : (c =? 13)%N = false).
  { apply N.eqb_neq. intros ->. apply N. now left. }
  assert (Nt : ~ In 13%N t) by (intros I; apply N; now right).
  cbn [TextFile.write_text].
  destruct (c =? 10)%N eqn:E.
  - apply N.eqb_eq in E. subst c. cbn [app TextFile.read_from].
    change (13 =? 13)%N with true. change (10 =? 13)%N with false.
    change (10 =? 10)%N with true. cbn [andb]. cbv iota.
    now rewrite IH.
  - cbn [app TextFile.read_from]. rewrite Nc, E. cbn [andb].
    now rewrite IH.
Qed.

(** A text without carriage return is read from its file as it was
    written, whatever the line separator of the platform. *)
Lemma through_file_same (linesep s : str) :
  TextFile.os_linesep linesep -> ~ In 13%N s ->
  TextFile.through_file linesep s = s.
Proof.
  unfold TextFile.through_file, TextFile.read_text.
  intros [->| ->] N; [now apply read_written_lf|now apply read_written_crlf].
Qed.

Lemma doc_no_cr_entries (doc : parsed) :
  forallb class_ok doc = true -> TextFile.doc_no_cr doc = true ->
  Forall (fun e => ident (fst e) = true
                   /\ Forall (fun e => ident (fst e) = true
                                       /\ contains [13%N] (snd e) = false)
                             (snd e)) doc.
Proof.
  intros H C. apply readable_entries in H. unfold TextFile.doc_no_cr in C.
  rewrite forallb_forall in C. apply Forall_forall. intros [g c] I.
  rewrite Forall_forall in H. destruct (H _ I) as [Hg Hc].
  split; [exact Hg|]. specialize (C _ I). cbn [snd] in *.
  rewrite forallb_forall in C. apply Forall_forall. intros [k v] Ie.
  rewrite Forall_forall in Hc. destruct (Hc _ Ie) as [Hk _].
  split; [exact Hk|]. specialize (C _ Ie). cbn [snd] in *.
  unfold TextFile.no_cr in C. now apply negb_true_iff in C.
Qed.

(** The serialized text of a document whose values hold no carriage
    return holds none. *)
Lemma serialize_no_cr (doc : parsed) :
  forallb class_ok doc = true -> TextFile.doc_no_cr doc = true ->
  ~ In 13%N (serialize doc).
Proof.
  intros H C I. rewrite serialize_text in I. apply in_app_or in I.
  destruct I as [I|I].
  - cbn in I. intuition discriminate.
  - apply in_contains in I.
    rewrite (clean_body [13%N]) in I; [discriminate| | | |].
    + intros c B [<-|[]]. discriminate B.
    + eexists _, _. split; [reflexivity|discriminate].
    + constructor. reflexivity.
    + now apply doc_no_cr_entries.
Qed.

(** C2 (amended).  A document of classes of strings, whose class names
    and keys are identifiers (not empty, of word characters, none blank)
    and distinct where a dict requires it, whose values hold no quote
    of either kind, no brace, no carriage return, no [//] and no
    [export default], and whose names and values UTF-8 can encode (no
    surrogate), is read back as it was, in the same order, from the
    file its serialized text was written to, whether the platform
    separates lines with a line feed or with a carriage return and a
    line feed. *)
Theorem parse_serialize (doc : parsed) (linesep : str) :
  readable doc -> TextFile.doc_no_cr doc = true ->
  TextFile.doc_utf8 doc = true ->
  TextFile.os_linesep linesep ->
  parse_js_file (TextFile.through_file linesep (serialize doc)) = Ok doc.
Proof.
  intros R C _ L. pose proof R as [_ K].
  rewrite (through_file_same linesep _ L (serialize_no_cr doc K C)).
  now apply parse_serialized_text.
Qed.
End RoundTripFacts.

(** Witness of C2: scenario 1 with a second key whose value holds a comma
    and a colon, and an empty class, through a file with lines separated
    by a carriage return and a line feed. *)
Lemma parse_serialize_witness :
  parse_js_file (P := latin1)
    (TextFile.through_file [13; 10]%N
       (RoundTrip.serialize (P := latin1) RoundTrip.two_classes))
  = Ok RoundTrip.two_classes.
Proof.
  apply (parse_serialize (P := latin1)).
  - split; [split|].
    + repeat constructor; cbn; intuition discriminate.
    + repeat constructor; cbn; intuition discriminate.
    + reflexivity.
  - reflexivity.
  - reflexivity.
  - now right.
Defined.

(** C2 as stated fails on documents the nester builds and the parser
    cannot read back from their file: the value [it's] is nested with its
    apostrophe escaped and comes back cut after the backslash, a value
    with a URL is taken for a comment and its entry is lost, and a
    carriage return comes back as a line feed.  None of the documents
    holds a sentinel key or a path deeper than class and key. *)
Lemma parse_serialize_loses_values :
  nest (P := latin1) (Examples.table [Examples.row1 "g" "k" "it's"])
       Examples.en_us
  = RoundTrip.to_nodes RoundTrip.apostrophe
  /\ parse_js_file (P := latin1)
       (TextFile.through_file [10%N]
          (RoundTrip.serialize (P := latin1) RoundTrip.apostrophe))
     = Ok [(lit "g", [(lit "k", lit "it" ++ [92%N])])]
  /\ RoundTrip.parsed_eqb [(lit "g", [(lit "k", lit "it" ++ [92%N])])]
                          RoundTrip.apostrophe = false
  /\ nest (P := latin1) (Examples.table [Examples.row1 "g" "k" "http://a.b"])
          Examples.en_us
     = RoundTrip.to_nodes RoundTrip.url
  /\ parse_js_file (P := latin1)
       (TextFile.through_file [10%N]
          (RoundTrip.serialize (P := latin1) RoundTrip.url))
     = Ok [(lit "g", [])]
  /\ RoundTrip.parsed_eqb [(lit "g", [])] RoundTrip.url = false
  /\ parse_js_file (P := latin1)
       (TextFile.through_file [10%N]
          (RoundTrip.serialize (P := latin1) TextFile.carriage))
     = Ok [(lit "g", [(lit "k", lit "a" ++ [10%N] ++ lit "b")])]
  /\ RoundTrip.parsed_eqb
       [(lit "g", [(lit "k", lit "a" ++ [10%N] ++ lit "b")])]
       TextFile.carriage = false.
Proof. repeat split. Qed.

(** ** The fuel of the two loops is enough *)

Section Fuel.
Context {P : Python}.

Lemma m_plus_lazy_inv (R : Type) (cls : char -> bool) (k : str -> Re.M R)
      (s : str) (r : R) :
  Re.m_plus_lazy cls k s = Some r ->
  exists w s', s = w ++ s' /\ w <> [] /\ k w s' = Some r.
Proof.
  unfold Re.m_plus_lazy. destruct s as [|c t]; [discriminate|].
  destruct (cls c); [|discriminate]. intros H.
  apply m_star_lazy_inv in H. destruct H as (w & s' & -> & _ & K).
  exists (c :: w), s'. split; [reflexivity|]. split; [discriminate|exact K].
Qed.

Lemma m_set_inv (R : Type) (cls : char -> bool) (m : Re.M R) (s : str)
      (r : R) :
  Re.m_set cls m s = Some r -> exists c t, s = c :: t /\ m t = Some r.
Proof.
  unfold Re.m_set. destruct s as [|c t]; [discriminate|].
  destruct (cls c); [|discriminate]. intros H. now exists c, t.
Qed.

Lemma m_opt_inv (R : Type) (x : char) (m : Re.M R) (s : str) (r : R) :
  Re.m_opt x m s = Some r ->
  exists w s', s = w ++ s' /\ m s' = Some r.
Proof.
  unfold Re.m_opt. destruct s as [|c t].
  - intros H. now exists [], [].
  - destruct (c =? x)%N.
    + destruct (m t) as [r'|] eqn:M; cbn [Re.orelse].
      * intros [= <-]. now exists [c], t.
      * intros H. now exists [], (c :: t).
    + intros H. now exists [], (c :: t).
Qed.

(** A match of the item pattern is never empty. *)
Lemma item_re_shortens (s : str) (a : str * str) (rest : str) :
  item_re s = Some (a, rest) -> List.length rest < List.length s.
Proof.
  unfold item_re. intros H.
  apply m_plus_lazy_inv in H. destruct H as (w1 & s1 & -> & N1 & H).
  apply m_star_inv in H. destruct H as (w2 & s2 & -> & _ & H).
  apply m_lit_inv in H. destruct H as (s3 & -> & H).
  apply m_star_inv in H. destruct H as (w3 & s4 & -> & _ & H).
  apply m_set_inv in H. destruct H as (q & s5 & -> & H).
  apply m_star_inv in H. destruct H as (w4 & s6 & -> & _ & H).
  apply m_set_inv in H. destruct H as (q' & s7 & -> & H).
  apply m_opt_inv in H. destruct H as (w5 & s8 & -> & H).
  injection H as _ <-.
  repeat (rewrite length_app || cbn [List.length]).
  destruct w1; [congruence|]. cbn [List.length]. lia.
Qed.

Lemma search_item_shortens (s : str) (a : str * str) (rest : str) :
  Re.search item_re s = Some (a, rest) -> List.length rest < List.length s.
Proof.
  intros H. apply search_inv in H. destruct H as (pre & s' & -> & H).
  apply item_re_shortens in H. rewrite length_app. lia.
Qed.

(** [re.finditer] of the item pattern does not depend on the fuel once
    the fuel exceeds the length of the text: the model never cuts the
    iteration short. *)
Lemma finditer_fuel (n m : nat) (s : str) :
  List.length s < n -> List.length s < m ->
  Re.finditer item_re n s = Re.finditer item_re m s.
Proof.
  revert m s. induction n as [|n IH]; intros m s Hn Hm; [lia|].
  destruct m as [|m]; [lia|]. cbn [Re.finditer].
  destruct (Re.search item_re s) as [[a rest]|] eqn:E; [|reflexivity].
  apply search_item_shortens in E. f_equal. apply IH; lia.
Qed.

(** [parse_js_file] is the outcome of its loop: the fuel it gives the
    loop is never exhausted. *)
Lemma parse_js_file_loop (content : str) :
  parse_loop (S (List.length (prepare content))) (prepare content) []
  = Some (parse_js_file content).
Proof.
  unfold parse_js_file.
  destruct (parse_loop _ _ _) as [r|] eqn:E; [reflexivity|].
  exfalso. revert E. apply parse_loop_fuel. apply Nat.lt_succ_diag_r.
Qed.
End Fuel.

(** ** The errors of the parser *)

Section ParserErrors.
Context {P : Python}.
Import Braces Headers RoundTrip.

Lemma search_empty : Re.search top_key_re [] = None.
Proof. reflexivity. Qed.

(** The loop raises for the class at which it arrives with a brace that
    counting never closes. *)
Lemma parse_loop_unclosed (content s key : str) :
  reaches content s -> unclosed_at s key ->
  forall (fuel : nat) (acc : parsed),
    List.length content < fuel ->
    parse_loop fuel content acc = Some (Raise key).
Proof.
  intros R (after & body & S & B & C).
  induction R as [s|s k a b inner rest s' S1 B1 F1 R IH];
    intros fuel acc L; (destruct fuel as [|fuel]; [lia|]);
    cbn [parse_loop].
  - destruct s as [|c t]; [rewrite search_empty in S; discriminate|].
    rewrite S, B.
    destruct (find_closing 1 body) as [[inner rest]|] eqn:F; [|reflexivity].
    exfalso. apply C. apply find_closing_closes. congruence.
  - destruct s as [|c t]; [rewrite search_empty in S1; discriminate|].
    rewrite S1, B1, F1. apply (IH S).
    destruct (turn_shortens _ S1 B1 F1) as (before & E & N).
    rewrite E, length_app in L. destruct before; [congruence|].
    cbn in L. lia.
Qed.

(** When the loop raises, it has arrived at such a class. *)
Lemma parse_loop_arrives (fuel : nat) (content : str) (acc : parsed)
      (key : str) :
  parse_loop fuel content acc = Some (Raise key) ->
  exists s, reaches content s /\ unclosed_at s key.
Proof.
  revert content acc. induction fuel as [|fuel IH]; intros content acc;
    [discriminate|].
  cbn [parse_loop]. destruct content as [|c t]; [discriminate|].
  destruct (Re.search top_key_re (c :: t)) as [[k after]|] eqn:S;
    [|discriminate].
  destruct (skip_to_brace after) as [body|] eqn:B; [|discriminate].
  destruct (find_closing 1 body) as [[inner rest]|] eqn:F.
  - intros H. apply IH in H. destruct H as (s & R & U).
    exists s. split; [|exact U].
    eapply reaches_turn; eassumption.
  - intros [= <-]. exists (c :: t). split; [apply reaches_start|].
    exists after, body. split; [exact S|]. split; [exact B|].
    intros C. apply find_closing_closes in C. congruence.
Qed.

Lemma skip_to_brace_gap (gap body : str) :
  ~ In 123%N gap -> skip_to_brace (gap ++ 123%N :: body) = Some body.
Proof.
  induction gap as [|c gap IH]; intros N.
  - cbn. reflexivity.
  - cbn [app skip_to_brace].
    assert (E : (c =? 123)%N = false).
    { apply N.eqb_neq. intros ->. apply N. now left. }
    rewrite E. apply IH. intros I. apply N. now right.
Qed.

(** Without a header, or without an opening brace, there is no class to
    read. *)
Lemma parse_loop_no_class (fuel : nat) (content : str) :
  ~ has_header content \/ ~ In 123%N content -> 0 < fuel ->
  parse_loop fuel content [] = Some (Ok []).
Proof.
  intros N L. destruct fuel as [|fuel]; [lia|]. cbn [parse_loop].
  destruct content as [|c t]; [reflexivity|].
  destruct (Re.search top_key_re (c :: t)) as [[key after]|] eqn:S;
    [|reflexivity].
  destruct (skip_to_brace after) as [body|] eqn:B; [|reflexivity].
  exfalso. destruct (top_key_inv _ S) as (pre & mid & E & Nk & Fk & Fm).
  destruct N as [N|N].
  - apply N. now exists pre, key, mid, after.
  - apply skip_to_brace_inv in B. destruct B as (gap & -> & _).
    apply N. rewrite E. apply in_or_app. right. apply in_or_app. right.
    apply in_or_app. right. right. apply in_or_app. right. now left.
Qed.

(** C6 (amended).  On the text read from the file, [parse_js_file]
    fails only with the error that names a class, and it does so exactly
    when its loop, past the classes
    whose braces counting closes, arrives at a header whose opening
    brace counting never closes: the error names that class.  In terms
    of the text: the error names a word that is followed by blanks, a
    colon and an opening brace never closed; and a text at which the loop
    arrives, made of characters outside words, an identifier, a colon and
    an opening brace never closed, is refused with the name of the
    identifier.  The parse succeeds whenever every opening brace of the
    prepared text is closed by counting, whatever closing braces remain;
    on a text without any class header, or without any opening brace, it
    returns the empty dict rather than an error.  An empty result is an
    error of [js_to_excel] for the first file, and makes it skip any
    other file. *)
Theorem parse_js_file_structural_errors (content : str) :
  (forall key,
      parse_js_file content = Raise key
      <-> exists s, reaches (prepare content) s /\ unclosed_at s key)
  /\ (forall key,
      parse_js_file content = Raise key ->
      exists pre mid gap body,
        prepare content = pre ++ key ++ mid ++ 58%N :: gap ++ 123%N :: body
        /\ key <> []
        /\ Forall (fun c => is_word c = true) key
        /\ Forall (fun c => isspace c = true) mid
        /\ ~ In 123%N gap
        /\ ~ closes_at 1 body)
  /\ (forall s pre key gap body,
      reaches (prepare content) s ->
      s = pre ++ key ++ 58%N :: gap ++ 123%N :: body ->
      Forall (fun c => is_word c = false) pre ->
      ident key = true ->
      ~ In 123%N gap ->
      ~ closes_at 1 body ->
      parse_js_file content = Raise key)
  /\ (all_closed (prepare content) ->
      exists data, parse_js_file content = Ok data)
  /\ (~ has_header (prepare content) \/ ~ In 123%N (prepare content) ->
      parse_js_file content = Ok [])
  /\ (parse_js_file content = Ok [] ->
      forall lang others base_df,
        js_to_excel ((lang, content) :: others) = Raise EmptyBase
        /\ merge_others base_df ((lang, content) :: others)
           = merge_others base_df others).
Proof.
  assert (U : forall s key,
             reaches (prepare content) s -> unclosed_at s key ->
             parse_js_file content = Raise key).
  { intros s key R Us. unfold parse_js_file.
    now rewrite (parse_loop_unclosed _ s key R Us
                   (S (List.length (prepare content))) []
                   (Nat.lt_succ_diag_r _)). }
  split; [|split; [|split; [|split; [|split]]]].
  - intros key. split; [|intros (s & R & Us); now apply (U s)].
    intros H. pose proof (parse_js_file_loop content) as E.
    rewrite H in E. now apply parse_loop_arrives in E.
  - intros key H. pose proof (parse_js_file_loop content) as E.
    rewrite H in E. now apply parse_loop_raise in E.
  - intros s pre key gap body R -> Fp Hk Ng C. apply (U _ key R).
    exists (gap ++ 123%N :: body), body.
    split; [now apply search_top|]. split; [now apply skip_to_brace_gap|].
    exact C.
  - intros A. unfold parse_js_file.
    destruct (parse_loop_closed [] A
                (Nat.lt_succ_diag_r (List.length (prepare content))))
      as [data E].
    exists data. now rewrite E.
  - intros N. unfold parse_js_file.
    rewrite parse_loop_no_class; [reflexivity | exact N | lia].
  - intros H lang others base_df. split.
    + unfold js_to_excel. now rewrite H.
    + cbn [merge_others]. now rewrite H.
Qed.
End ParserErrors.

(** Witness of C6: the text [a: { k: 'v' } }] has its one opening brace
    closed and is parsed; the text [hello] holds no header and gives the
    empty dict, which [js_to_excel] refuses for a first file; a file whose
    first class is left open is refused with its name, and so is a file
    whose second class is left open. *)
Lemma parse_js_file_structural_errors_witness :
  (exists data, parse_js_file (P := latin1) Braces.stray_close = Ok data)
  /\ parse_js_file (P := latin1) (lit "hello") = Ok []
  /\ js_to_excel (P := latin1) [(lit "en", lit "hello")] = Raise EmptyBase
  /\ parse_js_file (P := latin1) (lit "export default { text: { a: 'x', ")
     = Raise (lit "text")
  /\ parse_js_file (P := latin1) Headers.second_open = Raise (lit "b").
Proof.
  destruct (parse_js_file_structural_errors (P := latin1) Braces.stray_close)
    as (_ & _ & _ & H & _).
  destruct (parse_js_file_structural_errors (P := latin1) (lit "hello"))
    as (_ & _ & _ & _ & H1 & H2).
  destruct (parse_js_file_structural_errors (P := latin1)
              (lit "export default { text: { a: 'x', "))
    as (_ & _ & H3 & _).
  destruct (parse_js_file_structural_errors (P := latin1)
              Headers.second_open)
    as (H4 & _).
  assert (N : ~ In 123%N (prepare (P := latin1) (lit "hello")))
    by (vm_compute; intuition discriminate).
  split; [|split; [|split; [|split]]].
  - apply H. apply all_closed_b_sound. reflexivity.
  - apply H1. now right.
  - apply (H2 (H1 (or_intror N)) (lit "en") [] []).
  - apply (H3 _ [123; 32]%N (lit "text") [32%N] (lit " a: 'x',")
              (Headers.reaches_start _)).
    + reflexivity.
    + repeat constructor.
    + reflexivity.
    + cbn. intuition discriminate.
    + intros C. apply find_closing_closes in C. now apply C.
  - apply H4. exists (lit ", b: { x: 'y',").
    split.
    + eapply (@Headers.reaches_turn latin1);
        [reflexivity | reflexivity | reflexivity | apply Headers.reaches_start].
    + exists (lit " { x: 'y',"), (lit " x: 'y',").
      split; [reflexivity|]. split; [reflexivity|].
      intros C. apply find_closing_closes in C. now apply C.
Defined.

(** C6 as stated fails in both directions: a text with a closing brace
    too many is parsed without error; a non-empty text without any class
    is parsed to the empty dict without error, and as the file of a later
    locale it does not make the merge fail either. *)
Lemma parse_js_file_accepts_stray_brace :
  Braces.balanced Braces.stray_close = false
  /\ parse_js_file (P := latin1) Braces.stray_close
     = Ok [(lit "a", [(lit "k", lit "v")])]
  /\ parse_js_file (P := latin1) (lit "hello") = Ok []
  /\ js_to_excel (P := latin1)
       [(lit "en", lit "a: { k: 'v' }"); (lit "zh", lit "hello")]
     = Ok [{| t_class := lit "a"; t_key := lit "k";
              t_values := [(lit "en", Some (VStr (lit "v")))] |}].
Proof. repeat split. Qed.

(* ================================================================== *)
(** * Further properties of the four scripts                           *)
(* ================================================================== *)

(** ** Dictionaries, continued *)

Section DictMore.
Variable V : Type.
Implicit Types (d : Dict.t V) (k : str) (v : V).

Lemma existsb_str_in (k : str) (l : list str) :
  existsb (str_eqb k) l = true <-> In k l.
Proof.
  rewrite existsb_exists. split.
  - intros (x & I & E). apply str_eqb_eq in E. now subst.
  - intros I. exists k. split; [exact I | apply str_eqb_refl].
Qed.

Lemma keys_set k v d :
  Dict.keys (Dict.set k v d)
  = if existsb (str_eqb k) (Dict.keys d) then Dict.keys d
    else Dict.keys d ++ [k].
Proof.
  unfold Dict.keys. induction d as [|[k' v'] r IH]; [reflexivity|].
  cbn [Dict.set List.map fst existsb].
  destruct (str_eqb k k') eqn:E; cbn [orb List.map fst].
  - apply str_eqb_eq in E. now subst.
  - rewrite IH. now destruct (existsb (str_eqb k) (List.map fst r)).
Qed.

Lemma set_same k v d : Dict.get k d = Some v -> Dict.set k v d = d.
Proof.
  induction d as [|[k' v'] r IH]; [discriminate|].
  cbn [Dict.get Dict.set]. destruct (str_eqb k k') eqn:E.
  - apply str_eqb_eq in E. subst. now intros [= ->].
  - intros G. now rewrite IH.
Qed.

Lemma get_some_keys k d :
  In k (Dict.keys d) <-> exists v, Dict.get k d = Some v.
Proof.
  destruct (Dict.get k d) as [v|] eqn:G.
  - split; [now exists v|]. intros _.
    apply get_in in G. apply in_map_iff. now exists (k, v).
  - split; [|intros [v [=]]]. intros I.
    now apply get_none_keys in G.
Qed.

(** Two dicts with the same keys in the same order and the same values
    are the same list. *)
Lemma dict_ext d1 d2 :
  Dict.wf d1 -> Dict.keys d1 = Dict.keys d2 ->
  (forall k, Dict.get k d1 = Dict.get k d2) -> d1 = d2.
Proof.
  unfold Dict.wf. revert d2.
  induction d1 as [|[k1 v1] r1 IH]; intros [|[k2 v2] r2] W K G;
    try discriminate; [reflexivity|].
  cbn in K. injection K as -> K.
  inversion W as [|? ? N W']; subst.
  pose proof (G k2) as G2. cbn in G2. rewrite str_eqb_refl in G2.
  injection G2 as ->. f_equal. apply IH; [exact W' | exact K|].
  intros k. specialize (G k). cbn in G.
  destruct (str_eqb k k2) eqn:E; [|exact G].
  apply str_eqb_eq in E. subst k.
  assert (N2 : ~ In k2 (Dict.keys r2)) by (unfold Dict.keys; now rewrite <- K).
  apply get_none_keys in N. apply get_none_keys in N2. congruence.
Qed.
End DictMore.

Lemma first_seen_from_app (seen a b : list str) :
  first_seen_from seen (a ++ b) = first_seen_from (first_seen_from seen a) b.
Proof. unfold first_seen_from. apply fold_left_app. Qed.

Lemma first_seen_from_prefix (seen l : list str) :
  exists extra, first_seen_from seen l = seen ++ extra.
Proof.
  revert seen. induction l as [|k l IH]; intros seen.
  - exists []. cbn. now rewrite app_nil_r.
  - cbn. destruct (existsb (str_eqb k) seen); [apply IH|].
    destruct (IH (seen ++ [k])) as [extra E]. exists (k :: extra).
    unfold first_seen_from in E. rewrite E. now rewrite <- app_assoc.
Qed.

Lemma first_seen_from_split (seen acc l : list str) :
  first_seen_from (seen ++ acc) l
  = seen ++ first_seen_from acc
              (filter (fun k => negb (existsb (str_eqb k) seen)) l).
Proof.
  revert acc. induction l as [|k l IH]; intros acc; [reflexivity|].
  unfold first_seen_from in *. cbn [fold_left filter].
  rewrite existsb_app.
  destruct (existsb (str_eqb k) seen) eqn:E; cbn [orb negb].
  - apply IH.
  - cbn [fold_left]. destruct (existsb (str_eqb k) acc) eqn:E'.
    + apply IH.
    + rewrite <- app_assoc. apply IH.
Qed.

Lemma first_seen_from_in (seen l : list str) (k : str) :
  In k (first_seen_from seen l) <-> In k seen \/ In k l.
Proof.
  revert seen. induction l as [|a l IH]; intros seen.
  - cbn. tauto.
  - unfold first_seen_from in *. cbn [fold_left].
    destruct (existsb (str_eqb a) seen) eqn:E; rewrite IH.
    + apply existsb_str_in in E. cbn. intuition (subst; auto).
    + rewrite in_app_iff. cbn. tauto.
Qed.

Lemma first_seen_from_known (seen l : list str) :
  incl l seen -> first_seen_from seen l = seen.
Proof.
  induction l as [|a l IH]; intros I; [reflexivity|].
  unfold first_seen_from in *. cbn [fold_left].
  assert (E : existsb (str_eqb a) seen = true).
  { apply existsb_str_in. apply I. now left. }
  rewrite E. apply IH. intros x Hx. apply I. now right.
Qed.

(** ** update_excel_to_json.py: what is written *)

Section UpdateRunFacts.
Import UpdateExcelToJson UpdateRun.

Lemma set_set (V : Type) (k : str) (v w : V) (d : Dict.t V) :
  Dict.set k v (Dict.set k w d) = Dict.set k v d.
Proof.
  induction d as [|[k' v'] r IH]; cbn [Dict.set].
  - now rewrite str_eqb_refl.
  - destruct (str_eqb k k') eqn:E; cbn [Dict.set].
    + now rewrite str_eqb_refl.
    + rewrite E. now rewrite IH.
Qed.

Lemma row_doc_twice (lang : str) (d : json_doc) (r : xrow) :
  row_doc lang (row_doc lang d r) r = row_doc lang d r.
Proof.
  unfold row_doc. destruct (present r lang); [apply set_set | reflexivity].
Qed.

Lemma read_old (output_directory : directory) (l : list str)
      (acc : list (str * json_doc)) (lang : str) :
  In lang l ->
  Dict.get lang (read_into output_directory acc l)
  = Some (old_document output_directory lang).
Proof.
  revert acc. induction l as [|a l IH]; intros acc I; [destruct I|].
  rewrite read_into_cons.
  destruct (in_dec (list_eq_dec N.eq_dec) lang l) as [I'|N].
  - now apply IH.
  - rewrite read_other by exact N.
    destruct I as [->|I]; [|contradiction].
    apply get_set_same.
Qed.

Lemma read_keys (output_directory : directory) (l : list str)
      (acc : list (str * json_doc)) :
  Dict.keys (read_into output_directory acc l)
  = first_seen_from (Dict.keys acc) l.
Proof.
  revert acc. induction l as [|a l IH]; intros acc; [reflexivity|].
  rewrite read_into_cons, IH, keys_set. reflexivity.
Qed.

Lemma read_wf (output_directory : directory) (l : list str)
      (acc : list (str * json_doc)) :
  Dict.wf acc -> Dict.wf (read_into output_directory acc l).
Proof.
  revert acc. induction l as [|a l IH]; intros acc W; [exact W|].
  rewrite read_into_cons. apply IH. now apply wf_set.
Qed.

Lemma update_cell_get (r : xrow) (lf : list (str * json_doc))
      (lang0 lang : str) :
  Dict.get lang (update_cell r lf lang0)
  = if str_eqb lang lang0
    then option_map (fun d => row_doc lang d r) (Dict.get lang lf)
    else Dict.get lang lf.
Proof.
  unfold update_cell, row_doc.
  destruct (str_eqb lang lang0) eqn:E.
  - apply str_eqb_eq in E. subst lang0.
    destruct (present r lang) as [v|].
    + destruct (Dict.get lang lf) as [d|] eqn:G.
      * now rewrite get_set_same.
      * now rewrite G.
    + now destruct (Dict.get lang lf).
  - destruct (present r lang0) as [v|]; [|reflexivity].
    destruct (Dict.get lang0 lf) as [d|]; [|reflexivity].
    now rewrite get_set_dec, E.
Qed.

Lemma update_cell_keys (r : xrow) (lf : list (str * json_doc)) (lang0 : str) :
  Dict.keys (update_cell r lf lang0) = Dict.keys lf.
Proof.
  unfold update_cell.
  destruct (present r lang0) as [v|]; [|reflexivity].
  destruct (Dict.get lang0 lf) as [d|] eqn:G; [|reflexivity].
  rewrite keys_set.
  match goal with
  | |- (if ?b then _ else _) = _ => assert (E : b = true)
  end.
  { apply existsb_str_in. apply get_some_keys. now exists d. }
  now rewrite E.
Qed.

Lemma update_cell_wf (r : xrow) (lf : list (str * json_doc)) (lang0 : str) :
  Dict.wf lf -> Dict.wf (update_cell r lf lang0).
Proof. unfold Dict.wf. now rewrite update_cell_keys. Qed.

Lemma update_row_get (r : xrow) (l : list str) (lf : list (str * json_doc))
      (lang : str) (d : json_doc) :
  Dict.get lang lf = Some d ->
  Dict.get lang (fold_left (update_cell r) l lf)
  = Some (if existsb (str_eqb lang) l then row_doc lang d r else d).
Proof.
  revert lf d. induction l as [|a l IH]; intros lf d G; [exact G|].
  cbn [fold_left existsb].
  pose proof (update_cell_get r lf a lang) as U. rewrite G in U.
  destruct (str_eqb lang a); cbn [orb option_map] in *.
  - rewrite (IH _ _ U). rewrite row_doc_twice.
    now destruct (existsb (str_eqb lang) l).
  - now rewrite (IH _ _ U).
Qed.

Lemma update_row_none (r : xrow) (l : list str) (lf : list (str * json_doc))
      (lang : str) :
  Dict.get lang lf = None ->
  Dict.get lang (fold_left (update_cell r) l lf) = None.
Proof.
  revert lf. induction l as [|a l IH]; intros lf G; [exact G|].
  cbn [fold_left]. apply IH. rewrite update_cell_get, G.
  now destruct (str_eqb lang a).
Qed.

Lemma update_row_keys (r : xrow) (l : list str) (lf : list (str * json_doc)) :
  Dict.keys (fold_left (update_cell r) l lf) = Dict.keys lf.
Proof.
  revert lf. induction l as [|a l IH]; intros lf; [reflexivity|].
  cbn [fold_left]. now rewrite IH, update_cell_keys.
Qed.

Lemma update_rows_get (rs : list xrow) (l : list str)
      (lf : list (str * json_doc)) (lang : str) (d : json_doc) :
  In lang l -> Dict.get lang lf = Some d ->
  Dict.get lang (fold_left (fun lf r => fold_left (update_cell r) l lf) rs lf)
  = Some (fold_left (row_doc lang) rs d).
Proof.
  intros I. revert lf d. induction rs as [|r rs IH]; intros lf d G;
    [exact G|].
  cbn [fold_left]. apply IH. rewrite (update_row_get r l lf lang d G).
  apply existsb_str_in in I. now rewrite I.
Qed.

Lemma update_rows_none (rs : list xrow) (l : list str)
      (lf : list (str * json_doc)) (lang : str) :
  Dict.get lang lf = None ->
  Dict.get lang (fold_left (fun lf r => fold_left (update_cell r) l lf) rs lf)
  = None.
Proof.
  revert lf. induction rs as [|r rs IH]; intros lf G; [exact G|].
  cbn [fold_left]. apply IH. now apply update_row_none.
Qed.

Lemma update_rows_keys (rs : list xrow) (l : list str)
      (lf : list (str * json_doc)) :
  Dict.keys (fold_left (fun lf r => fold_left (update_cell r) l lf) rs lf)
  = Dict.keys lf.
Proof.
  revert lf. induction rs as [|r rs IH]; intros lf; [reflexivity|].
  cbn [fold_left]. now rewrite IH, update_row_keys.
Qed.

(** The document written for a language column is the old document
    taken through the rows, whatever the other columns hold. *)
Lemma update_language_files_get (df : sheet) (output_directory : directory)
      (lang : str) :
  Dict.get lang (update_language_files df output_directory)
  = if existsb (str_eqb lang) (langs df)
    then Some (fold_left (row_doc lang) (rows df)
                         (old_document output_directory lang))
    else None.
Proof.
  unfold update_language_files, read_language_files.
  destruct (existsb (str_eqb lang) (langs df)) eqn:E.
  - apply existsb_str_in in E. apply update_rows_get; [exact E|].
    now apply read_old.
  - apply update_rows_none. rewrite read_other; [reflexivity|].
    intros I. apply existsb_str_in in I. congruence.
Qed.

Lemma row_docs_lookup (lang k : str) (d0 : json_doc) (rs : list xrow)
      (d : json_doc) (acc : option str) :
  Dict.get k d = match acc with Some v => Some v | None => Dict.get k d0 end ->
  Dict.get k (fold_left (row_doc lang) rs d)
  = match fold_left (fun acc r =>
                       if str_eqb (key r) k
                       then match present r lang with
                            | Some v => Some v
                            | None => acc
                            end
                       else acc) rs acc with
    | Some v => Some v
    | None => Dict.get k d0
    end.
Proof.
  revert d acc. induction rs as [|r rs IH]; intros d acc G; [exact G|].
  cbn [fold_left]. apply IH. unfold row_doc.
  destruct (present r lang) as [v|].
  - rewrite get_set_dec.
    destruct (str_eqb (key r) k) eqn:E.
    + apply str_eqb_eq in E. subst k. now rewrite str_eqb_refl.
    + destruct (str_eqb k (key r)) eqn:E'; [|exact G].
      apply str_eqb_eq in E'. subst k. now rewrite str_eqb_refl in E.
  - now destruct (str_eqb (key r) k).
Qed.

Lemma row_docs_keys (lang : str) (rs : list xrow) (d : json_doc) :
  Dict.keys (fold_left (row_doc lang) rs d)
  = first_seen_from (Dict.keys d)
      (List.map key (filter (fun r => match present r lang with
                                      | Some _ => true
                                      | None => false
                                      end) rs)).
Proof.
  revert d. induction rs as [|r rs IH]; intros d; [reflexivity|].
  cbn [fold_left filter]. rewrite IH. unfold row_doc.
  destruct (present r lang) as [v|]; [|reflexivity].
  cbn [List.map]. now rewrite keys_set.
Qed.

Lemma row_docs_wf (lang : str) (rs : list xrow) (d : json_doc) :
  Dict.wf d -> Dict.wf (fold_left (row_doc lang) rs d).
Proof.
  revert d. induction rs as [|r rs IH]; intros d W; [exact W|].
  cbn [fold_left]. apply IH. unfold row_doc.
  destruct (present r lang); [now apply wf_set | exact W].
Qed.

(** Lookup after update.  The document written for a language column maps
    a key to the value of the last row of the sheet that holds the key
    with a value in that column and, when there is no such row, to what
    the old file held for it; a file that could not be read counts as
    empty.  Nothing is written for a language that is no column. *)
Theorem update_language_files_lookup
        (df : sheet) (output_directory : directory) (lang : str) :
  (In lang (langs df) ->
   exists d',
     Dict.get lang (update_language_files df output_directory) = Some d'
     /\ forall k,
         Dict.get k d'
         = match sheet_value df lang k with
           | Some v => Some v
           | None => Dict.get k (old_document output_directory lang)
           end)
  /\ (~ In lang (langs df) ->
      Dict.get lang (update_language_files df output_directory) = None).
Proof.
  rewrite update_language_files_get. split.
  - intros I. apply existsb_str_in in I. rewrite I.
    eexists. split; [reflexivity|]. intros k.
    now apply row_docs_lookup with (acc := None).
  - intros N. destruct (existsb (str_eqb lang) (langs df)) eqn:E;
      [|reflexivity].
    apply existsb_str_in in E. contradiction.
Qed.

(** Key order after update.  In the document written for a language
    column the keys of the old file keep their places, and the keys the
    sheet adds follow in the order in which the sheet first gives them a
    value. *)
Theorem update_language_files_key_order
        (df : sheet) (output_directory : directory) (lang : str) :
  In lang (langs df) ->
  exists d',
    Dict.get lang (update_language_files df output_directory) = Some d'
    /\ Dict.keys d'
       = Dict.keys (old_document output_directory lang)
           ++ first_seen
                (filter (fun k =>
                           negb (existsb (str_eqb k)
                                   (Dict.keys
                                      (old_document output_directory lang))))
                        (valued_keys df lang)).
Proof.
  intros I. rewrite update_language_files_get.
  apply existsb_str_in in I. rewrite I.
  eexists. split; [reflexivity|].
  rewrite row_docs_keys.
  rewrite <- (app_nil_r (Dict.keys (old_document output_directory lang)))
    at 1.
  apply first_seen_from_split.
Qed.

Lemma update_language_files_wf (df : sheet) (output_directory : directory) :
  Dict.wf (update_language_files df output_directory).
Proof.
  unfold Dict.wf, update_language_files. rewrite update_rows_keys.
  apply read_wf. constructor.
Qed.

Lemma update_language_files_keys (df : sheet)
      (output_directory : directory) :
  Dict.keys (update_language_files df output_directory)
  = first_seen (langs df).
Proof.
  unfold update_language_files. rewrite update_rows_keys.
  apply read_keys.
Qed.

Lemma old_document_after (df : sheet) (output_directory : directory)
      (lang : str) :
  In lang (langs df) ->
  old_document (after_run df output_directory) lang
  = fold_left (row_doc lang) (rows df) (old_document output_directory lang).
Proof.
  intros I. unfold old_document at 1, after_run, written.
  rewrite update_language_files_get.
  apply existsb_str_in in I. now rewrite I.
Qed.

Lemma row_docs_again (df : sheet) (lang : str) (d0 : json_doc) :
  Dict.wf d0 ->
  fold_left (row_doc lang) (rows df) (fold_left (row_doc lang) (rows df) d0)
  = fold_left (row_doc lang) (rows df) d0.
Proof.
  intros W. apply dict_ext.
  - apply row_docs_wf. now apply row_docs_wf.
  - rewrite row_docs_keys. apply first_seen_from_known.
    intros k I. rewrite row_docs_keys.
    apply first_seen_from_in. now right.
  - intros k.
    rewrite (row_docs_lookup lang k _ (rows df) _ None eq_refl).
    rewrite (row_docs_lookup lang k d0 (rows df) d0 None eq_refl).
    now destruct (fold_left _ (rows df) None).
Qed.

Lemma update_again (df : sheet) (output_directory : directory) :
  (forall lang d, output_directory lang = Some d -> Dict.wf d) ->
  update_language_files df (after_run df output_directory)
  = update_language_files df output_directory.
Proof.
  intros W. apply dict_ext.
  - apply update_language_files_wf.
  - now rewrite !update_language_files_keys.
  - intros lang. rewrite !update_language_files_get.
    destruct (existsb (str_eqb lang) (langs df)) eqn:E; [|reflexivity].
    apply existsb_str_in in E. rewrite old_document_after by exact E.
    f_equal. apply row_docs_again. unfold old_document.
    destruct (output_directory lang) as [d|] eqn:D; [now apply (W lang)|].
    constructor.
Qed.
End UpdateRunFacts.

Section UpdateCount.
Import UpdateExcelToJson UpdateRun.

Lemma count_cell_fst (r : xrow) (st : list (str * json_doc) * nat)
      (lang : str) :
  fst (count_cell r st lang) = update_cell r (fst st) lang.
Proof.
  destruct st as [lf n]. unfold count_cell, update_cell. cbn [fst].
  destruct (present r lang); [|reflexivity].
  now destruct (Dict.get lang lf).
Qed.

Lemma count_row_fst (r : xrow) (l : list str)
      (st : list (str * json_doc) * nat) :
  fst (fold_left (count_cell r) l st) = fold_left (update_cell r) l (fst st).
Proof.
  revert st. induction l as [|a l IH]; intros st; [reflexivity|].
  cbn [fold_left]. now rewrite IH, count_cell_fst.
Qed.

Lemma count_rows_fst (rs : list xrow) (l : list str)
      (st : list (str * json_doc) * nat) :
  fst (fold_left (fun st r => fold_left (count_cell r) l st) rs st)
  = fold_left (fun lf r => fold_left (update_cell r) l lf) rs (fst st).
Proof.
  revert st. induction rs as [|r rs IH]; intros st; [reflexivity|].
  cbn [fold_left]. now rewrite IH, count_row_fst.
Qed.

(** The documents of the run with the counter are those of
    [update_language_files]. *)
Lemma update_and_count_fst (df : sheet) (output_directory : directory) :
  fst (update_and_count df output_directory)
  = update_language_files df output_directory.
Proof. apply count_rows_fst. Qed.

Lemma read_after (df : sheet) (output_directory : directory) :
  read_language_files df (after_run df output_directory)
  = update_language_files df output_directory.
Proof.
  unfold read_language_files. apply dict_ext.
  - apply read_wf. constructor.
  - rewrite read_keys. now rewrite update_language_files_keys.
  - intros lang. rewrite update_language_files_get.
    destruct (existsb (str_eqb lang) (langs df)) eqn:E.
    + apply existsb_str_in in E. rewrite read_old by exact E.
      now rewrite old_document_after.
    + rewrite read_other; [reflexivity|].
      intros I. apply existsb_str_in in I. congruence.
Qed.

Lemma sheet_value_skip (lang k : str) (rs : list xrow) (acc : option str) :
  (forall x, In x rs -> key x <> k) ->
  fold_left (fun acc r =>
               if str_eqb (key r) k
               then match present r lang with
                    | Some v => Some v
                    | None => acc
                    end
               else acc) rs acc = acc.
Proof.
  revert acc. induction rs as [|x rs IH]; intros acc N; [reflexivity|].
  cbn [fold_left].
  assert (E : str_eqb (key x) k = false).
  { apply str_eqb_neq. apply N. now left. }
  rewrite E. apply IH. intros y I. apply N. now right.
Qed.

Lemma sheet_value_only (lang : str) (rs : list xrow) (r : xrow) (v : str)
      (acc : option str) :
  NoDup (List.map key rs) -> In r rs -> present r lang = Some v ->
  fold_left (fun acc x =>
               if str_eqb (key x) (key r)
               then match present x lang with
                    | Some v => Some v
                    | None => acc
                    end
               else acc) rs acc = Some v.
Proof.
  revert acc. induction rs as [|x rs IH]; intros acc N I Pr; [destruct I|].
  cbn [List.map] in N. inversion N as [|? ? N1 N2]; subst.
  cbn [fold_left]. destruct I as [->|I].
  - rewrite str_eqb_refl, Pr. apply sheet_value_skip.
    intros y Iy E. apply N1. rewrite <- E. now apply in_map.
  - now apply IH.
Qed.

(** A cell whose value the document already holds changes nothing and is
    not counted. *)
Lemma count_cell_settled (r : xrow) (lf : list (str * json_doc)) (n : nat)
      (lang : str) :
  (forall d v, Dict.get lang lf = Some d -> present r lang = Some v ->
               Dict.get (key r) d = Some v) ->
  count_cell r (lf, n) lang = (lf, n).
Proof.
  intros H. unfold count_cell.
  destruct (present r lang) as [v|] eqn:Pr; [|reflexivity].
  destruct (Dict.get lang lf) as [d|] eqn:G; [|reflexivity].
  rewrite (H d v eq_refl eq_refl), str_eqb_refl.
  rewrite (set_same _ (key r) v d (H d v eq_refl eq_refl)).
  f_equal. now apply set_same.
Qed.

Lemma count_row_settled (r : xrow) (l : list str)
      (lf : list (str * json_doc)) (n : nat) :
  (forall lang d v, Dict.get lang lf = Some d -> present r lang = Some v ->
                    Dict.get (key r) d = Some v) ->
  fold_left (count_cell r) l (lf, n) = (lf, n).
Proof.
  intros H. induction l as [|a l IH]; [reflexivity|].
  cbn [fold_left]. rewrite count_cell_settled; [exact IH|]. apply H.
Qed.

Lemma count_rows_settled (rs : list xrow) (l : list str)
      (lf : list (str * json_doc)) (n : nat) :
  (forall r lang d v, In r rs -> Dict.get lang lf = Some d ->
                      present r lang = Some v ->
                      Dict.get (key r) d = Some v) ->
  fold_left (fun st r => fold_left (count_cell r) l st) rs (lf, n) = (lf, n).
Proof.
  intros H. induction rs as [|r rs IH]; [reflexivity|].
  cbn [fold_left]. rewrite count_row_settled.
  - apply IH. intros. eapply H; eauto. now right.
  - intros. eapply H; eauto. now left.
Qed.

(** Running the update again.  When the documents on disk have pairwise
    distinct keys, as parsed JSON objects have, a second run on the
    directory the first run left writes the same documents, key by key in
    the same order; and when no two rows of the sheet share a key, the
    second run counts no updated entry. *)
Theorem update_language_files_again
        (df : sheet) (output_directory : directory) :
  (forall lang d, output_directory lang = Some d -> Dict.wf d) ->
  update_language_files df (after_run df output_directory)
  = update_language_files df output_directory
  /\ (NoDup (List.map key (rows df)) ->
      update_and_count df (after_run df output_directory)
      = (update_language_files df output_directory, 0)).
Proof.
  intros W. split; [now apply update_again|].
  intros N. unfold update_and_count. rewrite read_after.
  apply count_rows_settled. intros r lang d v I G Pr.
  rewrite update_language_files_get in G.
  destruct (existsb (str_eqb lang) (langs df)); [|discriminate].
  injection G as <-.
  rewrite (row_docs_lookup lang (key r) _ (rows df) _ None eq_refl).
  now rewrite (sheet_value_only lang (rows df) r v None N I Pr).
Qed.
End UpdateCount.

(** The sheet of the example, run on its directory: [title] takes the
    value of the sheet, [old] and [only_here] keep theirs, [fresh] is
    added last. *)
Lemma update_language_files_lookup_witness :
  exists d',
    Dict.get UpdateExample.en
      (UpdateExcelToJson.update_language_files UpdateExample.translations
                                               UpdateExample.on_disk)
    = Some d'
    /\ Dict.get (lit "title") d' = Some (lit "Hello")
    /\ Dict.get (lit "old") d' = Some (lit "Old")
    /\ Dict.get (lit "missing") d' = None.
Proof.
  destruct (proj1 (update_language_files_lookup
                     UpdateExample.translations UpdateExample.on_disk
                     UpdateExample.en))
    as (d' & G & L).
  - left. reflexivity.
  - exists d'. split; [exact G|]. rewrite !L. now vm_compute.
Defined.

Lemma update_language_files_key_order_witness :
  exists d',
    Dict.get UpdateExample.en
      (UpdateExcelToJson.update_language_files UpdateExample.translations
                                               UpdateExample.on_disk)
    = Some d'
    /\ Dict.keys d'
       = [lit "old"; lit "title"; lit "only_here"; lit "fresh"].
Proof.
  destruct (update_language_files_key_order
              UpdateExample.translations UpdateExample.on_disk
              UpdateExample.en)
    as (d' & G & K).
  - left. reflexivity.
  - exists d'. split; [exact G|]. rewrite K. reflexivity.
Defined.

Lemma update_language_files_again_witness :
  UpdateExcelToJson.update_language_files UpdateExample.translations
    (UpdateRun.after_run UpdateExample.translations UpdateExample.on_disk)
  = UpdateExcelToJson.update_language_files UpdateExample.translations
                                            UpdateExample.on_disk
  /\ UpdateRun.updated_count UpdateExample.translations
                             UpdateExample.on_disk = 2
  /\ UpdateRun.updated_count UpdateExample.translations
       (UpdateRun.after_run UpdateExample.translations UpdateExample.on_disk)
     = 0.
Proof.
  destruct (update_language_files_again
              UpdateExample.translations UpdateExample.on_disk)
    as [A C].
  - intros lang d. unfold UpdateExample.on_disk.
    destruct (str_eqb lang UpdateExample.en); [|discriminate].
    intros [= <-]. unfold Dict.wf.
    repeat constructor; cbn; intuition discriminate.
  - split; [exact A|]. split; [reflexivity|].
    unfold UpdateRun.updated_count. rewrite C; [reflexivity|].
    repeat constructor; cbn; intuition discriminate.
Defined.

(** ** json_to_excel.py: the cells of the table *)

Section FlatTableFacts.
Import JsonToExcel FlatTable.
Variable json_folder : folder.

Lemma filter_key_nil (k : str) (l : list trow) :
  filter (fun r => str_eqb k (key r)) l = [] -> ~ In k (List.map key l).
Proof.
  intros F I. apply in_map_iff in I. destruct I as (r & E & I).
  assert (H : In r (filter (fun r => str_eqb k (key r)) l)).
  { apply filter_In. split; [exact I|]. apply str_eqb_eq. now symmetry. }
  now rewrite F in H.
Qed.

Lemma value_in_absent (df : frame) (c k : str) :
  merged_ok json_folder df -> In c (columns df) -> ~ In k (FlatMerge.K df) ->
  value_in json_folder c k = None.
Proof.
  intros (_ & _ & C) I N. unfold value_in.
  destruct (json_folder c) as [doc|] eqn:F; [|reflexivity].
  apply get_none_keys. intros H. apply N. now apply (C c doc I F).
Qed.

Lemma merge_outer_ok (df : frame) (lang : str) (doc : json_doc) :
  merged_ok json_folder df -> json_folder lang = Some doc ->
  merged_ok json_folder (merge_outer df lang doc).
Proof.
  intros M F. pose proof M as (N & R & C). split; [|split].
  - now apply merge_outer_nodup.
  - intros r I. unfold merge_outer in I. cbn [rows] in I.
    apply in_flat_map in I. destruct I as (k & _ & I).
    unfold merge_outer. cbn [columns]. unfold outer_row in I.
    assert (V : value_in json_folder lang k = Dict.get k doc)
      by (unfold value_in; now rewrite F).
    destruct (filter (fun r => str_eqb k (key r)) (rows df))
      as [|m ms] eqn:Fl.
    + destruct I as [<-|[]]. unfold row_of. cbn [key]. f_equal.
      rewrite map_app. cbn [List.map]. rewrite V. f_equal.
      apply map_ext_in. intros c Ic. f_equal. symmetry.
      apply (value_in_absent df); [exact M | exact Ic|].
      now apply filter_key_nil.
    + apply in_map_iff in I. destruct I as (r' & <- & I).
      rewrite <- Fl in I. apply filter_In in I. destruct I as [I E].
      apply str_eqb_eq in E. unfold row_of. cbn [key]. f_equal.
      rewrite map_app. cbn [List.map]. rewrite V. f_equal.
      rewrite (R r' I) at 1. unfold row_of. cbn [cells]. now rewrite E.
  - intros c d I G k Ik. apply merge_outer_in; [exact N|].
    cbn [merge_outer columns] in I. apply in_app_or in I.
    destruct I as [I|[<-|[]]].
    + left. now apply (C c d).
    + right. congruence.
Qed.

Lemma merge_languages_ok (langs : list str) (df df' : frame)
      (all_keys all_keys' : list str) :
  merge_languages json_folder langs df all_keys = (df', all_keys') ->
  merged_ok json_folder df ->
  merged_ok json_folder df'
  /\ columns df' = columns df ++ read_languages json_folder langs.
Proof.
  revert df all_keys. induction langs as [|lang langs IH];
    intros df all_keys M O.
  - cbn in M. injection M as <- <-. split; [exact O|].
    cbn. now rewrite app_nil_r.
  - cbn [merge_languages read_languages filter] in *.
    destruct (str_eqb lang zh_cn); cbn [negb andb].
    + now apply IH in M.
    + destruct (json_folder lang) as [doc|] eqn:F.
      * apply IH in M; [|now apply merge_outer_ok].
        destruct M as [O' Cs]. split; [exact O'|].
        rewrite Cs. cbn [merge_outer columns]. now rewrite <- app_assoc.
      * now apply IH in M.
Qed.

Lemma baseline_ok (translations : json_doc) :
  json_folder zh_cn = Some translations ->
  NoDup (FlatMerge.keys_of translations) ->
  merged_ok json_folder (baseline_frame translations).
Proof.
  intros B N.
  assert (K0 : FlatMerge.K (baseline_frame translations)
               = FlatMerge.keys_of translations).
  { unfold FlatMerge.K, baseline_frame, FlatMerge.keys_of. cbn [rows].
    rewrite map_map. apply map_ext. now intros [k v]. }
  split; [now rewrite K0|]. split.
  - intros r I. cbn [baseline_frame rows] in I.
    apply in_map_iff in I. destruct I as ([k v] & <- & I).
    unfold row_of, value_in. cbn [key columns baseline_frame List.map].
    rewrite B. f_equal. f_equal. f_equal.
    symmetry. clear B K0.
    induction translations as [|[k' v'] t IH]; [destruct I|].
    cbn in N. inversion N as [|? ? N1 N2]; subst.
    cbn [Dict.get]. destruct I as [[= -> ->]|I].
    + now rewrite str_eqb_refl.
    + destruct (str_eqb k k') eqn:E; [|now apply IH].
      apply str_eqb_eq in E. subst k'. exfalso. apply N1.
      apply in_map_iff. now exists (k, v).
  - intros c doc [<-|[]] F. rewrite K0. rewrite B in F.
    injection F as <-. apply incl_refl.
Qed.

(** The cells of the table.  With a readable baseline, the columns of
    the table are the baseline and then the languages whose file could be
    read, in the order of the list of languages; and every row holds,
    under every column, the value that the file of the column has for the
    key of the row, or NaN when it has none. *)
Theorem json_to_excel_cells (translations : json_doc) :
  json_folder zh_cn = Some translations ->
  NoDup (FlatMerge.keys_of translations) ->
  exists df,
    json_to_excel json_folder = Some df
    /\ columns df = zh_cn :: read_languages json_folder languages
    /\ forall r, In r (rows df) ->
                 r = row_of json_folder (columns df) (key r).
Proof.
  intros B N. unfold json_to_excel. rewrite B.
  fold (baseline_frame translations).
  replace (List.map key (rows (baseline_frame translations)))
    with (FlatMerge.keys_of translations).
  2:{ unfold baseline_frame, FlatMerge.keys_of. cbn [rows].
      rewrite map_map. apply map_ext. now intros [k v]. }
  destruct (merge_languages json_folder languages
              (baseline_frame translations)
              (FlatMerge.keys_of translations))
    as [df1 all_keys] eqn:M.
  pose proof (baseline_ok translations B N) as O.
  pose proof M as M'.
  apply merge_languages_ok in M; [|exact O].
  destruct M as [(N1 & R1 & C1) Cs].
  apply merge_languages_keys in M'; [|apply O|].
  2:{ destruct O as (_ & _ & C). apply (C zh_cn); [now left | exact B]. }
  destruct M' as (_ & A1 & _).
  eexists. split; [reflexivity|]. cbn [columns rows]. split; [exact Cs|].
  rewrite missing_rows_nil by exact A1. rewrite app_nil_r.
  intros r I. apply R1.
  eapply Permutation_in; [apply sort_by_perm | exact I].
Qed.

(** The block that handles missing keys never adds a row: once the
    languages are merged, every key collected on the way has its row in
    the frame. *)
Theorem json_to_excel_no_missing_keys
        (translations : json_doc) (df : frame) (all_keys : list str) :
  NoDup (FlatMerge.keys_of translations) ->
  merge_languages json_folder languages (baseline_frame translations)
                  (List.map key (rows (baseline_frame translations)))
  = (df, all_keys) ->
  missing_rows df all_keys = []
  /\ forall k, In k all_keys -> In k (List.map key (rows df)).
Proof.
  intros N M.
  assert (K0 : FlatMerge.K (baseline_frame translations)
               = FlatMerge.keys_of translations).
  { unfold FlatMerge.K, baseline_frame, FlatMerge.keys_of. cbn [rows].
    rewrite map_map. apply map_ext. now intros [k v]. }
  apply merge_languages_keys in M.
  - destruct M as (_ & A & _). split; [now apply missing_rows_nil | exact A].
  - now rewrite K0.
  - apply incl_refl.
Qed.
End FlatTableFacts.

Lemma json_to_excel_cells_witness :
  exists df,
    JsonToExcel.json_to_excel FlatMerge.late_keys = Some df
    /\ JsonToExcel.columns df = [JsonToExcel.zh_cn; lit "en_us"]
    /\ In (FlatTable.row_of FlatMerge.late_keys
                            [JsonToExcel.zh_cn; lit "en_us"] (lit "z"))
          (JsonToExcel.rows df).
Proof.
  destruct (json_to_excel_cells FlatMerge.late_keys
              [(lit "a", lit "1")] eq_refl)
    as (df & E & C & R).
  - repeat constructor. intros [].
  - exists df. split; [exact E|]. split; [exact C|].
    vm_compute in E. injection E as <-. vm_compute. tauto.
Defined.

Lemma json_to_excel_no_missing_keys_witness :
  exists df all_keys,
    JsonToExcel.merge_languages FlatMerge.late_keys JsonToExcel.languages
      (FlatTable.baseline_frame [(lit "a", lit "1")]) [lit "a"]
    = (df, all_keys)
    /\ all_keys = [lit "a"; lit "z"; lit "b"]
    /\ JsonToExcel.missing_rows df all_keys = [].
Proof.
  eexists. eexists. split; [reflexivity|]. split; [reflexivity|].
  apply (json_to_excel_no_missing_keys FlatMerge.late_keys
           [(lit "a", lit "1")]).
  - repeat constructor. intros [].
  - reflexivity.
Defined.

(** ** js_to_excel.py: the shape of what is parsed *)

Section StripFacts.
Context {P : Python}.

Lemma lstrip_suffix (s : str) : exists a, s = a ++ lstrip s.
Proof.
  induction s as [|c t IH]; [now exists []|]. cbn [lstrip].
  destruct (isspace c); [|now exists []].
  destruct IH as [a E]. exists (c :: a). cbn. now rewrite <- E.
Qed.

Lemma lstrip_in (s : str) (c : char) : In c (lstrip s) -> In c s.
Proof.
  destruct (lstrip_suffix s) as [a E]. intros I. rewrite E.
  apply in_or_app. now right.
Qed.

Lemma strip_in (s : str) (c : char) : In c (strip s) -> In c s.
Proof.
  unfold strip, rstrip. intros I. apply in_rev in I.
  apply lstrip_in in I. apply in_rev in I. now apply lstrip_in.
Qed.

Lemma lstrip_hd (s : str) :
  lstrip s <> [] -> isspace (hd 32%N (lstrip s)) = false.
Proof.
  destruct (lstrip s) as [|c t] eqn:E; [congruence|]. intros _.
  now apply lstrip_head in E.
Qed.

Lemma last_of_app (A : Type) (a b : list A) (d : A) :
  b <> [] -> last (a ++ b) d = last b d.
Proof.
  intros N. induction a as [|x a IH]; [reflexivity|].
  cbn [app]. rewrite <- IH. cbn [last].
  destruct (a ++ b) eqn:E; [|reflexivity].
  apply app_eq_nil in E. destruct E as [_ E]. contradiction.
Qed.

Lemma lstrip_last (s : str) :
  lstrip s <> [] -> last (lstrip s) 32%N = last s 32%N.
Proof.
  destruct (lstrip_suffix s) as [a E]. intros N.
  rewrite E at 2. now rewrite last_of_app.
Qed.

Lemma strip_trimmed (s : str) : Declared.trimmed (strip s).
Proof.
  unfold Declared.trimmed, strip, rstrip.
  destruct (lstrip (rev (lstrip s))) as [|c t] eqn:E; [now left|].
  right. rewrite <- E.
  assert (N : lstrip (rev (lstrip s)) <> []) by (rewrite E; discriminate).
  split.
  - rewrite hd_rev. rewrite lstrip_last by exact N.
    rewrite <- hd_rev, rev_involutive. apply lstrip_hd.
    intros Z. rewrite Z in E. discriminate.
  - rewrite <- hd_rev, rev_involutive. now apply lstrip_hd.
Qed.
End StripFacts.

Section ParsedShapes.
Context {P : Python}.
Import Declared.

Lemma m_plus_lazy_class (R : Type) (cls : char -> bool) (k : str -> Re.M R)
      (s : str) (r : R) :
  Re.m_plus_lazy cls k s = Some r ->
  exists w s', s = w ++ s' /\ Forall (fun c => cls c = true) w
               /\ k w s' = Some r.
Proof.
  unfold Re.m_plus_lazy. destruct s as [|c t]; [discriminate|].
  destruct (cls c) eqn:E; [|discriminate]. intros H.
  apply m_star_lazy_inv in H. destruct H as (w & s' & -> & F & K).
  exists (c :: w), s'. split; [reflexivity|].
  split; [now constructor | exact K].
Qed.

(** What the item pattern captures. *)
Lemma item_re_groups (s item_key item_value rest : str) :
  Re.search item_re s = Some ((item_key, item_value), rest) ->
  Forall (fun c => item_key_char c = true) item_key
  /\ Forall (fun c => quote c = false) item_value.
Proof.
  intros H. apply search_inv in H. destruct H as (pre & s0 & _ & H).
  unfold item_re in H.
  apply m_plus_lazy_class in H. destruct H as (w1 & s1 & _ & F1 & H).
  apply m_star_inv in H. destruct H as (w2 & s2 & _ & _ & H).
  apply m_lit_inv in H. destruct H as (s3 & _ & H).
  apply m_star_inv in H. destruct H as (w3 & s4 & _ & _ & H).
  apply m_set_inv in H. destruct H as (q & s5 & _ & H).
  apply m_star_inv in H. destruct H as (w4 & s6 & _ & F4 & H).
  apply m_set_inv in H. destruct H as (q' & s7 & _ & H).
  apply m_opt_inv in H. destruct H as (w5 & s8 & _ & H).
  injection H as <- <- _. split; [exact F1|].
  eapply Forall_impl; [|exact F4]. intros c Hc.
  unfold JsToExcel.not_quote in Hc. now destruct (quote c).
Qed.

Lemma finditer_groups (fuel : nat) (s : str) :
  Forall (fun it : str * str =>
            Forall (fun c => item_key_char c = true) (fst it)
            /\ Forall (fun c => quote c = false) (snd it))
         (Re.finditer item_re fuel s).
Proof.
  revert s. induction fuel as [|fuel IH]; intros s; [constructor|].
  cbn [Re.finditer].
  destruct (Re.search item_re s) as [[[k v] rest]|] eqn:E; [|constructor].
  constructor; [|apply IH]. now apply item_re_groups in E.
Qed.

Lemma parse_items_shape (class_content : str) :
  Forall item_shape (parse_items class_content).
Proof.
  unfold parse_items.
  pose proof (finditer_groups (S (List.length class_content)) class_content)
    as F. revert F.
  generalize (Re.finditer item_re (S (List.length class_content))
                          class_content) as l.
  assert (A : Forall item_shape (@nil (str * str))) by constructor.
  revert A. generalize (@nil (str * str)) as acc.
  intros acc A l. revert acc A.
  induction l as [|[k v] l IH]; intros acc A F; [exact A|].
  cbn [fold_left fst snd]. inversion F as [|? ? [Fk Fv] F']; subst.
  apply IH; [|exact F'].
  apply Forall_forall. intros e I. apply in_set in I.
  destruct I as [->|I]; [|rewrite Forall_forall in A; now apply A].
  split; [|split; [apply strip_trimmed | exact Fv]].
  cbn [fst]. apply Forall_forall. intros c Ic. apply strip_in in Ic.
  cbn [fst] in Fk. rewrite Forall_forall in Fk. now apply Fk.
Qed.

Lemma parse_loop_shape (fuel : nat) (content : str) (acc data : parsed) :
  Forall class_shape acc ->
  parse_loop fuel content acc = Some (Ok data) -> Forall class_shape data.
Proof.
  revert content acc. induction fuel as [|fuel IH]; intros content acc A;
    [discriminate|].
  cbn [parse_loop]. destruct content as [|c t]; [now intros [= <-]|].
  destruct (Re.search top_key_re (c :: t)) as [[key after]|] eqn:S;
    [|now intros [= <-]].
  destruct (skip_to_brace after) as [body|]; [|now intros [= <-]].
  destruct (find_closing 1 body) as [[inner rest]|]; [|discriminate].
  apply IH. apply Forall_forall. intros e I. apply in_set in I.
  destruct I as [->|I]; [|rewrite Forall_forall in A; now apply A].
  apply top_key_inv in S. destruct S as (pre & mid & _ & Nk & Fk & _).
  split; [exact Nk|]. split; [exact Fk|].
  split; [apply parse_items_wf | apply parse_items_shape].
Qed.

(** The shape of what is parsed.  Whatever the text, the dict that
    [parse_js_file] returns has pairwise distinct class names, each a
    non-empty run of word characters; in every class the keys are
    pairwise distinct, hold no comma and no brace and have no blank at
    either end, and no value holds a quote of either kind. *)
Theorem parse_js_file_shape (content : str) (data : parsed) :
  parse_js_file content = Ok data ->
  Dict.wf data /\ Forall class_shape data.
Proof.
  intros H. split; [apply parse_js_file_wf in H; apply H|].
  unfold parse_js_file in H.
  destruct (parse_loop _ _ _) as [r|] eqn:E.
  - subst r. eapply parse_loop_shape; [|exact E]. constructor.
  - injection H as <-. constructor.
Qed.
End ParsedShapes.

(** A value with an escaped apostrophe is cut at the apostrophe. *)
Lemma parse_js_file_shape_witness :
  parse_js_file (P := latin1)
    (lit "export default { text: { it: 'don" ++ [92%N] ++ lit "'t', }, };")
  = Ok [(lit "text", [(lit "it", lit "don" ++ [92%N])])]
  /\ Forall (Declared.class_shape (P := latin1))
            [(lit "text", [(lit "it", lit "don" ++ [92%N])])].
Proof.
  split; [reflexivity|].
  apply (parse_js_file_shape (P := latin1)
           (lit "export default { text: { it: 'don" ++ [92%N]
              ++ lit "'t', }, };")).
  reflexivity.
Defined.

(** ** js_to_excel.py: the order of the rows *)

Section DeclaredOrder.
Context {P : Python}.
Import Declared.

Lemma remove_absent (V : Type) (k : str) (d : Dict.t V) :
  Dict.get k d = None -> Dict.remove k d = d.
Proof.
  induction d as [|[k' v'] r IH]; [reflexivity|]. cbn [Dict.get Dict.remove].
  destruct (str_eqb k k'); [discriminate|]. intros G. now rewrite IH.
Qed.

Lemma get_app_absent (V : Type) (k : str) (a b : Dict.t V) :
  ~ In k (Dict.keys a) -> Dict.get k (a ++ b) = Dict.get k b.
Proof.
  induction a as [|[k' v'] a IH]; [reflexivity|]. cbn. intros N.
  destruct (str_eqb k k') eqn:E.
  - apply str_eqb_eq in E. subst. exfalso. apply N. now left.
  - apply IH. intros I. apply N. now right.
Qed.

Lemma flatten_strings (g : str) (idx n : N) (c : class_dict) :
  flat_map
    (fun '(sub_idx, (sub_k, sub_v)) =>
       match sub_v with
       | VDict sub_d =>
           List.map
             (fun '(subsub_idx, (subsub_k, subsub_v)) =>
                {| i_class := g;
                   i_key := sub_k ++ lit "." ++ subsub_k;
                   i_value := subsub_v;
                   i_order := idx * 10000 + sub_idx * 100 + subsub_idx |})
             (enumerate sub_d)
       | _ =>
           [{| i_class := g; i_key := sub_k; i_value := sub_v;
               i_order := idx * 10000 + sub_idx |}]
       end)%N
    (enumerate_from n (strings c))
  = List.map (fun '(sub_idx, (k, v)) =>
                {| i_class := g; i_key := k; i_value := VStr v;
                   i_order := idx * 10000 + sub_idx |}%N)
             (enumerate_from n c).
Proof.
  revert n. induction c as [|[a b] c IH]; intros n; [reflexivity|].
  cbn [strings List.map enumerate_from flat_map app].
  f_equal. apply IH.
Qed.

Lemma flatten_suffix (data pre suf : parsed) (n : N) :
  data = pre ++ suf -> Dict.wf data ->
  flat_map (fun '(idx, k) => flatten_key (as_document data) [] idx k)
           (enumerate_from n (Dict.keys suf))
  = flat_map (fun '(idx, (g, c)) => class_items idx g c)
             (enumerate_from n suf).
Proof.
  intros E W. revert pre n E.
  induction suf as [|[g c] suf IH]; intros pre n E; [reflexivity|].
  cbn [Dict.keys List.map fst enumerate_from flat_map].
  fold (Dict.keys suf). f_equal.
  - unfold flatten_key. rewrite get_as_document.
    assert (G : Dict.get g data = Some c).
    { rewrite E, get_app_absent.
      - cbn. now rewrite str_eqb_refl.
      - unfold Dict.wf, Dict.keys in W. rewrite E, map_app in W.
        cbn [List.map fst] in W. intros I.
        apply NoDup_remove_2 in W. apply W. apply in_or_app. now left. }
    rewrite G. cbn [option_map]. apply flatten_strings.
  - apply (IH (pre ++ [(g, c)])). rewrite E, <- app_assoc. reflexivity.
Qed.

(** The tuples of a parsed file without a class named [__order__]: one
    per entry, in the order of the file. *)
Lemma flatten_items (data : parsed) :
  Dict.wf data -> Dict.get order_key data = None ->
  flatten_dict (as_document data) [] = items data.
Proof.
  intros W G. unfold flatten_dict, items.
  rewrite get_as_document, G. cbn [option_map].
  rewrite remove_as_document, remove_absent by exact G.
  rewrite keys_as_document. unfold enumerate.
  now apply (flatten_suffix data [] data).
Qed.

Lemma class_items_from (idx : N) (g : str) (c : class_dict) (n : N)
      (i : item) :
  In i (List.map (fun '(sub_idx, (k, v)) =>
                    {| i_class := g; i_key := k; i_value := VStr v;
                       i_order := idx * 10000 + sub_idx |}%N)
                 (enumerate_from n c)) ->
  (idx * 10000 + n <= i_order i
   /\ i_order i < idx * 10000 + n + N.of_nat (List.length c))%N.
Proof.
  revert n. induction c as [|[k v] c IH]; intros n I; [destruct I|].
  cbn [enumerate_from List.map] in I. destruct I as [<-|I].
  - cbn [i_order List.length]. lia.
  - apply IH in I. cbn [List.length]. lia.
Qed.

Lemma class_items_sorted (idx : N) (g : str) (c : class_dict) (n : N) :
  StronglySorted (fun a b => (i_order a < i_order b)%N)
    (List.map (fun '(sub_idx, (k, v)) =>
                 {| i_class := g; i_key := k; i_value := VStr v;
                    i_order := idx * 10000 + sub_idx |}%N)
              (enumerate_from n c)).
Proof.
  revert n. induction c as [|[k v] c IH]; intros n; [constructor|].
  cbn [enumerate_from List.map]. constructor; [apply IH|].
  apply Forall_forall. intros i I. apply class_items_from in I.
  cbn [i_order]. lia.
Qed.

Lemma strongly_sorted_app (A : Type) (R : A -> A -> Prop) (a b : list A) :
  StronglySorted R a -> StronglySorted R b ->
  (forall x y, In x a -> In y b -> R x y) ->
  StronglySorted R (a ++ b).
Proof.
  intros Sa Sb H. induction Sa as [|x a Sa IH Hx]; [exact Sb|].
  cbn [app]. constructor.
  - apply IH. intros u v Iu Iv. apply H; [now right | exact Iv].
  - apply Forall_app. split; [exact Hx|].
    apply Forall_forall. intros y Iy. apply H; [now left | exact Iy].
Qed.

Lemma items_from_sorted (data : parsed) (n : N) :
  narrow data = true ->
  StronglySorted (fun a b => (i_order a < i_order b)%N)
    (flat_map (fun '(idx, (g, c)) => class_items idx g c)
              (enumerate_from n data))
  /\ forall i, In i (flat_map (fun '(idx, (g, c)) => class_items idx g c)
                              (enumerate_from n data)) ->
               (n * 10000 <= i_order i)%N.
Proof.
  revert n. induction data as [|[g c] data IH]; intros n W.
  - split; [constructor | intros i []].
  - cbn [narrow forallb snd] in W. apply andb_true_iff in W.
    destruct W as [Wc W]. apply N.leb_le in Wc.
    destruct (IH (N.succ n) W) as [S L].
    cbn [enumerate_from flat_map]. split.
    + apply strongly_sorted_app; [apply class_items_sorted | exact S|].
      intros x y Ix Iy. apply class_items_from in Ix. apply L in Iy. lia.
    + intros i I. apply in_app_or in I. destruct I as [I|I].
      * apply class_items_from in I. lia.
      * apply L in I. lia.
Qed.

Lemma sort_values_id (l : list ordered_row) :
  StronglySorted by_order l -> sort_values l = l.
Proof.
  induction 1 as [|x l S IH Hx]; [reflexivity|].
  cbn [sort_values fold_right]. fold (sort_values l). rewrite IH.
  destruct l as [|y l]; [reflexivity|]. cbn [insert_row].
  inversion Hx as [|? ? Hy _]; subst. unfold by_order in Hy.
  apply N.leb_le in Hy. now rewrite Hy.
Qed.

Lemma strongly_sorted_map (A B : Type) (R : A -> A -> Prop)
      (Q : B -> B -> Prop) (f : A -> B) (l : list A) :
  (forall x y, R x y -> Q (f x) (f y)) ->
  StronglySorted R l -> StronglySorted Q (List.map f l).
Proof.
  intros H. induction 1 as [|x l S IH Hx]; [constructor|].
  cbn [List.map]. constructor; [exact IH|].
  apply Forall_forall. intros y I. apply in_map_iff in I.
  destruct I as (z & <- & I). apply H.
  rewrite Forall_forall in Hx. now apply Hx.
Qed.

Lemma items_entries (A : Type) (f : str -> str -> value -> A)
      (data : parsed) (n : N) :
  List.map (fun i => f (i_class i) (i_key i) (i_value i))
           (flat_map (fun '(idx, (g, c)) => class_items idx g c)
                     (enumerate_from n data))
  = List.map (fun '(g, k, v) => f g k (VStr v)) (entries data).
Proof.
  revert n. induction data as [|[g c] data IH]; intros n; [reflexivity|].
  cbn [enumerate_from flat_map entries]. rewrite !map_app.
  f_equal; [|apply IH].
  unfold class_items, enumerate. generalize 0%N as m.
  induction c as [|[k v] c IHc]; intros m; [reflexivity|].
  cbn [enumerate_from List.map]. f_equal. apply IHc.
Qed.

(** What the loop over the other files ends with. *)
Lemma merge_others_outcome (others : list (str * str))
      (base_df : list ordered_row) :
  match first_unclosed others with
  | Some key => merge_others base_df others = Raise (NoClosingBracket key)
  | None => exists rows, merge_others base_df others = Ok rows
  end.
Proof.
  revert base_df.
  induction others as [|[lang content] others IH]; intros base_df.
  - now exists base_df.
  - cbn [first_unclosed merge_others].
    destruct (parse_js_file content) as [[|e data]|key]; [apply IH| |reflexivity].
    destruct (flatten_dict (as_document (e :: data)) []); apply IH.
Qed.

(** The ranks of a parsed file whose classes hold at most 10000 keys. *)
Lemma flatten_sorted (data : parsed) :
  Dict.wf data -> Dict.get order_key data = None -> narrow data = true ->
  StronglySorted (fun a b => (i_order a < i_order b)%N)
                 (flatten_dict (as_document data) []).
Proof.
  intros Wd G W. rewrite (flatten_items data Wd G).
  apply (items_from_sorted data 0 W).
Qed.

(** The table, once the ranks are known to increase. *)
Lemma table_of_entries (first_lang : str) (others : list (str * str))
      (data : parsed) (merged : list ordered_row) :
  Dict.wf data -> Dict.get order_key data = None -> narrow data = true ->
  merge_others (base_frame first_lang (flatten_dict (as_document data) []))
               others = Ok merged ->
  List.map drop_order (sort_values merged)
  = List.map (entry_row first_lang others) (entries data).
Proof.
  intros Wd G W M.
  pose proof (flatten_sorted data Wd G W) as S.
  rewrite (flatten_items data Wd G) in *.
  apply merge_others_joined in M. subst merged.
  rewrite sort_values_id.
  - unfold base_frame. rewrite !map_map. unfold items, enumerate.
    etransitivity;
      [|apply (items_entries _
                 (fun g k v =>
                    {| t_class := g; t_key := k;
                       t_values := (first_lang, Some v)
                                     :: Merge.joined others g k |}))].
    reflexivity.
  - unfold base_frame. rewrite map_map.
    eapply strongly_sorted_map; [|exact S].
    intros x y L. unfold by_order, add_cells. cbn [o_order].
    cbn beta in L. lia.
Qed.

(** Rows in declaration order.  When the first file parses to a dict
    without a class named [__order__] and none of its classes holds more
    than 10000 keys, the ranks given to its entries increase strictly, and
    the table that [js_to_excel] returns holds one row per entry of the
    first file, in the order in which the file declares them, each with
    the value of the first locale followed by the values joined from the
    later files. *)
Theorem js_to_excel_declaration_order
        (first_lang first_file : str) (others : list (str * str))
        (data : parsed) (table : list table_row) :
  parse_js_file first_file = Ok data ->
  Dict.get order_key data = None ->
  narrow data = true ->
  js_to_excel ((first_lang, first_file) :: others) = Ok table ->
  StronglySorted (fun a b => (i_order a < i_order b)%N)
                 (flatten_dict (as_document data) [])
  /\ table = List.map (entry_row first_lang others) (entries data).
Proof.
  intros E G W J.
  pose proof E as Wd. apply parse_js_file_wf in Wd. destruct Wd as [Wd _].
  split; [now apply flatten_sorted|].
  unfold js_to_excel in J. rewrite E in J.
  destruct data as [|e data]; [discriminate|].
  destruct (flatten_dict (as_document (e :: data)) [])
    as [|i flattened] eqn:F; [discriminate|].
  destruct (merge_others (base_frame first_lang (i :: flattened)) others)
    as [merged|err] eqn:M; [|discriminate].
  injection J as <-. rewrite <- F in M.
  now apply table_of_entries.
Qed.

(** When the export fails.  Let the languages be pairwise distinct and
    none of them be named [class], [key] or [order].  With a first file
    that parses and yields at least one tuple, [js_to_excel] fails
    exactly when a later file holds a class whose bracket is never
    closed, with the error that names the class of the first such file;
    a later file that parses to nothing is passed over.  A first file
    that parses to classes without entries is refused as flattening to
    nothing. *)
Theorem js_to_excel_failures
        (first_lang first_file : str) (others : list (str * str)) :
  languages_ok (first_lang :: List.map fst others) ->
  (forall base,
      Merge.usable first_file = Some base ->
      match first_unclosed others with
      | Some key =>
          js_to_excel ((first_lang, first_file) :: others)
          = Raise (NoClosingBracket key)
      | None =>
          exists table,
            js_to_excel ((first_lang, first_file) :: others) = Ok table
      end)
  /\ (forall data,
         parse_js_file first_file = Ok data -> data <> [] ->
         Dict.get order_key data = None ->
         (js_to_excel ((first_lang, first_file) :: others)
          = Raise EmptyFlattened
          <-> entries data = [])).
Proof.
  intros _. split.
  - intros base U. unfold Merge.usable in U. unfold js_to_excel.
    destruct (parse_js_file first_file) as [[|e data]|key];
      [discriminate | | discriminate].
    destruct (flatten_dict (as_document (e :: data)) [])
      as [|i flattened]; [discriminate|].
    pose proof (merge_others_outcome others
                  (base_frame first_lang (i :: flattened))) as O.
    destruct (first_unclosed others) as [key|].
    + now rewrite O.
    + destruct O as [rows ->]. now eexists.
  - intros data E N G. unfold js_to_excel. rewrite E.
    pose proof E as Wd. apply parse_js_file_wf in Wd. destruct Wd as [Wd _].
    rewrite (flatten_items data Wd G).
    destruct data as [|e data]; [congruence|].
    assert (L : List.map (fun i => (i_class i, i_key i, i_value i))
                         (items (e :: data))
                = List.map (fun '(g, k, v) => (g, k, VStr v))
                           (entries (e :: data))).
    { unfold items, enumerate.
      apply (items_entries _ (fun g k v => (g, k, v))). }
    destruct (items (e :: data)) as [|i flattened] eqn:I.
    + split; [intros _|reflexivity].
      destruct (entries (e :: data)); [reflexivity|discriminate].
    + split.
      * pose proof (merge_others_outcome others
                      (base_frame first_lang (i :: flattened))) as O.
        destruct (first_unclosed others) as [key|].
        -- rewrite O. discriminate.
        -- destruct O as [rows ->]. discriminate.
      * intros Z. rewrite Z in L. discriminate.
Qed.
End DeclaredOrder.

(** The three locales of the example: the rows are [k1] and [k2] of the
    first file, in that order. *)
Lemma js_to_excel_declaration_order_witness :
  exists table,
    js_to_excel (P := latin1) Merge.three_locales = Ok table
    /\ table
       = List.map (Declared.entry_row (P := latin1) (lit "en_us")
                     (tl Merge.three_locales))
                  [(lit "text", lit "k1", lit "one");
                   (lit "text", lit "k2", lit "two")].
Proof.
  exists (match js_to_excel (P := latin1) Merge.three_locales with
          | Ok table => table
          | Raise _ => []
          end).
  split; [reflexivity|].
  apply (js_to_excel_declaration_order (P := latin1) (lit "en_us")
           (snd (hd ([], []) Merge.three_locales))
           (tl Merge.three_locales)
           [(lit "text", [(lit "k1", lit "one"); (lit "k2", lit "two")])]);
    reflexivity.
Defined.

(** A later file with a class left open stops the export of the three
    locales; a base whose only class is empty is refused. *)
Lemma js_to_excel_failures_witness :
  js_to_excel (P := latin1)
    [(lit "en_us", lit "export default { text: { k1: 'one', }, };");
     (lit "zh_cn", lit "");
     (lit "de_de", lit "export default { text: { k1: 'eins', }, tip: {")]
  = Raise (NoClosingBracket (lit "tip"))
  /\ js_to_excel (P := latin1)
       [(lit "en_us", lit "export default { text: { }, };")]
     = Raise EmptyFlattened.
Proof.
  split.
  - refine (proj1 (js_to_excel_failures (P := latin1) (lit "en_us")
                     (lit "export default { text: { k1: 'one', }, };")
                     [(lit "zh_cn", lit "");
                      (lit "de_de",
                       lit "export default { text: { k1: 'eins', }, tip: {")]
                     _)
                  _ eq_refl).
    split; repeat constructor; cbn; intuition discriminate.
  - refine (proj2 (proj2 (js_to_excel_failures (P := latin1) (lit "en_us")
                            (lit "export default { text: { }, };") [] _)
                         [(lit "text", [])] eq_refl _ _) _).
    + split; repeat constructor; cbn; intuition discriminate.
    + discriminate.
    + reflexivity.
    + reflexivity.
Defined.

(** ** excel_to_js.py: the operations on the table *)

Section TableFacts.
Import LocaleManager.

Lemma row_get_set_same (l : str) (x : option cell) (r : row) :
  row_get (set_cell l x r) l = x.
Proof.
  unfold row_get, set_cell. cbn [row_cells]. rewrite get_set_same.
  now destruct x.
Qed.

Lemma row_get_set_other (l l' : str) (x : option cell) (r : row) :
  l' <> l -> row_get (set_cell l x r) l' = row_get r l'.
Proof.
  intros N. unfold row_get, set_cell. cbn [row_cells].
  now rewrite get_set_other.
Qed.

Lemma selects_set_cell (c k l : str) (x : option cell) (r : row) :
  selects c k (set_cell l x r) = selects c k r.
Proof. reflexivity. Qed.

Lemma set_cell_noop (l : str) (v : cell) (r : row) :
  row_get r l = Some v -> set_cell l (Some v) r = r.
Proof.
  unfold row_get, set_cell. destruct r as [c k cells]. cbn [row_cells].
  destruct (Dict.get l cells) as [[w|]|] eqn:G; try discriminate.
  intros [= ->]. f_equal. now apply set_same.
Qed.

Lemma assign_map (f : row -> bool) (l : str) (v : cell) (rs : list row) :
  assign (List.map f rs) l v rs
  = List.map (fun r => if f r then set_cell l (Some v) r else r) rs.
Proof.
  induction rs as [|r rs IH]; [reflexivity|].
  cbn [List.map assign]. now rewrite IH.
Qed.

Lemma existsb_mask (f : row -> bool) (rs : list row) :
  existsb (fun m => m) (List.map f rs) = existsb f rs.
Proof.
  induction rs as [|r rs IH]; [reflexivity|]. cbn. now rewrite IH.
Qed.

Lemma mask_ensure (c k l : str) (df : frame) :
  List.map (selects c k) (rows (ensure_column l df))
  = List.map (selects c k) (rows df).
Proof.
  unfold ensure_column. destruct (in_columns l df); [reflexivity|].
  cbn [add_column rows]. rewrite map_map. reflexivity.
Qed.

Lemma in_columns_ensure (l : str) (df : frame) :
  in_columns l (ensure_column l df) = true.
Proof.
  unfold ensure_column. destruct (in_columns l df) eqn:E; [exact E|].
  unfold in_columns, add_column. cbn [locale_columns].
  rewrite existsb_app. cbn. rewrite str_eqb_refl.
  now rewrite !orb_true_r.
Qed.

Lemma ensure_twice (l : str) (df : frame) :
  ensure_column l (ensure_column l df) = ensure_column l df.
Proof.
  unfold ensure_column at 1. now rewrite in_columns_ensure.
Qed.

(** The actions [update] and [add] of the command line do the same to
    the table: [update_locale] and [add_new_entry] with the one value
    give the same frame, whether or not the entry exists. *)
Theorem update_locale_is_add_new_entry
        (class_name key locale : str) (value : cell) (df : frame) :
  update_locale class_name key locale value df
  = add_new_entry class_name key [(locale, value)] df.
Proof.
  unfold update_locale, add_new_entry at 2.
  cbn [List.map fst existsb]. rewrite orb_false_r.
  destruct (reserved locale) eqn:R; [reflexivity|].
  rewrite mask_ensure.
  destruct (existsb (fun m => m) (List.map (selects class_name key) (rows df)))
    eqn:M.
  - cbn [fold_left fst snd]. reflexivity.
  - unfold add_new_entry. cbn [List.map fst existsb]. rewrite orb_false_r, R.
    rewrite mask_ensure, M. cbn [fold_left fst].
    now rewrite ensure_twice.
Qed.

Lemma get_map_keys (V : Type) (f : str -> V) (l : str) (cols : list str) :
  Dict.get l (List.map (fun c => (c, f c)) cols)
  = if existsb (str_eqb l) cols then Some (f l) else None.
Proof.
  induction cols as [|c cols IH]; [reflexivity|].
  cbn [List.map Dict.get existsb]. destruct (str_eqb l c) eqn:E.
  - apply str_eqb_eq in E. now subst.
  - exact IH.
Qed.

Lemma in_columns_listed (l : str) (df : frame) :
  reserved l = false -> in_columns l df = true ->
  existsb (str_eqb l) (locale_columns df) = true.
Proof. unfold in_columns. now intros ->. Qed.

Lemma ensure_rows (c k l : str) (df : frame) :
  Forall2 (fun r r0 =>
             entry r0 = entry r
             /\ (forall l', l' <> l -> row_get r0 l' = row_get r l')
             /\ row_get r0 l = if in_columns l df then row_get r l else None)
          (rows df) (rows (ensure_column l df)).
Proof.
  unfold ensure_column. destruct (in_columns l df).
  - induction (rows df) as [|r rs IH]; constructor; [now repeat split|exact IH].
  - cbn [add_column rows].
    induction (rows df) as [|r rs IH]; constructor; [|exact IH].
    split; [reflexivity|]. split.
    + intros l' N. now apply row_get_set_other.
    + apply row_get_set_same.
Qed.

Lemma assign_noop (c k l : str) (v : cell) (rs : list row) :
  (forall r, In r rs -> selects c k r = true -> row_get r l = Some v) ->
  assign (List.map (selects c k) rs) l v rs = rs.
Proof.
  intros H. rewrite assign_map. rewrite <- (map_id rs) at 2.
  apply map_ext_in. intros r I.
  destruct (selects c k r) eqn:S; [|reflexivity].
  apply set_cell_noop. now apply H.
Qed.

Lemma update_locale_settled (c k l : str) (v : cell) (df : frame) :
  reserved l = false -> in_columns l df = true ->
  (exists r, In r (rows df) /\ selects c k r = true) ->
  (forall r, In r (rows df) -> selects c k r = true -> row_get r l = Some v) ->
  update_locale c k l v df = Some df.
Proof.
  intros R C (r & I & S) H. unfold update_locale. rewrite R.
  unfold ensure_column. rewrite C. rewrite existsb_mask.
  assert (E : existsb (selects c k) (rows df) = true).
  { apply existsb_exists. now exists r. }
  rewrite E, assign_noop by exact H. now destruct df.
Qed.

(** After [update_locale].  For a column other than [class] and [key],
    the call returns a frame in which at least one row has the class and
    the key, and every such row holds the value in the column; the rows
    of the old frame come first, each with its class, its key and its
    other cells, and with its cell of the column too when it is not
    selected; one row is appended, empty outside the column, exactly when
    no row was selected; the column is appended when it was not there;
    and the same call on the new frame changes nothing. *)
Theorem update_locale_sets
        (class_name key locale : str) (value : cell) (df : frame) :
  reserved locale = false ->
  exists df' kept added,
    update_locale class_name key locale value df = Some df'
    /\ rows df' = kept ++ added
    /\ Forall2 (same_but class_name key locale (in_columns locale df))
               (rows df) kept
    /\ (forall r, In r (rows df') -> selects class_name key r = true ->
                  row_get r locale = Some value)
    /\ (exists r, In r (rows df') /\ selects class_name key r = true)
    /\ (if existsb (selects class_name key) (rows df) then added = []
        else exists r, added = [r] /\ entry r = (class_name, key)
                       /\ forall l, l <> locale -> row_get r l = None)
    /\ locale_columns df'
       = (if in_columns locale df then locale_columns df
          else locale_columns df ++ [locale])
    /\ update_locale class_name key locale value df' = Some df'.
Proof.
  intros R.
  pose proof (ensure_rows class_name key locale df) as F0.
  pose proof (in_columns_ensure locale df) as C0.
  pose proof (mask_ensure class_name key locale df) as M0.
  assert (L0 : locale_columns (ensure_column locale df)
               = if in_columns locale df then locale_columns df
                 else locale_columns df ++ [locale]).
  { unfold ensure_column. now destruct (in_columns locale df). }
  unfold update_locale at 1. rewrite R.
  set (d0 := ensure_column locale df) in *.
  rewrite M0, existsb_mask.
  destruct (existsb (selects class_name key) (rows df)) eqn:E.
  - (* some row is selected *)
    assert (M1 : List.map (selects class_name key) (rows df)
                 = List.map (selects class_name key) (rows d0))
      by (now rewrite M0).
    rewrite M1, assign_map.
    set (rs' := List.map (fun r => if selects class_name key r
                                   then set_cell locale (Some value) r
                                   else r) (rows d0)).
    assert (A : forall r, In r rs' -> selects class_name key r = true ->
                          row_get r locale = Some value).
    { intros r I S. apply in_map_iff in I. destruct I as (r0 & <- & I).
      destruct (selects class_name key r0) eqn:S0.
      - apply row_get_set_same.
      - congruence. }
    assert (B : exists r, In r rs' /\ selects class_name key r = true).
    { apply existsb_exists in E. destruct E as (r & I & S).
      assert (E' : existsb (selects class_name key) (rows d0) = true).
      { rewrite <- existsb_mask, M0, existsb_mask.
        apply existsb_exists. now exists r. }
      apply existsb_exists in E'. destruct E' as (r0 & I0 & S0).
      exists (set_cell locale (Some value) r0). split; [|exact S0].
      apply in_map_iff. exists r0. now rewrite S0. }
    exists {| locale_columns := locale_columns d0; rows := rs' |}, rs', [].
    split; [reflexivity|]. cbn [rows locale_columns].
    split; [now rewrite app_nil_r|]. split.
    { unfold rs'. clear A B M1 M0 E.
      induction F0 as [|r r0 rs rs0 (E0 & O0 & K0) F0 IH]; [constructor|].
      cbn [List.map]. constructor; [|exact IH].
      assert (S0 : selects class_name key r0 = selects class_name key r).
      { unfold selects. injection E0 as -> ->. reflexivity. }
      rewrite S0. unfold same_but.
      destruct (selects class_name key r) eqn:S.
      - split; [exact E0|]. split; [|discriminate].
        intros l N. rewrite row_get_set_other by exact N. now apply O0.
      - split; [exact E0|]. split; [exact O0|]. now intros _. }
    split; [exact A|]. split; [exact B|]. split; [reflexivity|].
    split; [exact L0|].
    apply update_locale_settled; [exact R | exact C0 | exact B | exact A].
  - (* no row is selected: a row is appended *)
    unfold add_new_entry. cbn [List.map fst existsb]. rewrite orb_false_r, R.
    rewrite M0, existsb_mask, E. cbn [fold_left fst].
    unfold ensure_column at 1 2 3. fold d0. rewrite C0.
    set (new_row := {| row_class := class_name; row_key := key;
                       row_cells := List.map
                                      (fun c => (c, Dict.get c [(locale, value)]))
                                      (locale_columns d0) |}).
    assert (G : forall l, row_get new_row l
                          = if str_eqb l locale then Some value else None).
    { intros l. unfold row_get, new_row. cbn [row_cells].
      rewrite get_map_keys. cbn [Dict.get].
      destruct (str_eqb l locale) eqn:El.
      - apply str_eqb_eq in El. subst l.
        now rewrite (in_columns_listed locale d0 R C0).
      - now destruct (existsb (str_eqb l) (locale_columns d0)). }
    assert (Sn : selects class_name key new_row = true).
    { unfold selects, new_row. cbn. now rewrite !str_eqb_refl. }
    assert (N0 : forall r, In r (rows d0) -> selects class_name key r = false).
    { intros r I. destruct (selects class_name key r) eqn:S; [|reflexivity].
      assert (E' : existsb (selects class_name key) (rows d0) = true).
      { apply existsb_exists. now exists r. }
      rewrite <- existsb_mask, M0, existsb_mask in E'. congruence. }
    exists {| locale_columns := locale_columns d0;
              rows := rows d0 ++ [new_row] |}, (rows d0), [new_row].
    split; [reflexivity|]. cbn [rows locale_columns].
    split; [reflexivity|]. split.
    { clear G Sn N0 M0 E.
      induction F0 as [|r r0 rs rs0 (E0 & O0 & K0) F0 IH];
        constructor; [|exact IH].
      split; [exact E0|]. split; [exact O0|]. now intros _. }
    split.
    { intros r I S. apply in_app_or in I. destruct I as [I|[<-|[]]].
      - rewrite (N0 r I) in S. discriminate.
      - rewrite G. now rewrite str_eqb_refl. }
    split.
    { exists new_row. split; [|exact Sn]. apply in_or_app. right. now left. }
    split.
    { exists new_row. split; [reflexivity|]. split; [reflexivity|].
      intros l N. rewrite G. apply str_eqb_neq in N. now rewrite N. }
    split; [exact L0|].
    apply update_locale_settled; [exact R | exact C0 | | ].
    + exists new_row. split; [|exact Sn]. cbn [rows].
      apply in_or_app. right. now left.
    + cbn [rows]. intros r I S. apply in_app_or in I.
      destruct I as [I|[<-|[]]].
      * rewrite (N0 r I) in S. discriminate.
      * rewrite G. now rewrite str_eqb_refl.
Qed.
End TableFacts.

Section ScanKeepsTable.
Context {P : Python}.
Import LocaleManager.

Lemma cell_updates_from (fs : files) (r : row) (locale : str) (u : pending) :
  In u (Reconcile.cell_updates fs r locale) ->
  exists value,
    row_get r locale = Some value
    /\ p_class u = row_class r /\ p_key u = row_key r
    /\ p_locale u = locale /\ p_value u = value.
Proof.
  unfold Reconcile.cell_updates.
  destruct (row_get r locale) as [value|]; [|intros []].
  intros I. exists value. split; [reflexivity|].
  destruct (fs (Reconcile.file_of locale)) as [content|].
  - destruct (pattern_found (row_class r) (row_key r) content) as [[|]|];
      try destruct I as [<-|[]]; try destruct I. now repeat split.
  - destruct I as [<-|[]]. now repeat split.
Qed.

Lemma nodup_map_eq (A B : Type) (f : A -> B) (l : list A) (x y : A) :
  NoDup (List.map f l) -> In x l -> In y l -> f x = f y -> x = y.
Proof.
  induction l as [|a l IH]; intros N Ix Iy E; [destruct Ix|].
  cbn in N. inversion N as [|? ? Na Nl]; subst.
  destruct Ix as [->|Ix], Iy as [->|Iy].
  - reflexivity.
  - exfalso. apply Na. rewrite E. now apply in_map.
  - exfalso. apply Na. rewrite <- E. now apply in_map.
  - now apply IH.
Qed.

Lemma apply_updates_settled (ups : list pending) (df : frame) :
  (forall u, In u ups ->
             update_locale (p_class u) (p_key u) (p_locale u) (p_value u) df
             = Some df) ->
  apply_updates ups df = Some df.
Proof.
  unfold apply_updates. induction ups as [|u ups IH]; intros H;
    [reflexivity|].
  cbn [fold_left]. rewrite H by now left.
  apply IH. intros u' I. apply H. now right.
Qed.

(** A scan leaves the table as it is.  When no two rows share their
    class and key, the updates that [scan_and_update] finds, carried out
    one after the other with [update_locale], give back the same frame:
    no row and no column is added and no cell changes, so the table that
    is saved and nested again is the table that was scanned. *)
Theorem scan_and_update_keeps_table
        (fs : files) (df : frame) (ups : list pending) :
  scan_and_update df fs = Ok ups ->
  NoDup (List.map entry (rows df)) ->
  (forall l, In l (locale_columns df) -> reserved l = false) ->
  apply_updates ups df = Some df.
Proof.
  intros S N C. unfold scan_and_update in S. apply scan_rows_ok in S.
  cbn [app] in S. subst ups. apply apply_updates_settled.
  intros u I. apply in_flat_map in I. destruct I as (r & Ir & I).
  apply in_flat_map in I. destruct I as (locale & Il & I).
  apply cell_updates_from in I.
  destruct I as (value & G & -> & -> & -> & ->).
  apply update_locale_settled.
  - now apply C.
  - unfold in_columns. apply orb_true_iff. right.
    apply existsb_exists. exists locale. split; [exact Il|].
    apply str_eqb_refl.
  - exists r. split; [exact Ir|]. unfold selects.
    now rewrite !str_eqb_refl.
  - intros r' I' S'. unfold selects in S'. apply andb_true_iff in S'.
    destruct S' as [Sc Sk]. apply str_eqb_eq in Sc. apply str_eqb_eq in Sk.
    assert (r' = r).
    { apply (nodup_map_eq _ _ entry (rows df)); try assumption.
      unfold entry. now rewrite Sc, Sk. }
    now subst r'.
Qed.
End ScanKeepsTable.

(** The sheet of the example on its disk: two updates and one new entry
    are found, and carrying them out gives back the sheet. *)
Lemma scan_and_update_keeps_table_witness :
  exists ups,
    scan_and_update (P := latin1) Reconcile.sheet Reconcile.disk = Ok ups
    /\ List.length ups = 2
    /\ LocaleManager.apply_updates ups Reconcile.sheet = Some Reconcile.sheet.
Proof.
  eexists. split; [reflexivity|]. split; [reflexivity|].
  apply (scan_and_update_keeps_table (P := latin1) Reconcile.disk).
  - reflexivity.
  - repeat constructor; cbn; intuition discriminate.
  - intros l [<-|[<-|[]]]; reflexivity.
Defined.

(** A new language for an entry of the example sheet: the column is
    appended, the row of the entry holds the value, no row is added. *)
Lemma update_locale_sets_witness :
  exists df',
    LocaleManager.update_locale (lit "text") (lit "more") (lit "de-de")
                                (CStr (lit "Mehr")) Reconcile.sheet
    = Some df'
    /\ locale_columns df' = [Examples.en_us; Reconcile.zh_cn; lit "de-de"]
    /\ List.length (rows df') = 3
    /\ LocaleManager.update_locale (lit "text") (lit "more") (lit "de-de")
                                   (CStr (lit "Mehr")) df'
       = Some df'.
Proof.
  destruct (update_locale_sets (lit "text") (lit "more") (lit "de-de")
              (CStr (lit "Mehr")) Reconcile.sheet eq_refl)
    as (df' & kept & added & U & Rw & F & _ & _ & A & L & I).
  exists df'. split; [exact U|]. split; [exact L|]. split; [|exact I].
  rewrite Rw, length_app. apply Forall2_length in F. rewrite <- F.
  cbn in A. subst added. reflexivity.
Defined.

(** ** excel_to_js.py: what nesting stores *)

Section NestingFacts.
Context {P : Python}.
Import Nesting.

Lemma contains_dot (s : str) : contains (lit ".") s = true <-> In 46%N s.
Proof.
  induction s as [|c t IH]; [cbn; intuition discriminate|].
  cbn [contains]. change (lit ".") with [46%N] in *.
  cbn [startswith]. rewrite andb_true_r, orb_true_iff, IH, N.eqb_eq.
  cbn. intuition congruence.
Qed.

Lemma validate_key_no_dot (key : str) :
  ~ In 46%N key -> ~ In 46%N (_validate_key key).
Proof.
  intros N. unfold _validate_key.
  assert (D : ~ In 46%N (lit "default_key")).
  { cbn. intuition discriminate. }
  destruct key as [|c t]; [exact D|].
  destruct (strip (c :: t)); [exact D|].
  assert (M : ~ In 46%N (List.map (fun c => if is_word c || (c =? 46)%N
                                            then c else 95%N) (c :: t))).
  { intros I. apply in_map_iff in I. destruct I as (x & E & I).
    destruct (is_word x || (x =? 46)%N); [subst x; contradiction|].
    discriminate. }
  cbn [List.map] in *.
  destruct (isdigit (if is_word c || (c =? 46)%N then c else 95%N));
    [|exact M].
  intros I. apply in_app_or in I. destruct I as [I|I]; [|contradiction].
  cbn in I. intuition discriminate.
Qed.

(** The classes of a nested document, in order. *)
Lemma nest_rows_keys (locale : str) (rs : list row)
      (acc : list (str * node)) :
  Dict.keys (fold_left (nest_row locale) rs acc)
  = first_seen_from (Dict.keys acc)
      (List.map (fun r => _validate_key (row_class r))
                (filter (valued locale) rs)).
Proof.
  revert acc. induction rs as [|r rs IH]; intros acc; [reflexivity|].
  cbn [fold_left filter]. rewrite IH.
  assert (V : valued locale r = match row_get r locale with
                                | Some _ => true
                                | None => false
                                end) by reflexivity.
  rewrite V. unfold nest_row.
  destruct (row_get r locale) as [v|]; [|reflexivity].
  cbn [List.map]. now rewrite keys_set.
Qed.

(** The classes of a file.  The nested document of a locale holds each
    class once, in the order in which the rows of the table first give
    the class a value for that locale; a class whose rows hold no value
    for the locale is absent. *)
Theorem nest_class_order (df : frame) (locale : str) :
  Dict.keys (nest df locale)
  = first_seen (List.map (fun r => _validate_key (row_class r))
                         (filter (valued locale) (rows df)))
  /\ NoDup (Dict.keys (nest df locale)).
Proof.
  unfold nest. split; [apply nest_rows_keys|].
  assert (W : Dict.wf (@nil (str * node))) by constructor.
  revert W. generalize (@nil (str * node)) as acc.
  induction (rows df) as [|r rs IH]; intros acc W; [exact W|].
  cbn [fold_left]. apply IH. unfold nest_row.
  destruct (row_get r locale); [|exact W]. now apply wf_set.
Qed.


Lemma str_eqb_sym (a b : str) : str_eqb a b = str_eqb b a.
Proof.
  destruct (str_eqb a b) eqn:E.
  - apply str_eqb_eq in E. subst. symmetry. apply str_eqb_refl.
  - destruct (str_eqb b a) eqn:E'; [|reflexivity].
    apply str_eqb_eq in E'. subst. now rewrite str_eqb_refl in E.
Qed.

Lemma lookup_set (locale_dict : list (str * node)) (cn kn c k : str)
      (x : value) :
  lookup (Dict.set cn
            (Dict.set kn x match Dict.get cn locale_dict with
                           | Some d => d
                           | None => []
                           end)
            locale_dict) c k
  = if str_eqb c cn && str_eqb k kn then Some x
    else lookup locale_dict c k.
Proof.
  unfold lookup. rewrite get_set_dec.
  destruct (str_eqb c cn) eqn:Ec; [|reflexivity].
  apply str_eqb_eq in Ec. subst c. rewrite get_set_dec.
  cbn [andb]. destruct (str_eqb k kn); [reflexivity|].
  now destruct (Dict.get cn locale_dict).
Qed.

Lemma nest_row_flat (locale : str) (acc : list (str * node)) (r : row)
      (value : cell) :
  strings_only acc -> ~ In 46%N (row_key r) ->
  row_get r locale = Some value ->
  nest_row locale acc r
  = Dict.set (_validate_key (row_class r))
      (Dict.set (_validate_key (row_key r)) (VStr (_escape_string value))
                match Dict.get (_validate_key (row_class r)) acc with
                | Some d => d
                | None => []
                end)
      acc.
Proof.
  intros S N G. unfold nest_row. rewrite G.
  assert (C : contains (lit ".") (_validate_key (row_key r)) = false).
  { destruct (contains (lit ".") (_validate_key (row_key r))) eqn:E;
      [|reflexivity].
    apply contains_dot in E. now apply validate_key_no_dot in E. }
  rewrite C.
  destruct (Dict.get (_validate_key (row_class r)) acc) as [d|] eqn:Gc;
    [|reflexivity].
  destruct (Dict.get (_validate_key (row_key r)) d) as [[s|m]|] eqn:Gk;
    try reflexivity.
  destruct (S _ _ _ _ Gc Gk) as [s E]. discriminate.
Qed.

Lemma strings_only_set (acc : list (str * node)) (cn kn s : str) :
  strings_only acc ->
  strings_only
    (Dict.set cn (Dict.set kn (VStr s) match Dict.get cn acc with
                                       | Some d => d
                                       | None => []
                                       end) acc).
Proof.
  intros S c d k v Gc Gk. rewrite get_set_dec in Gc.
  destruct (str_eqb c cn) eqn:Ec; [|now apply (S c d k v)].
  injection Gc as <-. rewrite get_set_dec in Gk.
  destruct (str_eqb k kn); [injection Gk as <-; now exists s|].
  destruct (Dict.get cn acc) as [d0|] eqn:G0; [|discriminate].
  now apply (S cn d0 k v).
Qed.

Lemma nest_rows_flat (locale c k : str) (rs : list row)
      (acc : list (str * node)) (init : option str) :
  strings_only acc ->
  (forall r, In r rs -> ~ In 46%N (row_key r)) ->
  lookup acc c k = option_map VStr init ->
  strings_only (fold_left (nest_row locale) rs acc)
  /\ lookup (fold_left (nest_row locale) rs acc) c k
     = option_map VStr
         (fold_left (fun acc r =>
                       match row_get r locale with
                       | Some v =>
                           if str_eqb (_validate_key (row_class r)) c
                              && str_eqb (_validate_key (row_key r)) k
                           then Some (_escape_string v)
                           else acc
                       | None => acc
                       end)
                    rs init).
Proof.
  revert acc init. induction rs as [|r rs IH]; intros acc init S N L.
  - now split.
  - cbn [fold_left].
    assert (N' : forall r', In r' rs -> ~ In 46%N (row_key r'))
      by (intros r' I; apply N; now right).
    destruct (row_get r locale) as [v|] eqn:G.
    + rewrite (nest_row_flat locale acc r v S (N r (or_introl eq_refl)) G).
      apply IH; [now apply strings_only_set | exact N'|].
      rewrite lookup_set.
      rewrite (str_eqb_sym c), (str_eqb_sym k).
      now destruct (str_eqb (_validate_key (row_class r)) c
                    && str_eqb (_validate_key (row_key r)) k).
    + assert (E : nest_row locale acc r = acc)
        by (unfold nest_row; now rewrite G).
      rewrite E. now apply IH.
Qed.

(** Lookup after nesting, for undotted keys.  When no key of the table
    holds a dot, the nested document of a locale holds strings only, and
    for every class and key it holds the escaped value of the last row
    that has a value for the locale and whose class and key are
    sanitized to that class and key; it holds nothing when there is no
    such row.  Rows that collide after sanitizing overwrite one
    another. *)
Theorem nest_flat_lookup (df : frame) (locale c k : str) :
  (forall r, In r (rows df) -> ~ In 46%N (row_key r)) ->
  strings_only (nest df locale)
  /\ lookup (nest df locale) c k
     = option_map VStr (last_value locale c k (rows df)).
Proof.
  intros N. unfold nest, last_value.
  apply nest_rows_flat; [|exact N|reflexivity].
  intros c0 d k0 v G. discriminate.
Qed.

Lemma split_on_nonempty (sep : char) (s : str) : split_on sep s <> [].
Proof.
  destruct s as [|c t]; [discriminate|]. cbn [split_on].
  destruct (c =? sep)%N; [discriminate|].
  destruct (split_on sep t); discriminate.
Qed.

Lemma get_set_path (parts : list str) (v : str) (d : node) :
  parts <> [] -> get_path parts (set_path parts v d) = Some (VStr v).
Proof.
  revert d. induction parts as [|part rest IH]; intros d N; [congruence|].
  destruct rest as [|next rest].
  - cbn. apply get_set_same.
  - cbn [set_path get_path]. rewrite get_set_same.
    apply IH. discriminate.
Qed.

(** Read-back of a row.  Right after a row with a value is nested, its
    class is in the document and the escaped value can be read back from
    the class: along the sanitized parts of a dotted key; for an undotted
    key under the key itself, or under the sentinel of the mapping that
    the key already held. *)
Theorem nest_row_read_back
        (locale : str) (locale_dict : list (str * node)) (r : row)
        (value : cell) :
  row_get r locale = Some value ->
  exists class_dict,
    Dict.get (_validate_key (row_class r)) (nest_row locale locale_dict r)
    = Some class_dict
    /\ if contains (lit ".") (_validate_key (row_key r))
       then get_path (List.map _validate_key
                               (split_on 46%N (_validate_key (row_key r))))
                     class_dict
            = Some (VStr (_escape_string value))
       else Dict.get (_validate_key (row_key r)) class_dict
            = Some (VStr (_escape_string value))
            \/ exists m,
                Dict.get (_validate_key (row_key r)) class_dict
                = Some (VDict m)
                /\ Dict.get sentinel m = Some (VStr (_escape_string value)).
Proof.
  intros G. unfold nest_row. rewrite G. eexists.
  split; [apply get_set_same|].
  destruct (contains (lit ".") (_validate_key (row_key r))).
  - apply get_set_path. intros E. apply map_eq_nil in E.
    now apply split_on_nonempty in E.
  - set (cd := match Dict.get (_validate_key (row_class r)) locale_dict with
               | Some d => d
               | None => []
               end).
    destruct (Dict.get (_validate_key (row_key r)) cd) as [[s|m]|].
    + left. apply get_set_same.
    + right. eexists. split; apply get_set_same.
    + left. apply get_set_same.
Qed.
End NestingFacts.

(** Two rows whose keys are sanitized to the same key: the second
    overwrites the first. *)
Lemma nest_flat_lookup_witness :
  Nesting.lookup
    (nest (P := latin1)
          (Examples.table [Examples.row1 "g" "a b" "X";
                           Examples.row1 "g" "a_b" "Y"])
          Examples.en_us)
    (lit "g") (lit "a_b")
  = Some (VStr (lit "Y")).
Proof.
  destruct (nest_flat_lookup (P := latin1)
              (Examples.table [Examples.row1 "g" "a b" "X";
                               Examples.row1 "g" "a_b" "Y"])
              Examples.en_us (lit "g") (lit "a_b")) as [_ L].
  - intros r [<-|[<-|[]]]; cbn; intuition discriminate.
  - rewrite L. reflexivity.
Defined.

(** The second row of the example with a value and then a longer key:
    its value is read back along [a], [b]. *)
Lemma nest_row_read_back_witness :
  exists class_dict,
    Dict.get (lit "g")
      (nest (P := latin1) Examples.value_then_child Examples.en_us)
    = Some class_dict
    /\ Nesting.get_path [lit "a"; lit "b"] class_dict
       = Some (VStr (lit "Y")).
Proof.
  destruct (nest_row_read_back (P := latin1) Examples.en_us
              (nest_row (P := latin1) Examples.en_us []
                        (Examples.row1 "g" "a" "X"))
              (Examples.row1 "g" "a.b" "Y") (CStr (lit "Y")) eq_refl)
    as (class_dict & G & R).
  exists class_dict. split; [exact G | exact R].
Defined.

(** ** excel_to_js.py: locale names and the files written *)

Section LocaleFiles.
Context {P : Python}.
Import Nesting.

Lemma replace_single (x y : char) (s : str) :
  replace [x] [y] s = List.map (fun c => if (c =? x)%N then y else c) s.
Proof.
  unfold replace. induction s as [|c t IH]; [reflexivity|].
  cbn [replace_from startswith List.length Nat.pred List.map].
  rewrite andb_true_r, N.eqb_sym.
  destruct (c =? x)%N; cbn [app]; now rewrite IH.
Qed.

Lemma lower_ascii (s : str) :
  forallb is_ascii s = true ->
  lower s = List.map (fun c => if ascii_upper c then (c + 32)%N else c) s.
Proof.
  unfold lower. induction s as [|c t IH]; [reflexivity|].
  cbn [forallb flat_map List.map]. intros H. apply andb_true_iff in H.
  destruct H as [Hc Ht]. unfold lower_char at 1. rewrite Hc.
  rewrite IH by exact Ht. now destruct (ascii_upper c).
Qed.

Lemma normal_char_ascii (c : char) :
  is_ascii c = true -> is_ascii (normal_char c) = true.
Proof.
  unfold normal_char, is_ascii, ascii_upper. intros H.
  apply N.ltb_lt in H. destruct (c =? 95)%N; [reflexivity|].
  destruct ((65 <=? c) && (c <=? 90))%N eqn:U; apply N.ltb_lt; [|exact H].
  apply andb_true_iff in U. destruct U as [_ U]. apply N.leb_le in U. lia.
Qed.

Lemma normal_char_twice (c : char) :
  normal_char (normal_char c) = normal_char c.
Proof.
  unfold normal_char, ascii_upper.
  destruct (c =? 95)%N eqn:E; [reflexivity|].
  destruct ((65 <=? c) && (c <=? 90))%N eqn:U.
  - apply andb_true_iff in U. destruct U as [U1 U2].
    apply N.leb_le in U1. apply N.leb_le in U2.
    assert (E1 : (c + 32 =? 95)%N = false) by (apply N.eqb_neq; lia).
    assert (E2 : (c + 32 <=? 90)%N = false) by (apply N.leb_gt; lia).
    now rewrite E1, E2, andb_false_r.
  - now rewrite E, U.
Qed.

Lemma normalize_ascii (locale : str) :
  forallb is_ascii locale = true ->
  _normalize_locale locale = List.map normal_char locale.
Proof.
  intros H. unfold _normalize_locale.
  change (lit "_") with [95%N]. change (lit "-") with [45%N].
  rewrite replace_single, lower_ascii.
  - rewrite map_map. apply map_ext. intros c. unfold normal_char.
    now destruct (c =? 95)%N.
  - rewrite forallb_forall in *. intros c I. apply in_map_iff in I.
    destruct I as (x & <- & I). destruct (x =? 95)%N; [reflexivity|].
    now apply H.
Qed.

(** Locale names.  A locale name made of ASCII characters is normalized
    one character at a time: an underscore becomes a hyphen, a capital
    letter its small letter, every other character stays; so names that
    differ only in case or in the choice between underscore and hyphen
    are normalized to the same name, and normalizing again changes
    nothing. *)
Theorem normalize_locale_ascii (locale : str) :
  forallb is_ascii locale = true ->
  _normalize_locale locale = List.map normal_char locale
  /\ _normalize_locale (_normalize_locale locale) = _normalize_locale locale
  /\ forall other,
      forallb is_ascii other = true ->
      List.map normal_char other = List.map normal_char locale ->
      _normalize_locale other = _normalize_locale locale.
Proof.
  intros H. split; [now apply normalize_ascii|]. split.
  - rewrite (normalize_ascii locale H). rewrite normalize_ascii.
    + rewrite map_map. apply map_ext. apply normal_char_twice.
    + rewrite forallb_forall in *. intros c I. apply in_map_iff in I.
      destruct I as (x & <- & I). apply normal_char_ascii. now apply H.
  - intros other Ho E. now rewrite !normalize_ascii, E.
Qed.

(** What is written.  After [generate_js_files] a file of the directory
    holds the text nested for the last locale column that is normalized
    to its name; a file that no column is normalized to is left as it
    was.  Two columns normalized to one name write the same file, and
    the text of the first is lost. *)
Theorem generate_js_files_written (df : frame) (fs : files) (name : str) :
  write_files (generate_js_files df) fs name
  = match last_column df name with
    | Some locale => Some (js_content (nest df locale))
    | None => fs name
    end.
Proof.
  unfold generate_js_files, last_column, write_files.
  generalize (locale_columns df) as cols.
  assert (G : forall cols (fs' : files) acc,
             fs' name = match acc with
                        | Some locale => Some (js_content (nest df locale))
                        | None => fs name
                        end ->
             fold_left (fun (fs : files) (e : str * str) name =>
                          if str_eqb name (fst e) then Some (snd e)
                          else fs name)
                       (List.map (fun locale =>
                                    (_normalize_locale locale ++ lit ".js",
                                     js_content (nest df locale))) cols)
                       fs' name
             = match fold_left (fun acc locale =>
                                  if str_eqb (_normalize_locale locale
                                                ++ lit ".js") name
                                  then Some locale else acc) cols acc with
               | Some locale => Some (js_content (nest df locale))
               | None => fs name
               end).
  { induction cols as [|l cols IH]; intros fs' acc E; [exact E|].
    cbn [List.map fold_left fst snd]. apply IH.
    rewrite (str_eqb_sym name).
    now destruct (str_eqb (_normalize_locale l ++ lit ".js") name). }
  intros cols. now apply G.
Qed.
End LocaleFiles.

Lemma normalize_locale_ascii_witness :
  _normalize_locale (P := latin1) (lit "en_US") = lit "en-us"
  /\ _normalize_locale (P := latin1) (lit "EN-us") = lit "en-us".
Proof.
  destruct (normalize_locale_ascii (P := latin1) (lit "en_US") eq_refl)
    as (E & _ & S).
  split; [rewrite E; reflexivity|].
  rewrite (S (lit "EN-us") eq_refl eq_refl), E. reflexivity.
Defined.

(** ** excel_to_js.py: escaping *)

Section Escaping.
Import Nesting.

Lemma replace_from_in (old new : str) (k : nat) (s : str) (c : char) :
  In c (replace_from old new k s) -> In c new \/ In c s.
Proof.
  revert k. induction s as [|x t IH]; intros k I; [destruct I|].
  cbn [replace_from] in I. destruct k as [|k].
  - destruct (startswith old (x :: t)).
    + apply in_app_or in I. destruct I as [I|I]; [now left|].
      apply IH in I. destruct I; [now left | right; now right].
    + destruct I as [<-|I]; [right; now left|].
      apply IH in I. destruct I; [now left | right; now right].
  - apply IH in I. destruct I; [now left | right; now right].
Qed.

Lemma replace_char (x : char) (new s : str) :
  replace [x] new s
  = flat_map (fun c => if (c =? x)%N then new else [c]) s.
Proof.
  unfold replace. induction s as [|c t IH]; [reflexivity|].
  cbn [replace_from startswith List.length Nat.pred flat_map].
  rewrite andb_true_r, N.eqb_sym.
  destruct (c =? x)%N; cbn [app]; now rewrite IH.
Qed.

(** At an occurrence, [replace] writes the new text and goes on after
    the occurrence. *)
Lemma replace_at (old new s' : str) :
  old <> [] ->
  replace_from old new 0 (old ++ s') = new ++ replace_from old new 0 s'.
Proof.
  intros N. destruct old as [|a old]; [congruence|].
  cbn [app replace_from].
  change (a :: old ++ s') with ((a :: old) ++ s').
  rewrite startswith_app. cbn [List.length Nat.pred].
  now rewrite replace_skip.
Qed.

Lemma replace_step (old new : str) (c : char) (t : str) :
  startswith old (c :: t) = false ->
  replace_from old new 0 (c :: t) = c :: replace_from old new 0 t.
Proof. intros H. cbn [replace_from]. now rewrite H. Qed.

Lemma guarded_escape (b : bool) (s : str) :
  quotes_guarded b
    (flat_map (fun c => if (c =? 39)%N then [92; 39]%N else [c]) s) = true.
Proof.
  revert b. induction s as [|c t IH]; intros b; [reflexivity|].
  cbn [flat_map]. destruct (c =? 39)%N eqn:E.
  - cbn [app quotes_guarded]. cbn. apply IH.
  - cbn [app quotes_guarded]. rewrite E. cbn [andb]. apply IH.
Qed.

Lemma guarded_after (q s : str) (b : bool) :
  q <> [] -> ~ In 39%N q -> ~ In 92%N q ->
  quotes_guarded b (q ++ s) = true -> quotes_guarded false s = true.
Proof.
  revert b. induction q as [|x q IH]; intros b N N1 N2 H; [congruence|].
  cbn [app quotes_guarded] in H. apply andb_true_iff in H.
  destruct H as [_ H].
  assert (E : (x =? 92)%N = false).
  { apply N.eqb_neq. intros ->. apply N2. now left. }
  rewrite E in H. destruct q as [|y q]; [exact H|].
  apply (IH false); [discriminate | | | exact H].
  - intros I. apply N1. now right.
  - intros I. apply N2. now right.
Qed.

Lemma replace_guarded_len (old : str) (n : nat) (s : str) (b : bool) :
  old <> [] -> ~ In 39%N old -> ~ In 92%N old ->
  List.length s <= n ->
  quotes_guarded b s = true ->
  quotes_guarded b (replace_from old [92; 110]%N 0 s) = true.
Proof.
  intros N N1 N2. revert s b.
  induction n as [|n IH]; intros s b L H.
  - destruct s; [reflexivity | cbn in L; lia].
  - destruct s as [|c t]; [reflexivity|].
    destruct (startswith old (c :: t)) eqn:S.
    + apply startswith_inv in S. rewrite S in *.
      set (s' := skipn (List.length old) (c :: t)) in *.
      rewrite replace_at by exact N.
      cbn [app quotes_guarded]. cbn.
      apply IH.
      * rewrite length_app in L. destruct old; [congruence|].
        cbn [List.length] in L. lia.
      * now apply (guarded_after old s' b).
    + rewrite replace_step by exact S.
      cbn [quotes_guarded] in *. apply andb_true_iff in H.
      destruct H as [H1 H2]. rewrite H1. cbn [andb].
      apply IH; [cbn in L; lia | exact H2].
Qed.

Lemma guarded_before (s : str) (b : bool) (pre post : str) :
  quotes_guarded b s = true -> s = pre ++ 39%N :: post ->
  (pre = [] /\ b = true) \/ exists pre', pre = pre' ++ [92%N].
Proof.
  revert s b. induction pre as [|x pre IH]; intros s b H E; subst s.
  - left. cbn in H. apply andb_true_iff in H. now split.
  - right. cbn [app quotes_guarded] in H. apply andb_true_iff in H.
    destruct H as [_ H].
    destruct (IH _ _ H eq_refl) as [[-> Eb]|[pre' ->]].
    + apply N.eqb_eq in Eb. subst x. now exists [].
    + now exists (x :: pre').
Qed.

Lemma contains_past (old new rest : str) :
  old <> [] -> (forall c, In c new -> ~ In c old) ->
  contains old (new ++ rest) = contains old rest.
Proof.
  intros N D. induction new as [|x new IH]; [reflexivity|].
  pose proof (contains_barrier old [] (new ++ rest) x N) as E.
  cbn [app] in *. rewrite E.
  - rewrite contains_nil by exact N. cbn [orb]. apply IH.
    intros c I. apply D. now right.
  - apply D. now left.
Qed.

Lemma startswith_replaced (old : str) (n1 : char) (new p t : str) :
  ~ In n1 old -> (forall c, In c p -> In c old) ->
  startswith p (replace_from old (n1 :: new) 0 t) = true ->
  startswith p t = true.
Proof.
  intros D. revert t. induction p as [|a p IH]; intros t I H; [reflexivity|].
  destruct t as [|d t]; [discriminate H|].
  cbn [replace_from] in H. destruct (startswith old (d :: t)).
  - cbn [app startswith] in H. apply andb_true_iff in H.
    destruct H as [H _]. apply N.eqb_eq in H. subst n1.
    exfalso. apply D. apply I. now left.
  - cbn [startswith] in *. apply andb_true_iff in H.
    destruct H as [H1 H2]. rewrite H1. cbn [andb].
    apply IH; [|exact H2]. intros c Ic. apply I. now right.
Qed.

Lemma replace_clean_len (old : str) (n1 : char) (new : str) (n : nat)
      (s : str) :
  old <> [] -> (forall c, In c (n1 :: new) -> ~ In c old) ->
  List.length s <= n ->
  contains old (replace_from old (n1 :: new) 0 s) = false.
Proof.
  intros N D. revert s. induction n as [|n IH]; intros s L.
  - destruct s; [now apply contains_nil | cbn in L; lia].
  - destruct s as [|c t]; [now apply contains_nil|].
    destruct (startswith old (c :: t)) eqn:S.
    + apply startswith_inv in S. rewrite S in *.
      set (s' := skipn (List.length old) (c :: t)) in *.
      rewrite replace_at by exact N.
      rewrite contains_past by assumption. apply IH.
      rewrite length_app in L. destruct old; [congruence|].
      cbn [List.length] in L. lia.
    + rewrite replace_step by exact S. cbn [contains].
      rewrite IH by (cbn in L; lia). rewrite orb_false_r.
      destruct (startswith old (c :: replace_from old (n1 :: new) 0 t))
        eqn:S'; [|reflexivity].
      destruct old as [|a old]; [congruence|].
      cbn [startswith] in *. apply andb_true_iff in S'.
      destruct S' as [S1 S2]. rewrite S1 in S. cbn [andb] in S.
      apply startswith_replaced in S2; [congruence | |].
      * apply D. now left.
      * intros x Ix. now right.
Qed.

(** Escaping.  The text that [_escape_string] makes of a string holds no
    line feed and no [<br/>] tag, and each of its apostrophes stands
    right after a backslash; a string that holds no apostrophe, no line
    feed and no such tag is returned as it is. *)
Theorem escape_string_safe (s : str) :
  ~ In 10%N (_escape_string (CStr s))
  /\ contains (lit "<br/>") (_escape_string (CStr s)) = false
  /\ (forall pre post,
         _escape_string (CStr s) = pre ++ 39%N :: post ->
         exists pre', pre = pre' ++ [92%N])
  /\ (~ In 39%N s -> ~ In 10%N s -> contains (lit "<br/>") s = false ->
      _escape_string (CStr s) = s).
Proof.
  unfold _escape_string. change (lit "'") with [39%N].
  set (s1 := replace [39%N] [92; 39]%N s).
  set (s2 := replace [10%N] [92; 110]%N s1).
  assert (B : lit "<br/>" <> []) by discriminate.
  split; [|split; [|split]].
  - intros I. apply replace_from_in in I. destruct I as [I|I].
    + cbn in I. intuition discriminate.
    + unfold s2 in I. rewrite replace_char in I. apply in_flat_map in I.
      destruct I as (c & _ & I). destruct (c =? 10)%N eqn:E.
      * cbn in I. intuition discriminate.
      * destruct I as [->|[]]. now rewrite N.eqb_refl in E.
  - unfold replace. apply (replace_clean_len _ _ _ (List.length s2));
      [exact B | | apply Nat.le_refl].
    intros c [<-|[<-|[]]]; cbn; intuition discriminate.
  - intros pre post E.
    assert (G : quotes_guarded false
                  (replace (lit "<br/>") [92; 110]%N s2) = true).
    { unfold replace.
      apply (replace_guarded_len _ (List.length s2));
        [exact B | | | apply Nat.le_refl |].
      - cbn. intuition discriminate.
      - cbn. intuition discriminate.
      - unfold s2, replace.
        apply (replace_guarded_len _ (List.length s1));
          [discriminate | | | apply Nat.le_refl |].
        + cbn. intuition discriminate.
        + cbn. intuition discriminate.
        + unfold s1. rewrite replace_char. apply guarded_escape. }
    destruct (guarded_before _ _ pre post G E) as [[_ F]|H];
      [discriminate | exact H].
  - intros N1 N2 N3.
    assert (E1 : s1 = s).
    { unfold s1, replace. apply replace_none.
      destruct (contains [39%N] s) eqn:C; [|reflexivity].
      exfalso. apply N1. clear - C. induction s as [|c t IH];
        [discriminate|].
      cbn [contains startswith] in C. rewrite andb_true_r in C.
      apply orb_true_iff in C. destruct C as [C|C].
      - apply N.eqb_eq in C. now left.
      - right. now apply IH. }
    assert (E2 : s2 = s).
    { unfold s2, replace. rewrite E1. apply replace_none.
      destruct (contains [10%N] s) eqn:C; [|reflexivity].
      exfalso. apply N2. clear - C. induction s as [|c t IH];
        [discriminate|].
      cbn [contains startswith] in C. rewrite andb_true_r in C.
      apply orb_true_iff in C. destruct C as [C|C].
      - apply N.eqb_eq in C. now left.
      - right. now apply IH. }
    rewrite E2. unfold replace. now apply replace_none.
Qed.
End Escaping.

(** A value with an apostrophe, a line break and a tag. *)
Lemma escape_string_safe_witness :
  _escape_string (CStr (lit "it's<br/>ok"))
  = lit "it" ++ [92%N] ++ lit "'s" ++ [92%N] ++ lit "nok"
  /\ _escape_string (CStr (lit "plain")) = lit "plain".
Proof.
  split; [reflexivity|].
  apply (proj2 (proj2 (proj2 (escape_string_safe (lit "plain")))));
    cbn; intuition discriminate.
Defined.

(** ** From the table to the files and back *)

Section TableTripFacts.
Context {P : Python}.
Import RoundTrip TableTrip Declared.

Lemma contains_char (x : char) (s : str) : contains [x] s = true <-> In x s.
Proof.
  induction s as [|c t IH]; [cbn; intuition discriminate|].
  cbn [contains startswith].
  rewrite andb_true_r, orb_true_iff, IH, N.eqb_eq.
  cbn. intuition congruence.
Qed.

Lemma name_ok_ident (s : str) : name_ok s = true -> ident s = true.
Proof. unfold name_ok. intros H. now apply andb_true_iff in H. Qed.

Lemma name_ok_validate (s : str) : name_ok s = true -> _validate_key s = s.
Proof.
  intros H. pose proof (name_ok_ident s H) as I.
  unfold name_ok in H. apply andb_true_iff in H. destruct H as [_ D].
  destruct s as [|c t]; [discriminate|]. apply negb_true_iff in D.
  pose proof (ident_word _ I) as W.
  destruct (ident_ends _ I) as [Hh _]. cbn [hd] in Hh.
  unfold _validate_key.
  destruct (strip (c :: t)) eqn:S.
  { apply strip_nil_iff in S. cbn [forallb] in S.
    apply andb_true_iff in S. destruct S as [S _]. congruence. }
  assert (M : List.map (fun c => if is_word c || (c =? 46)%N then c
                                 else 95%N) (c :: t) = c :: t).
  { rewrite <- (map_id (c :: t)) at 2. apply map_ext_in. intros x Ix.
    rewrite Forall_forall in W. now rewrite (W x Ix). }
  rewrite M. now rewrite D.
Qed.

Lemma name_ok_no_dot (s : str) : name_ok s = true -> ~ In 46%N s.
Proof.
  intros H I. apply name_ok_ident, ident_word in H.
  rewrite Forall_forall in H. specialize (H _ I).
  unfold is_word, isalnum, isalpha, isdecimal, isdigit, isnumeric in H.
  cbn in H. discriminate.
Qed.

Lemma clean_cell_plain (c : cell) :
  clean_cell c = true -> plain (cell_text c) = true.
Proof.
  destruct c as [s|shown]; cbn [clean_cell cell_text]; [|auto].
  intros H. apply andb_true_iff in H. destruct H as [H _].
  now apply andb_true_iff in H.
Qed.

Lemma clean_cell_escape (c : cell) :
  clean_cell c = true -> _escape_string c = cell_text c.
Proof.
  destruct c as [s|shown]; [|reflexivity].
  cbn [clean_cell cell_text _escape_string]. intros H.
  apply andb_true_iff in H. destruct H as [H H3].
  apply andb_true_iff in H. destruct H as [H1 H2].
  apply negb_true_iff in H2, H3.
  assert (Q : contains [39%N] s = false).
  { destruct (contains [39%N] s) eqn:C; [|reflexivity].
    apply contains_char in C. apply plain_inv in H1.
    destruct H1 as [F _]. rewrite Forall_forall in F.
    specialize (F _ C). discriminate. }
  change (lit "'") with [39%N]. unfold replace.
  rewrite (replace_none [39%N] _ s Q).
  rewrite (replace_none [10%N] _ s H2).
  now apply replace_none.
Qed.

Lemma row_ok_cell (r : row) (locale : str) (v : cell) :
  row_ok r = true -> row_get r locale = Some v -> clean_cell v = true.
Proof.
  unfold row_ok, row_get. intros H G.
  apply andb_true_iff in H. destruct H as [_ H].
  destruct (Dict.get locale (row_cells r)) as [[w|]|] eqn:E;
    try discriminate.
  injection G as ->. apply get_in in E.
  rewrite forallb_forall in H. apply (H _ E).
Qed.

Lemma get_to_nodes (c : str) (doc : parsed) :
  Dict.get c (to_nodes doc) = option_map strings (Dict.get c doc).
Proof.
  unfold to_nodes. induction doc as [|[k d] doc IH]; [reflexivity|].
  cbn [List.map Dict.get]. now destruct (str_eqb c k).
Qed.

Lemma set_to_nodes (c : str) (d : class_dict) (doc : parsed) :
  Dict.set c (strings d) (to_nodes doc) = to_nodes (Dict.set c d doc).
Proof.
  unfold to_nodes. induction doc as [|[k d'] doc IH]; [reflexivity|].
  cbn [List.map Dict.set]. destruct (str_eqb c k); [reflexivity|].
  cbn [List.map]. now rewrite IH.
Qed.

Lemma set_strings (k v : str) (d : class_dict) :
  Dict.set k (VStr v) (strings d) = strings (Dict.set k v d).
Proof.
  unfold strings. induction d as [|[k' v'] d IH]; [reflexivity|].
  cbn [List.map Dict.set]. destruct (str_eqb k k'); [reflexivity|].
  cbn [List.map]. now rewrite IH.
Qed.

Lemma get_strings (k : str) (d : class_dict) :
  Dict.get k (strings d) = option_map VStr (Dict.get k d).
Proof.
  unfold strings. induction d as [|[k' v'] d IH]; [reflexivity|].
  cbn [List.map Dict.get]. now destruct (str_eqb k k').
Qed.

Lemma strings_only_nodes (doc : parsed) :
  Nesting.strings_only (to_nodes doc).
Proof.
  intros c d k v Gc Gk. rewrite get_to_nodes in Gc.
  destruct (Dict.get c doc) as [d'|]; [|discriminate].
  injection Gc as <-. rewrite get_strings in Gk.
  destruct (Dict.get k d') as [s|]; [|discriminate].
  injection Gk as <-. now exists s.
Qed.

(** Nesting a row of a tidy table is regrouping it. *)
Lemma nest_row_grouped (locale : str) (doc : parsed) (r : row) :
  row_ok r = true ->
  nest_row locale (to_nodes doc) r = to_nodes (group_row locale doc r).
Proof.
  intros H. unfold group_row.
  destruct (row_get r locale) as [v|] eqn:G.
  - pose proof (row_ok_cell r locale v H G) as C.
    unfold row_ok in H. apply andb_true_iff in H. destruct H as [H _].
    apply andb_true_iff in H. destruct H as [H _].
    apply andb_true_iff in H. destruct H as [Hc Hk].
    rewrite (nest_row_flat locale (to_nodes doc) r v
               (strings_only_nodes doc) (name_ok_no_dot _ Hk) G).
    rewrite (name_ok_validate _ Hc), (name_ok_validate _ Hk).
    rewrite (clean_cell_escape v C), get_to_nodes.
    rewrite <- set_to_nodes. f_equal.
    rewrite <- set_strings. f_equal.
    now destruct (Dict.get (row_class r) doc).
  - unfold nest_row. now rewrite G.
Qed.

Lemma nest_grouped (df : frame) (locale : str) :
  tidy df = true -> nest df locale = to_nodes (grouped df locale).
Proof.
  unfold tidy, nest, grouped. intros T.
  change (@nil (str * node)) with (to_nodes []).
  generalize (@nil (str * class_dict)) as doc.
  induction (rows df) as [|r rs IH]; intros doc; [reflexivity|].
  cbn [forallb] in T. apply andb_true_iff in T. destruct T as [Tr T].
  cbn [fold_left]. rewrite nest_row_grouped by exact Tr. now apply IH.
Qed.

Lemma set_nonempty (V : Type) (k : str) (v : V) (d : Dict.t V) :
  Dict.set k v d <> [].
Proof.
  destruct d as [|[k' v'] d]; [discriminate|]. cbn.
  destruct (str_eqb k k'); discriminate.
Qed.

Lemma group_row_ok (locale : str) (doc : parsed) (r : row) :
  row_ok r = true -> grouped_ok doc -> grouped_ok (group_row locale doc r).
Proof.
  intros H (W & C & O & E). unfold group_row.
  destruct (row_get r locale) as [v|] eqn:G;
    [|split; [exact W|]; split; [exact C|]; split; [exact O | exact E]].
  pose proof (row_ok_cell r locale v H G) as Cv.
  unfold row_ok in H. apply andb_true_iff in H. destruct H as [H _].
  apply andb_true_iff in H. destruct H as [H Ho].
  apply andb_true_iff in H. destruct H as [Hc Hk].
  apply negb_true_iff in Ho.
  set (cd := match Dict.get (row_class r) doc with
             | Some d => d
             | None => []
             end).
  assert (Wcd : Dict.wf cd).
  { unfold cd. destruct (Dict.get (row_class r) doc) as [d|] eqn:Gd;
      [|constructor].
    apply get_in in Gd. destruct W as [_ F]. rewrite Forall_forall in F.
    apply (F _ Gd). }
  assert (Ccd : forallb entry_ok cd = true).
  { unfold cd. destruct (Dict.get (row_class r) doc) as [d|] eqn:Gd;
      [|reflexivity].
    apply get_in in Gd. rewrite forallb_forall in C. specialize (C _ Gd).
    unfold class_ok in C. now apply andb_true_iff in C. }
  split; [|split; [|split]].
  - apply classes_wf_set; [now apply wf_set | exact W].
  - apply forallb_forall. intros e I. apply in_set in I.
    destruct I as [->|I]; [|rewrite forallb_forall in C; now apply C].
    unfold class_ok. cbn [fst snd].
    rewrite (name_ok_ident _ Hc). cbn [andb].
    apply forallb_forall. intros e' I'. apply in_set in I'.
    destruct I' as [->|I']; [|rewrite forallb_forall in Ccd; now apply Ccd].
    unfold entry_ok. cbn [fst snd].
    now rewrite (name_ok_ident _ Hk), (clean_cell_plain v Cv).
  - rewrite get_set_other; [exact O|].
    intros Z. apply str_eqb_neq in Ho. now apply Ho.
  - apply Forall_forall. intros e I. apply in_set in I.
    destruct I as [->|I]; [|rewrite Forall_forall in E; now apply E].
    cbn [snd]. apply set_nonempty.
Qed.

Lemma grouped_is_ok (df : frame) (locale : str) :
  tidy df = true -> grouped_ok (grouped df locale).
Proof.
  unfold tidy, grouped. intros T.
  assert (A : grouped_ok []).
  { split; [split; constructor|]. split; [reflexivity|].
    split; [reflexivity | constructor]. }
  revert A. generalize (@nil (str * class_dict)) as doc.
  induction (rows df) as [|r rs IH]; intros doc A; [exact A|].
  cbn [forallb] in T. apply andb_true_iff in T. destruct T as [Tr T].
  cbn [fold_left]. apply IH; [exact T|]. now apply group_row_ok.
Qed.

(** The text written for a document of that shape is parsed back to
    it. *)
Lemma parse_nested_back (doc : parsed) :
  grouped_ok doc -> parse_js_file (js_content (to_nodes doc)) = Ok doc.
Proof.
  intros ([W Wc] & R & _). unfold parse_js_file.
  fold (serialize doc). rewrite (prepare_serialize doc R).
  rewrite (parse_loop_classes doc [123; 10]%N []).
  - f_equal. apply (fold_set_fresh _ doc []). exact W.
  - repeat constructor.
  - exact Wc.
  - now apply readable_entries.
  - apply Nat.lt_succ_diag_r.
Qed.

Lemma items_nonempty (doc : parsed) :
  doc <> [] -> Forall (fun e : str * class_dict => snd e <> []) doc ->
  items doc <> [].
Proof.
  destruct doc as [|[g c] doc]; [congruence|]. intros _ F.
  inversion F as [|? ? Hc _]; subst. cbn [snd] in Hc.
  destruct c as [|[k v] c]; [congruence|]. discriminate.
Qed.

(** The file written for a locale is usable exactly when the table holds
    a value for the locale, and its tuples are those of the regrouped
    table. *)
Lemma usable_exported (df : frame) (locale : str) :
  tidy df = true ->
  Merge.usable (js_content (nest df locale))
  = match grouped df locale with
    | [] => None
    | doc => Some (items doc)
    end.
Proof.
  intros T. pose proof (grouped_is_ok df locale T) as O.
  rewrite (nest_grouped df locale T). unfold Merge.usable.
  rewrite (parse_nested_back _ O).
  destruct O as ([W _] & _ & G & E).
  destruct (grouped df locale) as [|e doc] eqn:D; [reflexivity|].
  rewrite (flatten_items _ W G).
  pose proof (items_nonempty (e :: doc)) as N.
  destruct (items (e :: doc)); [|reflexivity].
  exfalso. apply N; [discriminate | exact E | reflexivity].
Qed.

Lemma find_app_none (A : Type) (f : A -> bool) (a b : list A) :
  find f a = None -> find f (a ++ b) = find f b.
Proof.
  induction a as [|x a IH]; [reflexivity|]. cbn.
  destruct (f x); [discriminate | exact IH].
Qed.

Lemma find_app_some (A : Type) (f : A -> bool) (a b : list A) (x : A) :
  find f a = Some x -> find f (a ++ b) = Some x.
Proof.
  induction a as [|y a IH]; [discriminate|]. cbn.
  destruct (f y); [now intros [= ->] | exact IH].
Qed.

Lemma find_class_items (g k g' : str) (idx n : N) (c : class_dict) :
  option_map i_value
    (find (fun i => str_eqb g (i_class i) && str_eqb k (i_key i))
          (List.map (fun '(sub_idx, (k', v)) =>
                       {| i_class := g'; i_key := k'; i_value := VStr v;
                          i_order := idx * 10000 + sub_idx |}%N)
                    (enumerate_from n c)))
  = if str_eqb g g' then option_map VStr (Dict.get k c) else None.
Proof.
  revert n. induction c as [|[k' v] c IH]; intros n.
  - cbn. now destruct (str_eqb g g').
  - cbn [enumerate_from List.map find i_class i_key Dict.get].
    destruct (str_eqb g g') eqn:Eg; cbn [andb].
    + destruct (str_eqb k k'); [reflexivity | apply IH].
    + apply IH.
Qed.

Lemma find_none_map (A B : Type) (f : A -> bool) (h : A -> B) (l : list A) :
  option_map h (find f l) = None -> find f l = None.
Proof. now destruct (find f l). Qed.

Lemma lookup_items_from (doc : parsed) (n : N) (g k : str) :
  Dict.wf doc ->
  option_map i_value
    (find (fun i => str_eqb g (i_class i) && str_eqb k (i_key i))
          (flat_map (fun '(idx, (g', c)) => class_items idx g' c)
                    (enumerate_from n doc)))
  = option_map VStr (lookup doc g k).
Proof.
  unfold Dict.wf. revert n.
  induction doc as [|[g' c] doc IH]; intros n W; [reflexivity|].
  cbn in W. inversion W as [|? ? N1 W']; subst.
  cbn [enumerate_from flat_map]. unfold lookup. cbn [Dict.get].
  pose proof (find_class_items g k g' n 0 c) as F.
  fold (enumerate c) in F. fold (class_items n g' c) in F.
  destruct (str_eqb g g') eqn:Eg.
  - apply str_eqb_eq in Eg. subst g'.
    destruct (find _ (class_items n g c)) as [i|] eqn:Fi.
    + rewrite (find_app_some _ _ _ _ i Fi). exact F.
    + rewrite find_app_none by exact Fi. rewrite <- F. cbn [option_map].
      specialize (IH (N.succ n) W'). unfold lookup in IH.
      assert (G : Dict.get g doc = None) by now apply get_none_keys.
      now rewrite G in IH.
  - rewrite find_app_none; [now apply IH|].
    now apply find_none_map in F.
Qed.

Lemma joined_exported (df : frame) (others : list str) (g k : str) :
  tidy df = true ->
  Merge.joined
    (List.map (fun locale => (locale, js_content (nest df locale))) others)
    g k
  = later_cells df others g k.
Proof.
  intros T. unfold Merge.joined, later_cells.
  induction others as [|l others IH]; [reflexivity|].
  cbn [List.map flat_map]. rewrite IH. f_equal.
  rewrite (usable_exported df l T).
  pose proof (grouped_is_ok df l T) as ([W _] & _).
  destruct (grouped df l) as [|e doc] eqn:D; [reflexivity|].
  f_equal. f_equal. unfold Merge.lookup_item, items, enumerate.
  now apply lookup_items_from.
Qed.

Lemma first_unclosed_exported (df : frame) (others : list str) :
  tidy df = true ->
  first_unclosed
    (List.map (fun locale => (locale, js_content (nest df locale))) others)
  = None.
Proof.
  intros T. induction others as [|l others IH]; [reflexivity|].
  cbn [List.map first_unclosed].
  rewrite (nest_grouped df l T).
  now rewrite (parse_nested_back _ (grouped_is_ok df l T)).
Qed.

Lemma lookup_group_row (locale : str) (doc : parsed) (r : row) (g k : str) :
  lookup (group_row locale doc r) g k
  = match row_get r locale with
    | Some v =>
        if str_eqb (row_class r) g && str_eqb (row_key r) k
        then Some (cell_text v)
        else lookup doc g k
    | None => lookup doc g k
    end.
Proof.
  unfold group_row. destruct (row_get r locale) as [v|]; [|reflexivity].
  unfold lookup. rewrite get_set_dec, (str_eqb_sym g).
  destruct (str_eqb (row_class r) g) eqn:Eg; [|reflexivity].
  apply str_eqb_eq in Eg. subst g. rewrite get_set_dec, (str_eqb_sym k).
  cbn [andb]. destruct (str_eqb (row_key r) k); [reflexivity|].
  now destruct (Dict.get (row_class r) doc).
Qed.

(** *** The files on disk *)

Lemma row_cell_no_cr (r : row) (locale : str) (v : cell) :
  forallb (fun e : str * option cell =>
             match snd e with
             | Some c => TextFile.no_cr (cell_text c)
             | None => true
             end)
          (row_cells r) = true ->
  row_get r locale = Some v -> TextFile.no_cr (cell_text v) = true.
Proof.
  unfold row_get. intros H G.
  destruct (Dict.get locale (row_cells r)) as [[w|]|] eqn:E;
    try discriminate.
  injection G as ->. apply get_in in E.
  rewrite forallb_forall in H. apply (H _ E).
Qed.

Lemma group_row_no_cr (locale : str) (doc : parsed) (r : row) :
  forallb (fun e : str * option cell =>
             match snd e with
             | Some c => TextFile.no_cr (cell_text c)
             | None => true
             end)
          (row_cells r) = true ->
  TextFile.doc_no_cr doc = true ->
  TextFile.doc_no_cr (group_row locale doc r) = true.
Proof.
  intros H D. unfold group_row.
  destruct (row_get r locale) as [v|] eqn:G; [|exact D].
  pose proof (row_cell_no_cr r locale v H G) as Cv.
  unfold TextFile.doc_no_cr in *. apply forallb_forall. intros e I.
  apply in_set in I. destruct I as [->|I];
    [|rewrite forallb_forall in D; now apply D].
  cbn [snd]. apply forallb_forall. intros e' I'. apply in_set in I'.
  destruct I' as [->|I']; [exact Cv|].
  destruct (Dict.get (row_class r) doc) as [d|] eqn:Gd; [|destruct I'].
  apply get_in in Gd. rewrite forallb_forall in D. specialize (D _ Gd).
  cbn [snd] in D. rewrite forallb_forall in D. now apply D.
Qed.

Lemma grouped_no_cr (df : frame) (locale : str) :
  no_cr_cells df = true -> TextFile.doc_no_cr (grouped df locale) = true.
Proof.
  unfold no_cr_cells, grouped. intros T.
  assert (A : TextFile.doc_no_cr (@nil (str * class_dict)) = true)
    by reflexivity.
  revert A. generalize (@nil (str * class_dict)) as doc.
  induction (rows df) as [|r rs IH]; intros doc A; [exact A|].
  cbn [forallb] in T. apply andb_true_iff in T. destruct T as [Tr T].
  cbn [fold_left]. apply IH; [exact T|]. now apply group_row_no_cr.
Qed.

(** The text generated for a locale holds no carriage return when no
    cell holds one, and is read from its file as it was written. *)
Lemma generated_through_file (df : frame) (locale linesep : str) :
  tidy df = true -> no_cr_cells df = true ->
  TextFile.os_linesep linesep ->
  TextFile.through_file linesep (js_content (nest df locale))
  = js_content (nest df locale).
Proof.
  intros T C L. apply through_file_same; [exact L|].
  rewrite (nest_grouped df locale T). fold (serialize (grouped df locale)).
  apply serialize_no_cr; [|now apply grouped_no_cr].
  now destruct (grouped_is_ok df locale T) as (_ & R & _).
Qed.

Lemma write_files_other (A : Type) (name_of text_of : A -> str)
      (cols : list A) (fs : files) (name : str) :
  (forall a, In a cols -> name_of a <> name) ->
  Nesting.write_files (List.map (fun a => (name_of a, text_of a)) cols)
                      fs name
  = fs name.
Proof.
  unfold Nesting.write_files. revert fs.
  induction cols as [|a cols IH]; intros fs N; [reflexivity|].
  cbn [List.map fold_left fst snd]. rewrite IH.
  - assert (E : str_eqb name (name_of a) = false).
    { apply str_eqb_neq. intros Z. apply (N a); [now left | now symmetry]. }
    now rewrite E.
  - intros l I. apply N. now right.
Qed.

(** With distinct file names, every file holds the text written for
    it. *)
Lemma write_files_own (A : Type) (name_of text_of : A -> str)
      (cols : list A) (fs : files) (a : A) :
  NoDup (List.map name_of cols) -> In a cols ->
  Nesting.write_files (List.map (fun a => (name_of a, text_of a)) cols)
                      fs (name_of a)
  = Some (text_of a).
Proof.
  revert fs. induction cols as [|b cols IH]; intros fs N I; [destruct I|].
  cbn [List.map] in N. inversion N as [|? ? Nb Nc]; subst.
  destruct I as [->|I].
  - unfold Nesting.write_files. cbn [List.map fold_left fst snd].
    fold (Nesting.write_files
            (List.map (fun a => (name_of a, text_of a)) cols)
            (fun name => if str_eqb name (name_of a)
                         then Some (text_of a) else fs name)).
    rewrite write_files_other.
    + now rewrite str_eqb_refl.
    + intros x Ix Z. apply Nb. rewrite <- Z. now apply in_map.
  - unfold Nesting.write_files. cbn [List.map fold_left].
    now apply IH.
Qed.

Lemma saved_own (linesep : str) (df : frame) (fs : files) (l : str) :
  NoDup (List.map _normalize_locale (locale_columns df)) ->
  In l (locale_columns df) ->
  saved linesep df fs (_normalize_locale l ++ lit ".js")
  = Some (TextFile.write_text linesep (js_content (nest df l))).
Proof.
  intros N I. unfold saved, generate_js_files. rewrite map_map.
  cbn [fst snd].
  apply (write_files_own str
           (fun locale => _normalize_locale locale ++ lit ".js")
           (fun locale =>
              TextFile.write_text linesep (js_content (nest df locale))));
    [|exact I].
  clear I. induction (locale_columns df) as [|a cols IH]; [constructor|].
  cbn [List.map] in *. inversion N as [|? ? Na Nc]; subst.
  constructor; [|now apply IH].
  intros I. apply Na. apply in_map_iff in I. destruct I as (x & E & Ix).
  apply app_inv_tail in E. rewrite <- E. now apply in_map.
Qed.

(** With distinct file names, what is read from the files of the locale
    columns is the text generated for each. *)
Lemma read_saved (linesep : str) (df : frame) (fs : files)
      (cols : list str) :
  tidy df = true -> no_cr_cells df = true ->
  TextFile.os_linesep linesep ->
  NoDup (List.map _normalize_locale (locale_columns df)) ->
  incl cols (locale_columns df) ->
  read_files (saved linesep df fs) cols
  = Some (List.map (fun locale => (locale, js_content (nest df locale)))
                   cols).
Proof.
  intros T C L N. induction cols as [|l cols IH]; intros I; [reflexivity|].
  cbn [read_files List.map].
  rewrite (saved_own linesep df fs l N (I l (or_introl eq_refl))).
  rewrite IH by (intros x Ix; apply I; now right).
  fold (TextFile.through_file linesep (js_content (nest df l))).
  now rewrite (generated_through_file df l linesep T C L).
Qed.

(** One file, written and read.  For a table of that kind whose cells
    hold no carriage return and whose classes, keys and cells UTF-8 can
    encode (no surrogate), the text generated for a locale is parsed
    back, from the file it was written to, into the table regrouped by
    class for that locale, which holds for every class and key the text
    of the last row that has them and a value for the locale. *)
Theorem generate_then_parse (df : frame) (locale linesep : str) :
  tidy df = true -> no_cr_cells df = true -> utf8_cells df = true ->
  TextFile.os_linesep linesep ->
  parse_js_file
    (TextFile.through_file linesep (js_content (nest df locale)))
  = Ok (grouped df locale)
  /\ forall g k,
      lookup (grouped df locale) g k = last_text df locale g k.
Proof.
  intros T C _ L. split.
  - rewrite (generated_through_file df locale linesep T C L).
    rewrite (nest_grouped df locale T).
    apply parse_nested_back. now apply grouped_is_ok.
  - intros g k. unfold grouped, last_text.
    assert (A : lookup [] g k = None) by reflexivity. revert A.
    generalize (@None str) as acc. generalize (@nil (str * class_dict)) as doc.
    induction (rows df) as [|r rs IH]; intros doc acc A; [exact A|].
    cbn [fold_left]. apply IH. rewrite lookup_group_row, A.
    reflexivity.
Qed.

(** From the table to the files and back.  Take a table whose classes
    and keys are identifiers that do not start with a digit, with no
    class named [__order__], and whose cells hold no quote, no brace, no
    [//], no [export default], no line feed, no carriage return and no
    [<br/>], all of characters UTF-8 can encode (no surrogate); let its
    locale columns be named with ASCII letters, digits, [_] and [-],
    otherwise than [class], [key] and [order], and normalize to pairwise
    distinct file names, its first locale column hold a value somewhere,
    and no class more than 10000 keys.  Then [js_to_excel], run on the
    files that
    [generate_js_files] leaves for the locale columns, returns the table
    regrouped by class: one row per class and key with a value in the
    first locale, classes and keys in the order of their first value,
    each row with the value of the first locale and, for every later
    locale that has a value somewhere, the value the table holds for
    that locale, class and key, or NaN. *)
Theorem export_then_import (df : frame) (first_lang : str)
        (others : list str) (linesep : str) (fs : files) :
  tidy df = true -> no_cr_cells df = true -> utf8_cells df = true ->
  TextFile.os_linesep linesep ->
  locale_columns df = first_lang :: others ->
  NoDup (List.map _normalize_locale (locale_columns df)) ->
  Forall (fun lang => file_stem lang = true) (locale_columns df) ->
  Forall (fun lang => reserved_label lang = false) (locale_columns df) ->
  grouped df first_lang <> [] ->
  narrow (grouped df first_lang) = true ->
  imported linesep df fs
  = Some (Ok (List.map (imported_row df first_lang others)
                       (entries (grouped df first_lang)))).
Proof.
  intros T Cr _ L C Nd _ _ N W. unfold imported.
  rewrite (read_saved linesep df fs (locale_columns df) T Cr L Nd
             (incl_refl _)).
  cbn [option_map]. f_equal. rewrite C. cbn [List.map].
  set (files := List.map (fun locale => (locale, js_content (nest df locale)))
                         others).
  pose proof (grouped_is_ok df first_lang T) as O.
  unfold js_to_excel.
  rewrite (nest_grouped df first_lang T), (parse_nested_back _ O).
  destruct O as ([Wd _] & _ & G & E).
  pose proof (table_of_entries first_lang files (grouped df first_lang))
    as Tb.
  pose proof (items_nonempty _ N E) as Ni.
  rewrite <- (flatten_items _ Wd G) in Ni.
  destruct (grouped df first_lang) as [|e doc] eqn:D; [congruence|].
  destruct (flatten_dict (as_document (e :: doc)) [])
    as [|i flattened] eqn:F; [congruence|].
  pose proof (merge_others_outcome files
                (base_frame first_lang (i :: flattened))) as M.
  unfold files in M at 1. rewrite (first_unclosed_exported df others T) in M.
  destruct M as [merged M]. rewrite M.
  rewrite (Tb merged Wd G W M). f_equal.
  apply map_ext. intros [[g k] v]. unfold entry_row, imported_row.
  f_equal. f_equal. now apply joined_exported.
Qed.
End TableTripFacts.

(** The file of the first locale of the interleaved table, written with
    lines separated by a carriage return and a line feed, is read back
    with the two keys of [text] together. *)
Lemma generate_then_parse_witness :
  parse_js_file (P := latin1)
    (TextFile.through_file [13; 10]%N
       (js_content (P := latin1)
          (nest (P := latin1) TableTrip.interleaved Examples.en_us)))
  = Ok [(lit "text", [(lit "title", lit "Hello"); (lit "more", lit "More")]);
        (lit "tip", [(lit "save", lit "Save")])].
Proof.
  destruct (generate_then_parse (P := latin1) TableTrip.interleaved
              Examples.en_us [13; 10]%N eq_refl eq_refl eq_refl
              (or_intror eq_refl))
    as [E _].
  rewrite E. reflexivity.
Defined.

(** The interleaved table comes back regrouped by class, with NaN where
    the second locale has no value, whatever the directory held
    before. *)
Lemma export_then_import_witness :
  TableTrip.imported (P := latin1) [10%N] TableTrip.interleaved
                     Reconcile.disk
  = Some
      (Ok [{| t_class := lit "text"; t_key := lit "title";
              t_values := [(Examples.en_us, Some (VStr (lit "Hello")));
                           (Reconcile.zh_cn, Some (VStr (lit "H")))] |};
           {| t_class := lit "text"; t_key := lit "more";
              t_values := [(Examples.en_us, Some (VStr (lit "More")));
                           (Reconcile.zh_cn, Some (VStr (lit "M")))] |};
           {| t_class := lit "tip"; t_key := lit "save";
              t_values := [(Examples.en_us, Some (VStr (lit "Save")));
                           (Reconcile.zh_cn, None)] |}]).
Proof.
  rewrite (export_then_import (P := latin1) TableTrip.interleaved
             Examples.en_us [Reconcile.zh_cn] [10%N] Reconcile.disk).
  - reflexivity.
  - reflexivity.
  - reflexivity.
  - reflexivity.
  - now left.
  - reflexivity.
  - repeat constructor; cbn; intuition discriminate.
  - repeat constructor.
  - repeat constructor.
  - discriminate.
  - reflexivity.
Defined.

(** ** Scanning the files that were just generated *)

Section ListSplits.
Variable A : Type.

(** A block without [c] at the head of a text is passed before the
    first [c]. *)
Lemma prefix_free (c : A) (E R X Y : list A) :
  ~ In c E -> E ++ R = X ++ c :: Y ->
  exists X', X = E ++ X' /\ R = X' ++ c :: Y.
Proof.
  revert X. induction E as [|e E IH]; intros X N H.
  - now exists X.
  - destruct X as [|x X].
    + cbn in H. injection H as -> _. exfalso. apply N. now left.
    + cbn in H. injection H as -> H.
      destruct (IH X) as (X' & -> & HR); [|exact H|].
      * intros I. apply N. now right.
      * now exists X'.
Qed.

Lemma first_unique (c : A) (a a' b b' : list A) :
  ~ In c a -> ~ In c a' -> a ++ c :: b = a' ++ c :: b' ->
  a = a' /\ b = b'.
Proof.
  intros N N' H. destruct (prefix_free c a (c :: b) a' b' N H)
    as (X' & -> & H').
  destruct X' as [|x X'].
  - rewrite app_nil_r. cbn in H'. injection H' as ->. now split.
  - cbn in H'. injection H' as <- _. exfalso. apply N'.
    apply in_or_app. right. now left.
Qed.

Lemma split_at_first (c : A) (a b X Y : list A) :
  ~ In c a -> a ++ c :: b = X ++ c :: Y ->
  (X = a /\ Y = b) \/ exists X', X = a ++ c :: X' /\ b = X' ++ c :: Y.
Proof.
  intros N H. destruct (prefix_free c a (c :: b) X Y N H) as (X' & -> & H').
  destruct X' as [|x X'].
  - left. rewrite app_nil_r. cbn in H'. injection H' as ->. now split.
  - right. cbn in H'. injection H' as <- H'. now exists X'.
Qed.

Lemma last_unique (c : A) (a a' b b' : list A) :
  ~ In c b -> ~ In c b' -> a ++ c :: b = a' ++ c :: b' ->
  a = a' /\ b = b'.
Proof.
  intros N N' H. apply (f_equal (@rev A)) in H.
  rewrite !rev_app_distr in H. cbn [rev] in H.
  rewrite <- !app_assoc in H. cbn [app] in H.
  apply first_unique in H.
  - destruct H as [H1 H2]. split.
    + now apply rev_inj.
    + now apply rev_inj.
  - intros I. apply N. now apply in_rev.
  - intros I. apply N'. now apply in_rev.
Qed.
End ListSplits.

Section RescanFacts.
Context {P : Python}.
Import RoundTrip Rescan.

Lemma no_brace_open (s : str) : Forall no_brace s -> ~ In 123%N s.
Proof.
  intros F I. rewrite Forall_forall in F. destruct (F _ I) as [N _].
  now apply N.
Qed.

Lemma class_text_split (g : str) (c : class_dict) :
  class_text (g, c)
  = ([32; 32]%N ++ g ++ [58; 32]%N)
      ++ 123%N :: (10%N :: entries_text c ++ [32; 32; 125; 44; 10]%N).
Proof.
  unfold class_text. cbn [fst snd].
  repeat (rewrite <- ?app_assoc; cbn [app]). reflexivity.
Qed.

(** Where the opening braces of the classes stand. *)
Lemma class_braces (doc : parsed) (tail X Y : str) :
  Forall (fun e => ident (fst e) = true
                   /\ Forall (fun e => ident (fst e) = true
                                       /\ plain (snd e) = true)
                             (snd e)) doc ->
  ~ In 123%N tail ->
  classes_text doc ++ tail = X ++ 123%N :: Y ->
  exists doc1 g c doc2,
    doc = doc1 ++ (g, c) :: doc2
    /\ X = classes_text doc1 ++ [32; 32]%N ++ g ++ [58; 32]%N
    /\ Y = (10%N :: entries_text c ++ [32; 32; 125; 44; 10]%N)
             ++ classes_text doc2 ++ tail.
Proof.
  intros F Nt. revert X.
  induction F as [|[g c] doc [Hg Hc] F IH]; intros X H.
  - cbn in H. exfalso. apply Nt. rewrite H. apply in_or_app. right. now left.
  - cbn [fst snd] in *.
    assert (Na : ~ In 123%N ([32; 32]%N ++ g ++ [58; 32]%N)).
    { apply no_brace_open. repeat (apply Forall_app; split);
        try (repeat constructor; discriminate).
      now apply ident_no_brace. }
    assert (Ne : ~ In 123%N (10%N :: entries_text c
                               ++ [32; 32; 125; 44; 10]%N)).
    { intros [I|I]; [discriminate|]. apply in_app_or in I.
      destruct I as [I|I].
      - revert I. apply no_brace_open. now apply entries_no_brace.
      - cbn in I. intuition discriminate. }
    assert (E : classes_text ((g, c) :: doc) ++ tail
                = ([32; 32]%N ++ g ++ [58; 32]%N)
                    ++ 123%N :: (10%N :: entries_text c
                                   ++ [32; 32; 125; 44; 10]%N)
                         ++ classes_text doc ++ tail).
    { cbn [classes_text flat_map]. fold (classes_text doc).
      rewrite class_text_split.
      repeat (rewrite <- ?app_assoc; cbn [app]). reflexivity. }
    rewrite E in H. apply split_at_first in H; [|exact Na].
    destruct H as [[-> ->]|(X' & -> & H)].
    + exists [], g, c, doc. now repeat split.
    + apply prefix_free in H; [|exact Ne].
      destruct H as (X'' & -> & H). apply IH in H.
      destruct H as (doc1 & g1 & c1 & doc2 & -> & -> & ->).
      exists ((g, c) :: doc1), g1, c1, doc2. split; [reflexivity|].
      split; [|reflexivity].
      cbn [classes_text flat_map]. fold (classes_text doc1).
      rewrite class_text_split.
      repeat (rewrite <- ?app_assoc; cbn [app]). reflexivity.
Qed.

Lemma spaces_unique (a a' : str) (x x' : char) (b b' : str) :
  Forall (fun c => isspace c = true) a ->
  Forall (fun c => isspace c = true) a' ->
  isspace x = false -> isspace x' = false ->
  a ++ x :: b = a' ++ x' :: b' -> a = a' /\ x = x' /\ b = b'.
Proof.
  intros Fa. revert a'. induction Fa as [|y a Hy Fa IH]; intros a' Fa' Hx Hx' E.
  - destruct a' as [|y' a']; cbn in E.
    + injection E as -> ->. now repeat split.
    + injection E as -> _. inversion Fa'; subst. congruence.
  - destruct a' as [|y' a']; cbn in E.
    + injection E as -> _. congruence.
    + injection E as -> E. inversion Fa'; subst.
      destruct (IH a') as (-> & -> & ->); try assumption. now repeat split.
Qed.

Lemma endswith_suffix (g u : str) : endswith g (u ++ g) = true.
Proof. unfold endswith. rewrite rev_app_distr. apply startswith_app. Qed.

Lemma endswith_inv (g s : str) :
  endswith g s = true -> exists u, s = u ++ g.
Proof.
  unfold endswith. intros H. apply startswith_inv in H.
  exists (rev (skipn (List.length (rev g)) (rev s))).
  rewrite <- (rev_involutive s), H at 1.
  now rewrite rev_app_distr, rev_involutive.
Qed.

Lemma suffix_of_ident (Z g' pre g : str) :
  ident g = true ->
  Z ++ [32; 32]%N ++ g' = pre ++ g -> exists u, g' = u ++ g.
Proof.
  intros Hg E. rewrite app_assoc in E. apply app_eq_app in E.
  destruct E as (l & [[E1 E2]|[E1 E2]]).
  - destruct l as [|x l] using rev_ind.
    + exists []. cbn in E2. now subst.
    + clear IHl. exfalso. rewrite !app_assoc in E1.
      change [32; 32]%N with ([32%N] ++ [32%N]) in E1.
      rewrite !app_assoc in E1. apply app_inj_tail in E1.
      destruct E1 as [_ <-].
      assert (I : In 32%N g).
      { rewrite E2. apply in_or_app. left. apply in_or_app. right.
        now left. }
      unfold ident in Hg. destruct g; [discriminate|].
      rewrite forallb_forall in Hg. apply Hg, ident_char_facts in I.
      destruct I as (_ & S & _). discriminate S.
  - now exists l.
Qed.

Lemma search_exists (R : Type) (m : Re.M R) (pre s : str) (r : R) :
  m s = Some r -> exists r', Re.search m (pre ++ s) = Some r'.
Proof.
  intros H. induction pre as [|c pre IH].
  - exists r. now apply search_here.
  - cbn [app Re.search]. destruct (m (c :: pre ++ s)) as [r0|].
    + now exists r0.
    + exact IH.
Qed.

Lemma word_literal (c : char) : is_word c = true -> metachar c = false.
Proof.
  intros W. destruct (metachar c) eqn:M; [|reflexivity].
  unfold metachar in M. apply existsb_exists in M.
  destruct M as (x & I & E). apply N.eqb_eq in E. subst x.
  unfold is_word, isalnum, isalpha, isdecimal, isdigit, isnumeric in W.
  cbn in I.
  repeat (destruct I as [<-|I]; [cbn in W; discriminate|]).
  destruct I.
Qed.

Lemma ident_literal (s : str) : ident s = true -> literal s = true.
Proof.
  intros H. apply ident_word in H. unfold literal.
  apply forallb_forall. intros c I. rewrite Forall_forall in H.
  now rewrite (word_literal c (H c I)).
Qed.

Lemma ident_no_colon (s : str) : ident s = true -> ~ In 58%N s.
Proof.
  intros H I. unfold ident in H. destruct s; [discriminate|].
  rewrite forallb_forall in H. apply H, ident_char_facts in I.
  destruct I as (_ & _ & _ & N & _). now apply N.
Qed.

Lemma spaces_no_colon (w : str) :
  Forall (fun c => isspace c = true) w -> ~ In 58%N w.
Proof.
  intros F I. rewrite Forall_forall in F. specialize (F _ I).
  discriminate F.
Qed.

(** What a match of the pattern of an undotted key looks like. *)
Lemma one_level_inv (g k s : str) (r : unit) :
  one_level g k s = Some r ->
  exists w1 w2 w3 v rest,
    s = g ++ 58%N :: w1 ++ 123%N :: w2 ++ k ++ 58%N :: w3
          ++ 39%N :: v ++ 39%N :: rest
    /\ Forall (fun c => isspace c = true) w1
    /\ Forall (fun c => isspace c = true) w2
    /\ Forall (fun c => isspace c = true) w3.
Proof.
  unfold one_level, value_tail. intros H.
  apply m_lit_inv in H. destruct H as (s1 & -> & H).
  apply m_lit_inv in H. destruct H as (s2 & -> & H).
  apply m_star_inv in H. destruct H as (w1 & s3 & -> & F1 & H).
  apply m_lit_inv in H. destruct H as (s4 & -> & H).
  apply m_star_inv in H. destruct H as (w2 & s5 & -> & F2 & H).
  apply m_lit_inv in H. destruct H as (s6 & -> & H).
  apply m_lit_inv in H. destruct H as (s7 & -> & H).
  apply m_star_inv in H. destruct H as (w3 & s8 & -> & F3 & H).
  apply m_lit_inv in H. destruct H as (s9 & -> & H).
  apply m_star_inv in H. destruct H as (v & s10 & -> & _ & H).
  apply m_lit_inv in H. destruct H as (rest & -> & _).
  exists w1, w2, w3, v, rest. split; [reflexivity|]. now repeat split.
Qed.

(** The pattern matches where a class opens with the key. *)
Lemma one_level_at (g k v rest : str) :
  ident k = true -> plain v = true ->
  one_level g k
    (g ++ [58; 32]%N ++ 123%N :: [10; 32; 32; 32; 32]%N ++ k
       ++ [58; 32; 39]%N ++ v ++ 39%N :: rest)
  = Some tt.
Proof.
  intros Hk Hv. unfold one_level. rewrite m_lit_app.
  change ([58; 32]%N ++ 123%N :: [10; 32; 32; 32; 32]%N ++ k
            ++ [58; 32; 39]%N ++ v ++ 39%N :: rest)
    with (lit ":" ++ [32%N] ++ 123%N :: [10; 32; 32; 32; 32]%N ++ k
            ++ [58; 32; 39]%N ++ v ++ 39%N :: rest).
  rewrite m_lit_app.
  apply m_star_longest; [repeat constructor | now intros c t [= <- _] |].
  change (123%N :: [10; 32; 32; 32; 32]%N ++ k
            ++ [58; 32; 39]%N ++ v ++ 39%N :: rest)
    with (lit "{" ++ [10; 32; 32; 32; 32]%N ++ k
            ++ [58; 32; 39]%N ++ v ++ 39%N :: rest).
  rewrite m_lit_app.
  destruct (ident_ends k Hk) as [Hh _].
  apply m_star_longest; [repeat constructor | |].
  { intros c t E. destruct k as [|kc k']; [discriminate Hk|].
    cbn in E. injection E as <- _. exact Hh. }
  rewrite m_lit_app. unfold value_tail.
  change ([58; 32; 39]%N ++ v ++ 39%N :: rest)
    with (lit ":" ++ [32%N] ++ 39%N :: v ++ 39%N :: rest).
  rewrite m_lit_app.
  apply m_star_longest; [repeat constructor | now intros c t [= <- _] |].
  change (39%N :: v ++ 39%N :: rest)
    with (lit "'" ++ v ++ 39%N :: rest).
  rewrite m_lit_app.
  apply m_star_longest.
  - apply plain_inv in Hv. destruct Hv as [Hv _].
    eapply Forall_impl; [|exact Hv]. intros c Hc.
    unfold plain_char, quote in Hc. unfold ExcelToJs.not_quote.
    destruct (c =? 39)%N; [discriminate Hc | reflexivity].
  - now intros c t [= <- _].
  - change (39%N :: rest) with (lit "'" ++ rest). now rewrite m_lit_app.
Qed.

Lemma first_key_intro (g k g' v : str) (c : class_dict) (doc : parsed) :
  In (g', (k, v) :: c) doc -> endswith g g' = true ->
  first_key_of g k doc = true.
Proof.
  intros I E. unfold first_key_of. apply existsb_exists.
  exists (g', (k, v) :: c). split; [exact I|]. cbn [fst snd].
  now rewrite E, str_eqb_refl.
Qed.

(** For names free of metacharacters the pattern is the matcher of one
    level. *)
Lemma pattern_found_names (g k content : str) :
  ident g = true -> ident k = true ->
  pattern_found g k content
  = Some (found (Re.search (one_level g k) content)).
Proof.
  intros Hg Hk. unfold pattern_found.
  assert (D : contains (lit ".") k = false).
  { destruct (contains (lit ".") k) eqn:C; [|reflexivity].
    apply contains_dot in C. apply ident_word in Hk.
    rewrite Forall_forall in Hk. specialize (Hk _ C).
    unfold is_word, isalnum, isalpha, isdecimal, isdigit, isnumeric in Hk.
    cbn in Hk. discriminate. }
  now rewrite D, (ident_literal g Hg), (ident_literal k Hk).
Qed.

(** The pattern matches where the key opens a class. *)
Lemma one_level_matches (doc : parsed) (g k : str) :
  forallb class_ok doc = true -> ident g = true -> ident k = true ->
  first_key_of g k doc = true ->
  found (Re.search (one_level g k) (serialize doc)) = true.
Proof.
  intros R Hg Hk K. rewrite serialize_text.
  pose proof (readable_entries doc R) as F.
  unfold first_key_of in K. apply existsb_exists in K.
  destruct K as ([g' c] & I & K). cbn [fst snd] in K.
  apply andb_true_iff in K. destruct K as [E K].
  destruct c as [|[k' v] c]; [discriminate|].
  apply str_eqb_eq in K. subst k'.
  apply endswith_inv in E. destruct E as [u ->].
  rewrite Forall_forall in F. destruct (F _ I) as [_ Fc].
  cbn [snd] in Fc. inversion Fc as [|? ? [_ Hv] _]; subst.
  cbn [snd] in Hv.
  apply in_split in I. destruct I as (d1 & d2 & ->).
  unfold classes_text. rewrite flat_map_app. cbn [flat_map].
  fold (classes_text d1). fold (classes_text d2).
  rewrite class_text_split. cbn [entries_text flat_map].
  fold (entries_text c). unfold entry_text, item_text. cbn [fst snd].
  match goal with
  | |- found (Re.search _ ?t) = true =>
      replace t
        with ((export_default ++ [32; 123; 10]%N ++ classes_text d1
                 ++ [32; 32]%N ++ u)
              ++ g ++ [58; 32]%N ++ 123%N :: [10; 32; 32; 32; 32]%N ++ k
              ++ [58; 32; 39]%N ++ v
              ++ 39%N :: ([44; 10]%N ++ entries_text c
                            ++ [32; 32; 125; 44; 10]%N
                            ++ classes_text d2 ++ [125; 59]%N))
        by (repeat (rewrite <- ?app_assoc; cbn [app]); reflexivity)
  end.
  pose proof (one_level_at g k v
                ([44; 10]%N ++ entries_text c
                   ++ [32; 32; 125; 44; 10]%N
                   ++ classes_text d2 ++ [125; 59]%N) Hk Hv) as M.
  destruct (search_exists unit (one_level g k)
              (export_default ++ [32; 123; 10]%N ++ classes_text d1
                 ++ [32; 32]%N ++ u)
              _ tt M) as [r' ->].
  reflexivity.
Qed.

(** A match of the pattern shows a class that the key opens. *)
Lemma one_level_shows (doc : parsed) (g k : str) :
  forallb class_ok doc = true -> ident g = true -> ident k = true ->
  first_key_of g k doc = false ->
  found (Re.search (one_level g k) (serialize doc)) = false.
Proof.
  intros R Hg Hk K. rewrite serialize_text.
  pose proof (readable_entries doc R) as F.
  destruct (Re.search (one_level g k) _) as [r|] eqn:S; [|reflexivity].
  exfalso. apply search_inv in S. destruct S as (pre & s' & E & M).
  apply one_level_inv in M.
  destruct M as (w1 & w2 & w3 & v & rest & -> & F1 & F2 & F3).
  assert (E' : (export_default ++ [32%N])
                 ++ 123%N :: 10%N :: classes_text doc ++ [125; 59]%N
               = (pre ++ g ++ 58%N :: w1)
                   ++ 123%N :: w2 ++ k ++ 58%N :: w3
                   ++ 39%N :: v ++ 39%N :: rest).
  { etransitivity; [|etransitivity; [exact E|]];
      repeat (rewrite <- ?app_assoc; cbn [app]); reflexivity. }
  clear E. apply split_at_first in E';
    [|cbn; intuition discriminate].
  destruct E' as [[E1 _]|(X' & E1 & E2)].
  + assert (I : In 58%N (export_default ++ [32%N])).
    { rewrite <- E1. apply in_or_app. right. apply in_or_app. right.
      now left. }
    cbn in I. intuition discriminate.
  + destruct X' as [|x X'']; [discriminate E2|].
    cbn [app] in E2. injection E2 as <- E2.
    apply class_braces in E2; [|exact F|cbn; intuition discriminate].
    destruct E2 as (doc1 & g' & c & doc2 & -> & -> & EY).
    (* the class name *)
    assert (E3 : (pre ++ g) ++ 58%N :: w1
                 = ((export_default ++ [32%N]) ++ 123%N :: 10%N
                      :: classes_text doc1 ++ [32; 32]%N ++ g')
                     ++ 58%N :: [32%N]).
    { rewrite <- app_assoc, E1.
      repeat (rewrite <- ?app_assoc; cbn [app]). reflexivity. }
    apply last_unique in E3;
      [|now apply spaces_no_colon|cbn; intuition discriminate].
    destruct E3 as [E3 _]. symmetry in E3.
    change (((export_default ++ [32%N]) ++ 123%N :: 10%N
               :: classes_text doc1 ++ [32; 32]%N ++ g'))
      with (((export_default ++ [32%N]) ++ [123; 10]%N
               ++ classes_text doc1 ++ [32; 32]%N ++ g')) in E3.
    rewrite !app_assoc in E3. rewrite <- (app_assoc _ [32; 32]%N g') in E3.
    apply suffix_of_ident in E3; [|exact Hg].
    destruct E3 as [u ->].
    (* the first key *)
    rewrite Forall_forall in F.
    destruct (F (u ++ g, c)) as [_ Fc];
      [apply in_or_app; right; now left|]. cbn [snd] in Fc.
    destruct k as [|kc k']; [discriminate Hk|].
    destruct (ident_ends _ Hk) as [Hkc _]. cbn [hd] in Hkc.
    destruct c as [|[k1 v1] c'].
    * cbn [entries_text flat_map app] in EY.
      change (10%N :: 32%N :: 32%N :: 125%N :: 44%N :: 10%N
                :: classes_text doc2 ++ [125; 59]%N)
        with ([10; 32; 32]%N ++ 125%N :: 44%N :: 10%N
                :: classes_text doc2 ++ [125; 59]%N) in EY.
      cbn [app] in EY.
      change (w2 ++ kc :: k' ++ 58%N :: w3 ++ 39%N :: v ++ 39%N :: rest
              = [10; 32; 32]%N ++ 125%N :: 44%N :: 10%N
                  :: classes_text doc2 ++ [125; 59]%N) in EY.
      apply spaces_unique in EY;
        [|exact F2|repeat constructor|exact Hkc|reflexivity].
      destruct EY as (_ & -> & _).
      apply ident_word in Hk. inversion Hk as [|? ? W _]; subst.
      unfold is_word, isalnum, isalpha, isdecimal, isdigit, isnumeric
        in W. cbn in W. discriminate.
    * inversion Fc as [|? ? [Hk1 _] _]; subst. cbn [fst] in Hk1.
      destruct k1 as [|k1c k1']; [discriminate Hk1|].
      destruct (ident_ends _ Hk1) as [Hk1c _]. cbn [hd] in Hk1c.
      assert (EY' : w2 ++ kc :: k' ++ 58%N :: w3
                      ++ 39%N :: v ++ 39%N :: rest
                    = [10; 32; 32; 32; 32]%N
                        ++ k1c :: k1' ++ 58%N :: [32; 39]%N ++ v1
                        ++ [39; 44; 10]%N ++ entries_text c'
                        ++ [32; 32; 125; 44; 10]%N
                        ++ classes_text doc2 ++ [125; 59]%N).
      { cbn [app] in EY. rewrite EY.
        cbn [entries_text flat_map]. fold (entries_text c').
        unfold entry_text, item_text. cbn [fst snd].
        repeat (rewrite <- ?app_assoc; cbn [app]). reflexivity. }
      apply spaces_unique in EY';
        [|exact F2|repeat constructor|exact Hkc|exact Hk1c].
      destruct EY' as (_ & -> & EY').
      assert (EK : (k1c :: k') ++ 58%N :: w3 ++ 39%N :: v ++ 39%N :: rest
                   = (k1c :: k1') ++ 58%N :: [32; 39]%N ++ v1
                       ++ [39; 44; 10]%N ++ entries_text c'
                       ++ [32; 32; 125; 44; 10]%N
                       ++ classes_text doc2 ++ [125; 59]%N).
      { cbn [app]. now rewrite EY'. }
      apply first_unique in EK;
        [|now apply ident_no_colon|now apply ident_no_colon].
      destruct EK as [EK _].
      assert (T : first_key_of g (k1c :: k')
                    (doc1 ++ (u ++ g, (k1c :: k1', v1) :: c') :: doc2)
                  = true).
      { rewrite EK. eapply first_key_intro.
        - apply in_or_app. right. now left.
        - apply endswith_suffix. }
      pose proof (eq_trans (eq_sym T) K) as Z. discriminate Z.
Qed.

(** The scan pattern on a generated file.  In the text generated for a
    document of classes of strings, the pattern that [scan_and_update]
    builds for a class and an undotted key is found exactly when the key
    is the first key of a class whose name ends with the class name: the
    second and later keys of a class are never found. *)
Theorem scan_pattern_on_generated (doc : parsed) (g k : str) :
  forallb class_ok doc = true -> ident g = true -> ident k = true ->
  pattern_found g k (js_content (to_nodes doc))
  = Some (first_key_of g k doc).
Proof.
  intros R Hg Hk. rewrite (pattern_found_names g k _ Hg Hk). f_equal.
  fold (serialize doc). destruct (first_key_of g k doc) eqn:K.
  - now apply one_level_matches.
  - now apply one_level_shows.
Qed.

Lemma write_others (df : frame) (cols : list str) (fs : files) (name : str) :
  (forall l, In l cols -> _normalize_locale l ++ lit ".js" <> name) ->
  Nesting.write_files
    (List.map (fun locale => (_normalize_locale locale ++ lit ".js",
                              js_content (nest df locale))) cols)
    fs name
  = fs name.
Proof.
  unfold Nesting.write_files. revert fs.
  induction cols as [|a cols IH]; intros fs N; [reflexivity|].
  cbn [List.map fold_left fst snd]. rewrite IH.
  - assert (E : str_eqb name (_normalize_locale a ++ lit ".js") = false).
    { apply str_eqb_neq. intros Z. apply (N a); [now left | now symmetry]. }
    now rewrite E.
  - intros l I. apply N. now right.
Qed.

(** With distinct file names, the file of a column holds its text. *)
Lemma written_own (df : frame) (fs : files) (l : str) :
  NoDup (List.map _normalize_locale (locale_columns df)) ->
  In l (locale_columns df) ->
  generated df fs (_normalize_locale l ++ lit ".js")
  = Some (js_content (nest df l)).
Proof.
  unfold generated, generate_js_files. revert fs.
  induction (locale_columns df) as [|a cols IH]; intros fs N I;
    [destruct I|].
  cbn [List.map] in N. inversion N as [|? ? Na Nc]; subst.
  destruct I as [->|I].
  - unfold Nesting.write_files. cbn [List.map fold_left fst snd].
    fold (Nesting.write_files
            (List.map (fun locale => (_normalize_locale locale ++ lit ".js",
                                      js_content (nest df locale))) cols)
            (fun name => if str_eqb name (_normalize_locale l ++ lit ".js")
                         then Some (js_content (nest df l)) else fs name)).
    rewrite write_others.
    + now rewrite str_eqb_refl.
    + intros x Ix Z. apply app_inv_tail in Z. apply Na. rewrite <- Z.
      now apply in_map.
  - unfold Nesting.write_files. cbn [List.map fold_left].
    now apply IH.
Qed.

Lemma flat_map_ext_in (A B : Type) (f g : A -> list B) (l : list A) :
  (forall a, In a l -> f a = g a) -> flat_map f l = flat_map g l.
Proof.
  induction l as [|a l IH]; intros H; [reflexivity|].
  cbn [flat_map]. rewrite (H a (or_introl eq_refl)). f_equal.
  apply IH. intros x I. apply H. now right.
Qed.

Lemma row_ok_names (r : row) :
  TableTrip.row_ok r = true ->
  ident (row_class r) = true /\ ident (row_key r) = true.
Proof.
  unfold TableTrip.row_ok. intros H.
  apply andb_true_iff in H. destruct H as [H _].
  apply andb_true_iff in H. destruct H as [H _].
  apply andb_true_iff in H. destruct H as [Hc Hk].
  split; now apply name_ok_ident.
Qed.

Lemma pattern_on_own_file (df : frame) (r : row) (l : str) :
  TableTrip.tidy df = true -> In r (rows df) ->
  pattern_found (row_class r) (row_key r) (js_content (nest df l))
  = Some (first_key_of (row_class r) (row_key r) (TableTrip.grouped df l)).
Proof.
  intros T I. rewrite (nest_grouped df l T).
  destruct (grouped_is_ok df l T) as (_ & C & _).
  unfold TableTrip.tidy in T. rewrite forallb_forall in T.
  destruct (row_ok_names r (T r I)) as [Hc Hk].
  rewrite (pattern_found_names _ _ _ Hc Hk). f_equal.
  fold (serialize (TableTrip.grouped df l)).
  destruct (first_key_of (row_class r) (row_key r) (TableTrip.grouped df l))
    eqn:K.
  - now apply one_level_matches.
  - now apply one_level_shows.
Qed.

(** A scan right after generation.  For a table of the round trip whose
    locale columns are normalized to distinct names, a scan of the files
    that [generate_js_files] has just written raises no error and reports
    as [update] every cell with a value whose key is not the first key
    of a class of its file, and nothing else: though every file is up to
    date, the scan finds something to update as soon as a class holds
    two keys. *)
Theorem rescan_after_generate (df : frame) (fs : files) :
  TableTrip.tidy df = true ->
  NoDup (List.map _normalize_locale (locale_columns df)) ->
  scan_and_update df (generated df fs) = Ok (rescan df).
Proof.
  intros T N. unfold scan_and_update.
  destruct (scan_rows_total (generated df fs) (locale_columns df)
                            (rows df) []) as [ups E].
  - intros r l value content Ir Il G F.
    unfold Reconcile.file_of in F. rewrite (written_own df fs l N Il) in F.
    injection F as <-. now rewrite (pattern_on_own_file df r l T Ir).
  - rewrite E. f_equal. apply scan_rows_ok in E. cbn [app] in E.
    subst ups. unfold rescan. apply flat_map_ext_in. intros r Ir.
    apply flat_map_ext_in. intros l Il.
    unfold Reconcile.cell_updates, rescan_cell.
    destruct (row_get r l) as [value|]; [|reflexivity].
    unfold Reconcile.file_of. rewrite (written_own df fs l N Il).
    rewrite (pattern_on_own_file df r l T Ir).
    now destruct (first_key_of _ _ _).
Qed.
End RescanFacts.

(** The document of the example: the first key of [text] is found, the
    second is not. *)
Lemma scan_pattern_on_generated_witness :
  pattern_found (P := latin1) (lit "text") (lit "title")
    (js_content (P := latin1) (RoundTrip.to_nodes RoundTrip.two_classes))
  = Some true
  /\ pattern_found (P := latin1) (lit "text") (lit "more")
       (js_content (P := latin1) (RoundTrip.to_nodes RoundTrip.two_classes))
     = Some false.
Proof.
  split;
    rewrite (scan_pattern_on_generated (P := latin1) RoundTrip.two_classes);
    reflexivity.
Defined.

(** The interleaved table: every file is fresh, and the scan reports the
    second key of [text] in both locales. *)
Lemma rescan_after_generate_witness :
  scan_and_update (P := latin1) TableTrip.interleaved
    (Rescan.generated (P := latin1) TableTrip.interleaved (fun _ => None))
  = Ok [Reconcile.update_of
          (Reconcile.two_cells "text" "more" "More" "M")
          Examples.en_us (CStr (lit "More")) Update;
        Reconcile.update_of
          (Reconcile.two_cells "text" "more" "More" "M")
          Reconcile.zh_cn (CStr (lit "M")) Update].
Proof.
  rewrite (rescan_after_generate (P := latin1) TableTrip.interleaved).
  - reflexivity.
  - reflexivity.
  - repeat constructor; cbn; intuition discriminate.
Defined.

(** ** excel_to_js.py: sanitized keys *)

Section SanitizedKeys.
Context {P : Python}.

Lemma validate_key_fixed (c : char) (t : str) :
  forallb Stated.word_key_char (c :: t) = true ->
  forallb isspace (c :: t) = false ->
  isdigit c = false ->
  _validate_key (c :: t) = c :: t.
Proof.
  intros W S D. unfold _validate_key.
  destruct (strip (c :: t)) eqn:E.
  { apply strip_nil_iff in E. congruence. }
  assert (M : List.map (fun c => if is_word c || (c =? 46)%N then c
                                 else 95%N) (c :: t) = c :: t).
  { rewrite <- (map_id (c :: t)) at 2. apply map_ext_in. intros x I.
    rewrite forallb_forall in W. specialize (W x I).
    unfold Stated.word_key_char in W. now rewrite W. }
  rewrite M. now rewrite D.
Qed.

Lemma sanitized_chars (key : str) :
  forallb Stated.word_key_char
    (List.map (fun c => if is_word c || (c =? 46)%N then c else 95%N) key)
  = true.
Proof.
  apply forallb_forall. intros x I. apply in_map_iff in I.
  destruct I as (c & <- & _). unfold Stated.word_key_char.
  destruct (is_word c || (c =? 46)%N) eqn:E; [exact E | reflexivity].
Qed.

Lemma sanitized_not_blank (key : str) :
  forallb isspace key = false ->
  forallb isspace
    (List.map (fun c => if is_word c || (c =? 46)%N then c else 95%N) key)
  = false.
Proof.
  induction key as [|c t IH]; [discriminate|].
  cbn [forallb List.map]. intros H. apply andb_false_iff in H.
  apply andb_false_iff. destruct H as [H|H]; [left | right; now apply IH].
  now destruct (is_word c || (c =? 46)%N).
Qed.

(** Sanitized keys are stable.  Whatever the key, what [_validate_key]
    returns is not empty, is made of word characters and dots, does not
    start with a digit, and is returned unchanged when it is sanitized
    again, as the parts of a dotted key are. *)
Theorem validate_key_stable (key : str) :
  _validate_key key <> []
  /\ forallb Stated.word_key_char (_validate_key key) = true
  /\ isdigit (hd 107%N (_validate_key key)) = false
  /\ _validate_key (_validate_key key) = _validate_key key.
Proof.
  assert (D : lit "default_key" <> []
              /\ forallb Stated.word_key_char (lit "default_key") = true
              /\ isdigit (hd 107%N (lit "default_key")) = false
              /\ _validate_key (lit "default_key") = lit "default_key").
  { split; [discriminate|]. split; [reflexivity|]. split; [reflexivity|].
    reflexivity. }
  assert (C : _validate_key key = lit "default_key"
              \/ exists c' t',
                  _validate_key key
                  = (if isdigit c' then lit "k_" ++ c' :: t' else c' :: t')
                  /\ forallb Stated.word_key_char (c' :: t') = true
                  /\ forallb isspace (c' :: t') = false).
  { unfold _validate_key. destruct key as [|c t]; [now left|].
    destruct (strip (c :: t)) eqn:E; [now left|]. right.
    assert (S : forallb isspace (c :: t) = false).
    { destruct (forallb isspace (c :: t)) eqn:F; [|reflexivity].
      apply strip_nil_iff in F. congruence. }
    pose proof (sanitized_chars (c :: t)) as W.
    pose proof (sanitized_not_blank (c :: t) S) as B.
    cbn [List.map] in *. eexists. eexists.
    split; [reflexivity|]. now split. }
  destruct C as [->|(c' & t' & -> & W & B)]; [exact D|].
  destruct (isdigit c') eqn:G.
  - split; [discriminate|]. split; [exact W|]. split; [reflexivity|].
    apply (validate_key_fixed 107%N (95%N :: c' :: t'));
      [exact W | reflexivity | reflexivity].
  - split; [discriminate|]. split; [exact W|]. split; [exact G|].
    now apply validate_key_fixed.
Qed.
End SanitizedKeys.

(** ** Files with nested mappings *)

Section NestedText.
Context {P : Python}.
Import RoundTrip Leaves.

Lemma value_nested_ind (Q : value -> Prop) :
  (forall s, Q (VStr s)) ->
  (forall d, Forall (fun e : str * value => Q (snd e)) d -> Q (VDict d)) ->
  forall v, Q v.
Proof.
  intros Hs Hd. fix IH 1. intros [s|d]; [apply Hs|]. apply Hd.
  induction d as [|[k v] d IHd]; constructor; [apply IH | exact IHd].
Qed.

Lemma value_ok_entries (d : node) :
  value_ok (VDict d) = true ->
  Forall (fun e : str * value =>
            ident (fst e) = true /\ str_eqb sentinel (fst e) = false
            /\ value_ok (snd e) = true) d.
Proof.
  cbn [value_ok]. intros H. apply Forall_forall. intros e I.
  rewrite forallb_forall in H. specialize (H e I).
  apply andb_true_iff in H. destruct H as [H H3].
  apply andb_true_iff in H. destruct H as [H _].
  apply andb_true_iff in H. destruct H as [H1 H2].
  apply negb_true_iff in H2. tauto.
Qed.

Lemma no_sentinel (d : node) :
  value_ok (VDict d) = true -> Dict.get sentinel d = None.
Proof.
  intros H. apply value_ok_entries in H.
  induction H as [|[k v] d (_ & H & _) F IH]; [reflexivity|].
  cbn [Dict.get]. cbn [fst] in H. now rewrite H.
Qed.

(** The text of a mapping, each entry after its line break. *)
Lemma tail_shape (d : node) (indent : nat) (X : str) :
  Forall (fun e : str * value =>
            generate_entry (fst e) (snd e) indent
            = indent_str indent ++ entry_core (fst e) (snd e) indent
                ++ [10%N]) d ->
  10%N :: generate_nested_content d indent ++ X
  = tail_node d indent ++ 10%N :: X.
Proof.
  induction 1 as [|[k v] d H F IH]; [reflexivity|].
  cbn [generate_nested_content tail_node flat_map fst snd] in *.
  fold (tail_node d indent). rewrite H.
  repeat (rewrite <- ?app_assoc; cbn [app]). do 3 f_equal. exact IH.
Qed.

Lemma entry_shape (v : value) :
  forall (key : str) (indent : nat),
    value_ok v = true ->
    generate_entry key v indent
    = indent_str indent ++ entry_core key v indent ++ [10%N].
Proof.
  induction v as [s|d IH] using value_nested_ind; intros key indent H.
  - cbn [generate_entry entry_core]. unfold item_text. cbn [fst snd].
    change (lit ": '") with [58; 32; 39]%N.
    change (lit "',") with [39; 44]%N.
    now rewrite <- !app_assoc.
  - pose proof (no_sentinel d H) as G.
    cbn [generate_entry]. rewrite G.
    change (fix children (skip : bool) (d0 : list (str * value)) : str :=
              match d0 with
              | [] => []
              | (k, v') :: r =>
                  if skip && str_eqb sentinel k then children false r
                  else generate_entry k v' (S indent) ++ children skip r
              end) with (children indent).
    rewrite children_all. cbn [entry_core]. fold (tail_node d (S indent)).
    change (lit ": {") with [58; 32; 123]%N.
    change (lit "},") with [125; 44]%N.
    repeat (rewrite <- ?app_assoc; cbn [app]).
    rewrite (tail_shape d (S indent)); [reflexivity|].
    apply value_ok_entries in H. rewrite Forall_forall in *.
    intros e I. apply IH; [exact I|]. now apply H.
Qed.

Lemma node_shape (d : node) (indent : nat) (X : str) :
  value_ok (VDict d) = true ->
  10%N :: generate_nested_content d indent ++ X
  = tail_node d indent ++ 10%N :: X.
Proof.
  intros H. apply tail_shape. apply value_ok_entries in H.
  eapply Forall_impl; [|exact H]. intros e (_ & _ & Hv).
  now apply entry_shape.
Qed.

Lemma classes_shape (doc : list (str * node)) (X : str) :
  forallb nested_ok doc = true ->
  10%N :: generate_classes doc ++ X
  = tail_node (classes_node doc) 1 ++ 10%N :: X.
Proof.
  induction doc as [|[g d] doc IH]; intros H; [reflexivity|].
  cbn [forallb] in H. apply andb_true_iff in H. destruct H as [Hg H].
  unfold nested_ok in Hg. apply andb_true_iff in Hg. destruct Hg as [_ Hd].
  cbn [fst snd] in Hd.
  cbn [generate_classes classes_node List.map tail_node flat_map fst snd
       entry_core].
  fold (classes_node doc). fold (tail_node (classes_node doc) 1).
  fold (tail_node d 2).
  change (lit "  ") with (indent_str 1).
  change (lit ": {") with [58; 32; 123]%N.
  change (lit "  },") with (indent_str 1 ++ [125; 44]%N).
  repeat (rewrite <- ?app_assoc; cbn [app]).
  rewrite (node_shape d 2 _ Hd).
  repeat (rewrite <- ?app_assoc; cbn [app]).
  do 11 f_equal. exact (IH H).
Qed.
End NestedText.

(** *** No occurrence of the two patterns removed before parsing *)

Section NestedPattern.
Context {P : Python}.
Import RoundTrip Leaves.
Variable p : str.
Hypothesis p_barrier : forall c, is_barrier c = true -> ~ In c p.
Hypothesis p_head : exists h t, p = h :: t /\ h <> 32%N.
Hypothesis p_word : Exists (fun c => is_word c = false) p.
Hypothesis p_plain :
  forall v, plain v && TextFile.no_cr v = true -> contains p v = false.

Lemma clean_indent (indent : nat) (b : str) :
  contains p (indent_str indent ++ b) = contains p b.
Proof.
  unfold indent_str. induction (2 * indent) as [|n IH]; [reflexivity|].
  cbn [repeat app]. now rewrite (cs_head p p_head).
Qed.

Lemma clean_tail (d : node) (indent : nat) (rest : str) :
  Forall (fun e : str * value =>
            forall rest',
              contains p (entry_core (fst e) (snd e) indent ++ rest')
              = contains p rest') d ->
  contains p (tail_node d indent ++ rest) = contains p rest.
Proof.
  induction 1 as [|[k v] d H F IH]; [reflexivity|].
  cbn [tail_node flat_map fst snd] in *. fold (tail_node d indent).
  repeat (rewrite <- ?app_assoc; cbn [app]).
  rewrite (cb_head p p_barrier p_head p_word) by reflexivity.
  rewrite clean_indent, H. exact IH.
Qed.

Lemma clean_core (v : value) :
  forall (key : str) (indent : nat) (rest : str),
    ident key = true -> value_ok v = true ->
    contains p (entry_core key v indent ++ rest) = contains p rest.
Proof.
  induction v as [s|d IH] using value_nested_ind;
    intros key indent rest Hk H.
  - cbn [entry_core]. unfold item_text. cbn [fst snd]. cbn [value_ok] in H.
    apply andb_true_iff in H. destruct H as [H _].
    repeat (rewrite <- ?app_assoc; cbn [app]).
    rewrite (cb_mid p p_barrier p_head p_word) by reflexivity.
    rewrite (clean_ident p p_word key Hk). cbn [orb].
    rewrite (cs_head p p_head).
    rewrite (cb_head p p_barrier p_head p_word) by reflexivity.
    rewrite (cb_mid p p_barrier p_head p_word) by reflexivity.
    rewrite (p_plain s H). cbn [orb].
    now rewrite (cb_head p p_barrier p_head p_word) by reflexivity.
  - cbn [entry_core]. fold (tail_node d (S indent)).
    repeat (rewrite <- ?app_assoc; cbn [app]).
    rewrite (cb_mid p p_barrier p_head p_word) by reflexivity.
    rewrite (clean_ident p p_word key Hk). cbn [orb].
    rewrite (cs_head p p_head).
    rewrite (cb_head p p_barrier p_head p_word) by reflexivity.
    rewrite clean_tail.
    + rewrite (cb_head p p_barrier p_head p_word) by reflexivity.
      rewrite clean_indent.
      now rewrite !(cb_head p p_barrier p_head p_word) by reflexivity.
    + apply value_ok_entries in H. rewrite Forall_forall in *.
      intros e I rest'. apply (IH e I); now apply H.
Qed.

(** The text after the header holds no occurrence of the pattern. *)
Lemma clean_nested (doc : list (str * node)) :
  forallb nested_ok doc = true ->
  contains p ([32; 123]%N ++ (tail_node (classes_node doc) 1 ++ [10%N])
                ++ [125; 59]%N) = false.
Proof.
  intros H. repeat (rewrite <- ?app_assoc; cbn [app]).
  rewrite (cs_head p p_head).
  rewrite (cb_head p p_barrier p_head p_word) by reflexivity.
  rewrite clean_tail.
  - rewrite !(cb_head p p_barrier p_head p_word) by reflexivity.
    apply contains_nil, (p_nonempty p p_barrier p_head p_word).
  - apply Forall_forall. intros e I rest'. unfold classes_node in I.
    apply in_map_iff in I. destruct I as ([g d] & <- & I).
    rewrite forallb_forall in H. specialize (H _ I). unfold nested_ok in H.
    apply andb_true_iff in H. destruct H as [H Hd].
    apply andb_true_iff in H. destruct H as [Hg _]. cbn [fst snd] in *.
    now apply clean_core.
Qed.
End NestedPattern.

Section NestedPrepared.
Context {P : Python}.
Import RoundTrip Leaves.

(** The text the loop of the parser runs on, for a text between the
    header and the closing brace that holds neither pattern. *)
Lemma prepare_generated (T : str) :
  contains export_default ([32; 123]%N ++ T ++ [125; 59]%N) = false ->
  contains slashes ([32; 123]%N ++ T ++ [125; 59]%N) = false ->
  prepare (export_default ++ [32; 123]%N ++ T ++ [125; 59]%N)
  = 123%N :: T ++ [125%N].
Proof.
  intros C1 C2. unfold prepare.
  set (body := [32; 123]%N ++ T ++ [125; 59]%N) in *.
  fold export_default.
  rewrite (replace_head export_default [] body) by (discriminate || exact C1).
  cbn [app].
  rewrite sub_nowhere.
  2:{ intros p1 p2 E. unfold comment_re, Re.m_lit. fold slashes.
      rewrite E in C2. apply contains_suffix in C2. now rewrite C2. }
  assert (S : strip body = 123%N :: (T ++ [125%N]) ++ [59%N]).
  { unfold body.
    replace ([32; 123]%N ++ T ++ [125; 59]%N)
      with ([32%N] ++ (123%N :: (T ++ [125%N]) ++ [59%N]) ++ []).
    - rewrite strip_core; try reflexivity.
      + repeat constructor.
      + constructor.
    - cbn [app]. rewrite app_nil_r, <- app_assoc. reflexivity. }
  rewrite S.
  change (123%N :: (T ++ [125%N]) ++ [59%N])
    with ((123%N :: T ++ [125%N]) ++ [59%N]).
  change (lit ";") with [59%N].
  rewrite endswith_last. unfold drop_last. now rewrite removelast_last.
Qed.

Lemma js_content_nested (doc : list (str * node)) :
  forallb nested_ok doc = true ->
  js_content doc
  = export_default ++ [32; 123]%N
      ++ (tail_node (classes_node doc) 1 ++ [10%N]) ++ [125; 59]%N.
Proof.
  intros H. unfold js_content.
  change (lit "export default {") with (export_default ++ [32; 123]%N).
  change (lit "};") with [125; 59]%N.
  repeat (rewrite <- ?app_assoc; cbn [app]).
  do 3 f_equal. apply (classes_shape doc _ H).
Qed.

Lemma prepare_nested (doc : list (str * node)) :
  forallb nested_ok doc = true ->
  prepare (js_content doc)
  = 123%N :: tail_node (classes_node doc) 1 ++ [10; 125]%N.
Proof.
  intros H. rewrite (js_content_nested doc H).
  rewrite prepare_generated.
  - now rewrite <- app_assoc.
  - apply clean_nested; [apply export_default_barrier | | | | exact H].
    + eexists _, _. split; [reflexivity|discriminate].
    + apply export_default_word.
    + intros v Hv. apply andb_true_iff in Hv. destruct Hv as [Hv _].
      now apply plain_inv in Hv.
  - apply clean_nested; [apply slashes_barrier | | | | exact H].
    + eexists _, _. split; [reflexivity|discriminate].
    + apply slashes_word.
    + intros v Hv. apply andb_true_iff in Hv. destruct Hv as [Hv _].
      now apply plain_inv in Hv.
Qed.

(** The text holds no carriage return, and is read from its file as it
    was written. *)
Lemma nested_through_file (doc : list (str * node)) (linesep : str) :
  forallb nested_ok doc = true -> TextFile.os_linesep linesep ->
  TextFile.through_file linesep (js_content doc) = js_content doc.
Proof.
  intros H L. apply through_file_same; [exact L|]. intros I.
  rewrite (js_content_nested doc H) in I. apply in_app_or in I.
  destruct I as [I|I].
  - cbn in I. intuition discriminate.
  - apply in_contains in I.
    rewrite (clean_nested [13%N]) in I; [discriminate| | | | |exact H].
    + intros c B [<-|[]]. discriminate B.
    + eexists _, _. split; [reflexivity|discriminate].
    + constructor. reflexivity.
    + intros v Hv. apply andb_true_iff in Hv. destruct Hv as [_ Hv].
      unfold TextFile.no_cr in Hv. now apply negb_true_iff in Hv.
Qed.
End NestedPrepared.

(** *** The braces of a class *)

Section NestedBraces.
Context {P : Python}.
Import RoundTrip Leaves.

Lemma passes_plain (a : str) : Forall no_brace a -> passes a.
Proof.
  intros F n s. induction F as [|c a [H1 H2] F IH].
  - cbn [app]. destruct (find_closing (S n) s) as [[i r]|]; reflexivity.
  - cbn [app find_closing]. apply N.eqb_neq in H1, H2. rewrite H1, H2, IH.
    destruct (find_closing (S n) s) as [[i r]|]; reflexivity.
Qed.

Lemma passes_app (a b : str) : passes a -> passes b -> passes (a ++ b).
Proof.
  intros Ha Hb n s. rewrite <- app_assoc, Ha, Hb.
  destruct (find_closing (S n) s) as [[i r]|]; cbn [option_map fst snd];
    [|reflexivity].
  now rewrite app_assoc.
Qed.

Lemma passes_group (a : str) : passes a -> passes (123%N :: a ++ [125%N]).
Proof.
  intros Ha n s. cbn [app]. rewrite <- app_assoc. cbn [app find_closing].
  change (123 =? 123)%N with true. cbv iota.
  rewrite (Ha (S n)). cbn [find_closing].
  change (125 =? 123)%N with false. change (125 =? 125)%N with true.
  cbv iota. cbn [Nat.pred].
  destruct (find_closing (S n) s) as [[i r]|]; cbn [option_map fst snd];
    [|reflexivity].
  now rewrite <- app_assoc.
Qed.

Lemma passes_indent (indent : nat) : passes (10%N :: indent_str indent).
Proof.
  apply passes_plain. constructor; [split; discriminate|].
  unfold indent_str. apply Forall_forall. intros x I.
  apply repeat_spec in I. subst x. split; discriminate.
Qed.

Lemma passes_tail (d : node) (indent : nat) :
  Forall (fun e : str * value =>
            passes (entry_core (fst e) (snd e) indent)) d ->
  passes (tail_node d indent).
Proof.
  induction 1 as [|[k v] d H F IH].
  - apply passes_plain. constructor.
  - cbn [tail_node flat_map fst snd] in *. fold (tail_node d indent).
    apply passes_app; [|exact IH].
    apply (passes_app (10%N :: indent_str indent));
      [apply passes_indent | exact H].
Qed.

Lemma passes_core (v : value) :
  forall (key : str) (indent : nat),
    ident key = true -> value_ok v = true ->
    passes (entry_core key v indent).
Proof.
  induction v as [s|d IH] using value_nested_ind; intros key indent Hk H.
  - apply passes_plain. cbn [entry_core]. unfold item_text. cbn [fst snd].
    cbn [value_ok] in H. apply andb_true_iff in H. destruct H as [H _].
    apply andb_true_iff in H. destruct H as [H _].
    apply plain_inv in H. destruct H as [H _].
    repeat (apply Forall_app; split);
      try (now apply ident_no_brace);
      try (repeat constructor; discriminate).
    eapply Forall_impl; [|exact H]. intros a Ha.
    now apply plain_char_facts in Ha.
  - assert (E : entry_core key (VDict d) indent
                = (key ++ [58; 32]%N)
                    ++ (123%N :: (tail_node d (S indent)
                                    ++ 10%N :: indent_str indent)
                          ++ [125%N])
                    ++ [44%N]).
    { cbn [entry_core]. fold (tail_node d (S indent)).
      repeat (rewrite <- ?app_assoc; cbn [app]). reflexivity. }
    rewrite E. apply passes_app; [|apply passes_app].
    + apply passes_plain. apply Forall_app. split;
        [now apply ident_no_brace | repeat constructor; discriminate].
    + apply passes_group. apply passes_app; [|apply passes_indent].
      apply passes_tail. apply value_ok_entries in H.
      rewrite Forall_forall in *. intros e I. apply (IH e I); now apply H.
    + apply passes_plain. repeat constructor; discriminate.
Qed.

(** The closing brace of a class is the one the text of the class ends
    with. *)
Lemma find_closing_nested (d : node) (rest : str) :
  value_ok (VDict d) = true ->
  find_closing 1 ((tail_node d 2 ++ 10%N :: indent_str 1) ++ 125%N :: rest)
  = Some (tail_node d 2 ++ 10%N :: indent_str 1, rest).
Proof.
  intros H.
  assert (Q : passes (tail_node d 2 ++ 10%N :: indent_str 1)).
  { apply passes_app; [|apply passes_indent]. apply passes_tail.
    apply value_ok_entries in H. eapply Forall_impl; [|exact H].
    intros e (Hk & _ & Hv). now apply passes_core. }
  rewrite (Q 0). cbn [find_closing].
  change (125 =? 123)%N with false. change (125 =? 125)%N with true.
  cbv iota. cbn [Nat.pred option_map fst snd]. now rewrite app_nil_r.
Qed.
End NestedBraces.

(** *** The item pattern on a class with nested mappings *)

Section NestedItems.
Context {P : Python}.
Import RoundTrip Leaves.

Lemma prefix_of_class (cls : char -> bool) (w u : str) (c : char)
      (s s' : str) :
  Forall (fun x => cls x = true) w -> cls c = false ->
  u ++ c :: s = w ++ s' ->
  exists u2, u = w ++ u2 /\ s' = u2 ++ c :: s.
Proof.
  intros F Hc. revert u. induction F as [|x w Hx F IH]; intros u E.
  - exists u. now split.
  - destruct u as [|y u].
    + cbn in E. injection E as -> _. congruence.
    + cbn in E. injection E as -> E.
      destruct (IH u E) as (u2 & -> & ->). exists u2. now split.
Qed.

(** A lazy run cannot start in a block closed by a character outside its
    class, when what follows the run fails everywhere in the block. *)
Lemma plus_lazy_dead (R : Type) (cls : char -> bool) (K : str -> Re.M R)
      (U : str) (c : char) (s : str) :
  cls c = false ->
  (forall w u1 u2, U = u1 ++ u2 -> K w (u2 ++ c :: s) = None) ->
  forall p1 p2, U ++ [c] = p1 ++ p2 -> p2 <> [] ->
    Re.m_plus_lazy cls K (p2 ++ s) = None.
Proof.
  intros Hc HK p1 p2 E N.
  destruct (exists_last N) as (u & z & ->).
  rewrite app_assoc in E. apply app_inj_tail in E. destruct E as [-> <-].
  rewrite <- app_assoc. cbn [app].
  destruct (Re.m_plus_lazy cls K (u ++ c :: s)) as [r|] eqn:M;
    [|reflexivity].
  exfalso. unfold Re.m_plus_lazy in M.
  destruct u as [|x u]; cbn [app] in M.
  - now rewrite Hc in M.
  - destruct (cls x) eqn:Hx; [|discriminate].
    apply m_star_lazy_inv in M. destruct M as (w & s' & E & F & M).
    destruct (prefix_of_class cls w u c s s' F Hc E) as (u2 & -> & ->).
    rewrite (HK (x :: w) (p1 ++ x :: w) u2) in M; [discriminate|].
    rewrite <- app_assoc. reflexivity.
Qed.

Lemma blank_no_colon (R : Type) (m : Re.M R) (u : str) (c : char)
      (s : str) :
  Forall (fun x => isspace x = true) u -> isspace c = false -> c <> 58%N ->
  Re.m_star isspace (fun _ => Re.m_lit [58%N] m) (u ++ c :: s) = None.
Proof.
  intros F Hc N. apply m_star_none. intros w s' E Fw.
  destruct (prefix_of_class isspace w u c s s' Fw Hc E) as (u2 & -> & ->).
  unfold Re.m_lit. apply Forall_app in F. destruct F as [_ F].
  destruct u2 as [|x u2]; cbn [app startswith].
  - destruct (58 =? c)%N eqn:Q; [|reflexivity].
    apply N.eqb_eq in Q. congruence.
  - inversion F as [|? ? Hx _]; subst.
    destruct (58 =? x)%N eqn:Q; [|reflexivity].
    apply N.eqb_eq in Q. subst x. discriminate Hx.
Qed.

(** No match starts in the blanks before a closing brace or a comma, nor
    at the character itself. *)
Lemma barrier_dead (ws : str) (c : char) (s : str) :
  Forall (fun x => isspace x = true) ws ->
  item_key_char c = false -> isspace c = false -> c <> 58%N ->
  forall p1 p2, ws ++ [c] = p1 ++ p2 -> p2 <> [] ->
    item_re (p2 ++ s) = None.
Proof.
  intros Fw Hk Hc N. unfold item_re. apply plus_lazy_dead; [exact Hk|].
  intros w u1 u2 E. change (lit ":") with [58%N].
  apply blank_no_colon; [|exact Hc|exact N].
  subst ws. now apply Forall_app in Fw.
Qed.

(** No match starts in the line that opens a nested mapping. *)
Lemma open_dead (ws k s : str) :
  Forall (fun x => isspace x = true) ws -> ident k = true ->
  forall p1 p2, ((ws ++ k) ++ [58; 32]%N) ++ [123%N] = p1 ++ p2 ->
    p2 <> [] -> item_re (p2 ++ s) = None.
Proof.
  intros Fw Hk. unfold item_re. apply plus_lazy_dead; [reflexivity|].
  intros w u1 u2 E. change (lit ":") with [58%N].
  assert (Fk : Forall (fun c => c <> 58%N) (ws ++ k)).
  { apply Forall_app. split.
    - eapply Forall_impl; [|exact Fw]. intros c Hc.
      now apply space_facts in Hc.
    - unfold ident in Hk. destruct k; [discriminate|].
      apply Forall_forall. intros x I. rewrite forallb_forall in Hk.
      apply Hk, ident_char_facts in I. tauto. }
  assert (Lk : isspace (last (ws ++ k) 32%N) = false).
  { destruct (ident_ends k Hk) as [_ L]. rewrite last_suffix; [exact L|].
    destruct k; [discriminate Hk | discriminate]. }
  apply app_eq_app in E. destruct E as (l & [[E1 E2]|[E1 E2]]).
  - subst u2. rewrite <- app_assoc. cbn [app].
    destruct l as [|x l].
    + reflexivity.
    + apply colon_fails.
      * rewrite E1 in Fk. now apply Forall_app in Fk.
      * rewrite <- Lk, E1. symmetry. f_equal. apply last_suffix.
        discriminate.
  - destruct l as [|a [|b [|? ?]]]; cbn [app] in E2.
    + subst u2. reflexivity.
    + injection E2 as _ <-. reflexivity.
    + injection E2 as _ _ <-. reflexivity.
    + discriminate E2.
Qed.

Lemma all_items_step (s : str) (a : str * str) (rest : str) :
  Re.search item_re s = Some (a, rest) -> all_items s = a :: all_items rest.
Proof.
  intros E. unfold all_items.
  change (Re.finditer item_re (S (List.length s)) s)
    with (match Re.search item_re s with
          | Some (a, rest) => a :: Re.finditer item_re (List.length s) rest
          | None => []
          end).
  rewrite E. f_equal. apply search_item_shortens in E.
  apply finditer_fuel; lia.
Qed.

Lemma all_items_none (s : str) :
  Re.search item_re s = None -> all_items s = [].
Proof. intros E. unfold all_items. cbn [Re.finditer]. now rewrite E. Qed.

Lemma read_skip (pre s : str) :
  (forall p1 p2, pre = p1 ++ p2 -> p2 <> [] -> item_re (p2 ++ s) = None) ->
  read_items (pre ++ s) = read_items s.
Proof.
  intros H. unfold read_items. f_equal.
  pose proof (search_skip item_re _ H) as E.
  destruct (Re.search item_re s) as [[a rest]|] eqn:Q.
  - now rewrite (all_items_step _ a rest E), (all_items_step _ a rest Q).
  - now rewrite (all_items_none _ E), (all_items_none _ Q).
Qed.

Lemma read_leaf (ws k v R : str) :
  Forall (fun x => isspace x = true) ws -> ident k = true ->
  Forall (fun c => not_quote c = true) v ->
  read_items (ws ++ item_text (k, v) ++ R) = (k, v) :: read_items R.
Proof.
  intros Fw Hk Fv. unfold read_items.
  rewrite (all_items_step _ (ws ++ k, v) R
             (search_here item_re _ (item_matches ws k v R Fw Hk Fv))).
  cbn [List.map fst snd]. now rewrite (strip_ident ws k Fw Hk).
Qed.

Lemma indent_blank (indent : nat) :
  Forall (fun x => isspace x = true) (10%N :: indent_str indent).
Proof.
  constructor; [reflexivity|]. unfold indent_str. apply Forall_forall.
  intros x I. apply repeat_spec in I. now subst x.
Qed.

Lemma read_tail (d : node) (indent : nat) (X : str) :
  Forall (fun e : str * value =>
            forall ws R,
              Forall (fun x => isspace x = true) ws ->
              read_items (ws ++ entry_core (fst e) (snd e) indent ++ R)
              = leaves (fst e) (snd e) ++ read_items R) d ->
  read_items (tail_node d indent ++ X) = node_leaves d ++ read_items X.
Proof.
  induction 1 as [|[k v] d H F IH]; [reflexivity|].
  assert (E : tail_node ((k, v) :: d) indent ++ X
              = (10%N :: indent_str indent)
                  ++ entry_core k v indent ++ tail_node d indent ++ X).
  { cbn [tail_node flat_map fst snd]. fold (tail_node d indent).
    repeat (rewrite <- ?app_assoc; cbn [app]). reflexivity. }
  rewrite E. cbn [fst snd] in H. rewrite (H _ _ (indent_blank indent)).
  cbn [node_leaves flat_map fst snd]. fold (node_leaves d).
  rewrite <- app_assoc. f_equal. exact IH.
Qed.

(** The item pattern finds the strings of an entry, mappings included,
    and nothing else. *)
Lemma read_core (v : value) :
  forall (k : str) (i : nat) (ws R : str),
    Forall (fun x => isspace x = true) ws ->
    ident k = true -> value_ok v = true ->
    read_items (ws ++ entry_core k v i ++ R) = leaves k v ++ read_items R.
Proof.
  induction v as [s|d IH] using value_nested_ind; intros k i ws R Fw Hk H.
  - cbn [entry_core leaves app]. apply read_leaf; [exact Fw | exact Hk |].
    cbn [value_ok] in H. apply andb_true_iff in H. destruct H as [H _].
    apply andb_true_iff in H. destruct H as [H _].
    apply plain_inv in H. destruct H as [H _].
    eapply Forall_impl; [|exact H]. intros a Ha.
    now apply plain_char_facts in Ha.
  - assert (E : ws ++ entry_core k (VDict d) i ++ R
                = (((ws ++ k) ++ [58; 32]%N) ++ [123%N])
                    ++ tail_node d (S i)
                    ++ ((10%N :: indent_str i) ++ [125%N])
                    ++ [44%N] ++ R).
    { cbn [entry_core]. fold (tail_node d (S i)).
      repeat (rewrite <- ?app_assoc; cbn [app]). reflexivity. }
    rewrite E. rewrite read_skip by (now apply open_dead).
    cbn [leaves]. fold (node_leaves d). rewrite read_tail.
    + f_equal.
      rewrite read_skip
        by (apply barrier_dead;
            [apply indent_blank | reflexivity | reflexivity | discriminate]).
      apply read_skip.
      apply (barrier_dead []);
        [constructor | reflexivity | reflexivity | discriminate].
    + apply value_ok_entries in H. rewrite Forall_forall in *.
      intros e I ws' R' Fw'. apply (IH e I); [exact Fw' | |]; now apply H.
Qed.
End NestedItems.

(** *** The loop of the parser on a file with nested mappings *)

Section NestedLoop.
Context {P : Python}.
Import RoundTrip Leaves.

Lemma parse_items_read (s : str) :
  parse_items s
  = fold_left (fun c (e : str * str) => Dict.set (fst e) (snd e) c)
              (read_items s) [].
Proof.
  unfold parse_items, read_items. fold (all_items s).
  generalize ([] : class_dict).
  induction (all_items s) as [|it l IH]; intros acc; [reflexivity|].
  cbn [List.map fold_left fst snd]. apply IH.
Qed.

Lemma core_ends (k : str) (v : value) (i : nat) :
  exists m, entry_core k v i = m ++ [44%N].
Proof.
  destruct v as [s|d]; cbn [entry_core].
  - exists (k ++ [58; 32; 39]%N ++ s ++ [39%N]). unfold item_text.
    cbn [fst snd]. repeat (rewrite <- ?app_assoc; cbn [app]). reflexivity.
  - fold (tail_node d (S i)).
    exists (k ++ [58; 32; 123]%N
              ++ tail_node d (S i) ++ 10%N :: indent_str i ++ [125%N]).
    repeat (rewrite <- ?app_assoc; cbn [app]). reflexivity.
Qed.

Lemma tail_ends (r : node) :
  forall (pre k : str) (v : value) (i : nat),
  exists m, pre ++ entry_core k v i ++ tail_node r i = m ++ [44%N].
Proof.
  induction r as [|[k2 v2] r IH]; intros pre k v i.
  - destruct (core_ends k v i) as [m E]. exists (pre ++ m).
    cbn [tail_node flat_map]. now rewrite app_nil_r, E, app_assoc.
  - destruct (IH (pre ++ entry_core k v i ++ 10%N :: indent_str i) k2 v2 i)
      as [m E].
    exists m. rewrite <- E. cbn [tail_node flat_map fst snd].
    fold (tail_node r i).
    repeat (rewrite <- ?app_assoc; cbn [app]). reflexivity.
Qed.

Lemma core_head (k : str) (v : value) (i : nat) (X : str) :
  ident k = true -> isspace (hd 32%N (entry_core k v i ++ X)) = false.
Proof.
  intros Hk. destruct (ident_ends k Hk) as [Hh _].
  destruct k as [|c k]; [discriminate Hk|]. cbn [hd] in Hh.
  destruct v; cbn [entry_core]; unfold item_text; cbn [fst snd app hd];
    exact Hh.
Qed.

(** The text between the braces of a class is read back to the leaves of
    the class. *)
Lemma parse_items_nested (d : node) :
  value_ok (VDict d) = true ->
  parse_items (strip (tail_node d 2 ++ 10%N :: indent_str 1))
  = hoisted_class d.
Proof.
  intros H. rewrite parse_items_read. unfold hoisted_class. f_equal.
  destruct d as [|[k v] r]; [reflexivity|].
  pose proof (value_ok_entries _ H) as F.
  inversion F as [|? ? (Hk & _ & Hv) F']; subst. cbn [fst snd] in *.
  assert (E : tail_node ((k, v) :: r) 2 ++ 10%N :: indent_str 1
              = (10%N :: indent_str 2)
                  ++ (entry_core k v 2 ++ tail_node r 2)
                  ++ 10%N :: indent_str 1).
  { cbn [tail_node flat_map fst snd]. fold (tail_node r 2).
    repeat (rewrite <- ?app_assoc; cbn [app]). reflexivity. }
  rewrite E. rewrite strip_between.
  - change (entry_core k v 2 ++ tail_node r 2)
      with ([] ++ entry_core k v 2 ++ tail_node r 2).
    rewrite (read_core v k 2 [] _ (Forall_nil _) Hk Hv).
    cbn [node_leaves flat_map fst snd]. fold (node_leaves r). f_equal.
    rewrite <- (app_nil_r (tail_node r 2)). rewrite read_tail.
    + apply app_nil_r.
    + eapply Forall_impl; [|exact F']. intros e (Hk' & _ & Hv') ws R Fw.
      now apply read_core.
  - apply indent_blank.
  - apply indent_blank.
  - now apply core_head.
  - destruct (tail_ends r [] k v 2) as [m Em]. cbn [app] in Em.
    rewrite Em, last_last. reflexivity.
Qed.

(** The loop reads the classes back, one turn per class. *)
Lemma parse_loop_nested (doc : list (str * node)) :
  forall (sep : str) (acc : parsed) (fuel : nat),
    Forall (fun c => is_word c = false) sep ->
    forallb nested_ok doc = true ->
    List.length (sep ++ tail_node (classes_node doc) 1 ++ [10; 125]%N)
    < fuel ->
    parse_loop fuel (sep ++ tail_node (classes_node doc) 1 ++ [10; 125]%N)
               acc
    = Some (Ok (fold_left (fun r (e : str * node) =>
                             Dict.set (fst e) (hoisted_class (snd e)) r)
                          doc acc)).
Proof.
  induction doc as [|[g d] doc IH]; intros sep acc fuel Fs H L;
    (destruct fuel as [|fuel]; [lia|]).
  - cbn [classes_node List.map tail_node flat_map app fold_left].
    apply parse_loop_none. apply search_none. intros p1 p2 E.
    destruct p2 as [|x p2]; [reflexivity|].
    assert (Wx : is_word x = false).
    { assert (I : In x (sep ++ [10; 125]%N))
        by (rewrite E; apply in_or_app; right; now left).
      apply in_app_or in I. destruct I as [I|[<-|[<-|[]]]];
        [|reflexivity|reflexivity].
      rewrite Forall_forall in Fs. now apply Fs. }
    unfold top_key_re, Re.m_plus. now rewrite Wx.
  - cbn [forallb] in H. apply andb_true_iff in H. destruct H as [Hg H].
    unfold nested_ok in Hg. apply andb_true_iff in Hg.
    destruct Hg as [Hg Hd]. apply andb_true_iff in Hg.
    destruct Hg as [Hg _]. cbn [fst snd] in Hg, Hd.
    set (rest := [44%N] ++ tail_node (classes_node doc) 1 ++ [10; 125]%N)
      in *.
    set (inner := tail_node d 2 ++ 10%N :: indent_str 1).
    assert (E : sep ++ tail_node (classes_node ((g, d) :: doc)) 1
                      ++ [10; 125]%N
                = (sep ++ 10%N :: indent_str 1)
                    ++ g ++ 58%N :: 32%N :: 123%N
                    :: inner ++ 125%N :: rest).
    { unfold inner, rest.
      cbn [classes_node List.map tail_node flat_map fst snd entry_core].
      fold (classes_node doc). fold (tail_node (classes_node doc) 1).
      fold (tail_node d 2).
      repeat (rewrite <- ?app_assoc; cbn [app]). reflexivity. }
    rewrite E in *.
    rewrite (parse_loop_turn fuel _ acc g
               (32%N :: 123%N :: inner ++ 125%N :: rest)
               (inner ++ 125%N :: rest) inner rest).
    + unfold inner. rewrite (parse_items_nested d Hd).
      cbn [fold_left fst snd]. unfold rest. apply IH.
      * repeat constructor.
      * exact H.
      * clearbody inner. clear E. unfold rest in L. cbn [app] in L.
        repeat (rewrite !length_app in L; cbn [List.length] in L).
        cbn [app List.length]. rewrite !length_app. cbn [List.length]. lia.
    + destruct sep; discriminate.
    + apply search_top; [|exact Hg].
      apply Forall_app. split; [exact Fs|].
      constructor; [reflexivity|]. unfold indent_str.
      apply Forall_forall. intros x I. apply repeat_spec in I. now subst x.
    + reflexivity.
    + unfold inner. now apply find_closing_nested.
Qed.
End NestedLoop.

Section NestedFiles.
Context {P : Python}.
Import RoundTrip Leaves.

(** parse_js_file on the file generate_js_files writes for a document
    with nested mappings.  When every class name and every name below it
    is an identifier, no name below a class is the sentinel, every
    string is free of quotes, braces, carriage returns, [//] and
    [export default], and every name and string is of characters UTF-8
    can encode (no surrogate), every class is read back from the file as
    a flat dict of its strings: each string under the last name of its
    path, in the order of the text, a later string of the same name
    taking the place of the earlier one.  The names of the mappings on
    the path are not read back. *)
Theorem parse_nested_leaves (doc : list (str * node)) (linesep : str) :
  forallb nested_ok doc = true -> TextFile.os_linesep linesep ->
  parse_js_file (TextFile.through_file linesep (js_content doc))
  = Ok (hoisted doc).
Proof.
  intros H L. rewrite (nested_through_file doc linesep H L).
  unfold parse_js_file. rewrite (prepare_nested doc H).
  change (123%N :: tail_node (classes_node doc) 1 ++ [10; 125]%N)
    with ([123%N] ++ tail_node (classes_node doc) 1 ++ [10; 125]%N).
  rewrite (parse_loop_nested doc [123%N] []);
    [reflexivity | repeat constructor | exact H | apply Nat.lt_succ_diag_r].
Qed.
End NestedFiles.

(** The table with the dotted keys [file.open], [edit.undo] and
    [edit.open]: the file generated from it is read back with the keys
    [open], [title] and [undo], and [open] holds the value of
    [edit.open]. *)
Lemma parse_nested_leaves_witness :
  forallb (Leaves.nested_ok (P := latin1))
          (nest (P := latin1) Leaves.dotted Examples.en_us) = true
  /\ parse_js_file (P := latin1)
       (TextFile.through_file [13; 10]%N
          (js_content (P := latin1)
                      (nest (P := latin1) Leaves.dotted Examples.en_us)))
     = Ok [(lit "menu", [(lit "open", lit "Open with");
                         (lit "title", lit "Menu");
                         (lit "undo", lit "Undo")]);
           (lit "tip", [(lit "save", lit "Save")])].
Proof.
  split; [reflexivity|].
  exact (parse_nested_leaves (P := latin1)
           (nest (P := latin1) Leaves.dotted Examples.en_us) [13; 10]%N
           eq_refl (or_intror eq_refl)).
Defined.

(** ** The scan against its description *)

Section ScanHeuristic.
Context {P : Python}.
Import Heuristic.

(** *** The file of a locale *)

Lemma replace_one_char (a b : char) (s : str) :
  replace [a] [b] s = List.map (fun c => if (c =? a)%N then b else c) s.
Proof.
  unfold replace. induction s as [|c t IH]; [reflexivity|].
  cbn [replace_from startswith List.length Nat.pred List.map].
  rewrite andb_true_r, N.eqb_sym.
  destruct (c =? a)%N; cbn [app]; now rewrite IH.
Qed.

Lemma file_name_eq (locale : str) :
  _normalize_locale locale ++ lit ".js" = file_name locale.
Proof.
  unfold _normalize_locale, file_name.
  change (lit "_") with [95%N]. change (lit "-") with [45%N].
  now rewrite replace_one_char.
Qed.

(** *** The parts of a key *)

Lemma split_no_dot (key : str) : ~ In 46%N key -> split_on 46%N key = [key].
Proof.
  induction key as [|c t IH]; intros N; [reflexivity|].
  cbn [split_on].
  assert (E : (c =? 46)%N = false).
  { apply N.eqb_neq. intros ->. apply N. now left. }
  rewrite E, IH; [reflexivity|]. intros I. apply N. now right.
Qed.

Lemma split_dot (key : str) :
  In 46%N key ->
  exists part0 part1 rest, split_on 46%N key = part0 :: part1 :: rest.
Proof.
  induction key as [|c t IH]; intros I; [destruct I|].
  cbn [split_on]. destruct (c =? 46)%N eqn:E.
  - destruct (split_on 46%N t) as [|p ps] eqn:S.
    + now apply split_on_nonempty in S.
    + now exists [], p, ps.
  - destruct I as [->|I]; [now rewrite N.eqb_refl in E|].
    destruct (IH I) as (p0 & p1 & rest & ->).
    now exists (c :: p0), p1, rest.
Qed.

(** *** The matchers and the text *)

Lemma lit_some (R : Type) (p : str) (m : Re.M R) (s : str) :
  (exists r, m s = Some r) -> exists r, Re.m_lit p m (p ++ s) = Some r.
Proof. intros H. now rewrite m_lit_app. Qed.

(** A greedy run gives back as much as its continuation needs. *)
Lemma star_some (R : Type) (cls : char -> bool) (k : str -> Re.M R)
      (w s : str) :
  Forall (fun c => cls c = true) w ->
  (exists r, k w s = Some r) ->
  exists r, Re.m_star cls k (w ++ s) = Some r.
Proof.
  intros F. revert k. induction F as [|x w Hx F IH]; intros k [r H].
  - cbn [app]. destruct s as [|c t]; [now exists r|].
    cbn [Re.m_star]. destruct (cls c); [|now exists r].
    destruct (Re.m_star cls (fun w => k (c :: w)) t) as [r'|];
      [now exists r' | now exists r].
  - cbn [app Re.m_star]. rewrite Hx.
    destruct (IH (fun w0 => k (x :: w0)) (ex_intro _ r H)) as [r' ->].
    now exists r'.
Qed.

Lemma not_quote_run (v : str) :
  Forall (fun c => ExcelToJs.not_quote c = true) v <-> ~ In 39%N v.
Proof.
  unfold ExcelToJs.not_quote. split.
  - intros F I. rewrite Forall_forall in F. specialize (F _ I).
    discriminate.
  - intros N. apply Forall_forall. intros c I.
    apply negb_true_iff, N.eqb_neq. intros ->. now apply N.
Qed.

Lemma value_tail_iff (s : str) :
  (exists r, value_tail s = Some r) <-> value_follows s.
Proof.
  unfold value_tail, value_follows, blank. split.
  - intros [r H].
    apply m_lit_inv in H. destruct H as (s1 & -> & H).
    apply m_star_inv in H. destruct H as (w & s2 & -> & Fw & H).
    apply m_lit_inv in H. destruct H as (s3 & -> & H).
    apply m_star_inv in H. destruct H as (v & s4 & -> & Fv & H).
    apply m_lit_inv in H. destruct H as (rest & -> & _).
    exists w, v, rest. split; [reflexivity|]. split; [exact Fw|].
    now apply not_quote_run.
  - intros (w & v & rest & -> & Fw & Nv).
    change (58%N :: w ++ 39%N :: v ++ 39%N :: rest)
      with (lit ":" ++ w ++ lit "'" ++ v ++ lit "'" ++ rest).
    apply lit_some. apply star_some; [exact Fw|].
    apply lit_some. apply star_some; [now apply not_quote_run|].
    apply lit_some. now exists tt.
Qed.

Lemma one_level_iff (g k s : str) :
  (exists r, one_level g k s = Some r)
  <-> exists w1 w2 tail,
        s = g ++ 58%N :: w1 ++ 123%N :: w2 ++ k ++ tail
        /\ blank w1 /\ blank w2 /\ value_follows tail.
Proof.
  unfold one_level, blank. split.
  - intros [r H].
    apply m_lit_inv in H. destruct H as (s1 & -> & H).
    apply m_lit_inv in H. destruct H as (s2 & -> & H).
    apply m_star_inv in H. destruct H as (w1 & s3 & -> & F1 & H).
    apply m_lit_inv in H. destruct H as (s4 & -> & H).
    apply m_star_inv in H. destruct H as (w2 & s5 & -> & F2 & H).
    apply m_lit_inv in H. destruct H as (tail & -> & H).
    exists w1, w2, tail. split; [reflexivity|]. split; [exact F1|].
    split; [exact F2|]. apply value_tail_iff. now exists r.
  - intros (w1 & w2 & tail & -> & F1 & F2 & V).
    change (g ++ 58%N :: w1 ++ 123%N :: w2 ++ k ++ tail)
      with (g ++ lit ":" ++ w1 ++ lit "{" ++ w2 ++ k ++ tail).
    apply lit_some. apply lit_some. apply star_some; [exact F1|].
    apply lit_some. apply star_some; [exact F2|].
    apply lit_some. now apply value_tail_iff.
Qed.

Lemma two_level_iff (g part0 part1 s : str) :
  (exists r, two_level g part0 part1 s = Some r)
  <-> exists w1 w2 w3 w4 tail,
        s = g ++ 58%N :: w1 ++ 123%N :: w2 ++ part0
              ++ 58%N :: w3 ++ 123%N :: w4 ++ part1 ++ tail
        /\ blank w1 /\ blank w2 /\ blank w3 /\ blank w4
        /\ value_follows tail.
Proof.
  unfold two_level, blank. split.
  - intros [r H].
    apply m_lit_inv in H. destruct H as (s1 & -> & H).
    apply m_lit_inv in H. destruct H as (s2 & -> & H).
    apply m_star_inv in H. destruct H as (w1 & s3 & -> & F1 & H).
    apply m_lit_inv in H. destruct H as (s4 & -> & H).
    apply m_star_inv in H. destruct H as (w2 & s5 & -> & F2 & H).
    apply m_lit_inv in H. destruct H as (s6 & -> & H).
    apply m_lit_inv in H. destruct H as (s7 & -> & H).
    apply m_star_inv in H. destruct H as (w3 & s8 & -> & F3 & H).
    apply m_lit_inv in H. destruct H as (s9 & -> & H).
    apply m_star_inv in H. destruct H as (w4 & s10 & -> & F4 & H).
    apply m_lit_inv in H. destruct H as (tail & -> & H).
    exists w1, w2, w3, w4, tail. split; [reflexivity|].
    repeat (split; [assumption|]). apply value_tail_iff. now exists r.
  - intros (w1 & w2 & w3 & w4 & tail & -> & F1 & F2 & F3 & F4 & V).
    change (g ++ 58%N :: w1 ++ 123%N :: w2 ++ part0
              ++ 58%N :: w3 ++ 123%N :: w4 ++ part1 ++ tail)
      with (g ++ lit ":" ++ w1 ++ lit "{" ++ w2 ++ part0
              ++ lit ":" ++ w3 ++ lit "{" ++ w4 ++ part1 ++ tail).
    apply lit_some. apply lit_some. apply star_some; [exact F1|].
    apply lit_some. apply star_some; [exact F2|].
    apply lit_some. apply lit_some. apply star_some; [exact F3|].
    apply lit_some. apply star_some; [exact F4|].
    apply lit_some. now apply value_tail_iff.
Qed.

(** [re.search] finds a match exactly when the matcher succeeds
    somewhere in the text. *)
Lemma found_iff (m : Re.M unit) (text : str) :
  found (Re.search m text) = true
  <-> exists pre s, text = pre ++ s /\ exists r, m s = Some r.
Proof.
  unfold found. split.
  - destruct (Re.search m text) as [r|] eqn:S; [|discriminate].
    intros _. apply search_inv in S. destruct S as (pre & s & E & M).
    exists pre, s. split; [exact E|]. now exists r.
  - intros (pre & s & -> & r & M).
    destruct (search_exists unit m pre s r M) as [r' ->]. reflexivity.
Qed.

Lemma one_level_found (g k text : str) :
  found (Re.search (one_level g k) text) = true <-> one_level_in g k text.
Proof.
  rewrite found_iff. unfold one_level_in. split.
  - intros (pre & s & -> & M). apply one_level_iff in M.
    destruct M as (w1 & w2 & tail & -> & R). now exists pre, w1, w2, tail.
  - intros (pre & w1 & w2 & tail & -> & R).
    exists pre, (g ++ 58%N :: w1 ++ 123%N :: w2 ++ k ++ tail).
    split; [reflexivity|]. apply one_level_iff. now exists w1, w2, tail.
Qed.

Lemma two_level_found (g part0 part1 text : str) :
  found (Re.search (two_level g part0 part1) text) = true
  <-> two_level_in g part0 part1 text.
Proof.
  rewrite found_iff. unfold two_level_in. split.
  - intros (pre & s & -> & M). apply two_level_iff in M.
    destruct M as (w1 & w2 & w3 & w4 & tail & -> & R).
    now exists pre, w1, w2, w3, w4, tail.
  - intros (pre & w1 & w2 & w3 & w4 & tail & -> & R).
    eexists pre, _. split; [reflexivity|]. apply two_level_iff.
    now exists w1, w2, w3, w4, tail.
Qed.

(** *** One cell *)

(** For names taken literally the search never raises, and it finds the
    pattern exactly when the text holds it. *)
Lemma pattern_found_plain (r : row) (content : str) :
  names_plain r = true ->
  exists b,
    pattern_found (row_class r) (row_key r) content = Some b
    /\ (b = true <-> key_in (row_class r) (row_key r) content).
Proof.
  unfold names_plain, pattern_found, key_in. intros H.
  apply andb_true_iff in H. destruct H as [Hc Hk].
  destruct (contains (lit ".") (row_key r)) eqn:D.
  - apply contains_dot in D. destruct (split_dot _ D)
      as (part0 & part1 & rest & S).
    rewrite S in *. cbn [firstn forallb] in Hk.
    apply andb_true_iff in Hk. destruct Hk as [H0 Hk].
    apply andb_true_iff in Hk. destruct Hk as [H1 _].
    rewrite Hc, H0, H1. cbn [andb]. eexists. split; [reflexivity|].
    apply two_level_found.
  - assert (N : ~ In 46%N (row_key r)).
    { intros I. apply contains_dot in I. congruence. }
    rewrite (split_no_dot _ N) in *. cbn [firstn forallb] in Hk.
    apply andb_true_iff in Hk. destruct Hk as [H0 _].
    rewrite Hc, H0. cbn [andb]. eexists. split; [reflexivity|].
    apply one_level_found.
Qed.

Lemma cell_reported (fs : files) (r : row) (locale : str) :
  names_plain r = true ->
  reported fs r locale (Reconcile.cell_updates fs r locale).
Proof.
  intros H. unfold Reconcile.cell_updates, Reconcile.file_of,
    Reconcile.update_of.
  rewrite file_name_eq.
  destruct (row_get r locale) as [value|] eqn:G;
    [|now apply no_value].
  destruct (fs (file_name locale)) as [content|] eqn:F;
    [|now apply file_absent].
  destruct (pattern_found_plain r content H) as (b & -> & B).
  destruct b.
  - eapply pattern_present; [exact G | exact F | now apply B].
  - eapply pattern_absent; [exact G | exact F |].
    intros K. apply B in K. discriminate.
Qed.

(** *** The scan *)

Lemma table_updates_cells (df : frame) (fs : files) :
  Reconcile.table_updates df fs
  = concat (List.map (fun cell : row * str =>
                        Reconcile.cell_updates fs (fst cell) (snd cell))
                     (cells df)).
Proof.
  unfold Reconcile.table_updates, cells.
  induction (rows df) as [|r rs IH]; [reflexivity|].
  cbn [flat_map]. rewrite map_app, concat_app, <- IH. f_equal.
  rewrite map_map. cbn [fst snd]. now rewrite flat_map_concat_map.
Qed.

Lemma cells_in (df : frame) (r : row) (locale : str) :
  In (r, locale) (cells df) -> In r (rows df).
Proof.
  unfold cells. intros I. apply in_flat_map in I.
  destruct I as (r' & Ir & I). apply in_map_iff in I.
  destruct I as (l & E & _). now injection E as <- _.
Qed.

(** A search that raises stops the scan. *)
Lemma scan_row_raises (fs : files) (r : row) (cols : list str)
      (locale : str) (value : cell) (content : str) :
  In locale cols -> row_get r locale = Some value ->
  fs (file_name locale) = Some content ->
  pattern_found (row_class r) (row_key r) content = None ->
  forall st, fold_left (scan_cell fs r) cols st = Raise tt.
Proof.
  intros I G F N. induction cols as [|c cols IH]; [destruct I|].
  intros [ups|[]]; [|apply scan_cell_raise].
  cbn [fold_left]. destruct I as [->|I]; [|now apply IH].
  unfold scan_cell at 2. rewrite G, file_name_eq, F, N.
  apply scan_cell_raise.
Qed.

Lemma scan_rows_raises (fs : files) (cols : list str) (rs : list row)
      (r : row) (locale : str) (value : cell) (content : str) :
  In r rs -> In locale cols -> row_get r locale = Some value ->
  fs (file_name locale) = Some content ->
  pattern_found (row_class r) (row_key r) content = None ->
  forall st,
    fold_left (fun updates r => fold_left (scan_cell fs r) cols updates)
              rs st
    = Raise tt.
Proof.
  intros Ir I G F N. induction rs as [|r' rs IH]; [destruct Ir|].
  intros st. cbn [fold_left]. destruct Ir as [->|Ir]; [|now apply IH].
  rewrite (scan_row_raises fs r cols locale value content I G F N).
  apply scan_rows_raise.
Qed.

(** C7 (amended).  Take a table whose class names and key parts hold no
    metacharacter of regular expressions.  Then [scan_and_update] ends
    without error and has recorded, cell by cell in the order of the
    table, what the description says: nothing for a cell without value;
    one pending update tagged [new] when the file of the locale (its
    name in lower case with hyphens for underscores, and [.js]) is
    absent; one tagged [update] when the file is there and its text does
    not hold the pattern of the key (one level, or two levels for the
    first two parts of a dotted key) with any value; nothing when the
    text holds it.  For any table, a search that raises on a cell with a
    value stops the scan with that error. *)
Theorem scan_and_update_pending (df : frame) (fs : files) :
  (forallb names_plain (rows df) = true ->
   exists parts,
     scan_and_update df fs = Ok (concat parts)
     /\ Forall2 (fun (cell : row * str) ups =>
                   reported fs (fst cell) (snd cell) ups)
                (cells df) parts)
  /\ (forall r locale value content,
         In r (rows df) -> In locale (locale_columns df) ->
         row_get r locale = Some value ->
         fs (file_name locale) = Some content ->
         pattern_found (row_class r) (row_key r) content = None ->
         scan_and_update df fs = Raise tt).
Proof.
  split.
  - intros H. rewrite forallb_forall in H.
    exists (List.map (fun cell : row * str =>
                        Reconcile.cell_updates fs (fst cell) (snd cell))
                     (cells df)).
    split.
    + rewrite <- table_updates_cells.
      apply (proj1 (scan_table_updates fs df)).
      intros r locale value content Ir Il G F.
      destruct (pattern_found_plain r content (H r Ir)) as (b & -> & _).
      discriminate.
    + assert (A : forall cell, In cell (cells df) ->
                               names_plain (fst cell) = true).
      { intros [r l] I. apply H. now apply cells_in in I. }
      induction (cells df) as [|cell cs IH]; [constructor|].
      cbn [List.map]. constructor.
      * apply cell_reported. apply A. now left.
      * apply IH. intros c I. apply A. now right.
  - intros r locale value content Ir Il G F N. unfold scan_and_update.
    now apply (scan_rows_raises fs (locale_columns df) (rows df) r locale
                 value content).
Qed.
End ScanHeuristic.

(** Witness of C7, scenario 5: [text.title] is found in [en-us.js],
    [text.more] is not the first key of its class there and is reported as
    an update, [tip.a.b] is found by the two-level pattern, and the one
    value of [zh-cn], whose file is absent, is new. *)
Lemma scan_and_update_pending_witness :
  scan_and_update (P := latin1) Reconcile.sheet Reconcile.disk
  = Ok [{| p_class := lit "text"; p_key := lit "title";
           p_locale := Reconcile.zh_cn; p_value := CStr (lit "H");
           p_action := New |};
        {| p_class := lit "text"; p_key := lit "more";
           p_locale := Examples.en_us; p_value := CStr (lit "More");
           p_action := Update |}]
  /\ exists parts,
       concat parts
       = [{| p_class := lit "text"; p_key := lit "title";
             p_locale := Reconcile.zh_cn; p_value := CStr (lit "H");
             p_action := New |};
          {| p_class := lit "text"; p_key := lit "more";
             p_locale := Examples.en_us; p_value := CStr (lit "More");
             p_action := Update |}]
       /\ Forall2 (fun (cell : row * str) ups =>
                     Heuristic.reported (P := latin1) Reconcile.disk
                                        (fst cell) (snd cell) ups)
                  (Heuristic.cells Reconcile.sheet) parts.
Proof.
  split; [reflexivity|].
  destruct (proj1 (scan_and_update_pending (P := latin1) Reconcile.sheet
                                           Reconcile.disk) eq_refl)
    as (parts & E & F).
  exists parts. split; [|exact F].
  assert (S : scan_and_update (P := latin1) Reconcile.sheet Reconcile.disk
              = Ok [{| p_class := lit "text"; p_key := lit "title";
                       p_locale := Reconcile.zh_cn;
                       p_value := CStr (lit "H"); p_action := New |};
                    {| p_class := lit "text"; p_key := lit "more";
                       p_locale := Examples.en_us;
                       p_value := CStr (lit "More");
                       p_action := Update |}]) by reflexivity.
  rewrite E in S. now injection S.
Defined.

(** C7 as stated fails for a key that is no regular expression: the key
    [price(usd] of a cell with a value, whose file exists, goes into the
    pattern as it is; the engine refuses the pattern, whose parenthesis
    is never closed, and the scan stops with the error instead of
    recording an update. *)
Lemma scan_and_update_refused_pattern :
  forallb Heuristic.names_plain (rows Heuristic.priced) = false
  /\ row_get (hd (Examples.row1 "" "" "") (rows Heuristic.priced))
             Examples.en_us
     = Some (CStr (lit "9"))
  /\ Reconcile.disk (Heuristic.file_name (P := latin1) Examples.en_us)
     <> None
  /\ scan_and_update (P := latin1) Heuristic.priced Reconcile.disk
     = Raise tt.
Proof.
  split; [reflexivity|]. split; [reflexivity|].
  split; [vm_compute; discriminate | reflexivity].
Qed.
